(** * Verification of the molrender3d mesh exporters

    A shallow embedding of the exporter core of molrender3d
    ([usdz.ts]: USD scene tree, LZ4 block compressor, USD integer coding,
    little-endian writers, USDZ container, Crate writer; [mesh-exporter.ts]:
    OBJ/MTL, GLB and USDZ exporters), followed by the properties proved
    about it.

    Conventions of the embedding.
    - A JavaScript number that the code uses as an integer is a [Z]; the
      32-bit conversions of the bit operators, of [Math.imul] and of the
      typed-array and [DataView] stores are written out ([toInt32],
      [toUint32], [u8]).
    - A [Uint8Array] of which the code uses the elements only is a
      [list byte]; reading outside it gives [None] ([undefined]), an indexed
      store outside it is dropped, [TypedArray.prototype.set] and the view
      constructors raise a [RangeError] when their argument does not fit.
      Where the code reaches for the [ArrayBuffer] under an array it was
      given ([lz4Compress]), the array is a [Uint8Array]: its elements
      with the bytes of the buffer on either side of them.
    - The sums and products of numbers that the code uses as keys are
      rounded as binary64 rounds them ([fadd], [fmul]).
    - A JavaScript number that is a genuine floating-point value (mesh
      coordinates, color channels) is a [float] (binary64).
    - A thrown exception is the [Err] case of [result]. *)

From Stdlib Require Import ZArith List String Ascii Floats Lia Bool.
From Stdlib Require Import DecimalString.
From Stdlib.Strings Require Import Byte.
From stdpp Require Import gmap strings list.

Open Scope Z_scope.

Set Warnings "-register-all".

(** ** Exceptions *)

Inductive result (A : Type) : Type :=
| Ok (a : A)
| Err (msg : string).
Arguments Ok {A} a.
Arguments Err {A} msg.

#[global] Instance result_ret : MRet result := fun A a => Ok a.
#[global] Instance result_bind : MBind result := fun A B f m =>
  match m with
  | Ok a => f a
  | Err e => Err e
  end.
#[global] Instance result_fmap : FMap result := fun A B f m =>
  match m with
  | Ok a => Ok (f a)
  | Err e => Err e
  end.

Definition isOk {A} (r : result A) : bool :=
  match r with Ok _ => true | Err _ => false end.

(** ** JavaScript numbers, bytes and typed arrays *)

#[global] Instance byte_eq_decision : EqDecision byte := Byte.byte_eq_dec.

Module JS.

(** [ToInt32] and [ToUint32] of an integral number. *)
Definition toInt32 (z : Z) : Z := (z + 2 ^ 31) mod 2 ^ 32 - 2 ^ 31.
Definition toUint32 (z : Z) : Z := z mod 2 ^ 32.

(** The bit operators work on 32-bit integers and return an int32. *)
Definition or (a b : Z) : Z := toInt32 (Z.lor (toInt32 a) (toInt32 b)).
Definition and (a b : Z) : Z := toInt32 (Z.land (toInt32 a) (toInt32 b)).
Definition shl (a n : Z) : Z := toInt32 (Z.shiftl (toInt32 a) (n mod 32)).
Definition sar (a n : Z) : Z := Z.shiftr (toInt32 a) (n mod 32).
Definition imul (a b : Z) : Z := toInt32 (toInt32 a * toInt32 b).

(** The store conversion of a [Uint8Array] element: the value modulo 256. *)
Definition u8 (z : Z) : byte :=
  match Byte.of_N (Z.to_N (z mod 256)) with
  | Some b => b
  | None => x00
  end.
Definition byteZ (b : byte) : Z := Z.of_N (Byte.to_N b).

(** [buf[i]]: [None] stands for [undefined]. *)
Definition get {A} (buf : list A) (i : Z) : option A :=
  if i <? 0 then None else buf !! Z.to_nat i.

(** An element read used as an operand of a bit operator:
    [undefined] converts to 0. *)
Definition getInt (buf : list byte) (i : Z) : Z :=
  match get buf i with
  | Some b => byteZ b
  | None => 0
  end.

(** [buf[i] = v] on a [Uint8Array]: dropped outside the array. *)
Definition put (buf : list byte) (i : Z) (v : Z) : list byte :=
  if i <? 0 then buf else <[Z.to_nat i := u8 v]> buf.

(** Overwrite [buf] from offset [off] with [src], assuming it fits. *)
Definition blit (buf src : list byte) (off : nat) : list byte :=
  take off buf ++ src ++ drop (off + length src) buf.

(** [buf.set(src, off)]: a [RangeError] when [src] does not fit. *)
Definition set (buf src : list byte) (off : Z) : result (list byte) :=
  if (off <? 0) || (Z.of_nat (length buf) <? off + Z.of_nat (length src))
  then Err "RangeError"
  else Ok (blit buf src (Z.to_nat off)).

(** [new Uint8Array(n)]. *)
Definition zeros (n : Z) : list byte := repeat x00 (Z.to_nat n).

(** [new Uint8Array(buf.buffer, 0, n)] for a [buf] that covers its
    buffer: a [RangeError] when [n] exceeds the buffer. *)
Definition view0 (buf : list byte) (n : Z) : result (list byte) :=
  if (n <? 0) || (Z.of_nat (length buf) <? n)
  then Err "RangeError"
  else Ok (take (Z.to_nat n) buf).

(** [new Uint8Array(buf.buffer, off, n)], likewise. *)
Definition subview (buf : list byte) (off n : Z) : result (list byte) :=
  if (off <? 0) || (n <? 0) || (Z.of_nat (length buf) <? off + n)
  then Err "RangeError"
  else Ok (take (Z.to_nat n) (drop (Z.to_nat off) buf)).

(** A [Uint8Array] as a view of an [ArrayBuffer]: [bytes] are the
    elements of the array ([src[i]], [src.length]), [before] and [after]
    the bytes of the buffer that lie outside the view, so that
    [src.buffer] is all three and [src.byteOffset] the length of the
    first. *)
Record Uint8Array := {
  before : list byte;
  bytes : list byte;
  after : list byte
}.

Definition buffer (a : Uint8Array) : list byte := before a ++ bytes a ++ after a.
Definition byteOffset (a : Uint8Array) : Z := Z.of_nat (length (before a)).

(** An array that covers its buffer, as [new Uint8Array(n)] and
    [new Uint8Array(buf.buffer)] make them. *)
Definition whole (bs : list byte) : Uint8Array :=
  {| before := []; bytes := bs; after := [] |}.

(** The integer nearest to [z] that binary64 holds: [z] itself up to
    [2 ^ 53], and beyond that [z] rounded to 53 significant bits, a tie
    going to the even significand. *)
Definition round53 (z : Z) : Z :=
  let a := Z.abs z in
  if a <=? 2 ^ 53 then z
  else
    let e := Z.log2 a - 52 in
    let q := a / 2 ^ e in
    let r := a mod 2 ^ e in
    let half := 2 ^ (e - 1) in
    let q := if (half <? r) || ((r =? half) && Z.odd q) then q + 1 else q in
    Z.sgn z * (q * 2 ^ e).

(** [a + b] and [a * b] on numbers that hold integers (no overflow to
    an infinity: the numbers stay far below [2 ^ 1024]). *)
Definition fadd (a b : Z) : Z := round53 (a + b).
Definition fmul (a b : Z) : Z := round53 (a * b).

(** Little-endian bytes of the low [8 * n] bits of [v]: what
    [DataView.setUint8/16/32] and [setInt8/16/32] store (the signed and
    unsigned stores write the same bytes). *)
Fixpoint le (n : nat) (v : Z) : list byte :=
  match n with
  | O => []
  | S n' => u8 v :: le n' (v / 256)
  end.

(** The unsigned and signed numbers a little-endian byte string holds. *)
Fixpoint unle (bs : list byte) : Z :=
  match bs with
  | [] => 0
  | b :: bs' => byteZ b + 256 * unle bs'
  end.
Definition unle_signed (bs : list byte) : Z :=
  let w := 2 ^ (8 * Z.of_nat (length bs)) in
  let u := unle bs in
  if u <? w / 2 then u else u - w.

(** [dataView.setXxx(p, v, true)] of [n] bytes on a view over [buf]:
    a [RangeError] outside the view. *)
Definition setLE (buf : list byte) (p : Z) (n : nat) (v : Z) : result (list byte) :=
  set buf (le n v) p.

(** The bytes of a string whose characters are all below 256
    ([buffer[i] = s.charCodeAt(i)]). *)
Definition charCodes (s : string) : list byte := list_byte_of_string s.

End JS.

(** ** LZ4 block compressor ([usdz.ts], [lz4Compress]) *)

Module LZ4.
Import JS.

Definition MAX_BLOCK_INPUT_SIZE : Z := 0x7E000000.
Definition MAX_OFFSET : Z := 65535.
Definition MIN_MATCH : Z := 4.
Definition MFLIMIT : Z := 12.

(** [PositionTable]: an [Int32Array] of 4096 entries, all -1 at first. *)
Abbreviation PositionTable := (list Z).
Definition newPositionTable : PositionTable := repeat (-1) (Z.to_nat 0x1000).

Definition _hash (val : Z) : Z :=
  let val := and val 0xFFFFFFFF in
  and (imul val 2654435761) 0x0FFF.

(** The index is below 4096, inside the table: the [None] case of the
    read does not occur. *)
Definition getPosition (t : PositionTable) (val : Z) : Z :=
  match get t (_hash val) with
  | Some p => p
  | None => 0
  end.

Definition setPosition (t : PositionTable) (val pos : Z) : PositionTable :=
  <[Z.to_nat (_hash val) := toInt32 pos]> t.

Definition readLeUint32 (buf : list byte) (pos : Z) : Z :=
  or (or (or (getInt buf pos) (shl (getInt buf (pos + 1)) 8))
         (shl (getInt buf (pos + 2)) 16))
     (shl (getInt buf (pos + 3)) 24).

Definition writeLeUint16 (buf : list byte) (i val : Z) : list byte :=
  let buf := put buf i (and val 0xFF) in
  put buf (i + 1) (and (sar val 8) 0xFF).

(** The loop of [countMatch]; [n] bounds the number of iterations left
    ([back <= max] fails after at most [max - back + 1] of them). *)
Fixpoint countMatch_loop (n : nat) (buf : list byte) (front back max count : Z) : Z :=
  match n with
  | O => count
  | S n' =>
      if back <=? max then
        if bool_decide (get buf front = get buf back)
        then countMatch_loop n' buf (front + 1) (back + 1) max (count + 1)
        else count
      else count
  end.

Definition countMatch (buf : list byte) (front back max : Z) : Z :=
  countMatch_loop (Z.to_nat (max - back + 1)) buf front back max 0.

(** [while (remLen >= 255) { dst[dstPtr] = 255; dstPtr++; remLen -= 255; }]
    with [n] bounding the iterations left. *)
Fixpoint lenBytes_loop (n : nat) (dst : list byte) (dstPtr remLen : Z)
  : list byte * Z * Z :=
  match n with
  | O => (dst, dstPtr, remLen)
  | S n' =>
      if 255 <=? remLen
      then lenBytes_loop n' (put dst dstPtr 255) (dstPtr + 1) (remLen - 255)
      else (dst, dstPtr, remLen)
  end.

Definition lenBytes (dst : list byte) (dstPtr remLen : Z) : list byte * Z * Z :=
  lenBytes_loop (Z.to_nat (remLen / 255)) dst dstPtr remLen.

(** [copySequence]: writes one sequence into [dst] at [dstHead] and
    returns the array and the number of bytes written. *)
Definition copySequence (dst : list byte) (dstHead : Z) (literal : list byte)
    (matchOffset matchLen : Z) : result (list byte * Z) :=
  let litLen := Z.of_nat (length literal) in
  let dstPtr := dstHead in
  let originalDstPtr := dstPtr in
  let dstPtr := dstPtr + 1 in
  let '(dst, dstPtr) :=
    if 15 <=? litLen then
      let dst := put dst originalDstPtr (shl 15 4) in
      let remLen := litLen - 15 in
      let '(dst, dstPtr, remLen) := lenBytes dst dstPtr remLen in
      let dst := put dst dstPtr remLen in
      (dst, dstPtr + 1)
    else
      (put dst originalDstPtr (shl litLen 4), dstPtr) in
  dst ← set dst literal dstPtr;
  let dstPtr := dstPtr + litLen in
  let '(dst, dstPtr) :=
    if 0 <? matchLen then
      let dst := writeLeUint16 dst dstPtr matchOffset in
      let dstPtr := dstPtr + 2 in
      let matchLen := matchLen - MIN_MATCH in
      if 15 <=? matchLen then
        let dst := put dst originalDstPtr (or (getInt dst originalDstPtr) 15) in
        let matchLen := matchLen - 15 in
        let '(dst, dstPtr, matchLen) := lenBytes dst dstPtr matchLen in
        let dst := put dst dstPtr matchLen in
        (dst, dstPtr + 1)
      else
        (put dst originalDstPtr (or (getInt dst originalDstPtr) matchLen), dstPtr)
    else (dst, dstPtr) in
  Ok (dst, dstPtr - dstHead).

(** The state of the main loop of [lz4CompressDefault]. *)
Record state := State {
  posTable : PositionTable;
  srcPtr : Z;
  literalHead : Z;
  dst : list byte;
  dstPtr : Z
}.

(** The [while (srcPtr < MAX_INDEX)] loop; [n] bounds the iterations left
    (every iteration that does not leave the loop advances [srcPtr]). *)
Fixpoint compress_loop (n : nat) (src : Uint8Array) (MAX_INDEX : Z) (s : state)
  : result state :=
  match n with
  | O => Ok s
  | S n' =>
      if srcPtr s <? MAX_INDEX then
        let curValue := readLeUint32 (bytes src) (srcPtr s) in
        let matchPos := getPosition (posTable s) curValue in
        if negb (matchPos =? -1)
           && (curValue =? readLeUint32 (bytes src) matchPos)
           && (srcPtr s - matchPos <=? MAX_OFFSET)
        then
          let matchLength := countMatch (bytes src) matchPos (srcPtr s) MAX_INDEX in
          if matchLength <? MIN_MATCH then Ok s
          else
            literal ← subview (buffer src) (literalHead s) (srcPtr s - literalHead s);
            '(dst', n_written) ←
               copySequence (dst s) (dstPtr s) literal (srcPtr s - matchPos) matchLength;
            compress_loop n' src MAX_INDEX
              {| posTable := posTable s;
                 srcPtr := srcPtr s + matchLength;
                 literalHead := srcPtr s + matchLength;
                 dst := dst';
                 dstPtr := dstPtr s + n_written |}
        else
          compress_loop n' src MAX_INDEX
            {| posTable := setPosition (posTable s) curValue (srcPtr s);
               srcPtr := srcPtr s + 1;
               literalHead := literalHead s;
               dst := dst s;
               dstPtr := dstPtr s |}
      else Ok s
  end.

(** The literals are taken from [src.buffer] at [literalHead], an
    offset into [src]: the code does not add [src.byteOffset]. *)
Definition lz4CompressDefault (src : Uint8Array) : result (list byte) :=
  let srcLen := Z.of_nat (length (bytes src)) in
  let worstCaseBlockLength := srcLen + srcLen / 255 + 16 in
  let dst := zeros worstCaseBlockLength in
  let MAX_INDEX := srcLen - MFLIMIT in
  s ← compress_loop (length (bytes src)) src MAX_INDEX
        {| posTable := newPositionTable; srcPtr := 0; literalHead := 0;
           dst := dst; dstPtr := 0 |};
  literal ← subview (buffer src) (literalHead s) (srcLen - literalHead s);
  '(dst, n_written) ← copySequence (LZ4.dst s) (dstPtr s) literal 0 0;
  view0 dst (dstPtr s + n_written).

Definition lz4Compress (src : Uint8Array) : result (list byte) :=
  let inputSize := Z.of_nat (length (bytes src)) in
  if inputSize =? 0 then Ok []
  else if MAX_BLOCK_INPUT_SIZE <? inputSize
  then Err "Buffer too large for LZ4 compression"
  else
    tmp ← lz4CompressDefault src;
    let dst := zeros (Z.of_nat (length tmp) + 1) in
    set dst tmp 1.

(** *** Reference decoder of the LZ4 block format

    Not part of the repository: the decoder the round-trip property is
    stated against, written after the block format. A block is a row
    of sequences: a token, the rest of the literal length, the
    literals, a little-endian offset and the rest of the match length.
    The last sequence stops after its literals, so a block is never
    empty (no data is the one byte 0); a match has at least 4 bytes,
    and its offset is never 0 and never reaches before the output; and
    in a block with a match the last 5 bytes of the data are literals
    and the last match starts at least 12 bytes before its end. A
    block that breaks one of these rules is refused. The numbers are
    those of the format, under names of their own, not the constants
    of the compressor above. *)

Definition FORMAT_MINMATCH : Z := 4.
Definition FORMAT_LASTLITERALS : Z := 5.
Definition FORMAT_MFLIMIT : Z := 12.

(** The length continuation bytes: added up until one is not 255. *)
Fixpoint readLen (inp : list byte) (acc : Z) : option (Z * list byte) :=
  match inp with
  | [] => None
  | b :: inp' =>
      if byteZ b =? 255 then readLen inp' (acc + 255)
      else Some (acc + byteZ b, inp')
  end.

Definition readLength (nibble : Z) (inp : list byte) : option (Z * list byte) :=
  if nibble =? 15 then readLen inp 15 else Some (nibble, inp).

(** Copy [n] bytes from [offset] bytes back, one at a time (the source
    may overlap the bytes being written). *)
Fixpoint copyMatch (n : nat) (out : list byte) (offset : nat) : option (list byte) :=
  match n with
  | O => Some out
  | S n' =>
      match out !! (length out - offset)%nat with
      | Some b => copyMatch n' (out ++ [b]) offset
      | None => None
      end
  end.

(** The rules on the end of a block; [lastMatch] is the place in the
    data where the last match started, if there was a match. *)
Definition endOK (lastMatch : option Z) (litLen dataLen : Z) : bool :=
  match lastMatch with
  | None => true
  | Some start =>
      (FORMAT_LASTLITERALS <=? litLen) && (start + FORMAT_MFLIMIT <=? dataLen)
  end.

Fixpoint decode_loop (n : nat) (inp out : list byte) (lastMatch : option Z)
  : option (list byte) :=
  match n with
  | O => None
  | S n' =>
      match inp with
      | [] => None
      | token :: inp =>
          '(litLen, inp) ← readLength (Z.shiftr (byteZ token) 4) inp;
          if Z.of_nat (length inp) <? litLen then None
          else
            let out := out ++ take (Z.to_nat litLen) inp in
            let inp := drop (Z.to_nat litLen) inp in
            match inp with
            | [] =>
                if endOK lastMatch litLen (Z.of_nat (length out))
                then Some out else None
            | [_] => None
            | lo :: hi :: inp =>
                let offset := byteZ lo + 256 * byteZ hi in
                if (offset =? 0) || (Z.of_nat (length out) <? offset) then None
                else
                  '(mlen, inp) ← readLength (Z.land (byteZ token) 15) inp;
                  out' ← copyMatch (Z.to_nat (mlen + FORMAT_MINMATCH)) out
                           (Z.to_nat offset);
                  decode_loop n' inp out' (Some (Z.of_nat (length out)))
            end
      end
  end.

Definition decodeBlock (inp : list byte) : option (list byte) :=
  decode_loop (S (length inp)) inp [] None.

(** *** The bytes of one sequence

    What [copySequence] writes, as a byte string: the token, the
    literal-length continuation, the literal, and for a match the
    offset and the match-length continuation. *)

Definition lenExt (n : Z) : list byte :=
  repeat xff (Z.to_nat (n / 255)) ++ [u8 (n mod 255)].

Definition lenTail (n : Z) : list byte :=
  if 15 <=? n then lenExt (n - 15) else [].

Definition seqBytes (literal : list byte) (matchOffset matchLen : Z) : list byte :=
  let litLen := Z.of_nat (length literal) in
  if 0 <? matchLen then
    u8 (16 * Z.min litLen 15 + Z.min (matchLen - MIN_MATCH) 15)
      :: lenTail litLen ++ literal ++ le 2 matchOffset
      ++ lenTail (matchLen - MIN_MATCH)
  else
    u8 (16 * Z.min litLen 15) :: lenTail litLen ++ literal.

(** *** Invariants of the main loop *)

(** Every entry of the position table is -1 or a position before
    [srcPtr]. *)
Definition tableOK (t : PositionTable) (srcPtr : Z) : Prop :=
  Z.of_nat (length t) = 0x1000 /\ Forall (fun p => p = -1 \/ 0 <= p < srcPtr) t.

(** The decoder, started on [w] followed by anything, reaches the
    output [out], its last match at [lastMatch], with that remainder
    left to decode. *)
Definition decodesTo (w out : list byte) (lastMatch : option Z) : Prop :=
  forall (rest : list byte) (m : nat) (r : list byte),
    decode_loop m rest out lastMatch = Some r ->
    exists m', decode_loop m' (w ++ rest) [] None = Some r.

(** After a match there is room for the end of the block. *)
Definition roomLeft (src : Uint8Array) (s : state) (lastMatch : option Z) : Prop :=
  match lastMatch with
  | None => True
  | Some start =>
      start + FORMAT_MFLIMIT <= Z.of_nat (length (bytes src))
      /\ literalHead s + FORMAT_LASTLITERALS <= Z.of_nat (length (bytes src))
  end.

(** [w] is what has been written to [dst0] so far: it is not much
    longer than the input before [literalHead] and, for an array that
    starts where its buffer starts, it decodes to that input. *)
Record loopInv (src : Uint8Array) (dst0 : list byte) (s : state) (w : list byte)
  : Prop := {
  inv_order : 0 <= literalHead s <= srcPtr s
              /\ srcPtr s <= Z.of_nat (length (bytes src));
  inv_table : tableOK (posTable s) (srcPtr s);
  inv_dst : dst s = blit dst0 w 0;
  inv_dstPtr : dstPtr s = Z.of_nat (length w);
  inv_size : 255 * Z.of_nat (length w) <= 256 * literalHead s;
  inv_decode :
    before src = [] ->
    exists lastMatch,
      decodesTo w (take (Z.to_nat (literalHead s)) (bytes src)) lastMatch
      /\ roomLeft src s lastMatch
}.

End LZ4.

(** ** USD integer coding ([usdz.ts], [usdInt32Compress]) *)

Module IntCoding.
Import JS.

(** The [Map] of delta counts: its entries in insertion order, which is
    the order [forEach] visits them in. *)
Abbreviation Counts := (list (Z * Z)).

Fixpoint countsGet (counts : Counts) (key : Z) : option Z :=
  match counts with
  | [] => None
  | (k, c) :: counts' => if k =? key then Some c else countsGet counts' key
  end.

(** [counts.set(key, c)]: an existing entry keeps its place. *)
Fixpoint countsSet (counts : Counts) (key c : Z) : Counts :=
  match counts with
  | [] => [(key, c)]
  | (k, c0) :: counts' =>
      if k =? key then (k, c) :: counts'
      else (k, c0) :: countsSet counts' key c
  end.

(** The first loop: tally the deltas. *)
Fixpoint tally (values : list Z) (preValue : Z) (counts : Counts) : Counts :=
  match values with
  | [] => counts
  | curValue :: values' =>
      let value := curValue - preValue in
      let counts :=
        countsSet counts value (default 0 (countsGet counts value) + 1) in
      tally values' curValue counts
  end.

(** [counts.forEach]: the most frequent delta, the largest on a tie. *)
Definition pickCommon (counts : Counts) : Z * Z :=
  fold_left
    (fun '(commonValue, commonCount) '(value, count) =>
       if commonCount <? count then (value, count)
       else if (count =? commonCount) && (commonValue <? value)
            then (value, commonCount)
            else (commonValue, commonCount))
    counts (0, 0).

(** [data[Math.floor(i / 4)] |= code << ((i % 4) * 2)]. *)
Definition orCode (data : list byte) (i code : Z) : list byte :=
  put data (i / 4) (or (getInt data (i / 4)) (shl code ((i mod 4) * 2))).

(** The body of the coding loop for the delta [value] of element
    [i - 16]: its code and its bytes at [p]; returns the new [p]. *)
Definition codeValue (data : list byte) (i p value commonValue : Z)
  : result (list byte * Z) :=
  if value =? commonValue then Ok (data, p)
  else if (value <=? 0x7F) && (-0x80 <=? value) then
    let data := orCode data i 1 in
    data ← setLE data p 1 value; Ok (data, p + 1)
  else if (value <=? 0x7FFF) && (-0x8000 <=? value) then
    let data := orCode data i 2 in
    data ← setLE data p 2 value; Ok (data, p + 2)
  else
    let data := orCode data i 3 in
    data ← setLE data p 4 value; Ok (data, p + 4).

(** The coding loop, over the values from index [v] on. *)
Fixpoint code_loop (values : list Z) (v preValue commonValue : Z)
    (data : list byte) (p : Z) : result (list byte * Z) :=
  match values with
  | [] => Ok (data, p)
  | curValue :: values' =>
      let value := curValue - preValue in
      let i := v + 16 in
      '(data, p) ← codeValue data i p value commonValue;
      code_loop values' (v + 1) curValue commonValue data p
  end.

Definition usdInt32Compress (values : list Z) : result (list byte) :=
  let valueLen := Z.of_nat (length values) in
  if valueLen =? 0 then Ok []
  else
    let worstSize := 4 + (valueLen * 2 + 7) / 8 + valueLen * 4 in
    let data := zeros worstSize in
    let counts := tally values 0 [] in
    let '(commonValue, commonCount) := pickCommon counts in
    data ← setLE data 0 4 commonValue;
    let p := 4 + (valueLen * 2 + 7) / 8 in
    '(data, p) ← code_loop values 0 0 commonValue data p;
    view0 data p.

(** *** Reference decoder

    Not part of the repository: the decoder the round-trip property is
    stated against. It is given the number of elements, reads the common
    delta (a signed 32-bit little-endian number), the 2-bit code of
    element [v] at bit position [2 * (v + 16)] of the stream, and the
    deltas of 1, 2 or 4 bytes in order, and adds them up from 0 in 32-bit
    arithmetic. *)

Definition readCode (data : list byte) (v : Z) : Z :=
  let i := v + 16 in
  Z.land (Z.shiftr (getInt data (i / 4)) ((i mod 4) * 2)) 3.

Fixpoint readBytes (data : list byte) (p : Z) (n : nat) : option (list byte) :=
  match n with
  | O => Some []
  | S n' =>
      b ← get data p;
      bs ← readBytes data (p + 1) n';
      Some (b :: bs)
  end.

Definition readSigned (data : list byte) (p : Z) (n : nat) : option Z :=
  unle_signed <$> readBytes data p n.

(** The delta of element [v], read at [p], and the position after it. *)
Definition readDelta (data : list byte) (v p commonValue : Z) : option (Z * Z) :=
  let code := readCode data v in
  if code =? 0 then Some (commonValue, p)
  else if code =? 1 then d ← readSigned data p 1; Some (d, p + 1)
  else if code =? 2 then d ← readSigned data p 2; Some (d, p + 2)
  else d ← readSigned data p 4; Some (d, p + 4).

Fixpoint decode_loop (n : nat) (data : list byte) (v p preValue commonValue : Z)
  : option (list Z) :=
  match n with
  | O => Some []
  | S n' =>
      '(delta, p) ← readDelta data v p commonValue;
      let curValue := toInt32 (preValue + delta) in
      rest ← decode_loop n' data (v + 1) p curValue commonValue;
      Some (curValue :: rest)
  end.

Definition usdInt32Decompress (data : list byte) (n : nat) : option (list Z) :=
  match n with
  | O => Some []
  | _ =>
      commonValue ← readSigned data 0 4;
      decode_loop n data 0 (4 + (Z.of_nat n * 2 + 7) / 8) 0 commonValue
  end.

Definition isInt32 (z : Z) : Prop := - 2 ^ 31 <= z < 2 ^ 31.

(** *** Notions used in the proofs *)

(** The end of the code table of a stream of [n] elements. *)
Definition tableEnd (n : Z) : Z := 4 + (n * 2 + 7) / 8.

(** A 2-bit field of a byte of the code table. *)
Definition field (b : byte) (j : Z) : Z :=
  Z.land (Z.shiftr (byteZ b) (j * 2)) 3.
Definition setField (b : byte) (j code : Z) : byte :=
  u8 (or (byteZ b) (shl code (j * 2))).

Definition allBytes : list byte :=
  map (fun n => u8 (Z.of_nat n)) (seq 0 256).

End IntCoding.

(** ** Byte sink and little-endian writers ([usdz.ts]) *)

Module Writer.
Import JS.

(** [ByteArray]: the blocks written so far and their total length. *)
Record ByteArray := {
  pos : Z;
  buffers : list (list byte)
}.

Definition newByteArray : ByteArray := {| pos := 0; buffers := [] |}.

Definition tell (file : ByteArray) : Z := pos file.

Definition write (file : ByteArray) (buffer : list byte) : ByteArray :=
  {| pos := pos file + Z.of_nat (length buffer);
     buffers := buffers file ++ [buffer] |}.

Definition getBuffers (file : ByteArray) : list (list byte) := buffers file.

(** A [DataView] store of [n] bytes at [p] that lies inside the view. *)
Definition poke (bytes : list byte) (p : Z) (n : nat) (v : Z) : list byte :=
  blit bytes (le n v) (Z.to_nat p).

(** The bytes [writeInt] builds before it appends them to the file. *)
Definition writeInt_bytes (value size : Z) (signed : bool) : list byte :=
  let bytes := zeros size in
  if size =? 4 then
    (* setInt32 and setUint32 store the same four bytes *)
    if signed then poke bytes 0 4 value else poke bytes 0 4 value
  else if size =? 8 then
    if signed then
      let bytes := poke bytes 0 4 value in
      if value <? 0 then poke bytes 1 4 (-1) else bytes
    else poke bytes 0 4 value
  else if size =? 1 then poke bytes 0 1 value
  else if size =? 6 then
    let bytes := poke bytes 0 4 (and value 0xFFFFFFFF) in
    poke bytes 4 2 (and (value / 4294967296) 0xFFFF)
  else bytes.

Definition writeInt (file : ByteArray) (value size : Z) (signed : bool) : ByteArray :=
  write file (writeInt_bytes value size signed).

(** The 8 bytes of the two's-complement encoding of [v]: what a signed
    64-bit little-endian writer stores. *)
Definition int64le (v : Z) : list byte := le 8 v.

(** The IEEE-754 bit pattern of a float in the format with precision
    [prec] and exponent bound [emax] ([ebits] exponent bits), rounding
    to nearest even; the quiet NaN with zero payload stands for NaN. *)
Definition floatBits (prec emax ebits : Z) (x : float) : Z :=
  let mbits := prec - 1 in
  let signBit (s : bool) := if s then 2 ^ (ebits + mbits) else 0 in
  let finite (f : spec_float) :=
    match f with
    | S754_zero s => signBit s
    | S754_infinity s => signBit s + (2 ^ ebits - 1) * 2 ^ mbits
    | S754_nan => (2 ^ ebits - 1) * 2 ^ mbits + 2 ^ (mbits - 1)
    | S754_finite s m e =>
        if Z.pos m <? 2 ^ mbits then signBit s + Z.pos m
        else signBit s + (e + mbits + emax - 1) * 2 ^ mbits + (Z.pos m - 2 ^ mbits)
    end in
  match Prim2SF x with
  | S754_finite s m e => finite (binary_round prec emax s m e)
  | f => finite f
  end.

(** The bytes of a [Float32Array] and of a [Float64Array] (little-endian
    platform). *)
Definition float32Bytes (xs : list float) : list byte :=
  concat (map (fun x => le 4 (floatBits 24 128 8 x)) xs).
Definition float64Bytes (xs : list float) : list byte :=
  concat (map (fun x => le 8 (floatBits 53 1024 11 x)) xs).

Definition writeDouble (file : ByteArray) (value : float) : ByteArray :=
  write file (float64Bytes [value]).

(** The array [usdInt32Compress] returns starts where its buffer
    starts; the bytes of the buffer after it are not read by
    [lz4Compress] and are left out here. *)
Definition writeInt32Compressed (file : ByteArray) (data : list Z) : result ByteArray :=
  ints ← IntCoding.usdInt32Compress data;
  buffer ← LZ4.lz4Compress (whole ints);
  let file := writeInt file (Z.of_nat (length buffer)) 8 false in
  Ok (write file buffer).

End Writer.

(** ** USDZ container ([usdz.ts], [getUsdzFromUsdc]) *)

Module Usdz.
Import JS Writer.

(** ['tmp.usdc'] *)
Definition name : list Z := [0x74; 0x6d; 0x70; 0x2e; 0x75; 0x73; 0x64; 0x63].
Definition nameLength : Z := Z.of_nat (length name).

Definition extraSize : Z := 64 - ((34 + nameLength) mod 64).

(** The first block: local file header, file name and the head of the
    extra field; the padding bytes stay zero. *)
Definition localHeader (contentsSize : Z) : result (list byte) :=
  let pre := zeros (34 + nameLength + extraSize) in
  let p := 0 in
  (* Local Entry Signature *)
  pre ← set pre (map u8 [0x50; 0x4b; 0x03; 0x04]) p;
  let p := p + 4 in
  (* Version for Extract, Bits, Compression Method *)
  pre ← setLE pre p 2 20;
  let p := p + 2 in
  let p := p + 2 in
  let p := p + 2 in
  (* Mod Time/Date *)
  let p := p + 4 in
  (* CRC Hash *)
  let p := p + 4 in
  (* Size Uncompressed/Compressed *)
  pre ← setLE pre p 4 contentsSize;
  let p := p + 4 in
  pre ← setLE pre p 4 contentsSize;
  let p := p + 4 in
  (* Filename/Extra Length *)
  pre ← setLE pre p 2 nameLength;
  let p := p + 2 in
  pre ← setLE pre p 2 (extraSize + 4);
  let p := p + 2 in
  (* Filename *)
  pre ← set pre (map u8 name) p;
  let p := p + nameLength in
  (* Extra Header Id/Size *)
  pre ← setLE pre p 2 1;
  let p := p + 2 in
  setLE pre p 2 extraSize.

(** The second block: central directory and end of central directory. *)
Definition centralDirectory (contentsSize preLength : Z) : result (list byte) :=
  let post := zeros (46 + nameLength + 22) in
  let p := 0 in
  let cdOffset := preLength + contentsSize in
  (* Central Directory Signature *)
  post ← set post (map u8 [0x50; 0x4B; 0x01; 0x02]) p;
  let p := p + 4 in
  (* Version Made By *)
  post ← setLE post p 2 62;
  let p := p + 2 in
  (* Version For Extract *)
  post ← setLE post p 2 20;
  let p := p + 2 in
  (* Bits *)
  let p := p + 2 in
  (* Compression Method *)
  let p := p + 2 in
  (* Time/Date *)
  let p := p + 4 in
  (* CRC Hash *)
  let p := p + 4 in
  (* Size Compressed/Uncompressed *)
  post ← setLE post p 4 contentsSize;
  let p := p + 4 in
  post ← setLE post p 4 contentsSize;
  let p := p + 4 in
  (* Filename Length, Extra Field Length, Comment Length *)
  post ← setLE post p 2 nameLength;
  let p := p + 2 in
  let p := p + 2 in
  let p := p + 2 in
  (* Disk Number Start, Internal Attrs, External Attrs *)
  let p := p + 2 in
  let p := p + 2 in
  let p := p + 4 in
  (* Local Header Offset *)
  let p := p + 4 in
  (* Add the file name again *)
  post ← set post (map u8 name) p;
  let p := p + nameLength in
  (* Get Central Dir Length *)
  let cdLength := 46 + nameLength in
  (* End Central Directory Signature *)
  post ← set post (map u8 [0x50; 0x4B; 0x05; 0x06]) p;
  let p := p + 4 in
  (* Disk Number and Disk Number for Central Dir *)
  let p := p + 2 in
  let p := p + 2 in
  (* Num Central Dir Entries on Disk and Num Central Dir Entries *)
  post ← setLE post p 2 1;
  let p := p + 2 in
  post ← setLE post p 2 1;
  let p := p + 2 in
  (* Central Dir Length/Offset *)
  post ← setLE post p 4 cdLength;
  let p := p + 4 in
  setLE post p 4 cdOffset.

(** [for (const buffer of bufs) { dst.set(buffer, offset); offset += buffer.length; }] *)
Fixpoint setAll (dst : list byte) (bufs : list (list byte)) (offset : Z)
  : result (list byte) :=
  match bufs with
  | [] => Ok dst
  | buffer :: bufs' =>
      dst ← set dst buffer offset;
      setAll dst bufs' (offset + Z.of_nat (length buffer))
  end.

Definition contentsSizeOf (buffers : list (list byte)) : Z :=
  fold_left (fun contentsSize buffer => contentsSize + Z.of_nat (length buffer))
    buffers 0.

Definition getUsdzFromUsdc (usdc : ByteArray) : result (list byte) :=
  let buffers := getBuffers usdc in
  let contentsSize := contentsSizeOf buffers in
  pre ← localHeader contentsSize;
  post ← centralDirectory contentsSize (Z.of_nat (length pre));
  let usdz := zeros (Z.of_nat (length pre) + contentsSize + Z.of_nat (length post)) in
  setAll usdz ([pre] ++ buffers ++ [post]) 0.

(** The fields of the local file header of a ZIP archive that the
    claims name, read from the archive. *)
Definition recordedCompressedSize (usdz : list byte) : Z :=
  unle (take 4 (drop 18 usdz)).
Definition recordedUncompressedSize (usdz : list byte) : Z :=
  unle (take 4 (drop 22 usdz)).
Definition recordedNameLength (usdz : list byte) : Z :=
  unle (take 2 (drop 26 usdz)).
Definition recordedExtraLength (usdz : list byte) : Z :=
  unle (take 2 (drop 28 usdz)).
(** The payload of the first entry starts after the 30-byte fixed
    header, the name and the extra field. *)
Definition payloadOffset (usdz : list byte) : Z :=
  30 + recordedNameLength usdz + recordedExtraLength usdz.

End Usdz.

(** ** USD scene tree ([usdz.ts], [UsdPrim], [UsdAttribute], [UsdData]) *)

Module Usd.

(** [SpecifierType] and [SpecType], by their numbers. *)
Inductive SpecifierType := Def | Over | Class.
Definition specifierCode (s : SpecifierType) : Z :=
  match s with Def => 0 | Over => 1 | Class => 2 end.

Inductive SpecType :=
| SpecAttribute | SpecConnection | SpecExpression | SpecMapper | SpecMapperArg
| SpecPrim | SpecPseudoRoot | SpecRelationship | SpecRelationshipTarget
| SpecVariant | SpecVariantSet.
Definition specCode (s : SpecType) : Z :=
  match s with
  | SpecAttribute => 1 | SpecConnection => 2 | SpecExpression => 3
  | SpecMapper => 4 | SpecMapperArg => 5 | SpecPrim => 6
  | SpecPseudoRoot => 7 | SpecRelationship => 8
  | SpecRelationshipTarget => 9 | SpecVariant => 10 | SpecVariantSet => 11
  end.

(** [ValueType], by its numbers (crateDataTypes.h). *)
Inductive ValueType :=
| VT_Invalid | VT_bool | VT_uchar | VT_int | VT_uint | VT_int64 | VT_uint64
| VT_half | VT_float | VT_double | VT_string | VT_token | VT_asset
| VT_matrix2d | VT_matrix3d | VT_matrix4d | VT_quatd | VT_quatf | VT_quath
| VT_vec2d | VT_vec2f | VT_vec2h | VT_vec2i | VT_vec3d | VT_vec3f | VT_vec3h
| VT_vec3i | VT_vec4d | VT_vec4f | VT_vec4h | VT_vec4i | VT_Dictionary
| VT_TokenListOp | VT_stringListOp | VT_PathListOp | VT_ReferenceListOp
| VT_IntListOp | VT_Int64ListOp | VT_UIntListOp | VT_UInt64ListOp
| VT_PathVector | VT_TokenVector | VT_Specifier | VT_Permission
| VT_Variability | VT_VariantSelectionMap | VT_TimeSamples | VT_Payload
| VT_DoubleVector | VT_LayerOffsetVector | VT_stringVector | VT_ValueBlock
| VT_Value | VT_UnregisteredValue | VT_UnregisteredValueListOp
| VT_PayloadListOp.

Definition valueTypeCode (t : ValueType) : Z :=
  match t with
  | VT_Invalid => 0 | VT_bool => 1 | VT_uchar => 2 | VT_int => 3 | VT_uint => 4
  | VT_int64 => 5 | VT_uint64 => 6 | VT_half => 7 | VT_float => 8
  | VT_double => 9 | VT_string => 10 | VT_token => 11 | VT_asset => 12
  | VT_matrix2d => 13 | VT_matrix3d => 14 | VT_matrix4d => 15
  | VT_quatd => 16 | VT_quatf => 17 | VT_quath => 18 | VT_vec2d => 19
  | VT_vec2f => 20 | VT_vec2h => 21 | VT_vec2i => 22 | VT_vec3d => 23
  | VT_vec3f => 24 | VT_vec3h => 25 | VT_vec3i => 26 | VT_vec4d => 27
  | VT_vec4f => 28 | VT_vec4h => 29 | VT_vec4i => 30 | VT_Dictionary => 31
  | VT_TokenListOp => 32 | VT_stringListOp => 33 | VT_PathListOp => 34
  | VT_ReferenceListOp => 35 | VT_IntListOp => 36 | VT_Int64ListOp => 37
  | VT_UIntListOp => 38 | VT_UInt64ListOp => 39 | VT_PathVector => 40
  | VT_TokenVector => 41 | VT_Specifier => 42 | VT_Permission => 43
  | VT_Variability => 44 | VT_VariantSelectionMap => 45
  | VT_TimeSamples => 46 | VT_Payload => 47 | VT_DoubleVector => 48
  | VT_LayerOffsetVector => 49 | VT_stringVector => 50 | VT_ValueBlock => 51
  | VT_Value => 52 | VT_UnregisteredValue => 53
  | VT_UnregisteredValueListOp => 54 | VT_PayloadListOp => 55
  end.

(** The value of an attribute, by the cases the writer distinguishes
    (the source holds it in a field of type [any] and casts it after
    looking at [valueType] and [isArray]; the constructor fixes both).
    A connection holds another attribute and a relationship a prim: the
    objects themselves, here their identities. *)
Inductive UsdValue :=
| VNull (valueType : ValueType) (isArray : bool)
| VToken (s : string)
| VTokenArray (ss : list string)
| VSpecifier (spec : Z)
| VIntArray (xs : list Z)
| VFloat (x : float)
| VVec3fArray (xs : list float)
| VVec3f (xs : list float)
| VBool (b : bool)
| VVariability (b : bool)
| VDictionary (d : list (string * string))
| VUnsupported (valueType : ValueType)
| VConnection (target : nat)
| VRelationship (target : nat).

Definition valueTypeOf (v : UsdValue) : ValueType :=
  match v with
  | VNull t _ => t
  | VToken _ | VTokenArray _ => VT_token
  | VSpecifier _ => VT_Specifier
  | VIntArray _ => VT_int
  | VFloat _ => VT_float
  | VVec3fArray _ | VVec3f _ => VT_vec3f
  | VBool _ => VT_bool
  | VVariability _ => VT_Variability
  | VDictionary _ => VT_Dictionary
  | VUnsupported t => t
  | VConnection _ | VRelationship _ => VT_Invalid
  end.

(** A metadata object: its entries in the order [for ... in] visits
    them. The value under [inherits] is a prim (its identity); the
    other values are strings, numbers, booleans or string
    dictionaries. *)
Inductive MetaValue :=
| MString (s : string)
| MNumber (x : float)
| MBool (b : bool)
| MDictionary (d : list (string * string)).

Inductive MetaEntry :=
| MetaInherits (target : nat)
| MetaOther (name : string) (value : MetaValue).

(** [UsdAttribute]. [att_id] is the identity of the object; the mutable
    [pathIndex] is kept in the heap below. [att_parent] is the [parent]
    field, [None] for [null]: the prim [addAttribute] was last called
    on with the attribute. That prim holds the attribute in turn, so
    it is kept here by what is read through the field, the identities
    of the elements of its [attributes] array ([getPathJump] is the one
    reader, and the writer changes no such array). *)
Record UsdAttribute := {
  att_id : nat;
  att_name : string;
  att_value : UsdValue;
  att_frames : list (float * list float);
  att_qualifiers : list string;
  att_metadata : list (string * string);
  att_valueTypeStr : string;
  att_parent : option (list nat)
}.

Definition withParent (parent : option (list nat)) (a : UsdAttribute)
  : UsdAttribute :=
  {| att_id := att_id a; att_name := att_name a; att_value := att_value a;
     att_frames := att_frames a; att_qualifiers := att_qualifiers a;
     att_metadata := att_metadata a; att_valueTypeStr := att_valueTypeStr a;
     att_parent := parent |}.

(** The [attributes] array of a prim after [addAttribute] was called
    on it with each of [atts] in turn, and on no other prim with any of
    them afterwards: every one has the prim as its parent. *)
Definition own (atts : list UsdAttribute) : list UsdAttribute :=
  map (withParent (Some (map att_id atts))) atts.

Definition isConnection (a : UsdAttribute) : bool :=
  match att_value a with VConnection _ => true | _ => false end.

(** [UsdPrim]; the root ([UsdData]) is a prim too. [specifierType] is
    always [Def]. A prim is the parent of its children and of its
    attributes. *)
Inductive UsdPrim := Prim {
  prim_id : nat;
  name : string;
  classType : string;
  metadata : list MetaEntry;
  children : list UsdPrim;
  attributes : list UsdAttribute
}.

Definition specifierType (p : UsdPrim) : SpecifierType := Def.

(** The mutable [pathIndex] fields of the prims and of the attributes,
    by identity; a prim starts at 0 and an attribute at -1. *)
Record Heap := {
  primIndex : gmap nat Z;
  attIndex : gmap nat Z
}.
Definition emptyHeap : Heap := {| primIndex := ∅; attIndex := ∅ |}.

Definition primPathIndex (h : Heap) (id : nat) : Z := default 0 (primIndex h !! id).
Definition attPathIndex (h : Heap) (id : nat) : Z := default (-1) (attIndex h !! id).
Definition setPrimPathIndex (h : Heap) (id : nat) (i : Z) : Heap :=
  {| primIndex := <[id := i]> (primIndex h); attIndex := attIndex h |}.
Definition setAttPathIndex (h : Heap) (id : nat) (i : Z) : Heap :=
  {| primIndex := primIndex h; attIndex := <[id := i]> (attIndex h) |}.

(** [UsdPrim.updatePathIndices]: returns the next free index. *)
Fixpoint updatePathIndices (p : UsdPrim) (pathIndex2 : Z) (h : Heap) : Z * Heap :=
  let h := setPrimPathIndex h (prim_id p) pathIndex2 in
  let this_pathIndex := pathIndex2 in
  let pathIndex2 := pathIndex2 + 1 in
  let '(pathIndex2, h) :=
    (fix children_loop (cs : list UsdPrim) (pathIndex2 : Z) (h : Heap) : Z * Heap :=
       match cs with
       | [] => (pathIndex2, h)
       | child :: cs' =>
           let '(pathIndex2, h) := updatePathIndices child pathIndex2 h in
           children_loop cs' pathIndex2 h
       end) (children p) pathIndex2 h in
  fold_left
    (fun '(pathIndex2, h) att =>
       (pathIndex2 + 1, setAttPathIndex h (att_id att) this_pathIndex))
    (attributes p) (pathIndex2, h).

(** The loop over the children, as a function of its own. *)
Fixpoint updateChildren (cs : list UsdPrim) (pathIndex2 : Z) (h : Heap) : Z * Heap :=
  match cs with
  | [] => (pathIndex2, h)
  | child :: cs' =>
      let '(pathIndex2, h) := updatePathIndices child pathIndex2 h in
      updateChildren cs' pathIndex2 h
  end.

(** [UsdData.updatePathIndices]: the root keeps its index, and the
    returned 0 is never used. *)
Definition updatePathIndicesRoot (root : UsdPrim) (h : Heap) : Z * Heap :=
  let pathIndex := 1 in
  let '(pathIndex, h) := updateChildren (children root) pathIndex h in
  (0, h).

(** [UsdPrim.countItems]. *)
Fixpoint countItems (p : UsdPrim) : Z :=
  let count := Z.of_nat (length (attributes p)) + Z.of_nat (length (children p)) in
  (fix children_loop (cs : list UsdPrim) (count : Z) : Z :=
     match cs with
     | [] => count
     | child :: cs' => children_loop cs' (count + countItems child)
     end) (children p) count.

(** [UsdPrim.getPathJump]; [parent] is the [parent] field of the prim
    ([None] for [null]). *)
Definition primPathJump (p : UsdPrim) (parent : option UsdPrim) : Z :=
  let hasSibling :=
    match parent with
    | None => false
    | Some q =>
        negb (bool_decide (prim_id <$> last (children q) = Some (prim_id p)))
        || (0 <? Z.of_nat (length (attributes q)))
    end in
  let hasChild :=
    (0 <? Z.of_nat (length (children p))) || (0 <? Z.of_nat (length (attributes p))) in
  if hasSibling && hasChild then countItems p + 1
  else if hasSibling then 0
  else if hasChild then -1
  else -2.

(** [UsdAttribute.getPathJump]: it looks at the parent of the
    attribute itself, whichever prim the attribute was reached from. *)
Definition attPathJump (a : UsdAttribute) : Z :=
  match att_parent a with
  | Some attributes =>
      if bool_decide (last attributes = Some (att_id a)) then -2 else 0
  | None => 0
  end.

End Usd.

(** ** Crate writer ([usdz.ts], [CrateFile]) *)

Module Crate.
Import JS Writer Usd.

(** The state of a [CrateFile]. The buffer [tocStartBuffer] is written
    to the file as an object and stored to later: [tocAliases] lists
    the blocks of the file that are this object, so that the store
    shows in each of them. *)
Record CrateFile := {
  file : ByteArray;
  toc : list (string * Z * Z);
  tokenMap : gmap string Z;
  tokens : list string;
  strings : list Z;
  fields : list Z;
  reps : list Z;
  repsMap : gmap Z Z;
  fsets : list Z;
  paths : list (Z * Z * Z);
  specs : list (Z * Z * Z);
  writtenDataKeys : list (list Z);
  writtenDataValues : list Z;
  framesRef : Z;
  tocStartBuffer : list byte;
  tocAliases : list nat
}.

Definition newCrateFile : CrateFile := {|
  file := newByteArray; toc := []; tokenMap := ∅; tokens := [];
  strings := []; fields := []; reps := []; repsMap := ∅; fsets := [];
  paths := []; specs := []; writtenDataKeys := []; writtenDataValues := [];
  framesRef := -1; tocStartBuffer := zeros 8; tocAliases := []
|}.

(** Field updates. *)
Definition set_file (x : ByteArray) (cf : CrateFile) : CrateFile :=
  {| file := x; toc := toc cf; tokenMap := tokenMap cf; tokens := tokens cf;
     strings := strings cf; fields := fields cf; reps := reps cf; repsMap :=
     repsMap cf; fsets := fsets cf; paths := paths cf; specs := specs cf;
     writtenDataKeys := writtenDataKeys cf; writtenDataValues :=
     writtenDataValues cf; framesRef := framesRef cf; tocStartBuffer :=
     tocStartBuffer cf; tocAliases := tocAliases cf |}.

Definition set_toc (x : list (string * Z * Z)) (cf : CrateFile) : CrateFile :=
  {| file := file cf; toc := x; tokenMap := tokenMap cf; tokens := tokens cf;
     strings := strings cf; fields := fields cf; reps := reps cf; repsMap :=
     repsMap cf; fsets := fsets cf; paths := paths cf; specs := specs cf;
     writtenDataKeys := writtenDataKeys cf; writtenDataValues :=
     writtenDataValues cf; framesRef := framesRef cf; tocStartBuffer :=
     tocStartBuffer cf; tocAliases := tocAliases cf |}.

Definition set_tokenMap (x : gmap string Z) (cf : CrateFile) : CrateFile :=
  {| file := file cf; toc := toc cf; tokenMap := x; tokens := tokens cf;
     strings := strings cf; fields := fields cf; reps := reps cf; repsMap :=
     repsMap cf; fsets := fsets cf; paths := paths cf; specs := specs cf;
     writtenDataKeys := writtenDataKeys cf; writtenDataValues :=
     writtenDataValues cf; framesRef := framesRef cf; tocStartBuffer :=
     tocStartBuffer cf; tocAliases := tocAliases cf |}.

Definition set_tokens (x : list string) (cf : CrateFile) : CrateFile :=
  {| file := file cf; toc := toc cf; tokenMap := tokenMap cf; tokens := x;
     strings := strings cf; fields := fields cf; reps := reps cf; repsMap :=
     repsMap cf; fsets := fsets cf; paths := paths cf; specs := specs cf;
     writtenDataKeys := writtenDataKeys cf; writtenDataValues :=
     writtenDataValues cf; framesRef := framesRef cf; tocStartBuffer :=
     tocStartBuffer cf; tocAliases := tocAliases cf |}.

Definition set_strings (x : list Z) (cf : CrateFile) : CrateFile :=
  {| file := file cf; toc := toc cf; tokenMap := tokenMap cf; tokens := tokens
     cf; strings := x; fields := fields cf; reps := reps cf; repsMap := repsMap
     cf; fsets := fsets cf; paths := paths cf; specs := specs cf;
     writtenDataKeys := writtenDataKeys cf; writtenDataValues :=
     writtenDataValues cf; framesRef := framesRef cf; tocStartBuffer :=
     tocStartBuffer cf; tocAliases := tocAliases cf |}.

Definition set_fields (x : list Z) (cf : CrateFile) : CrateFile :=
  {| file := file cf; toc := toc cf; tokenMap := tokenMap cf; tokens := tokens
     cf; strings := strings cf; fields := x; reps := reps cf; repsMap :=
     repsMap cf; fsets := fsets cf; paths := paths cf; specs := specs cf;
     writtenDataKeys := writtenDataKeys cf; writtenDataValues :=
     writtenDataValues cf; framesRef := framesRef cf; tocStartBuffer :=
     tocStartBuffer cf; tocAliases := tocAliases cf |}.

Definition set_reps (x : list Z) (cf : CrateFile) : CrateFile :=
  {| file := file cf; toc := toc cf; tokenMap := tokenMap cf; tokens := tokens
     cf; strings := strings cf; fields := fields cf; reps := x; repsMap :=
     repsMap cf; fsets := fsets cf; paths := paths cf; specs := specs cf;
     writtenDataKeys := writtenDataKeys cf; writtenDataValues :=
     writtenDataValues cf; framesRef := framesRef cf; tocStartBuffer :=
     tocStartBuffer cf; tocAliases := tocAliases cf |}.

Definition set_repsMap (x : gmap Z Z) (cf : CrateFile) : CrateFile :=
  {| file := file cf; toc := toc cf; tokenMap := tokenMap cf; tokens := tokens
     cf; strings := strings cf; fields := fields cf; reps := reps cf; repsMap
     := x; fsets := fsets cf; paths := paths cf; specs := specs cf;
     writtenDataKeys := writtenDataKeys cf; writtenDataValues :=
     writtenDataValues cf; framesRef := framesRef cf; tocStartBuffer :=
     tocStartBuffer cf; tocAliases := tocAliases cf |}.

Definition set_fsets (x : list Z) (cf : CrateFile) : CrateFile :=
  {| file := file cf; toc := toc cf; tokenMap := tokenMap cf; tokens := tokens
     cf; strings := strings cf; fields := fields cf; reps := reps cf; repsMap
     := repsMap cf; fsets := x; paths := paths cf; specs := specs cf;
     writtenDataKeys := writtenDataKeys cf; writtenDataValues :=
     writtenDataValues cf; framesRef := framesRef cf; tocStartBuffer :=
     tocStartBuffer cf; tocAliases := tocAliases cf |}.

Definition set_paths (x : list (Z * Z * Z)) (cf : CrateFile) : CrateFile :=
  {| file := file cf; toc := toc cf; tokenMap := tokenMap cf; tokens := tokens
     cf; strings := strings cf; fields := fields cf; reps := reps cf; repsMap
     := repsMap cf; fsets := fsets cf; paths := x; specs := specs cf;
     writtenDataKeys := writtenDataKeys cf; writtenDataValues :=
     writtenDataValues cf; framesRef := framesRef cf; tocStartBuffer :=
     tocStartBuffer cf; tocAliases := tocAliases cf |}.

Definition set_specs (x : list (Z * Z * Z)) (cf : CrateFile) : CrateFile :=
  {| file := file cf; toc := toc cf; tokenMap := tokenMap cf; tokens := tokens
     cf; strings := strings cf; fields := fields cf; reps := reps cf; repsMap
     := repsMap cf; fsets := fsets cf; paths := paths cf; specs := x;
     writtenDataKeys := writtenDataKeys cf; writtenDataValues :=
     writtenDataValues cf; framesRef := framesRef cf; tocStartBuffer :=
     tocStartBuffer cf; tocAliases := tocAliases cf |}.

Definition set_writtenDataKeys (x : list (list Z)) (cf : CrateFile) : CrateFile :=
  {| file := file cf; toc := toc cf; tokenMap := tokenMap cf; tokens := tokens
     cf; strings := strings cf; fields := fields cf; reps := reps cf; repsMap
     := repsMap cf; fsets := fsets cf; paths := paths cf; specs := specs cf;
     writtenDataKeys := x; writtenDataValues := writtenDataValues cf; framesRef
     := framesRef cf; tocStartBuffer := tocStartBuffer cf; tocAliases :=
     tocAliases cf |}.

Definition set_writtenDataValues (x : list Z) (cf : CrateFile) : CrateFile :=
  {| file := file cf; toc := toc cf; tokenMap := tokenMap cf; tokens := tokens
     cf; strings := strings cf; fields := fields cf; reps := reps cf; repsMap
     := repsMap cf; fsets := fsets cf; paths := paths cf; specs := specs cf;
     writtenDataKeys := writtenDataKeys cf; writtenDataValues := x; framesRef
     := framesRef cf; tocStartBuffer := tocStartBuffer cf; tocAliases :=
     tocAliases cf |}.

Definition set_framesRef (x : Z) (cf : CrateFile) : CrateFile :=
  {| file := file cf; toc := toc cf; tokenMap := tokenMap cf; tokens := tokens
     cf; strings := strings cf; fields := fields cf; reps := reps cf; repsMap
     := repsMap cf; fsets := fsets cf; paths := paths cf; specs := specs cf;
     writtenDataKeys := writtenDataKeys cf; writtenDataValues :=
     writtenDataValues cf; framesRef := x; tocStartBuffer := tocStartBuffer cf;
     tocAliases := tocAliases cf |}.

Definition set_tocStartBuffer (x : list byte) (cf : CrateFile) : CrateFile :=
  {| file := file cf; toc := toc cf; tokenMap := tokenMap cf; tokens := tokens
     cf; strings := strings cf; fields := fields cf; reps := reps cf; repsMap
     := repsMap cf; fsets := fsets cf; paths := paths cf; specs := specs cf;
     writtenDataKeys := writtenDataKeys cf; writtenDataValues :=
     writtenDataValues cf; framesRef := framesRef cf; tocStartBuffer := x;
     tocAliases := tocAliases cf |}.

Definition set_tocAliases (x : list nat) (cf : CrateFile) : CrateFile :=
  {| file := file cf; toc := toc cf; tokenMap := tokenMap cf; tokens := tokens
     cf; strings := strings cf; fields := fields cf; reps := reps cf; repsMap
     := repsMap cf; fsets := fsets cf; paths := paths cf; specs := specs cf;
     writtenDataKeys := writtenDataKeys cf; writtenDataValues :=
     writtenDataValues cf; framesRef := framesRef cf; tocStartBuffer :=
     tocStartBuffer cf; tocAliases := x |}.

(** Methods are state transformers that may throw. *)
Definition M (A : Type) : Type := CrateFile -> result (A * CrateFile).

#[global] Instance M_ret : MRet M := fun A a cf => Ok (a, cf).
#[global] Instance M_bind : MBind M := fun A B f m cf =>
  match m cf with
  | Ok (a, cf') => f a cf'
  | Err e => Err e
  end.

Definition throw {A} (msg : string) : M A := fun _ => Err msg.
Definition gets {A} (f : CrateFile -> A) : M A := fun cf => Ok (f cf, cf).
Definition modify (f : CrateFile -> CrateFile) : M unit := fun cf => Ok (tt, f cf).

(** The file operations, on the file of the state. *)
Definition fileTell : M Z := gets (fun cf => tell (file cf)).
Definition fileWrite (buffer : list byte) : M unit :=
  modify (fun cf => set_file (write (file cf) buffer) cf).
Definition fileWriteInt (value size : Z) (signed : bool) : M unit :=
  modify (fun cf => set_file (writeInt (file cf) value size signed) cf).
Definition fileWriteDouble (value : float) : M unit :=
  modify (fun cf => set_file (writeDouble (file cf) value) cf).
Definition fileWriteInt32Compressed (data : list Z) : M unit :=
  fun cf =>
    match writeInt32Compressed (file cf) data with
    | Ok f => Ok (tt, set_file f cf)
    | Err e => Err e
    end.

(** [for (const x of xs) body(x)]. *)
Fixpoint forEach {A} (xs : list A) (body : A -> M unit) : M unit :=
  match xs with
  | [] => mret tt
  | x :: xs' => _ ← body x; forEach xs' body
  end.

(** [xs.map(f)] and the loops that push [f(x)] for each [x]. *)
Fixpoint mapM {A B} (f : A -> M B) (xs : list A) : M (list B) :=
  match xs with
  | [] => mret []
  | x :: xs' => y ← f x; ys ← mapM f xs'; mret (y :: ys)
  end.

Definition addWrittenData (data : list Z) (vType : ValueType) (ref : Z) : M unit :=
  modify (fun cf =>
    set_writtenDataValues (writtenDataValues cf ++ [ref])
      (set_writtenDataKeys (writtenDataKeys cf ++ [data]) cf)).

(** The search of [getDataReference]: the value of the first key equal
    to [data], -1 when there is none. *)
Fixpoint findData (data : list Z) (keys : list (list Z)) (values : list Z) : Z :=
  match keys, values with
  | key :: keys', value :: values' =>
      if bool_decide (data = key) then value else findData data keys' values'
  | _, _ => -1
  end.

Definition getDataReference (data : list Z) (vType : ValueType) : M Z :=
  gets (fun cf => findData data (writtenDataKeys cf) (writtenDataValues cf)).

Definition getTokenIndex (token : string) : M Z := fun cf =>
  match tokenMap cf !! token with
  | Some tmp2 => Ok (tmp2, cf)
  | None =>
      let tmp := Z.of_nat (length (tokens cf)) in
      Ok (tmp,
          set_tokens (tokens cf ++ [token])
            (set_tokenMap (<[token := tmp]> (tokenMap cf)) cf))
  end.

(** [xs.indexOf(x)]. *)
Fixpoint indexOf (xs : list Z) (x : Z) (i : Z) : Z :=
  match xs with
  | [] => -1
  | y :: xs' => if y =? x then i else indexOf xs' x (i + 1)
  end.

Definition getStringIndex (str : string) : M Z :=
  tokenIndex ← getTokenIndex str;
  ((fun cf =>
     let i := indexOf (strings cf) tokenIndex 0 in
     if negb (i =? -1) then Ok (i, cf)
     else
       let cf' := set_strings (strings cf ++ [tokenIndex]) cf in
       Ok (Z.of_nat (length (strings cf')) - 1, cf')) : M Z).

Definition addFieldSet (fset : list Z) : M Z := fun cf =>
  let index := Z.of_nat (length (fsets cf)) in
  Ok (index, set_fsets ((fsets cf ++ fset) ++ [-1]) cf).

(** [addFieldItem]. The rep is the 64-bit word whose low half is the
    payload and whose high half is [upper]: the source assembles these 8
    bytes in a scratch buffer and keeps them as a double, which
    [encodeInts] writes back as the same 8 bytes (the exponent bits 24
    to 28 of [upper] are never set, so the double is never a NaN). The
    key is a number: its sums and its product are those of binary64. *)
Definition addFieldItem (field : Z) (vType : ValueType)
    (array inline compressed : bool) (payload : Z) : M Z := fun cf =>
  let repIndex := Z.of_nat (length (reps cf)) in
  let upper := 0 in
  let key := fadd payload (fmul field 4294967296) in
  let upper := or upper (shl (valueTypeCode vType) 16) in
  let '(upper, key) :=
    if array then (or upper (shl 1 31), fadd key 4398046511104) else (upper, key) in
  let '(upper, key) :=
    if compressed then (or upper (shl 1 29), fadd key 1099511627776)
    else (upper, key) in
  let '(upper, key) :=
    if inline then (or upper (shl 1 30), fadd key 2199023255552) else (upper, key) in
  let rep := toUint32 payload + 4294967296 * toUint32 upper in
  match repsMap cf !! key with
  | Some tmp => Ok (tmp, cf)
  | None =>
      Ok (repIndex,
          set_reps (reps cf ++ [rep])
            (set_fields (fields cf ++ [field])
               (set_repsMap (<[key := repIndex]> (repsMap cf)) cf)))
  end.

(** [token.replace] with the pattern of all double quotes (character
    34) and the empty string: the token without its double quotes. *)
Fixpoint removeQuotes (s : string) : string :=
  match s with
  | EmptyString => EmptyString
  | String c s' =>
      if Ascii.eqb c (ascii_of_nat 34) then removeQuotes s'
      else String c (removeQuotes s')
  end.

Definition addFieldTokens (field : string) (data : list string) : M Z :=
  tokenIndex ← getTokenIndex field;
  tokens ← mapM (fun token => getTokenIndex (removeQuotes token)) data;
  ref ← fileTell;
  _ ← fileWriteInt (Z.of_nat (length tokens)) 8 false;
  _ ← forEach tokens (fun token => fileWriteInt token 4 false);
  addFieldItem tokenIndex VT_token true false false ref.

Definition addFieldToken (field : string) (data : string) : M Z :=
  tokenIndex ← getTokenIndex field;
  token ← getTokenIndex (removeQuotes data);
  addFieldItem tokenIndex VT_token false true false token.

Definition addFieldTokenVector (field : string) (tokens : list string) : M Z :=
  tokenIndex ← getTokenIndex field;
  data ← mapM (fun token => getTokenIndex (removeQuotes token)) tokens;
  ref ← getDataReference data VT_TokenVector;
  ref ←
    (if ref <? 0 then
       ref ← fileTell;
       _ ← addWrittenData data VT_TokenVector ref;
       _ ← fileWriteInt (Z.of_nat (length data)) 8 false;
       _ ← forEach data (fun token => fileWriteInt token 4 false);
       _ ← fileWrite (zeros 4);
       mret ref
     else mret ref);
  addFieldItem tokenIndex VT_TokenVector false false false ref.

Definition addFieldPathListOp (field : string) (pathIndex : Z) : M Z :=
  tokenIndex ← getTokenIndex field;
  ref ← fileTell;
  let op := 3 in
  _ ← fileWriteInt op 1 false;
  _ ← fileWriteInt 1 8 false;
  _ ← fileWriteInt pathIndex 4 false;
  addFieldItem tokenIndex VT_PathListOp false false false ref.

Definition addFieldPathVector (field : string) (pathIndex : Z) : M Z :=
  tokenIndex ← getTokenIndex field;
  ref ← fileTell;
  _ ← fileWriteInt 1 8 false;
  _ ← fileWriteInt pathIndex 4 false;
  addFieldItem tokenIndex VT_PathVector false false false ref.

Definition addFieldSpecifier (field : string) (spec : Z) : M Z :=
  tokenIndex ← getTokenIndex field;
  addFieldItem tokenIndex VT_Specifier false true false spec.

Definition addFieldInts (field : string) (data : list Z) : M Z :=
  tokenIndex ← getTokenIndex field;
  let compress := 16 <=? Z.of_nat (length data) in
  ref ← getDataReference data VT_int;
  ref ←
    (if ref <? 0 then
       ref ← fileTell;
       _ ← addWrittenData data VT_int ref;
       _ ← fileWriteInt (Z.of_nat (length data)) 8 false;
       _ ← (if compress then fileWriteInt32Compressed data
            else forEach data (fun i => fileWriteInt i 4 true));
       mret ref
     else mret ref);
  addFieldItem tokenIndex VT_int true false compress ref.

(** The bits of the float32 nearest to [data], as an int32
    ([setFloat32] then [getInt32] on the scratch buffer). *)
Definition float32Int (data : float) : Z := toInt32 (floatBits 24 128 8 data).

Definition addFieldFloat (field : string) (data : float) : M Z :=
  tokenIndex ← getTokenIndex field;
  let data2 := float32Int data in
  addFieldItem tokenIndex VT_float false true false data2.

Definition addFieldVectors (field : string) (data : list float) : M Z :=
  tokenIndex ← getTokenIndex field;
  ref ← fileTell;
  _ ← fileWriteInt (Z.of_nat (length data) / 3) 8 false;
  _ ← fileWrite (float32Bytes data);
  addFieldItem tokenIndex VT_vec3f true false false ref.

Definition addFieldVector (field : string) (data : list float) : M Z :=
  tokenIndex ← getTokenIndex field;
  ref ← fileTell;
  _ ← fileWrite (float32Bytes data);
  addFieldItem tokenIndex VT_vec3f false false false ref.

Definition addFieldBool (field : string) (data : bool) : M Z :=
  tokenIndex ← getTokenIndex field;
  let data2 := if data then 1 else 0 in
  addFieldItem tokenIndex VT_bool false true false data2.

Definition addFieldVariability (field : string) (data : bool) : M Z :=
  tokenIndex ← getTokenIndex field;
  let data2 := if data then 1 else 0 in
  addFieldItem tokenIndex VT_Variability false true false data2.

Definition addFieldDictionary (field : string) (data : list (string * string)) : M Z :=
  tokenIndex ← getTokenIndex field;
  ref ← fileTell;
  _ ← fileWriteInt (Z.of_nat (length data)) 8 false;
  _ ← forEach data (fun '(key, value) =>
        i ← getStringIndex key;
        _ ← fileWriteInt i 4 false;
        _ ← fileWriteInt 8 8 false;
        i ← getStringIndex value;
        _ ← fileWriteInt i 4 false;
        fileWriteInt 1074397184 4 false);
  addFieldItem tokenIndex VT_Dictionary false false false ref.

Definition setFramesRef (ref : Z) : M unit := modify (set_framesRef ref).

Definition addFieldTimeSamples (field : string) (data : list (float * list float))
    (vType : ValueType) : M Z :=
  tokenIndex ← getTokenIndex field;
  let count := Z.of_nat (length data) in
  let size := 8 * (count + 2) in
  let elem := 0 in
  let frames := map fst data in
  refs ← mapM (fun '(frame, value) =>
            ref ← fileTell;
            _ ← match vType with
                | VT_vec3f => fileWrite (float32Bytes value)
                | VT_matrix4d => fileWrite (float64Bytes value)
                | _ => mret tt
                end;
            mret ref) data;
  ref ← fileTell;
  framesRef ← gets framesRef;
  _ ← (if 0 <? framesRef then
         _ ← fileWriteInt 8 8 false;
         _ ← fileWriteInt (framesRef + 8) 6 false;
         _ ← fileWriteInt (valueTypeCode VT_DoubleVector) 1 false;
         fileWriteInt 0 1 false
       else
         _ ← setFramesRef ref;
         _ ← fileWriteInt size 8 false;
         _ ← fileWriteInt count 8 false;
         _ ← forEach frames fileWriteDouble;
         _ ← fileWriteInt (ref + 8) 6 false;
         _ ← fileWriteInt (valueTypeCode VT_DoubleVector) 1 false;
         fileWriteInt 0 1 false);
  _ ← fileWriteInt 8 8 false;
  _ ← fileWriteInt count 8 false;
  _ ← forEach refs (fun ref2 =>
        _ ← fileWriteInt ref2 6 false;
        _ ← fileWriteInt (valueTypeCode vType) 1 false;
        fileWriteInt elem 1 false);
  addFieldItem tokenIndex VT_TimeSamples false false false ref.

(** [addField]: the value is not null here. *)
Definition addField (field : string) (usdAtt : UsdAttribute) : M Z :=
  match att_value usdAtt with
  | VTokenArray value => addFieldTokens field value
  | VToken value => addFieldToken field value
  | VSpecifier value => addFieldSpecifier field value
  | VIntArray value => addFieldInts field value
  | VFloat value => addFieldFloat field value
  | VVec3fArray value => addFieldVectors field value
  | VVec3f value => addFieldVector field value
  | VBool value => addFieldBool field value
  | VVariability value => addFieldVariability field value
  | VDictionary value => addFieldDictionary field value
  | VNull _ _ | VUnsupported _ | VConnection _ | VRelationship _ =>
      throw "Unknown type"
  end.

Definition addPath (path token jump : Z) (prim : bool) : M unit :=
  let token := if prim then token * -1 else token in
  modify (fun cf => set_paths (paths cf ++ [(path, token, jump)]) cf).

Definition addSpec (fset : Z) (sType : SpecType) : M Z := fun cf =>
  let path := Z.of_nat (length (specs cf)) in
  Ok (path, set_specs (specs cf ++ [(path, fset, specCode sType)]) cf).

Definition writeBootstrap : M unit :=
  _ ← fileWrite (map u8 [80; 88; 82; 45; 85; 83; 68; 67]);
  (* Version *)
  _ ← fileWrite (map u8 [0x00; 0x07; 0x00; 0x00; 0x00; 0x00; 0x00; 0x00]);
  (* Table of Contents Offset: the buffer itself, stored to later *)
  _ ← modify (fun cf =>
        set_tocAliases (tocAliases cf ++ [length (buffers (file cf))]) cf);
  tocStartBuffer ← gets tocStartBuffer;
  _ ← fileWrite tocStartBuffer;
  fileWrite (zeros 64).

Definition pushToc (name : string) (start size : Z) : M unit :=
  modify (fun cf => set_toc (toc cf ++ [(name, start, size)]) cf).

(** Lifting of [lz4Compress]; the arrays the writer compresses cover
    their buffers. *)
Definition lz4 (buffer : list byte) : M (list byte) := fun cf =>
  match LZ4.lz4Compress (whole buffer) with
  | Ok b => Ok (b, cf)
  | Err e => Err e
  end.

Definition writeTokensSection : M unit :=
  start ← fileTell;
  tokens ← gets tokens;
  _ ← fileWriteInt (Z.of_nat (length tokens)) 8 false;
  let buffer := concat (map (fun token => charCodes token ++ [x00]) tokens) in
  _ ← fileWriteInt (Z.of_nat (length buffer)) 8 false;
  buffer2 ← lz4 buffer;
  _ ← fileWriteInt (Z.of_nat (length buffer2)) 8 false;
  _ ← fileWrite buffer2;
  end_ ← fileTell;
  let size := end_ - start in
  pushToc "TOKENS" start size.

Definition writeStringsSection : M unit :=
  start ← fileTell;
  strings ← gets strings;
  _ ← fileWriteInt (Z.of_nat (length strings)) 8 false;
  _ ← forEach strings (fun i => fileWriteInt i 4 false);
  end_ ← fileTell;
  let size := end_ - start in
  pushToc "STRINGS" start size.

(** [encodeInts], called on the reps: the 8 bytes of each. *)
Definition encodeInts (reps : list Z) : list byte :=
  concat (map (le 8) reps).

Definition writeFieldsSection : M unit :=
  start ← fileTell;
  fields ← gets fields;
  reps ← gets reps;
  _ ← fileWriteInt (Z.of_nat (length fields)) 8 false;
  _ ← fileWriteInt32Compressed fields;
  buffer ← lz4 (encodeInts reps);
  _ ← fileWriteInt (Z.of_nat (length buffer)) 8 false;
  _ ← fileWrite buffer;
  end_ ← fileTell;
  let size := end_ - start in
  pushToc "FIELDS" start size.

Definition writeFieldSetsSection : M unit :=
  start ← fileTell;
  fsets ← gets fsets;
  _ ← fileWriteInt (Z.of_nat (length fsets)) 8 false;
  _ ← fileWriteInt32Compressed fsets;
  end_ ← fileTell;
  let size := end_ - start in
  pushToc "FIELDSETS" start size.

Definition writePathsSection : M unit :=
  start ← fileTell;
  thePaths ← gets paths;
  let paths := map (fun '(path, token, jump) => path) thePaths in
  let tokens := map (fun '(path, token, jump) => token) thePaths in
  let jumps := map (fun '(path, token, jump) => jump) thePaths in
  _ ← fileWriteInt (Z.of_nat (length thePaths)) 8 false;
  _ ← fileWriteInt (Z.of_nat (length thePaths)) 8 false;
  _ ← fileWriteInt32Compressed paths;
  _ ← fileWriteInt32Compressed tokens;
  _ ← fileWriteInt32Compressed jumps;
  end_ ← fileTell;
  let size := end_ - start in
  pushToc "PATHS" start size.

Definition writeSpecsSection : M unit :=
  start ← fileTell;
  theSpecs ← gets specs;
  let paths := map (fun '(path, fset, type) => path) theSpecs in
  let fsets := map (fun '(path, fset, type) => fset) theSpecs in
  let types := map (fun '(path, fset, type) => type) theSpecs in
  _ ← fileWriteInt (Z.of_nat (length theSpecs)) 8 false;
  _ ← fileWriteInt32Compressed paths;
  _ ← fileWriteInt32Compressed fsets;
  _ ← fileWriteInt32Compressed types;
  end_ ← fileTell;
  let size := end_ - start in
  pushToc "SPECS" start size.

Definition writeSections : M unit :=
  _ ← writeTokensSection;
  _ ← writeStringsSection;
  _ ← writeFieldsSection;
  _ ← writeFieldSetsSection;
  _ ← writePathsSection;
  writeSpecsSection.

(** The 16 bytes of a section name: [buffer[i] = name.charCodeAt(i)]. *)
Definition tocName (name : string) : list byte :=
  fst (fold_left (fun '(buffer, i) c => (put buffer i (byteZ c), i + 1))
         (charCodes name) (zeros 16, 0)).

(** The store into [tocStartBuffer], seen in every block of the file
    that is this buffer. *)
Definition storeTocStart (tocStart : Z) (cf : CrateFile) : CrateFile :=
  let buffer := poke (tocStartBuffer cf) 0 4 tocStart in
  let blocks :=
    fold_left (fun blocks i => <[i := buffer]> blocks)
      (tocAliases cf) (buffers (file cf)) in
  set_tocStartBuffer buffer
    (set_file {| pos := pos (file cf); buffers := blocks |} cf).

Definition writeTableOfContents : M unit :=
  tocStart ← fileTell;
  toc ← gets toc;
  _ ← fileWriteInt (Z.of_nat (length toc)) 8 false;
  _ ← forEach toc (fun '(name, start, size) =>
        _ ← fileWrite (tocName name);
        _ ← fileWriteInt start 8 false;
        fileWriteInt size 8 false);
  modify (storeTocStart tocStart).

(** The fields of the qualifiers of an attribute. *)
Definition addQualifierFields (qualifiers : list string) : M (list Z) :=
  fsets ← mapM (fun q =>
            if String.eqb q "uniform" then
              i ← addFieldVariability "variability" true; mret [i]
            else if String.eqb q "custom" then
              i ← addFieldBool "custom" true; mret [i]
            else mret []) qualifiers;
  mret (concat fsets).

Definition writeUsdConnection (usdAtt : UsdAttribute) (target : nat)
    (h : Heap) : M Heap :=
  let pathIndex := attPathIndex h target in
  f1 ← addFieldToken "typeName" "token";
  fq ← addQualifierFields (att_qualifiers usdAtt);
  f2 ← addFieldPathListOp "connectionPaths" pathIndex;
  f3 ← addFieldPathVector "connectionChildren" pathIndex;
  let fset := [f1] ++ fq ++ [f2; f3] in
  fsetIndex ← addFieldSet fset;
  usdAtt_pathIndex ← addSpec fsetIndex SpecAttribute;
  let h := setAttPathIndex h (att_id usdAtt) usdAtt_pathIndex in
  nameToken ← getTokenIndex (att_name usdAtt);
  let pathJump := attPathJump usdAtt in
  _ ← addPath usdAtt_pathIndex nameToken pathJump true;
  mret h.

Definition writeUsdRelationship (usdAtt : UsdAttribute) (target : nat)
    (h : Heap) : M Heap :=
  let pathIndex := primPathIndex h target in
  f1 ← addFieldVariability "variability" true;
  f2 ← addFieldPathListOp "targetPaths" pathIndex;
  f3 ← addFieldPathVector "targetChildren" pathIndex;
  let fset := [f1; f2; f3] in
  fsetIndex ← addFieldSet fset;
  usdAtt_pathIndex ← addSpec fsetIndex SpecRelationship;
  let h := setAttPathIndex h (att_id usdAtt) usdAtt_pathIndex in
  nameToken ← getTokenIndex (att_name usdAtt);
  let pathJump := attPathJump usdAtt in
  _ ← addPath usdAtt_pathIndex nameToken pathJump true;
  mret h.

Definition writeUsdAttribute (usdAtt : UsdAttribute) (h : Heap) : M Heap :=
  f1 ← addFieldToken "typeName" (att_valueTypeStr usdAtt);
  fq ← addQualifierFields (att_qualifiers usdAtt);
  fm ← mapM (fun '(name, value) => addFieldToken name value) (att_metadata usdAtt);
  fd ← match att_value usdAtt with
       | VNull _ _ => mret []
       | _ => i ← addField "default" usdAtt; mret [i]
       end;
  ft ← match att_frames usdAtt with
       | [] => mret []
       | frames =>
           i ← addFieldTimeSamples "timeSamples" frames
                 (valueTypeOf (att_value usdAtt));
           mret [i]
       end;
  let fset := [f1] ++ fq ++ fm ++ fd ++ ft in
  fsetIndex ← addFieldSet fset;
  usdAtt_pathIndex ← addSpec fsetIndex SpecAttribute;
  let h := setAttPathIndex h (att_id usdAtt) usdAtt_pathIndex in
  nameToken ← getTokenIndex (att_name usdAtt);
  let pathJump := attPathJump usdAtt in
  _ ← addPath usdAtt_pathIndex nameToken pathJump true;
  mret h.

(** The dispatch at the end of [writeUsdPrim]. *)
Definition writeUsdProperty (attribute : UsdAttribute) (h : Heap) : M Heap :=
  match att_value attribute with
  | VConnection target => writeUsdConnection attribute target h
  | VRelationship target => writeUsdRelationship attribute target h
  | _ => writeUsdAttribute attribute h
  end.

Fixpoint writeUsdProperties (attributes : list UsdAttribute) (h : Heap) : M Heap :=
  match attributes with
  | [] => mret h
  | attribute :: attributes' =>
      h ← writeUsdProperty attribute h;
      writeUsdProperties attributes' h
  end.

(** The field of one metadata entry of a prim. A value under
    [inherits] that is not a prim has no [pathIndex]: [undefined] is
    written as 0. *)
Definition addPrimMetadata (h : Heap) (entry : MetaEntry) : M (list Z) :=
  match entry with
  | MetaInherits target =>
      i ← addFieldPathListOp "inheritPaths" (primPathIndex h target); mret [i]
  | MetaOther name value =>
      if String.eqb name "inherits" then
        i ← addFieldPathListOp "inheritPaths" 0; mret [i]
      else if String.eqb name "references" then throw "Not implemented"
      else
        match value with
        | MDictionary d => i ← addFieldDictionary name d; mret [i]
        | MString s => i ← addFieldToken name s; mret [i]
        | MNumber x => i ← addFieldFloat name x; mret [i]
        | MBool b => i ← addFieldBool name b; mret [i]
        end
  end.

Fixpoint writeUsdPrim (usdPrim : UsdPrim) (parent : option UsdPrim) (h : Heap)
    {struct usdPrim} : M Heap :=
  (* Add Prim Properties *)
  f1 ← addFieldSpecifier "specifier" (specifierCode (specifierType usdPrim));
  f2 ← addFieldToken "typeName" (classType usdPrim);
  fm ← mapM (addPrimMetadata h) (metadata usdPrim);
  fp ← match attributes usdPrim with
       | [] => mret []
       | atts => i ← addFieldTokenVector "properties" (map att_name atts); mret [i]
       end;
  fc ← match children usdPrim with
       | [] => mret []
       | cs => i ← addFieldTokenVector "primChildren" (map name cs); mret [i]
       end;
  let fset := [f1; f2] ++ concat fm ++ fp ++ fc in
  fsetIndex ← addFieldSet fset;
  usdPrim_pathIndex ← addSpec fsetIndex SpecPrim;
  let h := setPrimPathIndex h (prim_id usdPrim) usdPrim_pathIndex in
  nameToken ← getTokenIndex (name usdPrim);
  let pathJump := primPathJump usdPrim parent in
  (* Add Prim Path *)
  _ ← addPath usdPrim_pathIndex nameToken pathJump false;
  (* Write Prim Children *)
  h ← (fix children_loop (cs : list UsdPrim) (h : Heap) : M Heap :=
         match cs with
         | [] => mret h
         | child :: cs' =>
             h ← writeUsdPrim child (Some usdPrim) h;
             children_loop cs' h
         end) (children usdPrim) h;
  (* Write Prim Attributes *)
  writeUsdProperties (attributes usdPrim) h.

(** The loop over the children, as a function of its own. *)
Fixpoint writeUsdPrims (cs : list UsdPrim) (parent : option UsdPrim) (h : Heap)
  : M Heap :=
  match cs with
  | [] => mret h
  | child :: cs' =>
      h ← writeUsdPrim child parent h;
      writeUsdPrims cs' parent h
  end.

(** The field of one metadata entry of the root: other kinds of
    values are skipped. *)
Definition addRootMetadata (entry : MetaEntry) : M (list Z) :=
  match entry with
  | MetaOther name (MNumber x) => i ← addFieldFloat name x; mret [i]
  | MetaOther name (MString s) => i ← addFieldToken name s; mret [i]
  | MetaOther name (MBool b) => i ← addFieldBool name b; mret [i]
  | _ => mret []
  end.

Definition writeUsd (usdData : UsdPrim) (h : Heap) : M Heap :=
  let '(_, h) := updatePathIndicesRoot usdData h in
  _ ← writeBootstrap;
  (* Add Root Metadata *)
  fm ← mapM addRootMetadata (metadata usdData);
  fc ← match children usdData with
       | [] => mret []
       | cs => i ← addFieldTokenVector "primChildren" (map name cs); mret [i]
       end;
  let fset := concat fm ++ fc in
  fsetIndex ← addFieldSet fset;
  usdData_pathIndex ← addSpec fsetIndex SpecPseudoRoot;
  let h := setPrimPathIndex h (prim_id usdData) usdData_pathIndex in
  (* Add First Path *)
  nameToken ← getTokenIndex "";
  let pathJump := primPathJump usdData None in
  _ ← addPath usdData_pathIndex nameToken pathJump false;
  (* Write the Children *)
  h ← writeUsdPrims (children usdData) (Some usdData) h;
  (* Finish Writing the Crate File *)
  _ ← writeSections;
  _ ← writeTableOfContents;
  mret h.

Definition getUsdz (cf : CrateFile) : result (list byte) :=
  Usdz.getUsdzFromUsdc (file cf).

End Crate.

(** ** Mesh exporters ([mesh-exporter.ts]) *)

Module MeshExporter.
Import JS Writer Usd Crate.

Record Vec3 := { v0 : float; v1 : float; v2 : float }.

(** [Mesh]; the faces are integers. *)
Record Mesh := {
  positions : list Vec3;
  normals : list Vec3;
  faces : list Z
}.

(** [Map<Color, Mesh>]: its entries in insertion order; a [Color] is a
    number. *)
Abbreviation MeshByColor := (list (Z * Mesh)).

(** The invariants of the mesh data model of the specification. *)
Definition meshOK (m : Mesh) : Prop :=
  length (positions m) = length (normals m)
  /\ Forall (fun f => 0 <= f < Z.of_nat (length (positions m))) (faces m)
  /\ Z.of_nat (length (faces m)) mod 3 = 0.

Definition ofZ (z : Z) : float := PrimFloat.of_uint63 (Uint63.of_Z z).

(** Modelled from the spec: [Color.toRgbNormalized] belongs to the
    molstar library and is not among the sources; the specification
    calls its result the normalized RGB of the 24-bit color, that is
    each 8-bit channel divided by 255. *)
Definition toRgbNormalized (color : Z) : float * float * float :=
  (ofZ (and (sar color 16) 255) / ofZ 255,
   ofZ (and (sar color 8) 255) / ofZ 255,
   ofZ (and color 255) / ofZ 255)%float.

Definition decimal (z : Z) : string := NilZero.string_of_int (Z.to_int z).

(** The double quote, and a string in double quotes. *)
Definition dq : string := String (ascii_of_nat 34) EmptyString.
Definition quoted (s : string) : string := dq +:+ s +:+ dq.

Fixpoint join (sep : string) (xs : list string) : string :=
  match xs with
  | [] => ""
  | [x] => x
  | x :: xs' => x +:+ sep +:+ join sep xs'
  end.

(** The integer a float is, when it is one of magnitude below [2 ^ 53]. *)
Definition integral (x : float) : option Z :=
  match Prim2SF x with
  | S754_zero _ => Some 0
  | S754_finite s m e =>
      let sign z := if s then - z else z in
      if 0 <=? e then
        let n := Z.pos m * 2 ^ e in
        if n <? 2 ^ 53 then Some (sign n) else None
      else if Z.pos m mod 2 ^ (- e) =? 0 then Some (sign (Z.pos m / 2 ^ (- e)))
      else None
  | _ => None
  end.

Section Numbers.
(** [Number::toString] on the doubles that are not integers of
    magnitude below [2 ^ 53]: the shortest decimal that reads back as
    the double. It is a built-in of the language, taken as given. *)
Variable dtoa : float -> string.

Definition numberToString (x : float) : string :=
  match Prim2SF x with
  | S754_nan => "NaN"
  | S754_infinity s => if s then "-Infinity" else "Infinity"
  | _ =>
      match integral x with
      | Some z => decimal z
      | None => dtoa x
      end
  end.

(** A number in [JSON.stringify]. *)
Definition jsonNumber (x : float) : string :=
  match Prim2SF x with
  | S754_nan | S754_infinity _ => "null"
  | _ => numberToString x
  end.

(** [pointOffset + faces[i + j]] turned into a string: NaN when the
    element is [undefined]. *)
Definition pointString (pointOffset : Z) (face : option Z) : string :=
  match face with
  | Some f => decimal (pointOffset + f)
  | None => "NaN"
  end.

(** [for (let i = 0; i < faces.length; i += 3)]: one line per group of
    three, [n] bounding the groups left. *)
Fixpoint faceLines (n : nat) (faces : list Z) (i pointOffset : Z) : list string :=
  match n with
  | O => []
  | S n' =>
      if i <? Z.of_nat (length faces) then
        let line :=
          fold_left
            (fun line j =>
               let point := pointString pointOffset (get faces (i + j)) in
               line +:+ " " +:+ point +:+ "//" +:+ point)
            [0; 1; 2] "f" in
        line :: faceLines n' faces (i + 3) pointOffset
      else []
  end.

Definition vecLine (prefix : string) (v : Vec3) : string :=
  prefix +:+ numberToString (v0 v) +:+ " " +:+ numberToString (v1 v) +:+ " "
    +:+ numberToString (v2 v).

(** The state of the [forEach] of [exportObj]. *)
Record ObjState := {
  objLines : list string;
  mtlLines : list string;
  refId : Z;
  pointOffset : Z
}.

Definition exportObj_body (st : ObjState) (entry : Z * Mesh) : ObjState :=
  let '(color, mesh) := entry in
  let objLines := objLines st ++ ["g m" +:+ decimal (refId st)] in
  let objLines := objLines ++ ["usemtl k" +:+ decimal (refId st)] in
  let objLines := objLines ++ map (vecLine "v ") (positions mesh) in
  let objLines := objLines ++ map (vecLine "vn ") (normals mesh) in
  let objLines :=
    objLines ++ faceLines (length (faces mesh)) (faces mesh) 0 (pointOffset st) in
  let pointOffset := pointOffset st + Z.of_nat (length (positions mesh)) in
  let '(r, g, b) := toRgbNormalized color in
  let nl := String (ascii_of_nat 10) EmptyString in
  let mtlLines :=
    mtlLines st ++
    ["newmtl k" +:+ decimal (refId st) +:+ nl +:+
     "Ns 163" +:+ nl +:+
     "Ni 0.001" +:+ nl +:+
     "illum 2" +:+ nl +:+
     "Ka 0.20 0.20 0.20" +:+ nl +:+
     "Kd " +:+ numberToString r +:+ " " +:+ numberToString g +:+ " "
       +:+ numberToString b +:+ nl +:+
     "Ks 0.25 0.25 0.25"] in
  {| objLines := objLines; mtlLines := mtlLines;
     refId := refId st + 1; pointOffset := pointOffset |}.

(** [exportObj]: it has no [throw]; it returns the two texts. *)
Definition exportObj (meshByColor : MeshByColor) (outName : string)
  : result (string * string) :=
  let st :=
    fold_left exportObj_body meshByColor
      {| objLines := ["mtllib " +:+ outName +:+ ".mtl"]; mtlLines := [];
         refId := 0; pointOffset := 1 |} in
  let nl := String (ascii_of_nat 10) EmptyString in
  let obj := join nl (objLines st) in
  let mtl := join nl (mtlLines st) in
  Ok (obj, mtl).

(** *** GLB *)

(** [Number.MAX_VALUE]. *)
Definition MAX_VALUE : float := 0x1.fffffffffffffp+1023%float.

(** [Math.min] and [Math.max] of two numbers. *)
Definition isNegative (x : float) : bool :=
  match Prim2SF x with
  | S754_zero s | S754_infinity s | S754_finite s _ _ => s
  | S754_nan => false
  end.
Definition mathMin (a b : float) : float :=
  if PrimFloat.is_nan a || PrimFloat.is_nan b then PrimFloat.nan
  else if (a <? b)%float then a
  else if (b <? a)%float then b
  else if isNegative a then a else b.
Definition mathMax (a b : float) : float :=
  if PrimFloat.is_nan a || PrimFloat.is_nan b then PrimFloat.nan
  else if (b <? a)%float then a
  else if (a <? b)%float then b
  else if isNegative a then b else a.

Definition computeBounding (points : list Vec3) : Vec3 * Vec3 :=
  fold_left
    (fun '(min, max) point =>
       ({| v0 := mathMin (v0 point) (v0 min);
           v1 := mathMin (v1 point) (v1 min);
           v2 := mathMin (v2 point) (v2 min) |},
        {| v0 := mathMax (v0 point) (v0 max);
           v1 := mathMax (v1 point) (v1 max);
           v2 := mathMax (v2 point) (v2 max) |}))
    points
    ({| v0 := MAX_VALUE; v1 := MAX_VALUE; v2 := MAX_VALUE |},
     {| v0 := - MAX_VALUE; v1 := - MAX_VALUE; v2 := - MAX_VALUE |})%float.

(** The values the manifest is made of, and [JSON.stringify] on them
    (the strings of the manifest need no escaping). *)
Inductive Json :=
| JInt (z : Z)
| JNum (x : float)
| JStr (s : string)
| JArr (items : list Json)
| JObj (members : list (string * Json)).

Fixpoint stringify (j : Json) : string :=
  match j with
  | JInt z => decimal z
  | JNum x => jsonNumber x
  | JStr s => quoted s
  | JArr items => "[" +:+ join "," (map stringify items) +:+ "]"
  | JObj members =>
      "{" +:+
      join ","
        ((fix members_loop (ms : list (string * Json)) : list string :=
            match ms with
            | [] => []
            | (k, v) :: ms' =>
                (quoted k +:+ ":" +:+ stringify v) :: members_loop ms'
            end) members)
      +:+ "}"
  end.

Definition jsonVec3 (v : Vec3) : Json := JArr [JNum (v0 v); JNum (v1 v); JNum (v2 v)].

(** [flattenVec3s] and the bytes of its [Float32Array]. *)
Definition flattenVec3s (vs : list Vec3) : list float :=
  concat (map (fun v => [v0 v; v1 v; v2 v]) vs).

(** The bytes of [new Uint32Array(xs)] (little-endian platform). *)
Definition uint32Bytes (xs : list Z) : list byte := concat (map (le 4) xs).

Record GlbState := {
  primitives : list Json;
  accessors : list Json;
  bufferViews : list Json;
  binaryBuffer : list (list byte);
  materials : list Json;
  byteOffset : Z
}.

Definition byteLength (buffer : list byte) : Z := Z.of_nat (length buffer).

Definition exportGlb_body (st : GlbState) (entry : Z * Mesh) : GlbState :=
  let '(color, mesh) := entry in
  let accessorOffset := Z.of_nat (length (accessors st)) in
  let faceBuffer := uint32Bytes (faces mesh) in
  let positionBuffer := float32Bytes (flattenVec3s (positions mesh)) in
  let normalBuffer := float32Bytes (flattenVec3s (normals mesh)) in
  let binaryBuffer := binaryBuffer st ++ [faceBuffer; positionBuffer; normalBuffer] in
  let materialOffset := Z.of_nat (length (materials st)) in
  let '(positionMin, positionMax) := computeBounding (positions mesh) in
  let primitives :=
    primitives st ++
    [JObj [("attributes", JObj [("POSITION", JInt (accessorOffset + 1));
                                ("NORMAL", JInt (accessorOffset + 2))]);
           ("indices", JInt accessorOffset);
           ("material", JInt materialOffset)]] in
  let byteOffset := byteOffset st in
  let bufferViews :=
    bufferViews st ++
    [JObj [("buffer", JInt 0); ("byteOffset", JInt byteOffset);
           ("byteLength", JInt (byteLength faceBuffer));
           ("target", JInt 34963)]] in
  let byteOffset := byteOffset + byteLength faceBuffer in
  let bufferViews :=
    bufferViews ++
    [JObj [("buffer", JInt 0); ("byteOffset", JInt byteOffset);
           ("byteLength", JInt (byteLength positionBuffer));
           ("target", JInt 34962)]] in
  let byteOffset := byteOffset + byteLength positionBuffer in
  let bufferViews :=
    bufferViews ++
    [JObj [("buffer", JInt 0); ("byteOffset", JInt byteOffset);
           ("byteLength", JInt (byteLength normalBuffer));
           ("target", JInt 34962)]] in
  let byteOffset := byteOffset + byteLength normalBuffer in
  let accessors :=
    accessors st ++
    [JObj [("bufferView", JInt accessorOffset); ("byteOffset", JInt 0);
           ("componentType", JInt 5125);
           ("count", JInt (Z.of_nat (length (faces mesh))));
           ("type", JStr "SCALAR")];
     JObj [("bufferView", JInt (accessorOffset + 1)); ("byteOffset", JInt 0);
           ("componentType", JInt 5126);
           ("count", JInt (Z.of_nat (length (positions mesh))));
           ("type", JStr "VEC3");
           ("max", jsonVec3 positionMax);
           ("min", jsonVec3 positionMin)];
     JObj [("bufferView", JInt (accessorOffset + 2)); ("byteOffset", JInt 0);
           ("componentType", JInt 5126);
           ("count", JInt (Z.of_nat (length (normals mesh))));
           ("type", JStr "VEC3")]] in
  let '(r, g, b) := toRgbNormalized color in
  let materials :=
    materials st ++
    [JObj [("pbrMetallicRoughness",
            JObj [("baseColorFactor", JArr [JNum r; JNum g; JNum b; JNum 1]);
                  ("metallicFactor", JInt 0);
                  ("roughnessFactor", JNum 0.5)])]] in
  {| primitives := primitives; accessors := accessors;
     bufferViews := bufferViews; binaryBuffer := binaryBuffer;
     materials := materials; byteOffset := byteOffset |}.

(** [createChunk]: the blocks of the chunk and its total length. *)
Definition createChunk (chunkType : Z) (buf : list (list byte)) (byteLength : Z)
    (padChar : Z) : list (list byte) * Z :=
  let '(byteLength, padding) :=
    if negb (byteLength mod 4 =? 0) then
      let pad := 4 - byteLength mod 4 in
      (byteLength + pad, Some (repeat (u8 padChar) (Z.to_nat pad)))
    else (byteLength, None) in
  let tmp := [uint32Bytes [byteLength; chunkType]] ++ buf in
  let tmp := match padding with Some padding => tmp ++ [padding] | None => tmp end in
  (tmp, byteLength + 8).

Definition gltfManifest (st : GlbState) (binaryBufferLength : Z) : Json :=
  JObj [("asset", JObj [("version", JStr "2.0")]);
        ("scenes", JArr [JObj [("nodes", JArr [JInt 0])]]);
        ("nodes", JArr [JObj [("mesh", JInt 0)]]);
        ("meshes", JArr [JObj [("primitives", JArr (primitives st))]]);
        ("buffers", JArr [JObj [("byteLength", JInt binaryBufferLength)]]);
        ("bufferViews", JArr (bufferViews st));
        ("accessors", JArr (accessors st));
        ("materials", JArr (materials st))].

Definition exportGlb (meshByColor : MeshByColor) : result (list byte) :=
  let st :=
    fold_left exportGlb_body meshByColor
      {| primitives := []; accessors := []; bufferViews := [];
         binaryBuffer := []; materials := []; byteOffset := 0 |} in
  let binaryBufferLength := byteOffset st in
  let gltf := gltfManifest st binaryBufferLength in
  let jsonString := stringify gltf in
  let jsonBuffer := charCodes jsonString in
  let '(jsonChunk, jsonChunkLength) :=
    createChunk 0x4E4F534A [jsonBuffer] (byteLength jsonBuffer) 0x20 in
  let '(binaryChunk, binaryChunkLength) :=
    createChunk 0x004E4942 (binaryBuffer st) binaryBufferLength 0x00 in
  let glbBufferLength := 12 + jsonChunkLength + binaryChunkLength in
  let glbBuffer :=
    [uint32Bytes [0x46546C67; 0x00000002; glbBufferLength]]
    ++ jsonChunk ++ binaryChunk in
  let glb := zeros glbBufferLength in
  Usdz.setAll glb glbBuffer 0.

End Numbers.

(** *** USDZ *)

(** [vecsToFloatArray]. *)
Definition vecsToFloatArray (v : list Vec3) : list float :=
  concat (map (fun p => [v0 p; v1 p; v2 p]) v).

(** The prims and attributes [exportUsdz] creates for one color; the
    identities are numbered in the order of creation. *)
Definition mkAttribute (id : nat) (name : string) (value : UsdValue)
    (valueTypeStr : string) (qualifiers : list string)
    (metadata : list (string * string)) : UsdAttribute :=
  {| att_id := id; att_name := name; att_value := value; att_frames := [];
     att_qualifiers := qualifiers; att_metadata := metadata;
     att_valueTypeStr := valueTypeStr; att_parent := None |}.

Definition usdMaterialOf (refId : nat) (color : Z) : UsdPrim :=
  let '(r, g, b) := toRgbNormalized color in
  let rgb := [r; g; b] in
  let a := (12 * refId)%nat in
  let surface := mkAttribute (a + 3) "outputs:surface" (VNull VT_token false) "token" [] [] in
  let usdShader :=
    Prim (4 + 3 * refId) "surfaceShader" "Shader" [] []
      (own
         [mkAttribute a "info:id" (VToken "UsdPreviewSurface") "token" ["uniform"] [];
          mkAttribute (a + 1) "inputs:diffuseColor" (VVec3f rgb) "color3f" [] [];
          mkAttribute (a + 2) "inputs:roughness" (VFloat 0x1.999999999999ap-3)
            "float" [] [];
          surface]) in
  Prim (3 + 3 * refId) ("k" +:+ decimal (Z.of_nat refId)) "Material" []
    [usdShader]
    (own [mkAttribute (a + 4) "outputs:surface" (VConnection (att_id surface))
            "token" [] []]).

Definition usdMeshOf (refId : nat) (mesh : Mesh) : UsdPrim :=
  let positions2 := vecsToFloatArray (positions mesh) in
  let normals2 := vecsToFloatArray (normals mesh) in
  let faceVertexCounts :=
    repeat 3 (Z.to_nat (Z.of_nat (length (faces mesh)) / 3)) in
  let a := (12 * refId)%nat in
  Prim (5 + 3 * refId) ("m" +:+ decimal (Z.of_nat refId)) "Mesh" [] []
    (own
       [mkAttribute (a + 5) "material:binding" (VRelationship (3 + 3 * refId))
          "rel" [] [];
        mkAttribute (a + 6) "doubleSided" (VBool false) "bool" [] [];
        mkAttribute (a + 7) "faceVertexCounts" (VIntArray faceVertexCounts)
          "int[]" [] [];
        mkAttribute (a + 8) "faceVertexIndices" (VIntArray (faces mesh)) "int[]" [] [];
        mkAttribute (a + 9) "points" (VVec3fArray positions2) "point3f[]" [] [];
        mkAttribute (a + 10) "primvars:normals" (VVec3fArray normals2) "normal3f[]" []
          [("interpolation", "vertex")];
        mkAttribute (a + 11) "subdivisionScheme" (VToken "none") "token"
          ["uniform"] []]).

(** The tree [exportUsdz] builds. *)
Definition usdTreeOf (meshByColor : MeshByColor) : UsdPrim :=
  let indexed := imap (fun refId entry => (refId, entry)) meshByColor in
  let materials := map (fun '(refId, (color, mesh)) => usdMaterialOf refId color) indexed in
  let meshes := map (fun '(refId, (color, mesh)) => usdMeshOf refId mesh) indexed in
  let materials_scope := Prim 2 "Materials" "Scope" [] materials [] in
  let usdObj :=
    Prim 1 "ar" "Xform"
      [MetaOther "assetInfo" (MDictionary [("name", "ar")]);
       MetaOther "kind" (MString "component")]
      (materials_scope :: meshes) [] in
  Prim 0 "" "" [] [usdObj] [].

Definition exportUsdz (meshByColor : MeshByColor) : result (list byte) :=
  let root := usdTreeOf meshByColor in
  '(_, crateFile) ← writeUsd root emptyHeap newCrateFile;
  getUsdz crateFile.

End MeshExporter.

(** ** The nodes of a scene tree, in the order the writer visits them *)

Module PathSpec.
Import Usd Crate.

(** A node of the tree is a prim or a property (an attribute, a
    connection or a relationship). *)
Inductive NodeKind := KPrim | KProperty.

#[global] Instance NodeKind_eq_decision : EqDecision NodeKind.
Proof. solve_decision. Defined.

Record Node := mkNode {
  node_kind : NodeKind;
  node_id : nat;
  node_name : string
}.

Definition primNode (p : UsdPrim) : Node := mkNode KPrim (prim_id p) (name p).
Definition attNode (a : UsdAttribute) : Node :=
  mkNode KProperty (att_id a) (att_name a).
Definition nodeKey (n : Node) : NodeKind * nat := (node_kind n, node_id n).

(** Depth first: a prim, then its children, then its properties. *)
Fixpoint nodes (p : UsdPrim) : list Node :=
  primNode p :: concat (map nodes (children p)) ++ map attNode (attributes p).

Definition size (p : UsdPrim) : Z := Z.of_nat (length (nodes p)).
Definition sizes (cs : list UsdPrim) : Z :=
  Z.of_nat (length (concat (map nodes cs))).

(** The nodes the writer visits under a root: the root itself, under
    the empty name, and the nodes of its children. The attributes of
    the root are not visited. *)
Definition rootNodes (root : UsdPrim) : list Node :=
  mkNode KPrim (prim_id root) "" :: concat (map nodes (children root)).

(** The nodes of a prim with two numbers each: the position of the node
    in the depth-first order, counted from [k], and the position of its
    owner, which is the prim itself for a prim and the prim that holds
    it for a property. *)
Fixpoint numbered (p : UsdPrim) (k : Z) : list (Node * Z * Z) :=
  (primNode p, k, k)
  :: (fix children_loop (cs : list UsdPrim) (k' : Z) : list (Node * Z * Z) :=
        match cs with
        | [] => []
        | c :: cs' => numbered c k' ++ children_loop cs' (k' + size c)
        end) (children p) (k + 1)
  ++ imap (fun j a => (attNode a, k + 1 + sizes (children p) + Z.of_nat j, k))
       (attributes p).

Fixpoint numberedList (cs : list UsdPrim) (k : Z) : list (Node * Z * Z) :=
  match cs with
  | [] => []
  | c :: cs' => numbered c k ++ numberedList cs' (k + size c)
  end.

Definition positionOf (e : Node * Z * Z) : Node * Z := (e.1.1, e.1.2).
Definition ownerOf (e : Node * Z * Z) : Node * Z := (e.1.1, e.2).

(** The [pathIndex] field of a node, and the store to it. *)
Definition pathIndexOf (h : Heap) (n : Node) : Z :=
  match node_kind n with
  | KPrim => primPathIndex h (node_id n)
  | KProperty => attPathIndex h (node_id n)
  end.

Definition store (h : Heap) (e : Node * Z) : Heap :=
  match node_kind e.1 with
  | KPrim => setPrimPathIndex h (node_id e.1) e.2
  | KProperty => setAttPathIndex h (node_id e.1) e.2
  end.

Definition storeAll (es : list (Node * Z)) (h : Heap) : Heap :=
  fold_left store es h.

(** The token of a path entry: the token index for a prim, its
    negation for a property. *)
Definition signedToken (k : NodeKind) (i : Z) : Z :=
  match k with KPrim => i | KProperty => - i end.

(** The token table and its index agree. *)
Definition tokensOK (cf : CrateFile) : Prop :=
  forall s i, tokenMap cf !! s = Some i ->
    0 <= i /\ tokens cf !! Z.to_nat i = Some s.

(** The path entry [e] is the entry of the node [n]: its token is the
    index of the name of [n] in the token table, with the sign of the
    kind of [n]. *)
Definition pathEntryOf (cf : CrateFile) (e : Z * Z * Z) (n : Node) : Prop :=
  exists i, tokenMap cf !! node_name n = Some i
            /\ e.1.2 = signedToken (node_kind n) i.

(** A step that leaves the path and spec tables alone and only adds
    tokens. *)
Definition extends (cf cf' : CrateFile) : Prop :=
  (tokensOK cf -> tokensOK cf')
  /\ tokenMap cf ⊆ tokenMap cf'
  /\ paths cf' = paths cf
  /\ specs cf' = specs cf.

Definition quiet {A} (m : M A) : Prop :=
  forall cf a cf', m cf = Ok (a, cf') -> extends cf cf'.

(** The common end of the property writers and of the prim writer: the
    field set, the spec, the token of the name and the path entry. *)
Definition specTail {A} (fset : list Z) (sType : SpecType) (nm : string)
    (jump : Z) (prim : bool) (k : Z -> M A) : M A :=
  fsetIndex ← addFieldSet fset;
  pathIndex ← addSpec fsetIndex sType;
  nameToken ← getTokenIndex nm;
  _ ← addPath pathIndex nameToken jump prim;
  k pathIndex.

(** What the writer has done after it has visited the nodes [ns], from
    the state [cf] and the heap [h]: every node has got the next spec
    index as its [pathIndex], and one path entry. *)
Definition wrote (ns : list Node) (h : Heap) (cf : CrateFile)
    (h' : Heap) (cf' : CrateFile) : Prop :=
  h' = storeAll
         (imap (fun j n => (n, Z.of_nat (length (specs cf)) + Z.of_nat j)) ns) h
  /\ (tokensOK cf -> tokensOK cf')
  /\ tokenMap cf ⊆ tokenMap cf'
  /\ length (specs cf') = (length (specs cf) + length ns)%nat
  /\ exists es, paths cf' = paths cf ++ es /\ Forall2 (pathEntryOf cf') es ns.

(** *** The errors of the writer

    The one error of [lz4Compress], and the methods that throw nothing
    else. *)
Definition tooLarge : string := "Buffer too large for LZ4 compression".

Definition throwsOnlyTooLarge {A} (m : M A) : Prop :=
  forall cf e, m cf = Err e -> e = tooLarge.

(** The trees on which [writeUsd] does not reach its [throw]
    statements: no value of a type [addField] does not know, no
    [references] entry in the metadata of a prim. *)
Definition knownValue (v : UsdValue) : bool :=
  match v with VUnsupported _ => false | _ => true end.

Definition knownMeta (entry : MetaEntry) : bool :=
  match entry with
  | MetaInherits _ => true
  | MetaOther name _ => String.eqb name "inherits" || negb (String.eqb name "references")
  end.

Fixpoint known (p : UsdPrim) : bool :=
  forallb knownMeta (metadata p)
  && forallb (fun a => knownValue (att_value a)) (attributes p)
  && forallb known (children p).

(** A small tree: a root with the prims [A] and [B]; [A] holds the
    prim [C] and the attribute [x]. *)
Definition exampleTree : UsdPrim :=
  Prim 0 "" "" []
    [Prim 1 "A" "Xform" []
       [Prim 2 "C" "Scope" [] [] []]
       [{| att_id := 0; att_name := "x"; att_value := VToken "t";
           att_frames := []; att_qualifiers := []; att_metadata := [];
           att_valueTypeStr := "token"; att_parent := Some [0%nat] |}];
     Prim 3 "B" "Scope" [] [] []]
    [].

(** A tree with one attribute in two prims: [x] was added to [A],
    then [y] was, and then [x] was added to [B], which is the parent of
    [x] since. *)
Definition sharedTree : UsdPrim :=
  let x := {| att_id := 0; att_name := "x"; att_value := VToken "t";
              att_frames := []; att_qualifiers := []; att_metadata := [];
              att_valueTypeStr := "token"; att_parent := Some [0%nat] |} in
  let y := {| att_id := 1; att_name := "y"; att_value := VToken "t";
              att_frames := []; att_qualifiers := []; att_metadata := [];
              att_valueTypeStr := "token"; att_parent := Some [0%nat; 1%nat] |} in
  Prim 0 "" "" []
    [Prim 1 "A" "Xform" [] [] [x; y];
     Prim 2 "B" "Xform" [] [] [x]]
    [].

End PathSpec.

(** ** Inputs and archive fields the statements below name *)

Module Scenarios.
Import JS Writer Usd Crate MeshExporter.

Definition newline : string := String (ascii_of_nat 10) EmptyString.

Definition vec (x y z : float) : Vec3 := {| v0 := x; v1 := y; v2 := z |}.

(** One triangle. *)
Definition triangle : Mesh :=
  {| positions := [vec 0 0 0; vec 1 0 0; vec 0 1 0];
     normals := [vec 0 0 1; vec 0 0 1; vec 0 0 1];
     faces := [0; 1; 2] |}.

(** A mesh that breaks every invariant of the data model: no position
    and one normal, the face indices 5 and 6, two of them. *)
Definition malformed : Mesh :=
  {| positions := []; normals := [vec 0 0 1]; faces := [5; 6] |}.

(** A mesh within the invariants whose faces alone fill [2 ^ 32 + 8]
    bytes: one point, and 357913942 faces on it. *)
Definition hugeFaces : Mesh :=
  {| positions := [vec 0 0 0]; normals := [vec 0 0 1];
     faces := repeat 0 (Z.to_nat 1073741826) |}.

(** A mesh whose points fill [2 ^ 32 + 8] bytes. *)
Definition hugePoints : Mesh :=
  {| positions := repeat (vec 0 0 0) (Z.to_nat 357913942);
     normals := []; faces := [] |}.

(** The header of a GLB file, read back. *)
Definition glbMagic (glb : list byte) : Z := unle (take 4 glb).
Definition glbVersion (glb : list byte) : Z := unle (take 4 (drop 4 glb)).
Definition glbDeclaredLength (glb : list byte) : Z := unle (take 4 (drop 8 glb)).

(** A chunk of a GLB file: declared length, type, data and padding. *)
Definition glbChunk (chunkType : Z) (data padding : list byte) : list byte :=
  le 4 (Z.of_nat (length (data ++ padding))) ++ le 4 chunkType ++ data ++ padding.

(** The state of [exportGlb] after its loop. *)
Definition glbState (meshByColor : MeshByColor) : GlbState :=
  fold_left exportGlb_body meshByColor
    {| primitives := []; accessors := []; bufferViews := [];
       binaryBuffer := []; materials := []; byteOffset := 0 |}.

End Scenarios.

(** ** Notions the further properties are stated with *)

Module Measures.
Import JS IntCoding.

(** The deltas [usdInt32Compress] codes: each value minus the one
    before it, the first minus [preValue]. *)
Fixpoint deltas (values : list Z) (preValue : Z) : list Z :=
  match values with
  | [] => []
  | curValue :: values' => (curValue - preValue) :: deltas values' curValue
  end.

(** The number of bytes a delta takes after the code table. *)
Definition deltaWidth (commonValue value : Z) : Z :=
  if value =? commonValue then 0
  else if (value <=? 0x7F) && (-0x80 <=? value) then 1
  else if (value <=? 0x7FFF) && (-0x8000 <=? value) then 2
  else 4.

Fixpoint sumZ (xs : list Z) : Z :=
  match xs with
  | [] => 0
  | x :: xs' => x + sumZ xs'
  end.

(** How often [d] occurs in [ds]. *)
Definition occurrences (d : Z) (ds : list Z) : Z :=
  Z.of_nat (count_occ Z.eq_dec ds d).

(** The delta [usdInt32Compress] takes as the common one. *)
Definition commonDelta (values : list Z) : Z :=
  fst (pickCommon (tally values 0 [])).

(** The table of [tally] holds, for each delta seen, how often it was
    seen. *)
Definition tallied (counts : Counts) (ds : list Z) : Prop :=
  NoDup (map fst counts)
  /\ forall d, countsGet counts d
               = if decide (d ∈ ds) then Some (occurrences d ds) else None.

(** A little-endian field of [size] bytes at [offset] of a record. *)
Definition fieldAt (record : list byte) (offset size : nat) : Z :=
  unle (take size (drop offset record)).

End Measures.

(** ** Relations and invariants of the states of the Crate writer *)

Module Steps.
Import JS Writer Usd Crate.

(** Every normal run of [m] takes a state to one that [R] relates to
    it. *)
Definition follows {A} (R : relation CrateFile) (m : M A) : Prop :=
  forall cf a cf', m cf = Ok (a, cf') -> R cf cf'.

(** A relation that the steps of the writers of the scene tree follow:
    it is reflexive and transitive, and every write to the file and
    every method that changes a table follows it. *)
Record Respected (R : relation CrateFile) : Prop := {
  resp_refl : forall cf, R cf cf;
  resp_trans : forall cf1 cf2 cf3, R cf1 cf2 -> R cf2 cf3 -> R cf1 cf3;
  resp_write : forall buffer cf, R cf (set_file (write (file cf) buffer) cf);
  resp_addWrittenData :
    forall data vType ref, follows R (addWrittenData data vType ref);
  resp_setFramesRef : forall ref, follows R (setFramesRef ref);
  resp_getTokenIndex : forall token, follows R (getTokenIndex token);
  resp_getStringIndex : forall str, follows R (getStringIndex str);
  resp_addFieldSet : forall fset, follows R (addFieldSet fset);
  resp_addFieldItem :
    forall field vType array inline compressed payload,
      follows R (addFieldItem field vType array inline compressed payload);
  resp_addPath :
    forall path token jump prim, follows R (addPath path token jump prim);
  resp_addSpec : forall fset sType, follows R (addSpec fset sType)
}.

(** The steps at the two ends of [writeUsd]. *)
Record RespectedEnds (R : relation CrateFile) : Prop := {
  ends_writeBootstrap : follows R writeBootstrap;
  ends_pushToc : forall name start size, follows R (pushToc name start size);
  ends_storeTocStart : forall tocStart cf, R cf (storeTocStart tocStart cf)
}.

(** The part of [writeUsd] between the bootstrap and the sections. *)
Definition writeTree (usdData : UsdPrim) (h : Heap) : M Heap :=
  fm ← mapM addRootMetadata (metadata usdData);
  fc ← match children usdData with
       | [] => mret []
       | cs => i ← addFieldTokenVector "primChildren" (map name cs); mret [i]
       end;
  let fset := concat fm ++ fc in
  fsetIndex ← addFieldSet fset;
  usdData_pathIndex ← addSpec fsetIndex SpecPseudoRoot;
  let h := setPrimPathIndex h (prim_id usdData) usdData_pathIndex in
  nameToken ← getTokenIndex "";
  let pathJump := primPathJump usdData None in
  _ ← addPath usdData_pathIndex nameToken pathJump false;
  writeUsdPrims (children usdData) (Some usdData) h.

(** An invariant, as a relation between the states before and after. *)
Definition keeps (I : CrateFile -> Prop) : relation CrateFile :=
  fun cf cf' => I cf -> I cf'.

(** *** The rows of the path and spec tables *)






(** *** The reps of the fields *)

(** The 64-bit word of a rep as the format lays it out: the payload in
    the low 32 bits, the value type from bit 48, the flags in the bits
    63 (array), 62 (inline) and 61 (compressed). *)
Definition repWord (vType : ValueType) (array inline compressed : bool)
    (payload : Z) : Z :=
  payload mod 2 ^ 32 + 2 ^ 48 * valueTypeCode vType
  + (if array then 2 ^ 63 else 0) + (if inline then 2 ^ 62 else 0)
  + (if compressed then 2 ^ 61 else 0).

(** The key under which [addFieldItem] remembers an item: the number
    its sums come to in binary64. *)
Definition fieldKey (field : Z) (array inline compressed : bool) (payload : Z) : Z :=
  let key := fadd payload (fmul field (2 ^ 32)) in
  let key := if array then fadd key (2 ^ 42) else key in
  let key := if compressed then fadd key (2 ^ 40) else key in
  if inline then fadd key (2 ^ 41) else key.

(** The same sums without rounding: the field from bit 32, above the
    payload, and the flags added at the bits 42, 41 and 40. *)
Definition repKey (field : Z) (array inline compressed : bool) (payload : Z) : Z :=
  payload + field * 2 ^ 32
  + (if array then 2 ^ 42 else 0) + (if compressed then 2 ^ 40 else 0)
  + (if inline then 2 ^ 41 else 0).

(** The exponent field of the double that has the bits of [word]. *)
Definition exponentField (word : Z) : Z := (word / 2 ^ 52) mod 2 ^ 11.

(** *** The layout of the file *)

(** [tell] is the number of bytes in the file. *)
Definition posOK (cf : CrateFile) : Prop :=
  pos (file cf) = Z.of_nat (length (concat (buffers (file cf)))).

(** The file has grown at its end, and nothing else about it has
    changed. *)
Definition appended (cf cf' : CrateFile) : Prop :=
  (exists more, buffers (file cf') = buffers (file cf) ++ more)
  /\ tocStartBuffer cf' = tocStartBuffer cf
  /\ tocAliases cf' = tocAliases cf
  /\ toc cf' = toc cf
  /\ (posOK cf -> posOK cf').

(** The common shape of the six methods that write a section. *)
Definition tocSection (name : string) (body : M unit) : M unit :=
  start ← fileTell;
  _ ← body;
  end_ ← fileTell;
  let size := end_ - start in
  pushToc name start size.

(** The table of contents of sections that follow one another from
    [start]. *)
Fixpoint sectionTable (names : list string) (start : Z) (sizes : list Z)
  : list (string * Z * Z) :=
  match names, sizes with
  | name :: names', size :: sizes' =>
      (name, start, size) :: sectionTable names' (start + size) sizes'
  | _, _ => []
  end.

(** The 32 bytes of an entry of the table of contents. *)
Definition tocEntryBytes (entry : string * Z * Z) : list byte :=
  let '(name, start, size) := entry in
  tocName name ++ writeInt_bytes start 8 false ++ writeInt_bytes size 8 false.

(** *** Invariants of the tables *)

(** Every token of the table is indexed by the map, at its place. *)
Definition tokensFull (cf : CrateFile) : Prop :=
  forall i s, tokens cf !! i = Some s -> tokenMap cf !! s = Some (Z.of_nat i).

(** The string table holds indices of tokens, none twice. *)
Definition stringsOK (cf : CrateFile) : Prop :=
  NoDup (strings cf)
  /\ Forall (fun s => 0 <= s < Z.of_nat (length (tokens cf))) (strings cf).

Definition tokenTablesOK (cf : CrateFile) : Prop :=
  PathSpec.tokensOK cf /\ tokensFull cf /\ stringsOK cf.

End Steps.

(** ** Reading the glTF manifest *)

Module Manifest.
Import JS MeshExporter.

(** A member of a JSON object, and a member that is an integer. *)
Definition member (key : string) (j : Json) : option Json :=
  match j with
  | JObj members => snd <$> find (fun m => String.eqb (fst m) key) members
  | _ => None
  end.

Definition intMember (key : string) (j : Json) : option Z :=
  match member key j with
  | Some (JInt z) => Some z
  | _ => None
  end.

Definition stringMember (key : string) (j : Json) : option string :=
  match member key j with
  | Some (JStr s) => Some s
  | _ => None
  end.

(** The byte range of a buffer view: its offset and its length. *)
Definition viewRange (view : Json) : option (Z * Z) :=
  offset ← intMember "byteOffset" view;
  len ← intMember "byteLength" view;
  Some (offset, len).

(** The byte ranges of blocks laid one after the other from
    [offset]. *)
Fixpoint blockRanges (blocks : list (list byte)) (offset : Z) : list (Z * Z) :=
  match blocks with
  | [] => []
  | block :: blocks' =>
      (offset, Z.of_nat (length block))
      :: blockRanges blocks' (offset + Z.of_nat (length block))
  end.

(** The number of bytes the elements of an accessor take: its count
    times the size of a 32-bit scalar or of three 32-bit floats. *)
Definition accessorBytes (accessor : Json) : option Z :=
  count ← intMember "count" accessor;
  type ← stringMember "type" accessor;
  if String.eqb type "SCALAR" then Some (4 * count)
  else if String.eqb type "VEC3" then Some (12 * count)
  else None.

(** The views, the accessors and the blocks of the binary buffer go
    together. *)
Definition viewsMatch (st : GlbState) : Prop :=
  map viewRange (bufferViews st) = map Some (blockRanges (binaryBuffer st) 0)
  /\ byteOffset st = Z.of_nat (length (concat (binaryBuffer st)))
  /\ map (intMember "bufferView") (accessors st)
     = map (fun j => Some (Z.of_nat j)) (seq 0 (length (binaryBuffer st)))
  /\ map accessorBytes (accessors st)
     = map (fun b : list byte => Some (Z.of_nat (length b))) (binaryBuffer st)
  /\ length (accessors st) = length (binaryBuffer st).

(** The loop of [computeBounding], from any bounds. *)
Definition boundingFrom (points : list Vec3) (bounds : Vec3 * Vec3) : Vec3 * Vec3 :=
  fold_left
    (fun '(min, max) point =>
       ({| v0 := mathMin (v0 point) (v0 min);
           v1 := mathMin (v1 point) (v1 min);
           v2 := mathMin (v2 point) (v2 min) |},
        {| v0 := mathMax (v0 point) (v0 max);
           v1 := mathMax (v1 point) (v1 max);
           v2 := mathMax (v2 point) (v2 max) |}))
    points bounds.

End Manifest.

(** * Properties *)

(** ** Bytes and typed arrays *)

Ltac Zify.zify_post_hook ::= Z.to_euclidean_division_equations.

(** Numerals for the powers of two that bound the machine integers. *)
Ltac pow2 :=
  change (2 ^ 8) with 256 in *;
  change (2 ^ 16) with 65536 in *;
  change (2 ^ 31) with 2147483648 in *;
  change (2 ^ 32) with 4294967296 in *.

(** Case analysis on the integer comparisons of a goal. *)
Ltac zcases :=
  repeat match goal with
  | |- context [?a <? ?b] => destruct (Z.ltb_spec a b)
  | |- context [?a <=? ?b] => destruct (Z.leb_spec a b)
  | |- context [?a =? ?b] => destruct (Z.eqb_spec a b)
  end.

Section JSFacts.
Import JS.

Lemma byteZ_range (b : byte) : 0 <= byteZ b < 256.
Proof.
  unfold byteZ. pose proof (Byte.to_N_bounded b). lia.
Qed.

Lemma byteZ_u8 (z : Z) : byteZ (u8 z) = z mod 256.
Proof.
  unfold byteZ, u8.
  destruct (Byte.of_N (Z.to_N (z mod 256))) as [b|] eqn:E.
  - apply Byte.to_of_N in E. rewrite E. lia.
  - apply Byte.of_N_None_iff in E. lia.
Qed.

Lemma u8_byteZ (b : byte) : u8 (byteZ b) = b.
Proof.
  unfold u8, byteZ. pose proof (Byte.to_N_bounded b).
  replace (Z.to_N (Z.of_N (Byte.to_N b) mod 256)) with (Byte.to_N b) by lia.
  by rewrite Byte.of_to_N.
Qed.

Lemma byteZ_inj (a b : byte) : byteZ a = byteZ b -> a = b.
Proof. intros H. rewrite <- (u8_byteZ a), <- (u8_byteZ b). by rewrite H. Qed.

Lemma byteZ_u8_small (z : Z) : 0 <= z < 256 -> byteZ (u8 z) = z.
Proof. intros. rewrite byteZ_u8. lia. Qed.

Lemma toInt32_small (z : Z) : - 2 ^ 31 <= z < 2 ^ 31 -> toInt32 z = z.
Proof. unfold toInt32. pow2. lia. Qed.

Lemma toInt32_range (z : Z) : - 2 ^ 31 <= toInt32 z < 2 ^ 31.
Proof. unfold toInt32. pow2. lia. Qed.

Lemma get_nat {A} (l : list A) (i : nat) : get l (Z.of_nat i) = l !! i.
Proof. unfold get. zcases; [lia|]. by rewrite Nat2Z.id. Qed.

Lemma get_Some_lt {A} (l : list A) (i : Z) x :
  get l i = Some x -> 0 <= i < Z.of_nat (length l).
Proof.
  unfold get. zcases; [done|]. intros Hl%lookup_lt_Some. lia.
Qed.

Lemma get_lt_is_Some {A} (l : list A) (i : Z) :
  0 <= i < Z.of_nat (length l) -> is_Some (get l i).
Proof.
  intros. unfold get. zcases; [lia|]. apply lookup_lt_is_Some. lia.
Qed.

Lemma length_blit (buf src : list byte) (off : nat) :
  (off + length src <= length buf)%nat ->
  length (blit buf src off) = length buf.
Proof.
  intros. unfold blit. rewrite !length_app, length_take, length_drop. lia.
Qed.

Lemma blit_nil (buf : list byte) (off : nat) : blit buf [] off = buf.
Proof. unfold blit. simpl. rewrite Nat.add_0_r. apply take_drop. Qed.

(** Writing [b] right after a block [a] written at [off] is writing
    [a ++ b] at [off]. *)
Lemma blit_blit (buf a b : list byte) (off : nat) :
  (off + length a + length b <= length buf)%nat ->
  blit (blit buf a off) b (off + length a) = blit buf (a ++ b) off.
Proof.
  intros. unfold blit.
  rewrite take_app_ge by (rewrite length_take; lia).
  rewrite length_take, Nat.min_l by lia.
  rewrite take_app_ge by lia.
  replace (off + length a - off - length a)%nat with 0%nat by lia.
  rewrite take_0, app_nil_r.
  rewrite drop_app_ge by (rewrite length_take; lia).
  rewrite length_take, Nat.min_l by lia.
  rewrite drop_app_ge by lia.
  rewrite drop_drop, length_app, <- !app_assoc.
  do 4 f_equal. lia.
Qed.

Lemma put_blit_end (buf w : list byte) (off : nat) (v : Z) :
  (off + length w < length buf)%nat ->
  put (blit buf w off) (Z.of_nat off + Z.of_nat (length w)) v
  = blit buf (w ++ [u8 v]) off.
Proof.
  intros. unfold put. zcases; [lia|].
  rewrite <- (blit_blit buf w [u8 v]) by (simpl; lia).
  replace (Z.to_nat (Z.of_nat off + Z.of_nat (length w))) with (off + length w)%nat by lia.
  set (d := blit buf w off).
  assert (Hd : length d = length buf) by (apply length_blit; lia).
  unfold blit at 1. simpl.
  rewrite <- (take_drop (off + length w) d) at 1.
  rewrite insert_app_r_alt by (rewrite length_take; lia).
  rewrite length_take, Nat.min_l by lia.
  rewrite Nat.sub_diag.
  destruct (drop (off + length w) d) as [|x l] eqn:E.
  - apply (f_equal length) in E. rewrite length_drop in E. simpl in E. lia.
  - simpl. do 2 f_equal.
    rewrite <- drop_drop, E. done.
Qed.

Lemma set_blit_end (buf w src : list byte) (off : nat) :
  (off + length w + length src <= length buf)%nat ->
  set (blit buf w off) src (Z.of_nat off + Z.of_nat (length w))
  = Ok (blit buf (w ++ src) off).
Proof.
  intros. unfold set.
  rewrite length_blit by lia.
  zcases; simpl; [lia..|].
  - f_equal.
    replace (Z.to_nat (Z.of_nat off + Z.of_nat (length w))) with (off + length w)%nat by lia.
    apply blit_blit. lia.
Qed.

Lemma getInt_blit_head (buf w : list byte) (t : byte) (off : nat) :
  (off + S (length w) <= length buf)%nat ->
  getInt (blit buf (t :: w) off) (Z.of_nat off) = byteZ t.
Proof.
  intros. unfold getInt. rewrite get_nat. unfold blit.
  rewrite lookup_app_r by (rewrite length_take; lia).
  rewrite length_take, Nat.min_l by lia.
  by rewrite Nat.sub_diag.
Qed.

Lemma put_blit_head (buf w : list byte) (t : byte) (off : nat) (v : Z) :
  (off + S (length w) <= length buf)%nat ->
  put (blit buf (t :: w) off) (Z.of_nat off) v = blit buf (u8 v :: w) off.
Proof.
  intros. unfold put. zcases; [lia|]. rewrite Nat2Z.id. unfold blit.
  rewrite insert_app_r_alt by (rewrite length_take; lia).
  rewrite length_take, Nat.min_l by lia.
  by rewrite Nat.sub_diag.
Qed.

Lemma take_blit (buf w : list byte) (off : nat) :
  (off + length w <= length buf)%nat ->
  take (off + length w) (blit buf w off) = take off buf ++ w.
Proof.
  intros. unfold blit.
  rewrite take_app_ge by (rewrite length_take; lia).
  rewrite length_take, Nat.min_l by lia.
  replace (off + length w - off)%nat with (length w) by lia.
  by rewrite take_app_length.
Qed.

Lemma length_le (n : nat) (v : Z) : length (le n v) = n.
Proof. revert v. induction n; intros; simpl; [done|]. by rewrite IHn. Qed.

Lemma unle_le (n : nat) (v : Z) : unle (le n v) = v mod 2 ^ (8 * Z.of_nat n).
Proof.
  revert v. induction n as [|n IH]; intros v.
  - simpl. by rewrite Z.mod_1_r.
  - cbn [le unle]. rewrite IH, byteZ_u8.
    replace (8 * Z.of_nat (S n)) with (8 + 8 * Z.of_nat n) by lia.
    rewrite Z.pow_add_r by lia. change (2 ^ 8) with 256.
    rewrite Z.rem_mul_r by lia. done.
Qed.

Lemma unle_range (bs : list byte) : 0 <= unle bs < 2 ^ (8 * Z.of_nat (length bs)).
Proof.
  induction bs as [|b bs IH].
  - simpl. lia.
  - cbn [unle length]. pose proof (byteZ_range b).
    replace (8 * Z.of_nat (S (length bs))) with (8 + 8 * Z.of_nat (length bs)) by lia.
    rewrite Z.pow_add_r by lia. change (2 ^ 8) with 256. lia.
Qed.

End JSFacts.

(** ** LZ4: what [copySequence] writes *)

Ltac list_len :=
  repeat first
    [ progress cbn [length]
    | rewrite length_app
    | rewrite length_le
    | rewrite repeat_length ].

Section LZ4Sequence.
Import JS LZ4.

(** Enumerate a nibble. *)
Lemma nibble_cases (x : Z) : 0 <= x <= 15 ->
  x = 0 \/ x = 1 \/ x = 2 \/ x = 3 \/ x = 4 \/ x = 5 \/ x = 6 \/ x = 7 \/
  x = 8 \/ x = 9 \/ x = 10 \/ x = 11 \/ x = 12 \/ x = 13 \/ x = 14 \/ x = 15.
Proof. lia. Qed.

Ltac nibble x H :=
  let C := fresh in
  pose proof (nibble_cases x H) as C;
  repeat (destruct C as [C|C]; [subst x|]); [..|subst x].

Lemma shl4_nibble (x : Z) : 0 <= x <= 15 -> shl x 4 = 16 * x.
Proof. intros H. nibble x H; reflexivity. Qed.

Lemma or_nibbles (hi lo : Z) :
  0 <= hi <= 15 -> 0 <= lo <= 15 -> or (16 * hi) lo = 16 * hi + lo.
Proof. intros H1 H2. nibble hi H1; nibble lo H2; reflexivity. Qed.

Lemma token_hi (hi lo : Z) :
  0 <= hi <= 15 -> 0 <= lo <= 15 ->
  Z.shiftr (byteZ (u8 (16 * hi + lo))) 4 = hi.
Proof.
  intros. rewrite byteZ_u8_small by lia.
  rewrite Z.shiftr_div_pow2 by lia. change (2 ^ 4) with 16. lia.
Qed.

Lemma token_lo (hi lo : Z) :
  0 <= hi <= 15 -> 0 <= lo <= 15 ->
  Z.land (byteZ (u8 (16 * hi + lo))) 15 = lo.
Proof.
  intros. rewrite byteZ_u8_small by lia.
  change 15 with (Z.ones 4). rewrite Z.land_ones by lia.
  change (2 ^ 4) with 16. lia.
Qed.

Lemma and_0xFF (x : Z) : 0 <= x < 2 ^ 31 -> and x 0xFF = x mod 256.
Proof.
  intros. unfold and. rewrite (toInt32_small x) by (pow2; lia).
  change (toInt32 255) with (Z.ones 8).
  rewrite Z.land_ones by lia. pow2. apply toInt32_small. pow2. lia.
Qed.

Lemma sar8 (x : Z) : 0 <= x < 2 ^ 31 -> sar x 8 = x / 256.
Proof.
  intros. unfold sar. rewrite (toInt32_small x) by (pow2; lia).
  change (8 mod 32) with 8. by rewrite Z.shiftr_div_pow2 by lia.
Qed.

Lemma u8_mod (x : Z) : u8 (x mod 256) = u8 x.
Proof. apply byteZ_inj. rewrite !byteZ_u8. lia. Qed.

Lemma writeLeUint16_blit (buf w : list byte) (off : nat) (val : Z) :
  0 <= val < 2 ^ 16 ->
  (off + length w + 2 <= length buf)%nat ->
  writeLeUint16 (blit buf w off) (Z.of_nat off + Z.of_nat (length w)) val
  = blit buf (w ++ le 2 val) off.
Proof.
  intros Hv Hl. unfold writeLeUint16.
  rewrite put_blit_end by lia.
  replace (Z.of_nat off + Z.of_nat (length w) + 1)
    with (Z.of_nat off + Z.of_nat (length (w ++ [u8 (and val 255)])))
    by (rewrite length_app; simpl; lia).
  rewrite put_blit_end by (rewrite length_app; simpl; lia).
  rewrite <- app_assoc. simpl.
  rewrite sar8 by (pow2; lia).
  rewrite !and_0xFF by (pow2; lia).
  by rewrite !u8_mod.
Qed.

Lemma lenBytes_loop_blit (n : nat) (buf w : list byte) (off : nat) (rem : Z) :
  n = Z.to_nat (rem / 255) -> 0 <= rem ->
  (off + length w + n <= length buf)%nat ->
  lenBytes_loop n (blit buf w off) (Z.of_nat off + Z.of_nat (length w)) rem
  = (blit buf (w ++ repeat xff n) off,
     Z.of_nat off + Z.of_nat (length w) + Z.of_nat n,
     rem mod 255).
Proof.
  revert w rem. induction n as [|n IH]; intros w rem Hn Hrem Hl.
  - simpl. rewrite app_nil_r. f_equal; [f_equal|]; lia.
  - cbn [lenBytes_loop]. destruct (Z.leb_spec 255 rem); [|lia].
    rewrite put_blit_end by lia.
    replace (Z.of_nat off + Z.of_nat (length w) + 1)
      with (Z.of_nat off + Z.of_nat (length (w ++ [u8 255])))
      by (rewrite length_app; simpl; lia).
    rewrite IH; [|lia|lia|rewrite length_app; simpl; lia].
    rewrite <- app_assoc. simpl. rewrite length_app. simpl.
    f_equal; [f_equal|]; lia.
Qed.

Lemma length_lenExt (n : Z) : 0 <= n ->
  Z.of_nat (length (lenExt n)) = n / 255 + 1.
Proof.
  intros. unfold lenExt. rewrite length_app, repeat_length. simpl. lia.
Qed.

Lemma length_lenTail (n : Z) : 0 <= n ->
  Z.of_nat (length (lenTail n)) = if 15 <=? n then (n - 15) / 255 + 1 else 0.
Proof.
  intros. unfold lenTail. zcases; [|done]. apply length_lenExt. lia.
Qed.

(** Writing the length continuation and its last byte. *)
Lemma lenBytes_blit (buf w : list byte) (off : nat) (rem : Z) d p r :
  0 <= rem ->
  (off + length w + length (lenExt rem) <= length buf)%nat ->
  lenBytes (blit buf w off) (Z.of_nat off + Z.of_nat (length w)) rem = (d, p, r) ->
  put d p r = blit buf (w ++ lenExt rem) off
  /\ p + 1 = Z.of_nat off + Z.of_nat (length (w ++ lenExt rem)).
Proof.
  intros Hrem Hl. pose proof (length_lenExt rem Hrem) as HL.
  unfold lenBytes.
  rewrite lenBytes_loop_blit by lia.
  intros [= <- <- <-].
  replace (Z.of_nat off + Z.of_nat (length w) + Z.of_nat (Z.to_nat (rem / 255)))
    with (Z.of_nat off + Z.of_nat (length (w ++ repeat xff (Z.to_nat (rem / 255)))))
    by (rewrite length_app, repeat_length; lia).
  rewrite put_blit_end by (rewrite length_app, repeat_length; lia).
  unfold lenExt. rewrite <- !app_assoc.
  split; [done|]. rewrite !length_app, repeat_length. simpl. lia.
Qed.

(** The position right after a block [w] written at [off]. *)
Ltac at_end buf w off :=
  match goal with
  | |- context [put (blit buf w off) ?p _] =>
      replace p with (Z.of_nat off + Z.of_nat (length w))
        by (rewrite ?length_app; simpl; lia)
  | |- context [set (blit buf w off) _ ?p] =>
      replace p with (Z.of_nat off + Z.of_nat (length w))
        by (rewrite ?length_app; simpl; lia)
  | |- context [writeLeUint16 (blit buf w off) ?p _] =>
      replace p with (Z.of_nat off + Z.of_nat (length w))
        by (rewrite ?length_app; simpl; lia)
  | |- context [lenBytes (blit buf w off) ?p _] =>
      replace p with (Z.of_nat off + Z.of_nat (length w))
        by (rewrite ?length_app; simpl; lia)
  end.

Lemma length_seqBytes (lit : list byte) (off mlen : Z) :
  mlen = 0 \/ MIN_MATCH <= mlen ->
  Z.of_nat (length (seqBytes lit off mlen)) =
    1 + Z.of_nat (length (lenTail (Z.of_nat (length lit)))) + Z.of_nat (length lit)
    + (if 0 <? mlen then 2 + Z.of_nat (length (lenTail (mlen - MIN_MATCH))) else 0).
Proof.
  intros. unfold seqBytes. zcases; cbn [length]; rewrite ?length_app, ?length_le; lia.
Qed.

(** [copySequence] writes [seqBytes] at [dstHead] when it fits. *)
Lemma copySequence_blit (dst lit : list byte) (h : nat) (off mlen : Z) :
  mlen = 0 \/ MIN_MATCH <= mlen ->
  0 <= off < 2 ^ 16 ->
  (h + length (seqBytes lit off mlen) <= length dst)%nat ->
  copySequence dst (Z.of_nat h) lit off mlen
  = Ok (blit dst (seqBytes lit off mlen) h,
        Z.of_nat (length (seqBytes lit off mlen))).
Proof.
  intros Hm Hoff Hfit.
  pose proof (length_seqBytes lit off mlen Hm) as Hlen.
  set (L := Z.of_nat (length lit)) in *.
  assert (HL : 0 <= L) by (subst L; lia).
  unfold copySequence. fold L. cbv zeta. unfold MIN_MATCH in *.
  assert (Hput : forall v, put dst (Z.of_nat h) v = blit dst [u8 v] h).
  { intros v. rewrite <- (blit_nil dst h) at 1.
    replace (Z.of_nat h) with (Z.of_nat h + Z.of_nat (length (@nil byte)))
      at 1 by (simpl; lia).
    rewrite put_blit_end; [done|]. revert Hlen Hfit. simpl. zcases; lia. }
  (* the token and the literal length *)
  assert (Hlit : exists t,
    (if 15 <=? L
     then let '(dst0, dstPtr, remLen) :=
            lenBytes (put dst (Z.of_nat h) (shl 15 4)) (Z.of_nat h + 1) (L - 15) in
          (put dst0 dstPtr remLen, dstPtr + 1)
     else (put dst (Z.of_nat h) (shl L 4), Z.of_nat h + 1))
    = (blit dst (t :: lenTail L) h, Z.of_nat h + Z.of_nat (length (t :: lenTail L)))
    /\ t = u8 (16 * Z.min L 15)).
  { exists (u8 (16 * Z.min L 15)). split; [|reflexivity].
    rewrite !Hput. unfold lenTail. destruct (Z.leb_spec 15 L).
    - at_end dst [u8 (shl 15 4)] h.
      destruct (lenBytes _ _ _) as [[d p] r] eqn:E.
      apply lenBytes_blit in E as [-> ->]; [|lia|].
      + rewrite Z.min_r by lia. reflexivity.
      + revert Hlen Hfit. unfold lenTail. zcases; try lia; simpl length; lia.
    - rewrite shl4_nibble, Z.min_l by lia. reflexivity. }
  destruct Hlit as (t & -> & Ht).
  rewrite set_blit_end by (revert Hlen Hfit; simpl length; zcases; lia).
  cbn [mbind result_bind].
  unfold seqBytes. fold L. unfold MIN_MATCH.
  destruct (Z.ltb_spec 0 mlen) as [Hpos|Hz].
  - (* a match follows *)
    replace (Z.of_nat h + Z.of_nat (length (t :: lenTail L)) + L)
      with (Z.of_nat h + Z.of_nat (length ((t :: lenTail L) ++ lit)))
      by (rewrite length_app; lia).
    rewrite writeLeUint16_blit
      by (try lia; revert Hlen Hfit; list_len; zcases; lia).
    rewrite <- !app_comm_cons.
    rewrite getInt_blit_head by (revert Hlen Hfit; list_len; zcases; lia).
    rewrite !put_blit_head by (revert Hlen Hfit; list_len; zcases; lia).
    subst t. rewrite byteZ_u8_small by lia.
    destruct (Z.leb_spec 15 (mlen - 4)) as [Hbig|Hsmall].
    + replace (lenTail (mlen - 4)) with (lenExt (mlen - 4 - 15)) in *
        by (unfold lenTail; zcases; [done|lia]).
      rewrite or_nibbles by lia.
      match goal with |- context [lenBytes (blit dst ?w h) ?p _] =>
        replace p with (Z.of_nat h + Z.of_nat (length w)) by (list_len; lia) end.
      destruct (lenBytes _ _ _) as [[d p] r] eqn:E.
      apply lenBytes_blit in E as [-> ->]; [|lia|].
      * rewrite (Z.min_r (mlen - 4)) by lia.
        rewrite <- !app_comm_cons, <- !app_assoc. do 2 f_equal.
        list_len. lia.
      * revert Hlen Hfit. list_len. lia.
    + replace (lenTail (mlen - 4)) with (@nil byte) in *
        by (unfold lenTail; zcases; [lia|done]).
      rewrite or_nibbles by lia.
      rewrite (Z.min_l (mlen - 4)) by lia. rewrite app_nil_r, <- app_assoc.
      do 2 f_equal. list_len. lia.
  - (* the last sequence: no match *)
    subst t. do 2 f_equal. list_len. lia.
Qed.

End LZ4Sequence.

(** ** LZ4: the reference decoder on one sequence *)

Section LZ4Decode.
Import JS LZ4.

Lemma readLen_repeat (k : nat) (r acc : Z) (rest : list byte) :
  0 <= r < 255 ->
  readLen (repeat xff k ++ u8 r :: rest) acc = Some (acc + 255 * Z.of_nat k + r, rest).
Proof.
  intros Hr. revert acc. induction k as [|k IH]; intros acc.
  - simpl. rewrite byteZ_u8_small by lia.
    destruct (Z.eqb_spec r 255); [lia|]. do 2 f_equal. lia.
  - simpl. rewrite IH. do 2 f_equal. lia.
Qed.

Lemma readLen_lenExt (n acc : Z) (rest : list byte) :
  0 <= n -> readLen (lenExt n ++ rest) acc = Some (acc + n, rest).
Proof.
  intros. unfold lenExt. rewrite <- app_assoc. simpl.
  rewrite readLen_repeat by lia. do 2 f_equal. lia.
Qed.

Lemma readLength_lenTail (n : Z) (rest : list byte) :
  0 <= n -> readLength (Z.min n 15) (lenTail n ++ rest) = Some (n, rest).
Proof.
  intros. unfold readLength, lenTail. destruct (Z.leb_spec 15 n).
  - rewrite Z.min_r by lia. simpl. rewrite readLen_lenExt by lia.
    do 2 f_equal. lia.
  - rewrite Z.min_l by lia. destruct (Z.eqb_spec n 15); [lia|done].
Qed.

(** More fuel does not change a result. *)
Lemma decode_loop_mono (n m : nat) (inp out r : list byte) (lm : option Z) :
  decode_loop n inp out lm = Some r -> (n <= m)%nat ->
  decode_loop m inp out lm = Some r.
Proof.
  revert m inp out lm. induction n as [|n IH]; intros m inp out lm H Hle; [done|].
  destruct m as [|m]; [lia|].
  cbn [decode_loop] in *.
  destruct inp as [|token inp]; [done|].
  destruct (readLength _ inp) as [[litLen inp1]|]; [|done].
  cbn [mbind option_bind] in *.
  destruct (_ <? _); [done|].
  destruct (drop _ inp1) as [|lo [|hi inp2]]; [done..|].
  destruct (_ || _); [done|].
  destruct (readLength _ inp2) as [[mlen inp3]|]; [|done].
  cbn [mbind option_bind] in *.
  destruct (copyMatch _ _ _) as [out'|]; [|done].
  cbn [mbind option_bind] in *.
  apply IH; [done|lia].
Qed.

Lemma readLen_shorter (inp inp' : list byte) (acc n : Z) :
  readLen inp acc = Some (n, inp') -> (length inp' < length inp)%nat.
Proof.
  revert acc. induction inp as [|b inp IH]; intros acc; [done|].
  simpl. destruct (_ =? _).
  - intros H%IH. lia.
  - intros [= _ <-]. lia.
Qed.

Lemma readLength_shorter (inp inp' : list byte) (nib n : Z) :
  readLength nib inp = Some (n, inp') -> (length inp' <= length inp)%nat.
Proof.
  unfold readLength. destruct (_ =? _).
  - intros H%readLen_shorter. lia.
  - by intros [= _ <-].
Qed.

(** A block that decodes with some fuel decodes with the fuel
    [decodeBlock] gives: every round consumes at least the token. *)
Lemma decode_loop_fuel (n : nat) (inp out r : list byte) (lm : option Z) :
  decode_loop n inp out lm = Some r ->
  decode_loop (S (length inp)) inp out lm = Some r.
Proof.
  revert inp out lm. induction n as [|n IH]; intros inp out lm H; [done|].
  cbn [decode_loop] in H |- *.
  destruct inp as [|token inp]; [done|].
  destruct (readLength _ inp) as [[litLen inp1]|] eqn:E1; [|done].
  cbn [mbind option_bind] in H |- *.
  destruct (_ <? _); [done|].
  destruct (drop _ inp1) as [|lo [|hi inp2]] eqn:E2; [done..|].
  destruct (_ || _); [done|].
  destruct (readLength _ inp2) as [[mlen inp3]|] eqn:E3; [|done].
  cbn [mbind option_bind] in H |- *.
  destruct (copyMatch _ _ _) as [out'|]; [|done].
  cbn [mbind option_bind] in H |- *.
  apply IH in H. eapply decode_loop_mono; [exact H|].
  apply readLength_shorter in E1, E3.
  apply (f_equal length) in E2. rewrite length_drop in E2.
  cbn [length] in *. lia.
Qed.

Lemma unle_le2 (off : Z) (rest : list byte) :
  0 <= off < 2 ^ 16 ->
  exists lo hi, le 2 off ++ rest = lo :: hi :: rest /\ byteZ lo + 256 * byteZ hi = off.
Proof.
  intros. exists (u8 off), (u8 (off / 256)). split; [done|].
  rewrite !byteZ_u8. pow2. lia.
Qed.

(** A sequence with a match: the decoder appends the literal, copies
    the match and goes on with the rest of the block. *)
Lemma decode_match (n : nat) (lit rest out out' r : list byte) (off mlen : Z)
    (lm : option Z) :
  MIN_MATCH <= mlen ->
  1 <= off < 2 ^ 16 ->
  off <= Z.of_nat (length (out ++ lit)) ->
  copyMatch (Z.to_nat mlen) (out ++ lit) (Z.to_nat off) = Some out' ->
  decode_loop n rest out' (Some (Z.of_nat (length (out ++ lit)))) = Some r ->
  decode_loop (S n) (seqBytes lit off mlen ++ rest) out lm = Some r.
Proof.
  unfold MIN_MATCH. intros Hm Hoff Hin Hcopy Hrest.
  unfold seqBytes, MIN_MATCH. destruct (Z.ltb_spec 0 mlen); [|lia].
  set (L := Z.of_nat (length lit)).
  cbn [decode_loop app].
  rewrite token_hi by lia.
  rewrite <- app_assoc, readLength_lenTail by lia.
  cbn [mbind option_bind].
  match goal with |- context [Z.of_nat (length ?x) <? ?y] =>
    destruct (Z.ltb_spec (Z.of_nat (length x)) y) as [Hc|Hc];
      [revert Hc; list_len; lia|] end.
  subst L. rewrite Nat2Z.id.
  rewrite <- app_assoc, take_app_length, drop_app_length.
  rewrite <- app_assoc.
  destruct (unle_le2 off (lenTail (mlen - 4) ++ rest)) as (lo & hi & -> & Hlh); [lia|].
  rewrite Hlh.
  destruct (Z.eqb_spec off 0); [lia|].
  destruct (Z.ltb_spec (Z.of_nat (length (out ++ lit))) off); [lia|].
  cbn [orb].
  rewrite token_lo by lia.
  rewrite readLength_lenTail by lia.
  cbn [mbind option_bind].
  unfold FORMAT_MINMATCH. replace (mlen - 4 + 4) with mlen by lia.
  rewrite Hcopy. cbn [mbind option_bind]. done.
Qed.

(** The last sequence: a literal only, and the end of the block as
    the format wants it. *)
Lemma decode_last (n : nat) (lit out : list byte) (lm : option Z) :
  endOK lm (Z.of_nat (length lit)) (Z.of_nat (length (out ++ lit))) = true ->
  decode_loop (S n) (seqBytes lit 0 0) out lm = Some (out ++ lit).
Proof.
  intros Hend.
  unfold seqBytes. cbn [Z.ltb Z.compare decode_loop].
  set (L := Z.of_nat (length lit)) in *.
  replace (16 * Z.min L 15) with (16 * Z.min L 15 + 0) by lia.
  rewrite token_hi by lia.
  rewrite readLength_lenTail by lia.
  cbn [mbind option_bind].
  destruct (Z.ltb_spec (Z.of_nat (length lit)) L); [lia|].
  subst L. rewrite Nat2Z.id, take_ge, drop_ge by lia. by rewrite Hend.
Qed.

(** The decoder refuses the empty block. *)
Lemma decodeBlock_nil : decodeBlock [] = None.
Proof. reflexivity. Qed.

(** Copying a match out of a prefix of [src] that continues with the
    same bytes extends the prefix. *)
Lemma copyMatch_prefix (src : list byte) (len sp mp : nat) :
  (mp < sp)%nat -> (sp + len <= length src)%nat ->
  (forall k, (k < len)%nat -> src !! (mp + k)%nat = src !! (sp + k)%nat) ->
  copyMatch len (take sp src) (sp - mp) = Some (take (sp + len) src).
Proof.
  revert sp mp. induction len as [|len IH]; intros sp mp Hlt Hfit Heq.
  - simpl. by rewrite Nat.add_0_r.
  - cbn [copyMatch]. rewrite length_take, Nat.min_l by lia.
    replace (sp - (sp - mp))%nat with mp by lia.
    rewrite lookup_take_lt by lia.
    pose proof (Heq 0%nat ltac:(lia)) as H0. rewrite !Nat.add_0_r in H0.
    destruct (lookup_lt_is_Some_2 src sp ltac:(lia)) as [b Hb].
    rewrite H0, Hb.
    rewrite <- (take_S_r _ _ _ Hb).
    replace (sp - mp)%nat with (S sp - S mp)%nat by lia.
    rewrite IH; [f_equal; f_equal; lia|lia|lia|].
    intros k Hk. specialize (Heq (S k) ltac:(lia)).
    by replace (S mp + k)%nat with (mp + S k)%nat by lia;
       replace (S sp + k)%nat with (sp + S k)%nat by lia.
Qed.

End LZ4Decode.

(** ** LZ4: the main loop and the round trip *)

Section LZ4Main.
Import JS LZ4.

Lemma countMatch_loop_spec (n : nat) (buf : list byte) (front back max count : Z) :
  let len := countMatch_loop n buf front back max count - count in
  0 <= len
  /\ (len = 0 \/ back + len <= max + 1)
  /\ forall k, 0 <= k < len -> get buf (front + k) = get buf (back + k).
Proof.
  revert front back count. induction n as [|n IH]; intros front back count.
  - simpl. rewrite Z.sub_diag. repeat split; [done|by left|lia].
  - cbn [countMatch_loop].
    destruct (Z.leb_spec back max);
      [|rewrite Z.sub_diag; repeat split; [done|by left|lia]].
    case_bool_decide as Heq;
      [|rewrite Z.sub_diag; repeat split; [done|by left|lia]].
    specialize (IH (front + 1) (back + 1) (count + 1)).
    cbv zeta in IH. destruct IH as (H1 & H2 & H3).
    set (c := countMatch_loop n buf (front + 1) (back + 1) max (count + 1)) in *.
    cbv zeta. repeat split; [lia|right; lia|].
    intros k Hk. destruct (Z.eq_dec k 0) as [->|].
    + by rewrite !Z.add_0_r.
    + specialize (H3 (k - 1) ltac:(lia)).
      by replace (front + 1 + (k - 1)) with (front + k) in H3 by lia;
         replace (back + 1 + (k - 1)) with (back + k) in H3 by lia.
Qed.

Lemma countMatch_spec (buf : list byte) (front back max : Z) :
  let len := countMatch buf front back max in
  0 <= len
  /\ (len = 0 \/ back + len <= max + 1)
  /\ forall k, 0 <= k < len -> get buf (front + k) = get buf (back + k).
Proof.
  pose proof (countMatch_loop_spec (Z.to_nat (max - back + 1)) buf front back max 0) as H.
  unfold countMatch. by rewrite Z.sub_0_r in H.
Qed.

Lemma hash_range (val : Z) : 0 <= _hash val < 4096.
Proof.
  unfold _hash. generalize (imul (and val 4294967295) 2654435761). intros x.
  unfold and. change (toInt32 4095) with (Z.ones 12).
  rewrite Z.land_ones by lia. change (2 ^ 12) with 4096.
  rewrite toInt32_small; pow2; lia.
Qed.

Lemma tableOK_new : tableOK newPositionTable 0.
Proof.
  split.
  - unfold newPositionTable. rewrite repeat_length. apply Z2Nat.id. lia.
  - apply Forall_forall. intros p Hp%list_elem_of_In%repeat_spec. by left.
Qed.

Lemma tableOK_get (t : PositionTable) (sp val : Z) :
  tableOK t sp ->
  getPosition t val = -1 \/ 0 <= getPosition t val < sp.
Proof.
  intros [Hlen Hall]. unfold getPosition.
  pose proof (hash_range val) as Hh. revert Hh.
  generalize (_hash val). intros h Hh.
  destruct (get t h) as [p|] eqn:E.
  - unfold get in E. destruct (_ <? _); [done|].
    eapply Forall_lookup_1 in Hall; [|exact E]. done.
  - destruct (get_lt_is_Some t h) as [? ?]; [lia|congruence].
Qed.

Lemma tableOK_set (t : PositionTable) (sp val : Z) :
  0 <= sp < 2 ^ 31 ->
  tableOK t sp -> tableOK (setPosition t val sp) (sp + 1).
Proof.
  intros Hsp [Hlen Hall]. unfold setPosition. split.
  - by rewrite length_insert.
  - apply Forall_insert.
    + eapply Forall_impl; [exact Hall|]. simpl. lia.
    + rewrite toInt32_small by (pow2; lia). lia.
Qed.

Lemma tableOK_mono (t : PositionTable) (sp sp' : Z) :
  sp <= sp' -> tableOK t sp -> tableOK t sp'.
Proof.
  intros Hle [Hlen Hall]. split; [done|].
  eapply Forall_impl; [exact Hall|]. simpl. lia.
Qed.

Lemma subview_ok (buf : list byte) (off n : Z) :
  0 <= off -> 0 <= n -> off + n <= Z.of_nat (length buf) ->
  subview buf off n = Ok (take (Z.to_nat n) (drop (Z.to_nat off) buf)).
Proof. intros. unfold subview. zcases; simpl; try lia. done. Qed.

Lemma tail_bound (n : Z) : 0 <= n ->
  255 * Z.of_nat (length (lenTail n)) <= n + 240
  /\ (n < 15 -> length (lenTail n) = 0%nat).
Proof.
  intros. pose proof (length_lenTail n ltac:(lia)) as HT.
  revert HT. zcases; lia.
Qed.

(** A range of the buffer that ends inside the array does not reach
    the bytes after it. *)
Lemma buffer_range (src : Uint8Array) (off n : Z) :
  0 <= off -> 0 <= n -> off + n <= Z.of_nat (length (bytes src)) ->
  subview (buffer src) off n
  = Ok (take (Z.to_nat n) (drop (Z.to_nat off) (before src ++ bytes src))).
Proof.
  intros. unfold buffer. rewrite app_assoc.
  rewrite subview_ok by (rewrite ?length_app; lia).
  rewrite drop_app_le by (rewrite length_app; lia).
  rewrite take_app_le by (rewrite length_drop, length_app; lia).
  done.
Qed.

Section Loop.
Variable src : Uint8Array.
Variable dst0 : list byte.
Hypothesis Hsrc : Z.of_nat (length (bytes src)) <= MAX_BLOCK_INPUT_SIZE.
Hypothesis Hdst0 :
  Z.of_nat (length dst0)
  = Z.of_nat (length (bytes src)) + Z.of_nat (length (bytes src)) / 255 + 16.

Lemma decodesTo_nil : decodesTo [] [] None.
Proof. intros rest m r H. by exists m. Qed.

(** One match sequence keeps the invariant. *)
Lemma loopInv_match (s : state) (w : list byte) (mp len : Z) :
  loopInv src dst0 s w ->
  0 <= mp < srcPtr s ->
  srcPtr s - mp <= MAX_OFFSET ->
  MIN_MATCH <= len ->
  srcPtr s < Z.of_nat (length (bytes src)) - MFLIMIT ->
  srcPtr s + len <= Z.of_nat (length (bytes src)) - MFLIMIT + 1 ->
  (forall k, 0 <= k < len ->
             get (bytes src) (mp + k) = get (bytes src) (srcPtr s + k)) ->
  exists lit seq,
    subview (buffer src) (literalHead s) (srcPtr s - literalHead s) = Ok lit
    /\ copySequence (dst s) (dstPtr s) lit (srcPtr s - mp) len
       = Ok (blit dst0 (w ++ seq) 0, Z.of_nat (length seq))
    /\ loopInv src dst0
         {| posTable := posTable s;
            srcPtr := srcPtr s + len;
            literalHead := srcPtr s + len;
            dst := blit dst0 (w ++ seq) 0;
            dstPtr := dstPtr s + Z.of_nat (length seq) |}
         (w ++ seq).
Proof.
  intros [Hord Htab Hd Hp Hsize Hdec] Hmp Hoff Hlen Hstart Hfit Heq.
  unfold MAX_OFFSET, MIN_MATCH, MFLIMIT, MAX_BLOCK_INPUT_SIZE in *.
  set (lh := literalHead s) in *. set (sp := srcPtr s) in *.
  set (lit := take (Z.to_nat (sp - lh))
                (drop (Z.to_nat lh) (before src ++ bytes src))).
  set (seq := seqBytes lit (sp - mp) len).
  assert (HlitLen : Z.of_nat (length lit) = sp - lh).
  { subst lit. rewrite length_take, length_drop, length_app. lia. }
  assert (Hseq : 255 * Z.of_nat (length seq) <= 256 * (sp - lh + len)).
  { subst seq. rewrite length_seqBytes by (right; unfold MIN_MATCH; lia).
    unfold MIN_MATCH. destruct (Z.ltb_spec 0 len); [|lia].
    rewrite HlitLen.
    pose proof (tail_bound (sp - lh) ltac:(lia)) as [T1 T1'].
    pose proof (tail_bound (len - 4) ltac:(lia)) as [T2 T2'].
    destruct (Z.lt_ge_cases (len - 4) 15) as [Hs|Hs]; [rewrite T2' by lia|]; lia. }
  exists lit, seq. split; [by apply buffer_range; lia|].
  assert (Hcopy : copySequence (dst s) (dstPtr s) lit (sp - mp) len
                  = Ok (blit dst0 (w ++ seq) 0, Z.of_nat (length seq))).
  { rewrite Hp, Hd, copySequence_blit.
    - pose proof (blit_blit dst0 w seq 0) as Hbb. cbn [Nat.add] in Hbb.
      fold seq. rewrite Hbb; [done|lia].
    - right. unfold MIN_MATCH. lia.
    - pow2. lia.
    - rewrite length_blit by lia. fold seq. lia. }
  split; [exact Hcopy|].
  split; cbn [srcPtr literalHead posTable dst dstPtr].
  - lia.
  - eapply tableOK_mono; [|exact Htab]. fold sp. lia.
  - done.
  - rewrite Hp, length_app. lia.
  - rewrite length_app. lia.
  - intros Hb. destruct (Hdec Hb) as (lm & Hlm & _).
    assert (Hlit : lit = take (Z.to_nat (sp - lh)) (drop (Z.to_nat lh) (bytes src))).
    { subst lit. by rewrite Hb. }
    assert (Htake : take (Z.to_nat lh) (bytes src) ++ lit
                    = take (Z.to_nat sp) (bytes src)).
    { rewrite Hlit.
      rewrite <- (take_drop (Z.to_nat lh) (take (Z.to_nat sp) (bytes src))).
      rewrite take_take, Nat.min_l by lia. f_equal.
      rewrite take_drop_commute. do 2 f_equal. lia. }
    exists (Some sp). split.
    + intros rest m r Hr.
      destruct (Hlm (seq ++ rest) (S m) r) as [m' Hm'].
      * subst seq.
        eapply decode_match; [unfold MIN_MATCH; lia|pow2; lia| | |].
        -- rewrite Htake, length_take. lia.
        -- rewrite Htake.
           replace (Z.to_nat (sp - mp)) with (Z.to_nat sp - Z.to_nat mp)%nat by lia.
           replace (Z.to_nat (sp + len)) with (Z.to_nat sp + Z.to_nat len)%nat
             in Hr |- * by lia.
           apply copyMatch_prefix; [lia|lia|].
           intros k Hk. specialize (Heq (Z.of_nat k) ltac:(lia)).
           unfold get in Heq. revert Heq. zcases; try lia.
           by replace (Z.to_nat (mp + Z.of_nat k)) with (Z.to_nat mp + k)%nat by lia;
              replace (Z.to_nat (sp + Z.of_nat k)) with (Z.to_nat sp + k)%nat by lia.
        -- rewrite Htake, length_take.
           replace (Z.of_nat (Z.to_nat sp `min` length (bytes src))) with sp by lia.
           replace (Z.to_nat sp + Z.to_nat len)%nat with (Z.to_nat (sp + len)) by lia.
           exact Hr.
      * exists m'. by rewrite <- app_assoc.
    + cbn [roomLeft literalHead]. unfold FORMAT_MFLIMIT, FORMAT_LASTLITERALS. lia.
Qed.

(** The main loop ends, without an exception, in a state that
    satisfies the invariant. *)
Lemma compress_loop_inv (n : nat) (s : state) (w : list byte) :
  loopInv src dst0 s w ->
  exists s' w',
    compress_loop n src (Z.of_nat (length (bytes src)) - MFLIMIT) s = Ok s'
    /\ loopInv src dst0 s' w'.
Proof.
  revert s w. induction n as [|n IH]; intros s w Hinv; [by exists s, w|].
  cbn [compress_loop].
  destruct (Z.ltb_spec (srcPtr s) (Z.of_nat (length (bytes src)) - MFLIMIT))
    as [Hlt|]; [|by exists s, w].
  set (cur := readLeUint32 (bytes src) (srcPtr s)).
  pose proof (tableOK_get _ _ cur (inv_table _ _ _ _ Hinv)) as Hmp.
  pose proof (inv_order _ _ _ _ Hinv) as Hord.
  set (mp := getPosition (posTable s) cur) in *.
  destruct (negb (mp =? -1) && (cur =? readLeUint32 (bytes src) mp)
            && (srcPtr s - mp <=? MAX_OFFSET)) eqn:Hc.
  - apply andb_true_iff in Hc as [Hc Hoff].
    apply andb_true_iff in Hc as [Hne _].
    apply negb_true_iff, Z.eqb_neq in Hne. apply Z.leb_le in Hoff.
    pose proof (countMatch_spec (bytes src) mp (srcPtr s)
                  (Z.of_nat (length (bytes src)) - MFLIMIT))
      as (Hl0 & Hl1 & Hl2).
    set (len := countMatch (bytes src) mp (srcPtr s)
                  (Z.of_nat (length (bytes src)) - MFLIMIT)) in *.
    destruct (Z.ltb_spec len MIN_MATCH) as [|Hge]; [by exists s, w|].
    destruct (loopInv_match s w mp len Hinv) as (lit & seq & Hsub & Hcopy & Hinv');
      [lia|done|done|done|unfold MIN_MATCH in *; lia|done|].
    rewrite Hsub. cbn [mbind result_bind].
    rewrite Hcopy. cbn [mbind result_bind].
    by apply (IH _ (w ++ seq)).
  - apply (IH _ w).
    destruct Hinv as [? Htab Hd Hp Hsize Hdec].
    unfold MFLIMIT, MAX_BLOCK_INPUT_SIZE in *.
    split; cbn [srcPtr literalHead posTable dst dstPtr]; try done; [lia|].
    apply tableOK_set; [pow2; lia|done].
Qed.

Lemma loopInv_init :
  loopInv src dst0
    {| posTable := newPositionTable; srcPtr := 0; literalHead := 0;
       dst := dst0; dstPtr := 0 |} [].
Proof.
  split; cbn [srcPtr literalHead posTable dst dstPtr length]; try lia.
  - apply tableOK_new.
  - by rewrite blit_nil.
  - intros _. exists None. split; [apply decodesTo_nil|done].
Qed.

End Loop.

(** The block: the sequences the loop wrote and then, as one last
    literal, the bytes of the buffer from [literalHead] on. *)
Lemma lz4CompressDefault_shape (src : Uint8Array) :
  let srcLen := Z.of_nat (length (bytes src)) in
  let worst := srcLen + srcLen / 255 + 16 in
  srcLen <= MAX_BLOCK_INPUT_SIZE ->
  exists s w,
    compress_loop (length (bytes src)) src (srcLen - MFLIMIT)
      {| posTable := newPositionTable; srcPtr := 0; literalHead := 0;
         dst := zeros worst; dstPtr := 0 |} = Ok s
    /\ loopInv src (zeros worst) s w
    /\ lz4CompressDefault src
       = Ok (w ++ seqBytes
                    (take (Z.to_nat (srcLen - literalHead s))
                       (drop (Z.to_nat (literalHead s)) (before src ++ bytes src)))
                    0 0)
    /\ Z.of_nat (length w) + (srcLen - literalHead s)
       + Z.of_nat (length (lenTail (srcLen - literalHead s))) + 1 <= worst.
Proof.
  intros srcLen worst Hsrc. unfold lz4CompressDefault. cbv zeta.
  fold srcLen. fold worst.
  assert (Hz : Z.of_nat (length (zeros worst)) = worst).
  { unfold zeros. rewrite repeat_length. subst worst srcLen. lia. }
  destruct (compress_loop_inv src (zeros worst) Hsrc Hz (length (bytes src)) _ []
              (loopInv_init src (zeros worst)))
    as (s & w & Hloop & Hinv).
  fold srcLen in Hloop. exists s, w. split; [exact Hloop|]. split; [exact Hinv|].
  destruct Hinv as [Hord Htab Hd Hp Hsize Hdec].
  rewrite Hloop. cbn [mbind result_bind].
  rewrite buffer_range by (fold srcLen; lia). cbn [mbind result_bind].
  set (lh := literalHead s) in *.
  set (lit := take (Z.to_nat (srcLen - lh))
                (drop (Z.to_nat lh) (before src ++ bytes src))).
  assert (HlitLen : Z.of_nat (length lit) = srcLen - lh).
  { subst lit srcLen. rewrite length_take, length_drop, length_app. lia. }
  set (seq := seqBytes lit 0 0).
  assert (Hseq : Z.of_nat (length seq)
                 = 1 + Z.of_nat (length (lenTail (srcLen - lh))) + (srcLen - lh)).
  { subst seq. rewrite length_seqBytes by (by left). cbn [Z.ltb Z.compare].
    rewrite HlitLen. lia. }
  assert (Hfit : Z.of_nat (length w) + Z.of_nat (length seq) <= worst).
  { rewrite Hseq.
    pose proof (tail_bound (srcLen - lh) ltac:(lia)) as [T1 _].
    subst worst. lia. }
  rewrite Hp, Hd, copySequence_blit;
    [|by left|pow2; lia|fold seq; rewrite length_blit; lia].
  cbn [mbind result_bind]. fold seq.
  pose proof (blit_blit (zeros worst) w seq 0) as Hbb. cbn [Nat.add] in Hbb.
  rewrite Hbb by lia.
  unfold view0. rewrite length_blit by (rewrite length_app; lia).
  destruct (Z.ltb_spec (Z.of_nat (length w) + Z.of_nat (length seq)) 0); [lia|].
  destruct (Z.ltb_spec (Z.of_nat (length (zeros worst)))
              (Z.of_nat (length w) + Z.of_nat (length seq))); [lia|].
  cbn [orb].
  pose proof (take_blit (zeros worst) (w ++ seq) 0) as Ht.
  cbn [Nat.add take] in Ht. rewrite length_app in Ht.
  replace (Z.to_nat (Z.of_nat (length w) + Z.of_nat (length seq)))
    with (length w + length seq)%nat by lia.
  rewrite Ht by lia. cbn [app]. rewrite take_0. cbn [app].
  split; [reflexivity|lia].
Qed.

(** The block fits the buffer the code allocates for it and, for an
    array that starts where its buffer starts, decodes to the input. *)
Lemma lz4CompressDefault_spec (src : Uint8Array) :
  Z.of_nat (length (bytes src)) <= MAX_BLOCK_INPUT_SIZE ->
  exists out,
    lz4CompressDefault src = Ok out
    /\ (before src = [] -> decodeBlock out = Some (bytes src))
    /\ Z.of_nat (length out)
       <= Z.of_nat (length (bytes src)) + Z.of_nat (length (bytes src)) / 255 + 16.
Proof.
  intros Hsrc.
  destruct (lz4CompressDefault_shape src Hsrc)
    as (s & w & _ & [Hord Htab Hd Hp Hsize Hdec] & Hout & Hfit).
  set (srcLen := Z.of_nat (length (bytes src))) in *.
  set (lh := literalHead s) in *.
  set (lit := take (Z.to_nat (srcLen - lh))
                (drop (Z.to_nat lh) (before src ++ bytes src))) in *.
  assert (HlitLen : Z.of_nat (length lit) = srcLen - lh).
  { subst lit srcLen. rewrite length_take, length_drop, length_app. lia. }
  eexists. split; [exact Hout|]. split.
  - intros Hb. destruct (Hdec Hb) as (lm & Hlm & Hroom).
    assert (Hlit : lit = drop (Z.to_nat lh) (bytes src)).
    { subst lit. rewrite Hb. cbn [app]. apply take_ge. rewrite length_drop.
      subst srcLen. lia. }
    destruct (Hlm (seqBytes lit 0 0) 1%nat (bytes src)) as [m Hm].
    + rewrite decode_last; [by rewrite Hlit, take_drop|].
      rewrite Hlit, take_drop, length_drop.
      destruct lm as [start|]; [|done].
      destruct Hroom as [R1 R2]. fold srcLen in R1, R2. fold lh in R2.
      unfold FORMAT_MFLIMIT, FORMAT_LASTLITERALS in *.
      cbn [endOK]. apply andb_true_iff.
      split; apply Z.leb_le; unfold FORMAT_MFLIMIT, FORMAT_LASTLITERALS;
        subst srcLen; lia.
    + unfold decodeBlock. by eapply decode_loop_fuel.
  - rewrite length_app, Nat2Z.inj_add, length_seqBytes by (by left).
    cbn [Z.ltb Z.compare].
    rewrite HlitLen. lia.
Qed.

Lemma lz4CompressDefault_decodes (src : list byte) :
  Z.of_nat (length src) <= MAX_BLOCK_INPUT_SIZE ->
  exists out, lz4CompressDefault (whole src) = Ok out /\ decodeBlock out = Some src.
Proof.
  intros Hsrc. destruct (lz4CompressDefault_spec (whole src) Hsrc) as (out & H1 & H2 & _).
  exists out. split; [done|]. by apply H2.
Qed.

End LZ4Main.

(** ** LZ4: the loops are modelled with enough fuel *)

Section LZ4Fuel.
Import JS LZ4.

(** When the fuel of a loop is used up its condition is false, so more
    fuel changes nothing. *)
Lemma countMatch_loop_fuel (n m : nat) (buf : list byte) (front back max count : Z) :
  max - back + 1 <= Z.of_nat n -> (n <= m)%nat ->
  countMatch_loop m buf front back max count
  = countMatch_loop n buf front back max count.
Proof.
  revert m front back count.
  induction n as [|n IH]; intros m front back count Hn Hm.
  - destruct m; [done|]. simpl. destruct (Z.leb_spec back max); [lia|done].
  - destruct m as [|m]; [lia|]. cbn [countMatch_loop].
    destruct (Z.leb_spec back max); [|done].
    case_bool_decide; [|done]. apply IH; lia.
Qed.

Lemma lenBytes_loop_fuel (n m : nat) (dst : list byte) (dstPtr remLen : Z) :
  remLen / 255 <= Z.of_nat n -> (n <= m)%nat ->
  lenBytes_loop m dst dstPtr remLen = lenBytes_loop n dst dstPtr remLen.
Proof.
  revert m dst dstPtr remLen.
  induction n as [|n IH]; intros m dst dstPtr remLen Hn Hm.
  - destruct m; [done|]. simpl. destruct (Z.leb_spec 255 remLen); [lia|done].
  - destruct m as [|m]; [lia|]. cbn [lenBytes_loop].
    destruct (Z.leb_spec 255 remLen); [|done]. apply IH; lia.
Qed.

Lemma compress_loop_fuel (n m : nat) (src : Uint8Array) (MAX_INDEX : Z) (s : state) :
  MAX_INDEX <= srcPtr s + Z.of_nat n -> (n <= m)%nat ->
  compress_loop m src MAX_INDEX s = compress_loop n src MAX_INDEX s.
Proof.
  revert m s. induction n as [|n IH]; intros m s Hn Hm.
  - destruct m; [done|]. cbn [compress_loop].
    destruct (Z.ltb_spec (srcPtr s) MAX_INDEX); [lia|done].
  - destruct m as [|m]; [lia|]. cbn [compress_loop].
    destruct (Z.ltb_spec (srcPtr s) MAX_INDEX); [|done].
    destruct (_ && _).
    + destruct (Z.ltb_spec (countMatch (bytes src) (getPosition (posTable s)
                   (readLeUint32 (bytes src) (srcPtr s))) (srcPtr s) MAX_INDEX)
                  MIN_MATCH);
        [done|].
      destruct (subview _ _ _) as [lit|]; [|done]. cbn [mbind result_bind].
      destruct (copySequence _ _ _ _ _) as [[d k]|]; [|done].
      cbn [mbind result_bind].
      apply IH; [|lia]. cbn [srcPtr]. unfold MIN_MATCH in *. lia.
    + apply IH; [|lia]. cbn [srcPtr]. lia.
Qed.

End LZ4Fuel.

(** ** LZ4: the bytes of the buffer after the array are not read *)

Section LZ4After.
Import JS LZ4.

Lemma compress_loop_after (n : nat) (b sb a : list byte) (s : state) :
  0 <= literalHead s <= srcPtr s /\ srcPtr s <= Z.of_nat (length sb) ->
  compress_loop n {| before := b; bytes := sb; after := a |}
    (Z.of_nat (length sb) - MFLIMIT) s
  = compress_loop n {| before := b; bytes := sb; after := [] |}
      (Z.of_nat (length sb) - MFLIMIT) s.
Proof.
  revert s. induction n as [|n IH]; intros s Hord; [done|].
  cbn [compress_loop bytes].
  destruct (Z.ltb_spec (srcPtr s) (Z.of_nat (length sb) - MFLIMIT)); [|done].
  destruct (_ && _).
  - pose proof (countMatch_spec sb
                  (getPosition (posTable s) (readLeUint32 sb (srcPtr s)))
                  (srcPtr s) (Z.of_nat (length sb) - MFLIMIT)) as (Hl0 & Hl1 & _).
    destruct (Z.ltb_spec (countMatch sb (getPosition (posTable s)
                 (readLeUint32 sb (srcPtr s))) (srcPtr s)
                 (Z.of_nat (length sb) - MFLIMIT)) MIN_MATCH); [done|].
    rewrite !buffer_range by (cbn [bytes]; lia).
    cbn [before bytes mbind result_bind].
    destruct (copySequence _ _ _ _ _) as [[d k]|]; [|done].
    cbn [mbind result_bind].
    apply IH. cbn [srcPtr literalHead]. unfold MIN_MATCH, MFLIMIT in *. lia.
  - apply IH. cbn [srcPtr literalHead]. unfold MFLIMIT in *. lia.
Qed.

(** [lz4Compress] gives the same for two arrays that differ only in
    what follows them in their buffers. *)
Lemma lz4Compress_after_unread (b sb a : list byte) :
  lz4Compress {| before := b; bytes := sb; after := a |}
  = lz4Compress {| before := b; bytes := sb; after := [] |}.
Proof.
  unfold lz4Compress. cbn [bytes].
  destruct (_ =? 0); [done|].
  destruct (Z.ltb_spec MAX_BLOCK_INPUT_SIZE (Z.of_nat (length sb))); [done|].
  destruct (lz4CompressDefault_shape {| before := b; bytes := sb; after := a |})
    as (s1 & w1 & L1 & I1 & -> & F1); [cbn [bytes]; lia|].
  destruct (lz4CompressDefault_shape {| before := b; bytes := sb; after := [] |})
    as (s2 & w2 & L2 & I2 & -> & F2); [cbn [bytes]; lia|].
  cbn [bytes before] in *.
  rewrite compress_loop_after in L1 by (cbn [srcPtr literalHead]; lia).
  rewrite L1 in L2. injection L2 as <-.
  assert (Hw : w1 = w2).
  { destruct I1 as [O1 _ D1 P1 _ _], I2 as [_ _ D2 P2 _ _].
    cbn [bytes] in O1.
    set (dst0 := zeros (Z.of_nat (length sb) + Z.of_nat (length sb) / 255 + 16)) in *.
    assert (Hz : Z.of_nat (length dst0)
                 = Z.of_nat (length sb) + Z.of_nat (length sb) / 255 + 16).
    { subst dst0. unfold zeros. rewrite repeat_length. lia. }
    assert (Hl : length w1 = length w2) by lia.
    pose proof (take_blit dst0 w1 0 ltac:(lia)) as B1.
    pose proof (take_blit dst0 w2 0 ltac:(lia)) as B2.
    rewrite take_0 in B1, B2. cbn [Nat.add app] in B1, B2.
    rewrite <- B1, <- B2, <- D1, <- D2. by rewrite Hl. }
  by rewrite Hw.
Qed.

End LZ4After.

(** ** LZ4: the claims *)

Section LZ4Claims.
Import JS LZ4.

Lemma lz4Compress_pad (src : Uint8Array) (tmp : list byte) :
  bytes src <> [] ->
  Z.of_nat (length (bytes src)) <= MAX_BLOCK_INPUT_SIZE ->
  lz4CompressDefault src = Ok tmp ->
  lz4Compress src = Ok (x00 :: tmp).
Proof.
  intros Hne Hsz Htmp. unfold lz4Compress. cbv zeta.
  destruct (Z.eqb_spec (Z.of_nat (length (bytes src))) 0) as [Hz|_].
  { destruct (bytes src); [done|simpl in Hz; lia]. }
  destruct (Z.ltb_spec MAX_BLOCK_INPUT_SIZE (Z.of_nat (length (bytes src)))); [lia|].
  rewrite Htmp. cbn [mbind result_bind].
  unfold set, zeros. rewrite repeat_length.
  destruct (Z.ltb_spec 1 0); [lia|].
  destruct (Z.ltb_spec (Z.of_nat (Z.to_nat (Z.of_nat (length tmp) + 1)))
              (1 + Z.of_nat (length tmp))); [lia|].
  cbn [orb]. f_equal. unfold blit.
  replace (Z.to_nat (Z.of_nat (length tmp) + 1)) with (S (length tmp)) by lia.
  change (Z.to_nat 1) with 1%nat. cbn [repeat take].
  rewrite take_0. cbn [app]. f_equal.
  rewrite drop_ge by (cbn [length]; rewrite repeat_length; lia).
  by rewrite app_nil_r.
Qed.

Lemma lz4Compress_too_large (src : Uint8Array) :
  MAX_BLOCK_INPUT_SIZE < Z.of_nat (length (bytes src)) ->
  lz4Compress src = Err "Buffer too large for LZ4 compression".
Proof.
  intros Hsz. unfold lz4Compress. cbv zeta.
  destruct (Z.eqb_spec (Z.of_nat (length (bytes src))) 0) as [Hz|_];
    [unfold MAX_BLOCK_INPUT_SIZE in Hsz; lia|].
  destruct (Z.ltb_spec MAX_BLOCK_INPUT_SIZE (Z.of_nat (length (bytes src))));
    [done|lia].
Qed.

Lemma lz4Compress_nil (src : Uint8Array) :
  bytes src = [] -> lz4Compress src = Ok [].
Proof. intros H. unfold lz4Compress. by rewrite H. Qed.

(** [lz4Compress] returns normally, or throws its one error. *)
Lemma lz4Compress_result (src : Uint8Array) :
  (exists out, lz4Compress src = Ok out)
  \/ lz4Compress src = Err "Buffer too large for LZ4 compression".
Proof.
  destruct (bytes src) as [|b sb] eqn:E.
  { left. exists []. by apply lz4Compress_nil. }
  destruct (Z.le_gt_cases (Z.of_nat (length (bytes src))) MAX_BLOCK_INPUT_SIZE)
    as [Hsz|Hsz].
  - destruct (lz4CompressDefault_spec src Hsz) as (tmp & Htmp & _).
    left. exists (x00 :: tmp). apply lz4Compress_pad; [by rewrite E|done..].
  - right. apply lz4Compress_too_large. lia.
Qed.

(** C5 (amended). For every array [S] of 1 to 0x7E000000 bytes that
    starts where its buffer starts, [lz4Compress S] returns the zero
    padding byte followed by a block that the reference LZ4 block
    decoder, which refuses a block that breaks a rule of the format,
    decodes to the bytes of [S]. *)
Theorem lz4Compress_roundtrip (S : Uint8Array) :
  before S = [] ->
  bytes S <> [] ->
  Z.of_nat (length (bytes S)) <= MAX_BLOCK_INPUT_SIZE ->
  exists block,
    lz4Compress S = Ok (x00 :: block)
    /\ decodeBlock block = Some (bytes S).
Proof.
  intros Hb Hne Hsz.
  destruct (lz4CompressDefault_spec S Hsz) as (tmp & Htmp & Hdec & _).
  exists tmp. split; [by apply lz4Compress_pad|by apply Hdec].
Qed.

(** Forty times the letter [a]: a literal, a match and the last
    literals. *)
Lemma lz4Compress_roundtrip_witness :
  exists block,
    lz4Compress (whole (repeat x61 40)) = Ok (x00 :: block)
    /\ decodeBlock block = Some (bytes (whole (repeat x61 40))).
Proof.
  apply (lz4Compress_roundtrip (whole (repeat x61 40))).
  - reflexivity.
  - discriminate.
  - vm_compute. discriminate.
Defined.

(** C5 (counterexample). For the empty array [lz4Compress] returns no
    byte at all: there is no padding byte to skip, and what is left is
    not a block (the block of no data is one zero byte). And for the
    ten bytes [ABCDEFGHIJ] held at offset 4 of the buffer
    [wxyzABCDEFGHIJ] the block decodes to [wxyzABCDEF]: the literals
    are taken from the start of the buffer. *)
Lemma lz4Compress_roundtrip_fails :
  (lz4Compress (whole []) = Ok []
   /\ decodeBlock (drop 1 []) = None)
  /\ (lz4Compress {| before := list_byte_of_string "wxyz";
                     bytes := list_byte_of_string "ABCDEFGHIJ";
                     after := [] |}
      = Ok (x00 :: xa0 :: list_byte_of_string "wxyzABCDEF")
      /\ decodeBlock (drop 1 (x00 :: xa0 :: list_byte_of_string "wxyzABCDEF"))
         = Some (list_byte_of_string "wxyzABCDEF")
      /\ list_byte_of_string "wxyzABCDEF" <> list_byte_of_string "ABCDEFGHIJ").
Proof.
  split; [split; reflexivity|].
  split_and!; [vm_compute; reflexivity..|discriminate].
Qed.

(** C10. On the empty byte sequence [lz4Compress] returns the empty
    array: no padding byte and no exception. This holds wherever the
    empty array lies in its buffer. *)
Theorem lz4Compress_empty (pre post : list byte) :
  lz4Compress {| before := pre; bytes := []; after := post |} = Ok [].
Proof. reflexivity. Qed.

(** The scenario S5 of the specification: ten bytes, one literal run. *)
Example lz4Compress_S5 :
  lz4Compress (whole (list_byte_of_string "ABCDEFGHIJ"))
  = Ok (x00 :: xa0 :: list_byte_of_string "ABCDEFGHIJ").
Proof. vm_compute. reflexivity. Qed.

End LZ4Claims.

(** ** USD integer coding: the round trip *)

Section ByteEnumeration.
Import JS IntCoding.

Lemma allBytes_complete (b : byte) : In b allBytes.
Proof.
  unfold allBytes. apply in_map_iff. exists (Z.to_nat (byteZ b)).
  pose proof (byteZ_range b). split.
  - rewrite Z2Nat.id by lia. apply u8_byteZ.
  - apply in_seq. lia.
Qed.

(** A boolean property checked on the 256 bytes holds of every byte. *)
Lemma forall_bytes (P : byte -> bool) :
  forallb P allBytes = true -> forall b, P b = true.
Proof.
  intros H b. rewrite forallb_forall in H. apply H, allBytes_complete.
Qed.

Lemma field_setField_same (b : byte) (j c : Z) :
  0 <= j <= 3 -> 1 <= c <= 3 -> field b j = 0 -> field (setField b j c) j = c.
Proof.
  intros Hj Hc.
  assert (H : forall b,
    forallb (fun j => forallb (fun c =>
      implb (field b j =? 0) (field (setField b j c) j =? c)) [1; 2; 3])
      [0; 1; 2; 3] = true).
  { apply forall_bytes. vm_compute. reflexivity. }
  specialize (H b). rewrite forallb_forall in H.
  specialize (H j). rewrite forallb_forall in H.
  intros Hf.
  assert (Hin : In j [0; 1; 2; 3]) by (simpl; lia).
  assert (Hic : In c [1; 2; 3]) by (simpl; lia).
  specialize (H Hin c Hic). rewrite Hf in H. simpl in H. lia.
Qed.

Lemma field_setField_other (b : byte) (j j' c : Z) :
  0 <= j <= 3 -> 0 <= j' <= 3 -> j <> j' -> 1 <= c <= 3 ->
  field (setField b j c) j' = field b j'.
Proof.
  intros Hj Hj' Hne Hc.
  assert (H : forall b,
    forallb (fun j => forallb (fun j' => forallb (fun c =>
      (j =? j') || (field (setField b j c) j' =? field b j')) [1; 2; 3])
      [0; 1; 2; 3]) [0; 1; 2; 3] = true).
  { apply forall_bytes. vm_compute. reflexivity. }
  specialize (H b). rewrite forallb_forall in H.
  specialize (H j). rewrite forallb_forall in H.
  assert (Hin : In j [0; 1; 2; 3]) by (simpl; lia).
  assert (Hin' : In j' [0; 1; 2; 3]) by (simpl; lia).
  assert (Hic : In c [1; 2; 3]) by (simpl; lia).
  specialize (H Hin j'). rewrite forallb_forall in H.
  specialize (H Hin' c Hic). lia.
Qed.

End ByteEnumeration.

Section ArrayFrames.
Import JS.

Lemma length_put (data : list byte) (i v : Z) : length (put data i v) = length data.
Proof. unfold put. destruct (_ <? _); [done|]. apply length_insert. Qed.

Lemma get_put_ne (data : list byte) (i v j : Z) :
  j <> i -> get (put data i v) j = get data j.
Proof.
  intros. unfold get, put. zcases; try done.
  apply list_lookup_insert_ne. lia.
Qed.

Lemma get_put_eq (data : list byte) (i v : Z) :
  0 <= i < Z.of_nat (length data) -> get (put data i v) i = Some (u8 v).
Proof.
  intros. unfold get, put. zcases; [lia|].
  apply list_lookup_insert_eq. lia.
Qed.

Lemma get_blit_out (data w : list byte) (off : nat) (j : Z) :
  (off + length w <= length data)%nat ->
  j < Z.of_nat off \/ Z.of_nat off + Z.of_nat (length w) <= j ->
  get (blit data w off) j = get data j.
Proof.
  intros Hfit Hj. unfold get. zcases; [done|]. unfold blit.
  destruct (Z.lt_ge_cases j (Z.of_nat off)).
  - rewrite lookup_app_l by (rewrite length_take; lia).
    apply lookup_take_lt. lia.
  - rewrite lookup_app_r by (rewrite length_take; lia).
    rewrite length_take, Nat.min_l by lia.
    rewrite lookup_app_r by lia.
    rewrite lookup_drop. f_equal. lia.
Qed.

Lemma get_blit_in (data w : list byte) (off i : nat) :
  (off + length w <= length data)%nat -> (i < length w)%nat ->
  get (blit data w off) (Z.of_nat off + Z.of_nat i) = w !! i.
Proof.
  intros Hfit Hi. unfold get. zcases; [lia|]. unfold blit.
  rewrite lookup_app_r by (rewrite length_take; lia).
  rewrite length_take, Nat.min_l by lia.
  replace (Z.to_nat (Z.of_nat off + Z.of_nat i) - off)%nat with i by lia.
  by rewrite lookup_app_l.
Qed.

Lemma setLE_ok (data : list byte) (p : Z) (n : nat) (v : Z) :
  0 <= p -> p + Z.of_nat n <= Z.of_nat (length data) ->
  setLE data p n v = Ok (blit data (le n v) (Z.to_nat p)).
Proof.
  intros. unfold setLE, set. rewrite length_le. zcases; simpl; try lia. done.
Qed.

Lemma unle_signed_le (n : nat) (v : Z) :
  (0 < n)%nat ->
  - 2 ^ (8 * Z.of_nat n - 1) <= v < 2 ^ (8 * Z.of_nat n - 1) ->
  unle_signed (le n v) = v.
Proof.
  intros Hn Hv. unfold unle_signed. rewrite length_le, unle_le.
  set (w := 2 ^ (8 * Z.of_nat n)).
  assert (Hw : w = 2 * 2 ^ (8 * Z.of_nat n - 1)).
  { subst w. rewrite <- Z.pow_succ_r by lia. f_equal. lia. }
  assert (0 < 2 ^ (8 * Z.of_nat n - 1)) by (apply Z.pow_pos_nonneg; lia).
  cbv zeta. destruct (Z.ltb_spec (v mod w) (w / 2)).
  - assert (0 <= v \/ v < 0) as [|] by lia.
    + rewrite Z.mod_small; lia.
    + exfalso. assert (v mod w = v + w); [|lia].
      symmetry. apply Z.mod_unique_pos with (q := -1); lia.
  - assert (0 <= v \/ v < 0) as [|] by lia.
    + rewrite Z.mod_small in H0; lia.
    + assert (v mod w = v + w); [|lia].
      symmetry. apply Z.mod_unique_pos with (q := -1); lia.
Qed.

Lemma unle_signed_le4 (v : Z) : unle_signed (le 4 v) = toInt32 v.
Proof.
  unfold unle_signed, toInt32. rewrite length_le, unle_le.
  change (2 ^ (8 * Z.of_nat 4)) with 4294967296. pow2.
  cbv zeta. zcases; lia.
Qed.

(** Adding a 32-bit delta and the delta itself agree modulo [2 ^ 32]. *)
Lemma toInt32_add_toInt32 (a d : Z) : toInt32 (a + toInt32 d) = toInt32 (a + d).
Proof. unfold toInt32. pow2. lia. Qed.

End ArrayFrames.

Section IntCodingRoundTrip.
Import JS IntCoding.

Lemma readCode_field (data : list byte) (v : Z) (b : byte) :
  get data ((v + 16) / 4) = Some b ->
  readCode data v = field b ((v + 16) mod 4).
Proof. unfold readCode, getInt, field. by intros ->. Qed.

Lemma readCode_agree (d1 d2 : list byte) (v : Z) :
  get d1 ((v + 16) / 4) = get d2 ((v + 16) / 4) -> readCode d1 v = readCode d2 v.
Proof. unfold readCode, getInt. by intros ->. Qed.

Lemma readBytes_agree (d1 d2 : list byte) (p : Z) (n : nat) :
  (forall j, p <= j < p + Z.of_nat n -> get d1 j = get d2 j) ->
  readBytes d1 p n = readBytes d2 p n.
Proof.
  revert p. induction n as [|n IH]; intros p H; [done|].
  cbn [readBytes]. rewrite (H p) by lia. rewrite (IH (p + 1)); [done|].
  intros j Hj. apply H. lia.
Qed.

Lemma readBytes_lookup (data w : list byte) (p : Z) :
  (forall i, (i < length w)%nat -> get data (p + Z.of_nat i) = w !! i) ->
  readBytes data p (length w) = Some w.
Proof.
  revert p. induction w as [|b w IH]; intros p H; [done|].
  cbn [length readBytes].
  pose proof (H 0%nat ltac:(simpl; lia)) as H0.
  rewrite Z.add_0_r in H0. rewrite H0. cbn [mbind option_bind].
  rewrite (IH (p + 1)); [done|].
  intros i Hi. specialize (H (S i) ltac:(simpl; lia)).
  etrans; [|exact H]. f_equal. lia.
Qed.

Lemma readBytes_blit (data w : list byte) (p : Z) :
  0 <= p -> p + Z.of_nat (length w) <= Z.of_nat (length data) ->
  readBytes (blit data w (Z.to_nat p)) p (length w) = Some w.
Proof.
  intros. apply readBytes_lookup. intros i Hi.
  replace (p + Z.of_nat i) with (Z.of_nat (Z.to_nat p) + Z.of_nat i) by lia.
  apply get_blit_in; lia.
Qed.

Lemma table_index (v n : Z) :
  0 <= v < n -> 4 <= (v + 16) / 4 < tableEnd n /\ 0 <= (v + 16) mod 4 <= 3.
Proof. unfold tableEnd. lia. Qed.

Lemma table_index_inj (v v' : Z) :
  (v + 16) / 4 = (v' + 16) / 4 -> (v + 16) mod 4 = (v' + 16) mod 4 -> v = v'.
Proof. lia. Qed.

(** Setting the code of element [v]: it reads back, and the codes of
    the other elements and the bytes outside the table stay. *)
Lemma orCode_facts (data : list byte) (v n c : Z) :
  0 <= v < n -> tableEnd n <= Z.of_nat (length data) ->
  readCode data v = 0 -> 1 <= c <= 3 ->
  let data1 := orCode data (v + 16) c in
  length data1 = length data
  /\ readCode data1 v = c
  /\ (forall v', v' <> v -> readCode data1 v' = readCode data v')
  /\ (forall j, j < 4 \/ tableEnd n <= j -> get data1 j = get data j).
Proof.
  intros Hv Hlen Hzero Hc. pose proof (table_index v n Hv) as [Hi Hj].
  destruct (get_lt_is_Some data ((v + 16) / 4)) as [b Hb]; [lia|].
  cbv zeta.
  assert (Hor : orCode data (v + 16) c
                = put data ((v + 16) / 4) (byteZ (setField b ((v + 16) mod 4) c))).
  { unfold orCode, getInt, setField, put. by rewrite Hb, u8_byteZ. }
  rewrite Hor. clear Hor.
  rewrite (readCode_field _ _ _ Hb) in Hzero.
  repeat split.
  - apply length_put.
  - erewrite readCode_field; [|apply get_put_eq; lia].
    rewrite u8_byteZ. by apply field_setField_same.
  - intros v' Hne.
    destruct (Z.eq_dec ((v' + 16) / 4) ((v + 16) / 4)) as [Heq|Hneq].
    + erewrite readCode_field; [|rewrite Heq; apply get_put_eq; lia].
      rewrite u8_byteZ. rewrite <- Heq in Hb.
      rewrite (readCode_field _ _ _ Hb).
      assert (0 <= (v' + 16) mod 4 <= 3) by lia.
      apply field_setField_other; lia.
    + apply readCode_agree. by apply get_put_ne.
  - intros j Hjj. apply get_put_ne. lia.
Qed.

Lemma toInt32_idem (z : Z) : toInt32 (toInt32 z) = toInt32 z.
Proof. apply toInt32_small, toInt32_range. Qed.

Lemma toInt32_add_congr (a x y : Z) :
  toInt32 x = toInt32 y -> toInt32 (a + x) = toInt32 (a + y).
Proof.
  intros H. rewrite <- (toInt32_add_toInt32 a x), <- (toInt32_add_toInt32 a y).
  by rewrite H.
Qed.

(** What the decoder reads where the encoder wrote a delta of width [k]
    with code [c]. *)
Lemma coded_delta (data data1 : list byte) (v n p d c common : Z) (k : nat) :
  0 <= v < n -> tableEnd n <= p ->
  p + Z.of_nat k <= Z.of_nat (length data) ->
  readCode data v = 0 -> 1 <= c <= 3 ->
  data1 = orCode data (v + 16) c ->
  let data2 := blit data1 (le k d) (Z.to_nat p) in
  setLE data1 p k d = Ok data2
  /\ length data2 = length data
  /\ (forall v', 0 <= v' < n -> v' <> v -> readCode data2 v' = readCode data v')
  /\ (forall j, j < 4 \/ tableEnd n <= j < p \/ p + Z.of_nat k <= j ->
        get data2 j = get data j)
  /\ (forall data'',
        readCode data'' v = readCode data2 v ->
        (forall j, p <= j < p + Z.of_nat k -> get data'' j = get data2 j) ->
        readCode data'' v = c
        /\ readSigned data'' p k = Some (unle_signed (le k d))).
Proof.
  intros Hv Hp Hfit Hzero Hc ->.
  pose proof (table_index v n Hv) as [Hi Hj].
  assert (Hte : tableEnd n <= Z.of_nat (length data)) by lia.
  destruct (orCode_facts data v n c Hv Hte Hzero Hc) as (L1 & C1 & O1 & F1).
  set (data1 := orCode data (v + 16) c) in *.
  assert (Hfit1 : (Z.to_nat p + length (le k d) <= length data1)%nat)
    by (rewrite length_le; lia).
  cbv zeta. repeat split.
  - apply setLE_ok; lia.
  - rewrite length_blit; lia.
  - intros v' Hv' Hne. rewrite <- (O1 v' Hne). apply readCode_agree.
    pose proof (table_index v' n Hv') as [? ?].
    apply get_blit_out; lia.
  - intros j Hjj. rewrite get_blit_out by (rewrite ?length_le; lia).
    apply F1. lia.
  - rewrite <- C1. etrans; [eassumption|].
    apply readCode_agree. apply get_blit_out; lia.
  - unfold readSigned.
    rewrite (readBytes_agree data'' (blit data1 (le k d) (Z.to_nat p))) by done.
    rewrite <- (length_le k d) at 2.
    rewrite readBytes_blit by (rewrite ?length_le; lia). done.
Qed.

Lemma codeValue_spec (data : list byte) (v n p d common : Z) :
  0 <= v < n -> tableEnd n <= p -> p + 4 <= Z.of_nat (length data) ->
  readCode data v = 0 ->
  exists data2 p2,
    codeValue data (v + 16) p d common = Ok (data2, p2)
    /\ p <= p2 <= p + 4
    /\ length data2 = length data
    /\ (forall v', 0 <= v' < n -> v' <> v -> readCode data2 v' = readCode data v')
    /\ (forall j, j < 4 \/ tableEnd n <= j < p \/ p2 <= j -> get data2 j = get data j)
    /\ (forall data'',
          readCode data'' v = readCode data2 v ->
          (forall j, p <= j < p2 -> get data'' j = get data2 j) ->
          exists delta,
            readDelta data'' v p (toInt32 common) = Some (delta, p2)
            /\ toInt32 delta = toInt32 d).
Proof.
  intros Hv Hp Hfit Hzero. unfold codeValue.
  destruct (Z.eqb_spec d common) as [->|Hne].
  { exists data, p. repeat split; try done; try lia.
    intros data'' Hidx _. exists (toInt32 common). unfold readDelta.
    rewrite Hidx, Hzero. cbn [Z.eqb].
    split; [done|apply toInt32_idem]. }
  assert (Hbranch : forall (c : Z) (k : nat) (delta : Z),
    1 <= c <= 3 -> Z.of_nat k <= 4 ->
    unle_signed (le k d) = delta -> toInt32 delta = toInt32 d ->
    (c =? 0) = false ->
    (if c =? 1 then k = 1%nat else if c =? 2 then k = 2%nat else k = 4%nat) ->
    exists data2 p2,
      (data1 ← setLE (orCode data (v + 16) c) p k d; Ok (data1, p + Z.of_nat k))
      = Ok (data2, p2)
      /\ p <= p2 <= p + 4
      /\ length data2 = length data
      /\ (forall v', 0 <= v' < n -> v' <> v -> readCode data2 v' = readCode data v')
      /\ (forall j, j < 4 \/ tableEnd n <= j < p \/ p2 <= j -> get data2 j = get data j)
      /\ (forall data'',
            readCode data'' v = readCode data2 v ->
            (forall j, p <= j < p2 -> get data'' j = get data2 j) ->
            exists delta,
              readDelta data'' v p (toInt32 common) = Some (delta, p2)
              /\ toInt32 delta = toInt32 d)).
  { intros c k delta Hc Hk Hdelta Hcongr Hc0 Hck.
    destruct (coded_delta data _ v n p d c common k Hv Hp ltac:(lia) Hzero
                Hc eq_refl) as (-> & L & O & F & D).
    cbn [mbind result_bind]. eexists _, _. split; [reflexivity|].
    split; [lia|]. split; [exact L|]. split; [exact O|]. split; [exact F|].
    intros data'' Hidx Hpay. destruct (D data'' Hidx Hpay) as [Dc Dr].
    exists delta. split; [|done]. unfold readDelta. rewrite Dc, Hc0.
    destruct (c =? 1); [subst k; rewrite Dr, Hdelta; done|].
    destruct (c =? 2); [subst k; rewrite Dr, Hdelta; done|].
    subst k; rewrite Dr, Hdelta; done. }
  destruct ((d <=? 127) && (-128 <=? d)) eqn:H8.
  { apply andb_true_iff in H8 as [?%Z.leb_le ?%Z.leb_le].
    apply (Hbranch 1 1%nat d); try done; try lia.
    apply (unle_signed_le 1); [lia|].
    change (2 ^ (8 * Z.of_nat 1 - 1)) with 128. lia. }
  destruct ((d <=? 32767) && (-32768 <=? d)) eqn:H16.
  { apply andb_true_iff in H16 as [?%Z.leb_le ?%Z.leb_le].
    apply (Hbranch 2 2%nat d); try done; try lia.
    apply (unle_signed_le 2); [lia|].
    change (2 ^ (8 * Z.of_nat 2 - 1)) with 32768. lia. }
  apply (Hbranch 3 4%nat (toInt32 d)); try done; try lia.
  - apply unle_signed_le4.
  - apply toInt32_idem.
Qed.

(** The coding loop from element [v] on: it ends without an exception,
    keeps what was written before, and the decoder reads the remaining
    values back from any array that agrees with the result below the
    final position. *)
Lemma code_loop_decodes (values : list Z) :
  forall (v n preValue common : Z) (data : list byte) (p : Z),
    0 <= v -> n = v + Z.of_nat (length values) ->
    tableEnd n <= p ->
    p + 4 * Z.of_nat (length values) <= Z.of_nat (length data) ->
    (forall k, v <= k < n -> readCode data k = 0) ->
    exists data' p',
      code_loop values v preValue common data p = Ok (data', p')
      /\ p <= p' <= Z.of_nat (length data')
      /\ length data' = length data
      /\ (forall k, 0 <= k < v -> readCode data' k = readCode data k)
      /\ (forall j, j < 4 \/ tableEnd n <= j < p -> get data' j = get data j)
      /\ (Forall isInt32 values ->
          forall data'',
            (forall j, 0 <= j < p' -> get data'' j = get data' j) ->
            decode_loop (length values) data'' v p preValue (toInt32 common)
            = Some values).
Proof.
  induction values as [|cur values IH];
    intros v n preValue common data p Hv Hn Hp Hfit Hzero.
  - exists data, p. cbn [code_loop length] in *. repeat split; try done; lia.
  - cbn [length] in Hn, Hfit.
    cbn [code_loop].
    destruct (codeValue_spec data v n p (cur - preValue) common)
      as (data2 & p2 & -> & Hp2 & L2 & O2 & F2 & D2);
      [lia|done|lia|apply Hzero; lia|].
    cbn [mbind result_bind].
    destruct (IH (v + 1) n cur common data2 p2)
      as (data' & p' & -> & Hp' & L' & O' & F' & D');
      [lia|lia|lia|lia| |].
    { intros k Hk. rewrite O2 by lia. apply Hzero. lia. }
    pose proof (table_index v n ltac:(lia)) as [Hi Hj].
    exists data', p'. split; [done|]. split; [lia|]. split; [congruence|].
    split; [|split].
    + intros k Hk. rewrite O' by lia. apply O2; lia.
    + intros j Hjj. rewrite F' by lia. apply F2. lia.
    + intros [Hcur Hall]%Forall_cons data'' Hagree. specialize (D' Hall).
      cbn [length decode_loop].
      destruct (D2 data'') as (delta & -> & Hdelta).
      * rewrite <- O' by lia. apply readCode_agree, Hagree. lia.
      * intros j Hjj. rewrite Hagree by lia. apply F'. lia.
      * cbn [mbind option_bind].
        assert (Hc : toInt32 (preValue + delta) = cur).
        { rewrite (toInt32_add_congr preValue delta (cur - preValue) Hdelta).
          replace (preValue + (cur - preValue)) with cur by lia.
          apply toInt32_small. exact Hcur. }
        rewrite Hc, (D' data'' Hagree). done.
Qed.

Lemma readCode_zeros (data : list byte) (k : Z) :
  get data ((k + 16) / 4) = Some x00 -> readCode data k = 0.
Proof.
  intros H. rewrite (readCode_field _ _ _ H). unfold field.
  change (byteZ x00) with 0. by rewrite Z.shiftr_0_l.
Qed.

Lemma lookup_repeat {A} (x : A) (n i : nat) :
  (i < n)%nat -> repeat x n !! i = Some x.
Proof.
  revert i. induction n as [|n IH]; intros i Hi; [lia|].
  destruct i; [done|]. simpl. apply IH. lia.
Qed.

Lemma get_zeros (n j : Z) : 0 <= j < n -> get (zeros n) j = Some x00.
Proof.
  intros. unfold get, zeros. zcases; [lia|].
  apply lookup_repeat. lia.
Qed.

Lemma get_take {A} (l : list A) (n j : Z) :
  0 <= j < n -> get (take (Z.to_nat n) l) j = get l j.
Proof. intros. unfold get. zcases; [done|]. apply lookup_take_lt. lia. Qed.

(** [usdInt32Compress] returns normally on every sequence of
    integers: its stores stay inside the buffer of the worst size. *)
Lemma usdInt32Compress_total (values : list Z) :
  exists out, usdInt32Compress values = Ok out.
Proof.
  destruct values as [|v0 values]; [by exists []|].
  unfold usdInt32Compress.
  set (n := Z.of_nat (length (v0 :: values))).
  assert (Hn : 0 < n) by (subst n; cbn [length]; lia).
  destruct (Z.eqb_spec n 0); [lia|]. cbv zeta.
  destruct (pickCommon _) as [common commonCount].
  set (worst := 4 + (n * 2 + 7) / 8 + n * 4).
  assert (Hz : Z.of_nat (length (zeros worst)) = worst).
  { unfold zeros. rewrite repeat_length. lia. }
  rewrite setLE_ok by lia. cbn [mbind result_bind].
  change (Z.to_nat 0) with 0%nat.
  set (data0 := blit (zeros worst) (le 4 common) 0).
  assert (L0 : length data0 = length (zeros worst)).
  { apply length_blit. rewrite length_le. lia. }
  destruct (code_loop_decodes (v0 :: values) 0 n 0 common data0 (4 + (n * 2 + 7) / 8))
    as (data' & p' & -> & Hp' & L' & _);
    [lia|subst n; lia|unfold tableEnd; lia|rewrite L0; lia| |].
  { intros k Hk. pose proof (table_index k n ltac:(lia)) as [Hi Hj].
    apply readCode_zeros. subst data0.
    rewrite get_blit_out by (rewrite ?length_le; cbn [length]; lia).
    apply get_zeros. unfold tableEnd in *. lia. }
  cbn [mbind result_bind]. unfold view0.
  destruct (Z.ltb_spec p' 0); [lia|].
  destruct (Z.ltb_spec (Z.of_nat (length data')) p'); [lia|].
  cbn [orb]. eauto.
Qed.

(** C6. For every sequence of 32-bit integers, [usdInt32Compress]
    returns normally and the decoder described in the claim (common
    delta in the first four bytes, 2-bit codes from byte 4 on with
    element [v] at bit position [2 * (v + 16)], deltas of 8, 16 or 32
    bits in order, summed from 0 in 32-bit arithmetic) gives the
    sequence back; the empty sequence is coded as the empty byte
    string. *)
Theorem usdInt32Compress_roundtrip (values : list Z) :
  Forall isInt32 values ->
  exists out,
    usdInt32Compress values = Ok out
    /\ usdInt32Decompress out (length values) = Some values
    /\ (values = [] -> out = []).
Proof.
  intros Hall. destruct values as [|v0 values]; [by exists []|].
  unfold usdInt32Compress.
  set (n := Z.of_nat (length (v0 :: values))).
  assert (Hn : 0 < n) by (subst n; cbn [length]; lia).
  destruct (Z.eqb_spec n 0); [lia|]. cbv zeta.
  destruct (pickCommon _) as [common commonCount].
  set (worst := 4 + (n * 2 + 7) / 8 + n * 4).
  assert (Hz : Z.of_nat (length (zeros worst)) = worst).
  { unfold zeros. rewrite repeat_length. lia. }
  rewrite setLE_ok by lia. cbn [mbind result_bind].
  change (Z.to_nat 0) with 0%nat.
  set (data0 := blit (zeros worst) (le 4 common) 0).
  assert (L0 : length data0 = length (zeros worst)).
  { apply length_blit. rewrite length_le. lia. }
  destruct (code_loop_decodes (v0 :: values) 0 n 0 common data0 (4 + (n * 2 + 7) / 8))
    as (data' & p' & -> & Hp' & L' & O' & F' & D');
    [lia|subst n; lia|unfold tableEnd; lia|rewrite L0; lia| |].
  2: specialize (D' Hall).
  { intros k Hk. pose proof (table_index k n ltac:(lia)) as [Hi Hj].
    apply readCode_zeros. subst data0.
    rewrite get_blit_out by (rewrite ?length_le; cbn [length]; lia).
    apply get_zeros. unfold tableEnd in *. lia. }
  cbn [mbind result_bind]. unfold view0.
  destruct (Z.ltb_spec p' 0); [lia|].
  destruct (Z.ltb_spec (Z.of_nat (length data')) p'); [lia|].
  cbn [orb]. eexists. split; [reflexivity|]. split; [|done].
  unfold usdInt32Decompress. cbn [length].
  assert (Hhead : readSigned (take (Z.to_nat p') data') 0 4 = Some (toInt32 common)).
  { unfold readSigned.
    rewrite (readBytes_agree _ data0).
    - pose proof (readBytes_blit (zeros worst) (le 4 common) 0) as HR.
      rewrite length_le in HR. change (Z.to_nat 0) with 0%nat in HR.
      subst data0. rewrite HR by lia.
      cbn [fmap option_fmap option_map]. f_equal. apply unle_signed_le4.
    - intros j Hj. rewrite get_take by lia. apply F'. lia. }
  rewrite Hhead. cbn [mbind option_bind].
  apply D'. intros j Hj. by apply get_take.
Qed.

Lemma usdInt32Compress_roundtrip_witness :
  exists out,
    usdInt32Compress [5; 10; 15; 20; -1000; 100000; -2147483648; 2147483647] = Ok out
    /\ usdInt32Decompress out
         (length [5; 10; 15; 20; -1000; 100000; -2147483648; 2147483647])
       = Some [5; 10; 15; 20; -1000; 100000; -2147483648; 2147483647]
    /\ ([5; 10; 15; 20; -1000; 100000; -2147483648; 2147483647] = [] -> out = []).
Proof.
  apply (usdInt32Compress_roundtrip
           [5; 10; 15; 20; -1000; 100000; -2147483648; 2147483647]).
  repeat (apply Forall_cons_2; [unfold isInt32; pow2; lia|]).
  apply Forall_nil_2.
Defined.

(** The scenario S4 of the specification: equal deltas. *)
Example usdInt32Compress_S4 :
  usdInt32Compress [5; 10; 15; 20; 25] = Ok [x05; x00; x00; x00; x00; x00].
Proof. vm_compute. reflexivity. Qed.

End IntCodingRoundTrip.

(** ** The 8-byte signed writer *)

Section WriteInt.
Import JS Writer.

(** What [writeInt (v, 8, signed)] writes for a negative 32-bit [v]: the
    low byte of [v], then 0xFF in the bytes 1 to 4 (the store of -1 at
    offset 1), then three zero bytes. *)
Lemma writeInt_bytes_8_signed_negative (v : Z) :
  v < 0 ->
  writeInt_bytes v 8 true = [u8 v; xff; xff; xff; xff; x00; x00; x00].
Proof.
  intros Hv. unfold writeInt_bytes. cbn [Z.eqb Pos.eqb].
  destruct (Z.ltb_spec v 0); [|lia].
  unfold poke. cbn [le]. generalize (u8 v), (u8 (v / 256)), (u8 (v / 256 / 256)),
    (u8 (v / 256 / 256 / 256)). intros b0 b1 b2 b3. vm_compute. reflexivity.
Qed.

(** C4 (fails on the code). For every negative 32-bit [v] the bytes
    written by the 8-byte signed writer differ from the 8-byte
    two's-complement encoding of [v]: the upper three bytes are 0x00
    where the encoding has 0xFF. *)
Theorem writeInt_8_signed_not_sign_extended (v : Z) :
  - 2 ^ 31 <= v < 0 ->
  drop 5 (writeInt_bytes v 8 true) = [x00; x00; x00]
  /\ drop 5 (int64le v) = [xff; xff; xff]
  /\ writeInt_bytes v 8 true <> int64le v.
Proof.
  intros [Hlo Hneg]. rewrite writeInt_bytes_8_signed_negative by done.
  assert (Hhi : drop 5 (int64le v) = [xff; xff; xff]).
  { unfold int64le. cbn [le drop].
    assert (Hb : forall x, x = -1 -> u8 x = xff) by (by intros x ->).
    pow2.
    rewrite (Hb (v / 256 / 256 / 256 / 256 / 256)) by lia.
    rewrite (Hb (v / 256 / 256 / 256 / 256 / 256 / 256)) by lia.
    rewrite (Hb (v / 256 / 256 / 256 / 256 / 256 / 256 / 256)) by lia.
    reflexivity. }
  split; [done|]. split; [done|].
  intros Heq. rewrite <- Heq in Hhi. discriminate Hhi.
Qed.

Lemma writeInt_8_signed_not_sign_extended_witness :
  drop 5 (writeInt_bytes (-1) 8 true) = [x00; x00; x00]
  /\ drop 5 (int64le (-1)) = [xff; xff; xff]
  /\ writeInt_bytes (-1) 8 true <> int64le (-1).
Proof. apply (writeInt_8_signed_not_sign_extended (-1)). pow2. lia. Defined.

(** The failing input [v = -1]: five 0xFF bytes and three zero bytes
    where the encoding of -1 is eight 0xFF bytes. *)
Example writeInt_8_signed_minus_one :
  buffers (writeInt newByteArray (-1) 8 true)
  = [[xff; xff; xff; xff; xff; x00; x00; x00]]
  /\ int64le (-1) = [xff; xff; xff; xff; xff; xff; xff; xff].
Proof. split; reflexivity. Qed.

(** At [v = -2 ^ 31] the store at offset 1 also destroys the value in
    the low four bytes. *)
Example writeInt_8_signed_min :
  writeInt_bytes (- 2 ^ 31) 8 true = [x00; xff; xff; xff; xff; x00; x00; x00]
  /\ int64le (- 2 ^ 31) = [x00; x00; x00; x80; xff; xff; xff; xff].
Proof. split; reflexivity. Qed.

(** Non-negative values are written as their 8-byte encoding. *)
Lemma writeInt_bytes_8_signed_nonneg (v : Z) :
  0 <= v < 2 ^ 31 -> writeInt_bytes v 8 true = int64le v.
Proof.
  intros Hv. unfold writeInt_bytes, int64le. cbn [Z.eqb Pos.eqb].
  destruct (Z.ltb_spec v 0); [lia|].
  unfold poke. cbn [le].
  assert (Hb : forall x, x = 0 -> u8 x = x00) by (by intros x ->).
  pow2.
  rewrite (Hb (v / 256 / 256 / 256 / 256)) by lia.
  rewrite (Hb (v / 256 / 256 / 256 / 256 / 256)) by lia.
  rewrite (Hb (v / 256 / 256 / 256 / 256 / 256 / 256)) by lia.
  rewrite (Hb (v / 256 / 256 / 256 / 256 / 256 / 256 / 256)) by lia.
  generalize (u8 v), (u8 (v / 256)), (u8 (v / 256 / 256)),
    (u8 (v / 256 / 256 / 256)). intros b0 b1 b2 b3. vm_compute. reflexivity.
Qed.

End WriteInt.

(** ** The USDZ container *)

Section UsdzContainer.
Import JS Writer Usdz.

Lemma localHeader_eq (contentsSize : Z) :
  localHeader contentsSize
  = Ok (map u8 [0x50; 0x4b; 0x03; 0x04; 20; 0; 0; 0; 0; 0; 0; 0; 0; 0; 0; 0; 0; 0]
        ++ le 4 contentsSize ++ le 4 contentsSize
        ++ le 2 nameLength ++ le 2 (extraSize + 4)
        ++ map u8 name ++ le 2 1 ++ le 2 extraSize ++ zeros extraSize).
Proof.
  unfold localHeader, setLE. cbn [le].
  generalize (u8 contentsSize), (u8 (contentsSize / 256)),
    (u8 (contentsSize / 256 / 256)), (u8 (contentsSize / 256 / 256 / 256)).
  intros b0 b1 b2 b3. vm_compute. reflexivity.
Qed.

Lemma centralDirectory_length (contentsSize preLength : Z) :
  exists post,
    centralDirectory contentsSize preLength = Ok post
    /\ Z.of_nat (length post) = 46 + nameLength + 22.
Proof.
  unfold centralDirectory, setLE. cbn [le].
  generalize (u8 contentsSize), (u8 (contentsSize / 256)),
    (u8 (contentsSize / 256 / 256)), (u8 (contentsSize / 256 / 256 / 256)).
  intros b0 b1 b2 b3.
  generalize (u8 (preLength + contentsSize)),
    (u8 ((preLength + contentsSize) / 256)),
    (u8 ((preLength + contentsSize) / 256 / 256)),
    (u8 ((preLength + contentsSize) / 256 / 256 / 256)).
  intros c0 c1 c2 c3. vm_compute. eexists. split; reflexivity.
Qed.

Lemma contentsSizeOf_concat (buffers : list (list byte)) :
  contentsSizeOf buffers = Z.of_nat (length (concat buffers)).
Proof.
  unfold contentsSizeOf.
  assert (H : forall acc,
    fold_left (fun c (b : list byte) => c + Z.of_nat (length b)) buffers acc
    = acc + Z.of_nat (length (concat buffers))).
  { induction buffers as [|b bs IH]; intros acc; simpl; [lia|].
    rewrite IH, length_app. lia. }
  apply H.
Qed.

(** Copying blocks one after the other writes their concatenation. *)
Lemma setAll_blit (dst w : list byte) (bufs : list (list byte)) :
  (length w + length (concat bufs) <= length dst)%nat ->
  setAll (blit dst w 0) bufs (Z.of_nat (length w))
  = Ok (blit dst (w ++ concat bufs) 0).
Proof.
  revert w. induction bufs as [|b bufs IH]; intros w Hfit.
  - simpl. by rewrite app_nil_r.
  - cbn [setAll concat] in *. rewrite length_app in Hfit.
    pose proof (set_blit_end dst w b 0) as Hs. cbn [Nat.add] in Hs.
    replace (Z.of_nat 0 + Z.of_nat (length w)) with (Z.of_nat (length w)) in Hs by lia.
    rewrite Hs by lia. cbn [mbind result_bind].
    replace (Z.of_nat (length w) + Z.of_nat (length b))
      with (Z.of_nat (length (w ++ b))) by (rewrite length_app; lia).
    rewrite IH by (rewrite length_app; lia).
    by rewrite <- app_assoc.
Qed.

Lemma setAll_zeros (bufs : list (list byte)) :
  setAll (zeros (Z.of_nat (length (concat bufs)))) bufs 0 = Ok (concat bufs).
Proof.
  set (dst := zeros _).
  assert (Hd : length dst = length (concat bufs)).
  { subst dst. unfold zeros. rewrite repeat_length. lia. }
  pose proof (setAll_blit dst [] bufs) as H. cbn [length app] in H.
  change (Z.of_nat 0) with 0 in H.
  rewrite blit_nil in H. rewrite H by lia. f_equal.
  unfold blit. rewrite take_0, drop_ge by lia. cbn [app]. apply app_nil_r.
Qed.

(** The archive is the local header, the blocks of the file, and the
    directory. *)
Lemma getUsdzFromUsdc_eq (usdc : ByteArray) :
  exists pre post,
    localHeader (contentsSizeOf (getBuffers usdc)) = Ok pre
    /\ length pre = 64%nat
    /\ length post = 76%nat
    /\ getUsdzFromUsdc usdc = Ok (pre ++ concat (getBuffers usdc) ++ post).
Proof.
  unfold getUsdzFromUsdc. cbv zeta.
  set (c := contentsSizeOf (getBuffers usdc)).
  assert (Hc : c = Z.of_nat (length (concat (getBuffers usdc))))
    by apply contentsSizeOf_concat.
  rewrite localHeader_eq. cbn [mbind result_bind].
  set (pre := _ ++ _).
  assert (Hpre : length pre = 64%nat) by (subst pre; list_len; reflexivity).
  destruct (centralDirectory_length c (Z.of_nat (length pre))) as (post & -> & Hpost).
  cbn [mbind result_bind].
  exists pre, post. split; [done|]. split; [done|].
  split; [unfold nameLength in Hpost; cbn in Hpost; lia|].
  replace (Z.of_nat (length pre) + c + Z.of_nat (length post))
    with (Z.of_nat (length (concat ([pre] ++ getBuffers usdc ++ [post])))).
  - rewrite setAll_zeros. f_equal. rewrite !concat_app. simpl.
    by rewrite !app_nil_r.
  - rewrite !concat_app. simpl. rewrite !app_nil_r, !length_app. lia.
Qed.

End UsdzContainer.

(** ** The path and spec tables of the Crate writer *)

Section CrateSteps.
Import JS Writer Usd Crate PathSpec.

Lemma bind_Ok {A B} (f : A -> M B) (m : M A) cf r :
  (m ≫= f) cf = Ok r ->
  exists a cf1, m cf = Ok (a, cf1) /\ f a cf1 = Ok r.
Proof.
  unfold mbind, M_bind. destruct (m cf) as [[a cf1]|e]; [eauto|discriminate].
Qed.

Lemma extends_refl cf : extends cf cf.
Proof. split; [auto|split; [done|split; done]]. Qed.

Lemma extends_trans cf1 cf2 cf3 :
  extends cf1 cf2 -> extends cf2 cf3 -> extends cf1 cf3.
Proof.
  intros (H1 & H2 & H3 & H4) (G1 & G2 & G3 & G4). split; [|split; [|split]].
  - auto.
  - by etrans.
  - congruence.
  - congruence.
Qed.

(** A change of the state outside the token, path and spec tables. *)
Lemma extends_frame cf cf' :
  tokenMap cf' = tokenMap cf -> tokens cf' = tokens cf ->
  paths cf' = paths cf -> specs cf' = specs cf -> extends cf cf'.
Proof.
  intros H1 H2 H3 H4. split; [|split; [by rewrite H1|split; done]].
  unfold tokensOK. rewrite H1, H2. auto.
Qed.

Lemma quiet_ret {A} (a : A) : quiet (mret a).
Proof. intros cf a' cf' [= _ <-]. apply extends_refl. Qed.

Lemma quiet_bind {A B} (m : M A) (f : A -> M B) :
  quiet m -> (forall a, quiet (f a)) -> quiet (m ≫= f).
Proof.
  intros Hm Hf cf b cf' (a & cf1 & H1 & H2)%bind_Ok.
  eapply extends_trans; [by eapply Hm | by eapply Hf].
Qed.

Lemma quiet_throw {A} msg : quiet (@throw A msg).
Proof. intros cf a cf' [=]. Qed.

Lemma quiet_gets {A} (f : CrateFile -> A) : quiet (gets f).
Proof. intros cf a cf' [= _ <-]. apply extends_refl. Qed.

Lemma quiet_modify (f : CrateFile -> CrateFile) :
  (forall cf, extends cf (f cf)) -> quiet (modify f).
Proof. intros Hf cf a cf' [= _ <-]. apply Hf. Qed.

Lemma quiet_forEach {A} (xs : list A) (body : A -> M unit) :
  (forall x, quiet (body x)) -> quiet (forEach xs body).
Proof.
  intros Hb. induction xs as [|x xs IH]; cbn [forEach].
  - apply quiet_ret.
  - apply quiet_bind; auto.
Qed.

Lemma quiet_mapM {A B} (f : A -> M B) (xs : list A) :
  (forall x, quiet (f x)) -> quiet (mapM f xs).
Proof.
  intros Hf. induction xs as [|x xs IH]; cbn [mapM].
  - apply quiet_ret.
  - apply quiet_bind; [auto|]. intros y. apply quiet_bind; [auto|].
    intros ys. apply quiet_ret.
Qed.

Lemma quiet_fileTell : quiet fileTell.
Proof. apply quiet_gets. Qed.

Lemma quiet_fileWrite buffer : quiet (fileWrite buffer).
Proof. apply quiet_modify. intros cf. by apply extends_frame. Qed.

Lemma quiet_fileWriteInt value sz signed : quiet (fileWriteInt value sz signed).
Proof. apply quiet_modify. intros cf. by apply extends_frame. Qed.

Lemma quiet_fileWriteDouble value : quiet (fileWriteDouble value).
Proof. apply quiet_modify. intros cf. by apply extends_frame. Qed.

Lemma quiet_fileWriteInt32Compressed data : quiet (fileWriteInt32Compressed data).
Proof.
  intros cf a cf'. unfold fileWriteInt32Compressed.
  destruct (writeInt32Compressed (file cf) data); intros [= _ <-].
  by apply extends_frame.
Qed.

Lemma quiet_addWrittenData data vType ref : quiet (addWrittenData data vType ref).
Proof. apply quiet_modify. intros cf. by apply extends_frame. Qed.

Lemma quiet_getDataReference data vType : quiet (getDataReference data vType).
Proof. apply quiet_gets. Qed.

Lemma quiet_setFramesRef ref : quiet (setFramesRef ref).
Proof. apply quiet_modify. intros cf. by apply extends_frame. Qed.

Lemma quiet_pushToc nm start sz : quiet (pushToc nm start sz).
Proof. apply quiet_modify. intros cf. by apply extends_frame. Qed.

Lemma quiet_lz4 buffer : quiet (lz4 buffer).
Proof.
  intros cf a cf'. unfold lz4.
  destruct (LZ4.lz4Compress _); intros [= _ <-]. apply extends_refl.
Qed.

Lemma quiet_addFieldSet fset : quiet (addFieldSet fset).
Proof. intros cf a cf' [= _ <-]. by apply extends_frame. Qed.

Lemma quiet_addFieldItem field vType array inline compressed payload :
  quiet (addFieldItem field vType array inline compressed payload).
Proof.
  intros cf a cf'. unfold addFieldItem.
  destruct array, compressed, inline; cbv beta iota zeta;
    (destruct (repsMap cf !! _); intros [= _ <-];
     [apply extends_refl | by apply extends_frame]).
Qed.

(** The token index: the table and its index stay in agreement, and
    the index returned is the one of the token. *)
Lemma getTokenIndex_spec token cf i cf' :
  getTokenIndex token cf = Ok (i, cf') ->
  extends cf cf' /\ tokenMap cf' !! token = Some i.
Proof.
  unfold getTokenIndex. destruct (tokenMap cf !! token) as [j|] eqn:Hj.
  - intros [= <- <-]. split; [apply extends_refl | done].
  - intros [= <- <-]. split; [|apply lookup_insert_eq].
    split; [|split; [by apply insert_subseteq|split; done]].
    intros Hok s i. cbn. intros Hs.
    destruct (decide (token = s)) as [->|Hne].
    + rewrite lookup_insert_eq in Hs. injection Hs as <-.
      split; [lia|]. rewrite Nat2Z.id. by apply list_lookup_middle.
    + rewrite lookup_insert_ne in Hs by done.
      destruct (Hok s i Hs) as [H0 Hl]. split; [done|].
      by apply lookup_app_l_Some.
Qed.

Lemma quiet_getTokenIndex token : quiet (getTokenIndex token).
Proof. intros cf a cf' H. by apply getTokenIndex_spec in H as [? _]. Qed.

Lemma quiet_getStringIndex str : quiet (getStringIndex str).
Proof.
  unfold getStringIndex. apply quiet_bind; [apply quiet_getTokenIndex|].
  intros tokenIndex cf a cf'.
  destruct (negb _); intros [= _ <-]; [apply extends_refl | by apply extends_frame].
Qed.

End CrateSteps.

Create HintDb quiet.
#[local] Hint Resolve quiet_ret quiet_throw quiet_gets quiet_fileTell quiet_fileWrite
  quiet_fileWriteInt quiet_fileWriteDouble quiet_fileWriteInt32Compressed
  quiet_addWrittenData quiet_getDataReference quiet_setFramesRef quiet_pushToc
  quiet_lz4 quiet_addFieldItem quiet_getTokenIndex
  quiet_getStringIndex : quiet.

(** The steps of a method, one after the other. *)
Ltac quiet_step :=
  lazymatch goal with
  | |- PathSpec.quiet (mbind _ _) => apply quiet_bind; [|intros ?]
  | |- PathSpec.quiet (Crate.forEach _ _) => apply quiet_forEach; intros ?
  | |- PathSpec.quiet (Crate.mapM _ _) => apply quiet_mapM; intros ?
  | |- PathSpec.quiet (if ?b then _ else _) => destruct b
  | |- PathSpec.quiet (match ?x with _ => _ end) => destruct x
  | |- PathSpec.quiet (let '(_, _) := ?x in _) => destruct x
  | |- PathSpec.quiet _ => solve [auto with quiet]
  end.
Ltac quiet := repeat quiet_step.

Section CrateFields.
Import JS Writer Usd Crate PathSpec.

Lemma quiet_addFieldTokens field data : quiet (addFieldTokens field data).
Proof. unfold addFieldTokens. quiet. Qed.

Lemma quiet_addFieldToken field data : quiet (addFieldToken field data).
Proof. unfold addFieldToken. quiet. Qed.

Lemma quiet_addFieldTokenVector field toks : quiet (addFieldTokenVector field toks).
Proof. unfold addFieldTokenVector. quiet. Qed.

Lemma quiet_addFieldPathListOp field pathIndex :
  quiet (addFieldPathListOp field pathIndex).
Proof. unfold addFieldPathListOp. quiet. Qed.

Lemma quiet_addFieldPathVector field pathIndex :
  quiet (addFieldPathVector field pathIndex).
Proof. unfold addFieldPathVector. quiet. Qed.

Lemma quiet_addFieldSpecifier field spec : quiet (addFieldSpecifier field spec).
Proof. unfold addFieldSpecifier. quiet. Qed.

Lemma quiet_addFieldInts field data : quiet (addFieldInts field data).
Proof. unfold addFieldInts. quiet. Qed.

Lemma quiet_addFieldFloat field data : quiet (addFieldFloat field data).
Proof. unfold addFieldFloat. quiet. Qed.

Lemma quiet_addFieldVectors field data : quiet (addFieldVectors field data).
Proof. unfold addFieldVectors. quiet. Qed.

Lemma quiet_addFieldVector field data : quiet (addFieldVector field data).
Proof. unfold addFieldVector. quiet. Qed.

Lemma quiet_addFieldBool field data : quiet (addFieldBool field data).
Proof. unfold addFieldBool. quiet. Qed.

Lemma quiet_addFieldVariability field data : quiet (addFieldVariability field data).
Proof. unfold addFieldVariability. quiet. Qed.

Lemma quiet_addFieldDictionary field data : quiet (addFieldDictionary field data).
Proof.
  unfold addFieldDictionary. pose proof quiet_getStringIndex. quiet.
Qed.

Lemma quiet_addFieldTimeSamples field data vType :
  quiet (addFieldTimeSamples field data vType).
Proof. unfold addFieldTimeSamples. quiet. Qed.

End CrateFields.

#[local] Hint Resolve quiet_addFieldTokens quiet_addFieldToken
  quiet_addFieldTokenVector quiet_addFieldPathListOp quiet_addFieldPathVector
  quiet_addFieldSpecifier quiet_addFieldInts quiet_addFieldFloat
  quiet_addFieldVectors quiet_addFieldVector quiet_addFieldBool
  quiet_addFieldVariability quiet_addFieldDictionary quiet_addFieldTimeSamples
  : quiet.

Ltac quiet_inv H Hext :=
  let a := fresh "a" in
  let c := fresh "cf" in
  let E := fresh "E" in
  let Q := fresh "Q" in
  apply bind_Ok in H as (a & c & E & H);
  lazymatch type of E with
  | ?m _ = Ok _ =>
      assert (Q : PathSpec.quiet m) by quiet;
      apply Q in E; clear Q;
      apply (fun X => extends_trans _ _ _ X E) in Hext; clear E
  end.

Section CratePaths.
Import JS Writer Usd Crate PathSpec.

Lemma UsdPrim_nested_ind (P : UsdPrim -> Prop) :
  (forall id nm ct md cs atts, Forall P cs -> P (Prim id nm ct md cs atts)) ->
  forall p, P p.
Proof.
  intros H. fix IH 1. intros [id nm ct md cs atts]. apply H.
  induction cs as [|c cs IHcs]; constructor; [apply IH | apply IHcs].
Qed.

Lemma quiet_addField field usdAtt : quiet (addField field usdAtt).
Proof. unfold addField. quiet. Qed.

Lemma quiet_addQualifierFields qs : quiet (addQualifierFields qs).
Proof. unfold addQualifierFields. quiet. Qed.

Lemma quiet_addPrimMetadata h entry : quiet (addPrimMetadata h entry).
Proof. unfold addPrimMetadata. quiet. Qed.

Lemma quiet_addRootMetadata entry : quiet (addRootMetadata entry).
Proof. unfold addRootMetadata. quiet. Qed.

Lemma quiet_writeBootstrap : quiet writeBootstrap.
Proof.
  unfold writeBootstrap. quiet. apply quiet_modify. intros cf.
  by apply extends_frame.
Qed.

Lemma quiet_writeSections : quiet writeSections.
Proof.
  unfold writeSections, writeTokensSection, writeStringsSection,
    writeFieldsSection, writeFieldSetsSection, writePathsSection,
    writeSpecsSection. quiet.
Qed.

Lemma quiet_writeTableOfContents : quiet writeTableOfContents.
Proof.
  unfold writeTableOfContents. quiet. apply quiet_modify. intros cf.
  by apply extends_frame.
Qed.

(** The end of a writer: one spec, one path entry. *)
Lemma specTail_spec {A} fset sType nm jump prim (k : Z -> M A) cf r :
  specTail fset sType nm jump prim k cf = Ok r ->
  exists cf1 i,
    k (Z.of_nat (length (specs cf))) cf1 = Ok r
    /\ (tokensOK cf -> tokensOK cf1)
    /\ tokenMap cf ⊆ tokenMap cf1
    /\ tokenMap cf1 !! nm = Some i
    /\ paths cf1
       = paths cf ++ [(Z.of_nat (length (specs cf)),
                       if prim then i * -1 else i, jump)]
    /\ length (specs cf1) = S (length (specs cf)).
Proof.
  unfold specTail. intros H.
  apply bind_Ok in H as (fsetIndex & c1 & H1 & H).
  apply bind_Ok in H as (idx & c2 & H2 & H).
  apply bind_Ok in H as (tok & c3 & H3 & H).
  apply bind_Ok in H as ([] & c4 & H4 & H).
  injection H1 as <- <-. injection H2 as <- <-.
  apply getTokenIndex_spec in H3 as [(T1 & T2 & T3 & T4) T5].
  unfold addPath, modify in H4. injection H4 as <-.
  exists (set_paths (paths c3 ++ [(Z.of_nat (length (specs cf)),
            if prim then tok * -1 else tok, jump)]) c3), tok.
  cbn [tokenMap paths specs set_specs set_fsets] in T1, T2, T3, T4.
  split; [exact H|]. split_and!.
  - exact T1.
  - exact T2.
  - exact T5.
  - cbn [paths set_paths]. by rewrite T3.
  - cbn [specs set_paths]. rewrite T4, length_app. cbn. lia.
Qed.

End CratePaths.

Section CrateWrote.
Import JS Writer Usd Crate PathSpec.

Lemma pathEntryOf_weaken cf cf' e n :
  tokenMap cf ⊆ tokenMap cf' -> pathEntryOf cf e n -> pathEntryOf cf' e n.
Proof.
  intros Hsub (i & Hi & He). exists i. split; [|done].
  by eapply lookup_weaken.
Qed.

Lemma wrote_nil h cf : wrote [] h cf h cf.
Proof.
  split_and!.
  - done.
  - auto.
  - done.
  - cbn. lia.
  - exists []. by rewrite app_nil_r.
Qed.

Lemma wrote_app ns1 ns2 h cf h1 cf1 h2 cf2 :
  wrote ns1 h cf h1 cf1 -> wrote ns2 h1 cf1 h2 cf2 ->
  wrote (ns1 ++ ns2) h cf h2 cf2.
Proof.
  intros (A1 & A2 & A3 & A4 & es1 & A5 & A6) (B1 & B2 & B3 & B4 & es2 & B5 & B6).
  split_and!.
  - rewrite B1, A1. unfold storeAll. rewrite imap_app, fold_left_app.
    f_equal. apply imap_ext. intros j n _. cbn. f_equal. rewrite A4. lia.
  - auto.
  - by etrans.
  - rewrite B4, A4, length_app. lia.
  - exists (es1 ++ es2). split.
    + by rewrite B5, A5, app_assoc.
    + apply Forall2_app; [|done].
      eapply Forall2_impl; [exact A6|]. intros e n.
      by apply pathEntryOf_weaken.
Qed.

Lemma wrote_extends_l ns h cf cf1 h' cf' :
  extends cf cf1 -> wrote ns h cf1 h' cf' -> wrote ns h cf h' cf'.
Proof.
  intros (E1 & E2 & E3 & E4) (B1 & B2 & B3 & B4 & es & B5 & B6).
  rewrite E3 in B5. rewrite E4 in B1, B4.
  split_and!; [done|auto|by etrans|done|by exists es].
Qed.

Lemma wrote_extends_r ns h cf h' cf1 cf' :
  wrote ns h cf h' cf1 -> extends cf1 cf' -> wrote ns h cf h' cf'.
Proof.
  intros (B1 & B2 & B3 & B4 & es & B5 & B6) (E1 & E2 & E3 & E4).
  split_and!; [done|auto|by etrans|by rewrite E4|].
  exists es. split; [by rewrite E3|].
  eapply Forall2_impl; [exact B6|]. intros e n. by apply pathEntryOf_weaken.
Qed.

(** One node written by [specTail]. *)
Lemma specTail_wrote {A} fset sType n jump prim (k : Z -> M A) h cf r :
  specTail fset sType (node_name n) jump prim k cf = Ok r ->
  prim = match node_kind n with KPrim => false | KProperty => true end ->
  exists cf1,
    k (Z.of_nat (length (specs cf))) cf1 = Ok r
    /\ wrote [n] h cf (store h (n, Z.of_nat (length (specs cf)))) cf1.
Proof.
  intros H Hprim.
  apply specTail_spec in H as (cf1 & i & Hk & T1 & T2 & T3 & T4 & T5).
  exists cf1. split; [done|]. split_and!.
  - cbn. by rewrite Z.add_0_r.
  - done.
  - done.
  - rewrite T5. cbn. lia.
  - eexists. split; [exact T4|]. constructor; [|constructor].
    exists i. split; [done|]. cbn. rewrite Hprim.
    destruct (node_kind n); cbn; lia.
Qed.

Lemma writeUsdProperty_wrote a h cf h' cf' :
  writeUsdProperty a h cf = Ok (h', cf') ->
  wrote [attNode a] h cf h' cf'.
Proof.
  pose proof quiet_addQualifierFields as Q1. pose proof quiet_addField as Q2.
  intros H. pose proof (extends_refl cf) as Hext.
  unfold writeUsdProperty in H.
  destruct (att_value a) eqn:Hv;
    unfold writeUsdConnection, writeUsdRelationship, writeUsdAttribute in H.
  all: repeat (quiet_inv H Hext).
  all: lazymatch type of H with
       | mbind (fun _ => mbind _ (addSpec _ ?st)) (addFieldSet ?fs) ?c = _ =>
           change (specTail fs st
                     (node_name (attNode a)) (attPathJump a) true
                     (fun idx => mret (setAttPathIndex h (att_id a) idx)) c
                   = Ok (h', cf')) in H
       end.
  all: eapply (specTail_wrote _ _ (attNode a)) in H as (cfz & [= <- <-] & Hw);
    [|reflexivity].
  all: eapply wrote_extends_l; [exact Hext | exact Hw].
Qed.

End CrateWrote.

Section CrateTree.
Import JS Writer Usd Crate PathSpec.

Lemma writeUsdProperties_wrote atts h cf h' cf' :
  writeUsdProperties atts h cf = Ok (h', cf') ->
  wrote (map attNode atts) h cf h' cf'.
Proof.
  revert h cf. induction atts as [|a atts IH]; intros h cf H.
  - injection H as <- <-. apply wrote_nil.
  - cbn [writeUsdProperties] in H.
    apply bind_Ok in H as (h1 & cf1 & H1 & H).
    apply writeUsdProperty_wrote in H1. apply IH in H.
    exact (wrote_app [attNode a] _ _ _ _ _ _ _ H1 H).
Qed.

(** The loop over the children inside [writeUsdPrim] is
    [writeUsdPrims]. *)
Lemma children_loop_eq (p : UsdPrim) cs h cf :
  (fix children_loop (cs : list UsdPrim) (h : Heap) : M Heap :=
     match cs with
     | [] => mret h
     | child :: cs' =>
         h ← writeUsdPrim child (Some p) h;
         children_loop cs' h
     end) cs h cf
  = writeUsdPrims cs (Some p) h cf.
Proof.
  revert h cf. induction cs as [|c cs IH]; intros h cf; [done|].
  cbn [writeUsdPrims]. unfold mbind, M_bind.
  destruct (writeUsdPrim c (Some p) h cf) as [[h1 cf1]|e]; [apply IH|done].
Qed.

Lemma writeUsdPrims_wrote cs parent h cf h' cf' :
  Forall (fun p => forall parent h cf h' cf',
            writeUsdPrim p parent h cf = Ok (h', cf') ->
            wrote (nodes p) h cf h' cf') cs ->
  writeUsdPrims cs parent h cf = Ok (h', cf') ->
  wrote (concat (map nodes cs)) h cf h' cf'.
Proof.
  intros Hcs. revert h cf. induction Hcs as [|c cs Hc Hcs IH]; intros h cf H.
  - injection H as <- <-. apply wrote_nil.
  - cbn [writeUsdPrims] in H.
    apply bind_Ok in H as (h1 & cf1 & H1 & H).
    apply Hc in H1. apply IH in H. cbn [map concat].
    by eapply wrote_app.
Qed.

(** [writeUsdPrim], with its end as a [specTail]. *)
Lemma writeUsdPrim_unfold p parent h :
  writeUsdPrim p parent h
  = (f1 ← addFieldSpecifier "specifier" (specifierCode (specifierType p));
     f2 ← addFieldToken "typeName" (classType p);
     fm ← mapM (addPrimMetadata h) (metadata p);
     fp ← match attributes p with
          | [] => mret []
          | atts => i ← addFieldTokenVector "properties" (map att_name atts); mret [i]
          end;
     fc ← match children p with
          | [] => mret []
          | cs => i ← addFieldTokenVector "primChildren" (map name cs); mret [i]
          end;
     specTail ([f1; f2] ++ concat fm ++ fp ++ fc) SpecPrim (name p)
       (primPathJump p parent) false
       (fun idx =>
          h ← (fix children_loop (cs : list UsdPrim) (h : Heap) : M Heap :=
                 match cs with
                 | [] => mret h
                 | child :: cs' =>
                     h ← writeUsdPrim child (Some p) h;
                     children_loop cs' h
                 end) (children p) (setPrimPathIndex h (prim_id p) idx);
          writeUsdProperties (attributes p) h)).
Proof. destruct p; reflexivity. Qed.

Lemma writeUsdPrim_wrote p :
  forall parent h cf h' cf',
    writeUsdPrim p parent h cf = Ok (h', cf') ->
    wrote (nodes p) h cf h' cf'.
Proof.
  induction p as [id nm ct md cs atts IH] using UsdPrim_nested_ind.
  intros parent h cf h' cf' H.
  pose proof quiet_addPrimMetadata as Q1.
  pose proof (extends_refl cf) as Hext.
  set (p := Prim id nm ct md cs atts) in *.
  rewrite writeUsdPrim_unfold in H.
  repeat (quiet_inv H Hext).
  eapply (specTail_wrote _ _ (primNode p) _ _ _ h) in H as (cfz & H & Hw);
    [|reflexivity].
  apply bind_Ok in H as (hy & cfy & H1 & H2).
  rewrite children_loop_eq in H1.
  apply writeUsdPrims_wrote in H1; [|exact IH].
  apply writeUsdProperties_wrote in H2.
  eapply wrote_extends_l; [exact Hext|].
  change (nodes p) with ([primNode p] ++ concat (map nodes cs) ++ map attNode atts).
  eapply wrote_app; [exact Hw|]. by eapply wrote_app.
Qed.

Lemma writeUsdPrims_nodes cs parent h cf h' cf' :
  writeUsdPrims cs parent h cf = Ok (h', cf') ->
  wrote (concat (map nodes cs)) h cf h' cf'.
Proof.
  apply writeUsdPrims_wrote, Forall_forall. intros p _. apply writeUsdPrim_wrote.
Qed.

(** The whole run: the nodes under the root are written between two
    steps that leave the tables alone. *)
Lemma writeUsd_wrote root h0 cf0 h cf :
  writeUsd root h0 cf0 = Ok (h, cf) ->
  exists cf1,
    wrote (rootNodes root) (updatePathIndicesRoot root h0).2 cf0 h cf1
    /\ extends cf1 cf.
Proof.
  intros H. unfold writeUsd in H.
  destruct (updatePathIndicesRoot root h0) as [z h1]. cbn [snd].
  pose proof quiet_writeBootstrap as Q1.
  pose proof quiet_addRootMetadata as Q2.
  pose proof (extends_refl cf0) as Hext.
  repeat (quiet_inv H Hext). cbv zeta in H.
  lazymatch type of H with
  | mbind _ (addFieldSet ?fs) ?c = _ =>
      change (specTail fs SpecPseudoRoot
                (node_name (mkNode KPrim (prim_id root) ""))
                (primPathJump root None) false
                (fun idx =>
                   h ← writeUsdPrims (children root) (Some root)
                         (setPrimPathIndex h1 (prim_id root) idx);
                   _ ← writeSections;
                   _ ← writeTableOfContents;
                   mret h) c
              = Ok (h, cf)) in H
  end.
  eapply (specTail_wrote _ _ (mkNode KPrim (prim_id root) "") _ _ _ h1)
    in H as (cfz & H & Hw); [|reflexivity].
  apply bind_Ok in H as (hy & cfy & H1 & H2).
  apply writeUsdPrims_nodes in H1.
  pose proof quiet_writeSections as Q3.
  pose proof quiet_writeTableOfContents as Q4.
  pose proof (extends_refl cfy) as Hext2.
  repeat (quiet_inv H2 Hext2). injection H2 as <- <-.
  exists cfy. split; [|exact Hext2].
  eapply wrote_extends_l; [exact Hext|].
  unfold rootNodes.
  change (?n :: ?l) with ([n] ++ l).
  by eapply wrote_app.
Qed.

End CrateTree.

Section PathNumbers.
Import JS Writer Usd Crate PathSpec.

Lemma numbered_unfold p k :
  numbered p k
  = (primNode p, k, k)
    :: numberedList (children p) (k + 1)
    ++ imap (fun j a => (attNode a, k + 1 + sizes (children p) + Z.of_nat j, k))
         (attributes p).
Proof. destruct p; reflexivity. Qed.

Lemma updatePathIndices_unfold p k h :
  updatePathIndices p k h
  = let '(k', h') :=
      updateChildren (children p) (k + 1) (setPrimPathIndex h (prim_id p) k) in
    fold_left
      (fun '(pathIndex2, h) att =>
         (pathIndex2 + 1, setAttPathIndex h (att_id att) k))
      (attributes p) (k', h').
Proof. destruct p; reflexivity. Qed.

Lemma size_unfold p :
  size p = 1 + sizes (children p) + Z.of_nat (length (attributes p)).
Proof.
  unfold size, sizes. destruct p as [id nm ct md cs atts]. cbn [nodes children attributes].
  rewrite length_cons, length_app, length_map. lia.
Qed.

Lemma sizes_cons c cs : sizes (c :: cs) = size c + sizes cs.
Proof. unfold sizes, size. cbn [map concat]. rewrite length_app. lia. Qed.

(** The positions are the places in the list of the nodes. *)
Lemma numberedList_positions cs :
  Forall (fun p => forall k,
            map positionOf (numbered p k)
            = imap (fun j n => (n, k + Z.of_nat j)) (nodes p)) cs ->
  forall k,
    map positionOf (numberedList cs k)
    = imap (fun j n => (n, k + Z.of_nat j)) (concat (map nodes cs)).
Proof.
  induction 1 as [|c cs Hc Hcs IH]; intros k; [done|].
  cbn [numberedList map concat]. rewrite map_app, imap_app, Hc, IH.
  f_equal. apply imap_ext. intros j n _. cbn. f_equal. unfold size. lia.
Qed.

Lemma numbered_positions p :
  forall k,
    map positionOf (numbered p k)
    = imap (fun j n => (n, k + Z.of_nat j)) (nodes p).
Proof.
  induction p as [id nm ct md cs atts IH] using UsdPrim_nested_ind.
  intros k. set (p := Prim id nm ct md cs atts).
  rewrite numbered_unfold.
  change (nodes p) with (primNode p :: concat (map nodes cs) ++ map attNode atts).
  cbn [map imap children attributes p]. unfold positionOf at 1. cbn [fst snd].
  rewrite Z.add_0_r. f_equal.
  rewrite map_app, imap_app, (numberedList_positions cs IH).
  f_equal.
  - apply imap_ext. intros j n _. cbn. f_equal. lia.
  - change (map positionOf ?l) with (positionOf <$> l).
    change (map attNode atts) with (attNode <$> atts).
    rewrite fmap_imap, imap_fmap. apply imap_ext. intros j a _.
    unfold positionOf, sizes. cbn. f_equal. lia.
Qed.

Lemma numberedList_all_positions cs k :
  map positionOf (numberedList cs k)
  = imap (fun j n => (n, k + Z.of_nat j)) (concat (map nodes cs)).
Proof.
  apply numberedList_positions, Forall_forall. intros p _.
  apply numbered_positions.
Qed.

(** The stores of [updatePathIndices]: every node gets the position of
    its owner. *)
Lemma update_attributes atts t k h :
  fold_left
    (fun '(pathIndex2, h) att =>
       (pathIndex2 + 1, setAttPathIndex h (att_id att) t))
    atts (k, h)
  = (k + Z.of_nat (length atts),
     storeAll (map (fun a => (attNode a, t)) atts) h).
Proof.
  revert k h. induction atts as [|a atts IH]; intros k h.
  - cbn. f_equal. lia.
  - cbn [fold_left map]. rewrite IH. cbn [length]. f_equal. lia.
Qed.

Lemma updateChildren_spec cs :
  Forall (fun p => forall k h,
            updatePathIndices p k h
            = (k + size p, storeAll (map ownerOf (numbered p k)) h)) cs ->
  forall k h,
    updateChildren cs k h
    = (k + sizes cs, storeAll (map ownerOf (numberedList cs k)) h).
Proof.
  induction 1 as [|c cs Hc Hcs IH]; intros k h.
  - cbn. f_equal. unfold sizes. cbn. lia.
  - cbn [updateChildren numberedList]. rewrite Hc, IH, sizes_cons.
    unfold storeAll. rewrite map_app, fold_left_app. f_equal. lia.
Qed.

Lemma updatePathIndices_spec p :
  forall k h,
    updatePathIndices p k h
    = (k + size p, storeAll (map ownerOf (numbered p k)) h).
Proof.
  induction p as [id nm ct md cs atts IH] using UsdPrim_nested_ind.
  intros k h. set (p := Prim id nm ct md cs atts).
  rewrite updatePathIndices_unfold, numbered_unfold, size_unfold.
  cbn [children attributes prim_id p].
  rewrite (updateChildren_spec cs IH), update_attributes.
  f_equal; [lia|].
  cbn [map]. unfold storeAll. cbn [fold_left]. rewrite map_app, fold_left_app.
  f_equal.
  change (map ownerOf ?l) with (ownerOf <$> l). rewrite fmap_imap.
  symmetry. etrans; [|apply (imap_const (fun a => (attNode a, k)))].
  by apply imap_ext.
Qed.

Lemma updatePathIndicesRoot_spec root h :
  (updatePathIndicesRoot root h).2
  = storeAll (map ownerOf (numberedList (children root) 1)) h.
Proof.
  unfold updatePathIndicesRoot.
  rewrite (updateChildren_spec (children root)); [done|].
  apply Forall_forall. intros p _. apply updatePathIndices_spec.
Qed.

(** A store to a node is read back unless a later store is to the same
    node. *)
Lemma pathIndexOf_store h e n :
  pathIndexOf (store h e) n
  = if decide (nodeKey e.1 = nodeKey n) then e.2 else pathIndexOf h n.
Proof.
  destruct e as [[k i s] v], n as [k' i' s']. unfold nodeKey, pathIndexOf, store.
  cbn [fst snd node_kind node_id].
  destruct k, k'; cbn; unfold primPathIndex, attPathIndex; cbn;
    case_decide as Hd; try (injection Hd as ->); try done.
  - by rewrite lookup_insert_eq.
  - rewrite lookup_insert_ne; [done|congruence].
  - by rewrite lookup_insert_eq.
  - rewrite lookup_insert_ne; [done|congruence].
Qed.

Lemma storeAll_other es h n :
  nodeKey n ∉ map (fun e => nodeKey e.1) es ->
  pathIndexOf (storeAll es h) n = pathIndexOf h n.
Proof.
  revert h. induction es as [|e es IH]; intros h Hn; [done|].
  cbn [map] in Hn. apply not_elem_of_cons in Hn as [Hne Hn].
  unfold storeAll. cbn [fold_left]. fold (storeAll es (store h e)).
  rewrite IH by done. rewrite pathIndexOf_store.
  by case_decide.
Qed.

Lemma storeAll_lookup es h n v :
  NoDup (map (fun e => nodeKey e.1) es) ->
  (n, v) ∈ es ->
  pathIndexOf (storeAll es h) n = v.
Proof.
  revert h. induction es as [|e es IH]; intros h Hnd Hin.
  - by apply elem_of_nil in Hin.
  - cbn [map] in Hnd. apply NoDup_cons in Hnd as [Hne Hnd].
    unfold storeAll. cbn [fold_left]. fold (storeAll es (store h e)).
    apply elem_of_cons in Hin as [<-|Hin].
    + rewrite storeAll_other by done. rewrite pathIndexOf_store.
      by case_decide.
    + by apply IH.
Qed.

End PathNumbers.

Section PathClaims.
Import JS Writer Usd Crate PathSpec.

(** A run that evaluates to a result. *)
Lemma result_run {A B} (m : result (A * B)) (P : A -> B -> Prop) :
  match m with Ok (a, b) => P a b | Err _ => False end ->
  exists a b, m = Ok (a, b) /\ P a b.
Proof. destruct m as [[a b]|e]; [eauto|done]. Qed.

Lemma result_run_with {A B} (m : result (A * B)) (P : A -> B -> Prop) :
  isOk m = true ->
  (forall a b, m = Ok (a, b) -> P a b) ->
  exists a b, m = Ok (a, b) /\ P a b.
Proof. destruct m as [[a b]|e]; [eauto|done]. Qed.

Lemma tokensOK_new : tokensOK newCrateFile.
Proof. intros s i H. cbn in H. by rewrite lookup_empty in H. Qed.

(** The owner of a prim is the prim; the owner of a property comes
    before it. *)
Lemma numberedList_owner cs :
  Forall (fun p => forall k n pos owner, (n, pos, owner) ∈ numbered p k ->
            match node_kind n with
            | KPrim => owner = pos
            | KProperty => owner < pos
            end) cs ->
  forall k n pos owner, (n, pos, owner) ∈ numberedList cs k ->
    match node_kind n with KPrim => owner = pos | KProperty => owner < pos end.
Proof.
  induction 1 as [|c cs Hc Hcs IH]; intros k n pos owner Hin.
  - by apply elem_of_nil in Hin.
  - cbn [numberedList] in Hin. apply elem_of_app in Hin as [Hin|Hin].
    + by eapply Hc.
    + by eapply IH.
Qed.

Lemma numbered_owner p :
  forall k n pos owner, (n, pos, owner) ∈ numbered p k ->
    match node_kind n with KPrim => owner = pos | KProperty => owner < pos end.
Proof.
  induction p as [id nm ct md cs atts IH] using UsdPrim_nested_ind.
  intros k n pos owner Hin. rewrite numbered_unfold in Hin.
  apply elem_of_cons in Hin as [[= -> -> ->]|Hin]; [done|].
  apply elem_of_app in Hin as [Hin|Hin].
  - by eapply (numberedList_owner cs IH).
  - apply elem_of_lookup_imap in Hin as (j & a & [= -> -> ->] & _).
    cbn. unfold sizes. lia.
Qed.

Lemma keys_imap (g : nat -> Z) (ns : list Node) :
  map (fun e : Node * Z => nodeKey e.1) (imap (fun j n => (n, g j)) ns)
  = map nodeKey ns.
Proof.
  revert g. induction ns as [|n ns IH]; intros g; [done|].
  cbn [imap map]. f_equal. apply (IH (g ∘ S)).
Qed.

Lemma imap_fst (g : nat -> Z) (ns : list Node) :
  map fst (imap (fun j n => (n, g j)) ns) = ns.
Proof.
  revert g. induction ns as [|n ns IH]; intros g; [done|].
  cbn [imap map fst]. f_equal. apply (IH (g ∘ S)).
Qed.

Lemma imap_snd (k : nat) (ns : list Node) :
  map snd (imap (fun j n => (n, Z.of_nat k + Z.of_nat j)) ns)
  = map Z.of_nat (seq k (length ns)).
Proof.
  revert k. induction ns as [|n ns IH]; intros k; [done|].
  cbn [imap map snd length seq]. f_equal; [lia|].
  rewrite <- (IH (S k)). f_equal. apply imap_ext. intros j m _. cbn. f_equal. lia.
Qed.

(** The numbering lists the nodes in depth-first order and counts them
    from [k]. *)
Lemma numberedList_nodes cs (k : nat) :
  map (fun e : Node * Z * Z => e.1.1) (numberedList cs (Z.of_nat k))
  = concat (map nodes cs)
  /\ map (fun e : Node * Z * Z => e.1.2) (numberedList cs (Z.of_nat k))
     = map Z.of_nat (seq k (length (numberedList cs (Z.of_nat k)))).
Proof.
  pose proof (numberedList_all_positions cs (Z.of_nat k)) as H.
  assert (Hl : length (numberedList cs (Z.of_nat k))
               = length (concat (map nodes cs))).
  { rewrite <- (length_map positionOf), H. apply length_imap. }
  split.
  - rewrite <- (imap_fst (fun j => Z.of_nat k + Z.of_nat j)), <- H.
    rewrite map_map. by apply map_ext.
  - rewrite Hl, <- imap_snd, <- H. rewrite map_map. by apply map_ext.
Qed.

Lemma keys_positions l :
  map (fun e : Node * Z => nodeKey e.1) (map ownerOf l)
  = map (fun e : Node * Z => nodeKey e.1) (map positionOf l).
Proof. rewrite !map_map. by apply map_ext. Qed.

(** C1 (amended). In the path table that [writeUsd] produces on a new
    Crate file there is one entry per node, in the order root, then
    depth first each prim, its children and its properties; the token
    of the entry of a prim (the root included, under the empty name) is
    the index [i] of its name in the token table, not negated, and the
    token of the entry of an attribute, a connection or a relationship
    is the negation [- i] of the index of its name. *)
Theorem writeUsd_paths_token_sign root h0 h cf :
  writeUsd root h0 newCrateFile = Ok (h, cf) ->
  Forall2
    (fun e n =>
       exists i : nat,
         tokens cf !! i = Some (node_name n)
         /\ e.1.2 = match node_kind n with
                    | KPrim => Z.of_nat i
                    | KProperty => - Z.of_nat i
                    end)
    (paths cf) (rootNodes root).
Proof.
  intros H. apply writeUsd_wrote in H as (cf1 & Hw & He).
  pose proof (wrote_extends_r _ _ _ _ _ _ Hw He) as (_ & Hok & _ & _ & es & Hp & Hes).
  specialize (Hok tokensOK_new). cbn in Hp. rewrite Hp.
  eapply Forall2_impl; [exact Hes|]. intros e n (i & Hi & Hsign).
  destruct (Hok _ _ Hi) as [H0 Hl]. exists (Z.to_nat i).
  split; [done|]. rewrite Z2Nat.id by done. exact Hsign.
Qed.

Lemma writeUsd_paths_token_sign_witness :
  exists h cf,
    writeUsd exampleTree emptyHeap newCrateFile = Ok (h, cf)
    /\ Forall2
         (fun e n =>
            exists i : nat,
              tokens cf !! i = Some (node_name n)
              /\ e.1.2 = match node_kind n with
                         | KPrim => Z.of_nat i
                         | KProperty => - Z.of_nat i
                         end)
         (paths cf) (rootNodes exampleTree).
Proof.
  apply result_run_with; [vm_compute; reflexivity|].
  intros h cf H. exact (writeUsd_paths_token_sign exampleTree emptyHeap h cf H).
Defined.

(** C1 (counterexample). On the example tree the entries of the prims
    [A], [C] and [B] carry the indices 1, 9 and 2 of their names, not
    negated, and the entry of the attribute [x] carries -8, the
    negation of the index of its name. *)
Lemma writeUsd_prim_token_not_negated :
  exists h cf,
    writeUsd exampleTree emptyHeap newCrateFile = Ok (h, cf)
    /\ paths cf = [(0, 3, -1); (1, 1, 3); (2, 9, 0); (3, -8, -2); (4, 2, -2)]
    /\ map (fun n => (node_kind n, node_name n)) (rootNodes exampleTree)
       = [(KPrim, ""); (KPrim, "A"); (KPrim, "C"); (KProperty, "x"); (KPrim, "B")]
    /\ tokens cf !! 1%nat = Some "A"
    /\ tokens cf !! 9%nat = Some "C"
    /\ tokens cf !! 8%nat = Some "x"
    /\ tokens cf !! 2%nat = Some "B".
Proof.
  apply result_run. vm_compute. split_and!; reflexivity.
Qed.

(** C2 (amended). On a tree whose nodes have distinct identities,
    written to a new Crate file: the nodes under the root are numbered
    1, 2, 3, ... in depth-first order (a prim, its children, its
    properties).
    [updatePathIndices] gives every node the number of its owner: a prim
    gets its own number, so the prims skip one number for every
    property, and a property gets the number of the prim that holds it.
    The writer then assigns every [pathIndex] again, to the spec index
    of the node, which is its own number: the value of a prim stays,
    the value of a property changes to a later one. The root gets 0
    from the writer. *)
Theorem writeUsd_pathIndex_assignment root h0 h cf :
  NoDup (map nodeKey (rootNodes root)) ->
  writeUsd root h0 newCrateFile = Ok (h, cf) ->
  map (fun e : Node * Z * Z => e.1.1) (numberedList (children root) 1)
  = concat (map nodes (children root))
  /\ map (fun e : Node * Z * Z => e.1.2) (numberedList (children root) 1)
     = map Z.of_nat (seq 1 (length (numberedList (children root) 1)))
  /\ primPathIndex h (prim_id root) = 0
  /\ forall n pos owner,
       (n, pos, owner) ∈ numberedList (children root) 1 ->
       pathIndexOf (updatePathIndicesRoot root h0).2 n = owner
       /\ pathIndexOf h n = pos
       /\ match node_kind n with
          | KPrim => owner = pos
          | KProperty => owner < pos
          end.
Proof.
  intros Hnd H. apply writeUsd_wrote in H as (cf1 & (Hh & _) & _).
  cbn [specs newCrateFile length] in Hh.
  assert (Hes : imap (fun j n => (n, Z.of_nat 0 + Z.of_nat j)) (rootNodes root)
                = (mkNode KPrim (prim_id root) "", 0)
                  :: map positionOf (numberedList (children root) 1)).
  { unfold rootNodes. cbn [imap]. f_equal.
    rewrite numberedList_all_positions. apply imap_ext. intros j n _.
    cbn. f_equal. lia. }
  assert (Hk : NoDup (map (fun e : Node * Z => nodeKey e.1)
                        ((mkNode KPrim (prim_id root) "", 0)
                         :: map positionOf (numberedList (children root) 1)))).
  { rewrite <- Hes, keys_imap. exact Hnd. }
  rewrite Hes in Hh.
  destruct (numberedList_nodes (children root) 1) as [N1 N2].
  split; [exact N1|]. split; [exact N2|]. split.
  - change (pathIndexOf h (mkNode KPrim (prim_id root) "") = 0).
    rewrite Hh. apply storeAll_lookup; [exact Hk|]. apply elem_of_cons. by left.
  - intros n pos owner Hin. split_and!.
    + rewrite updatePathIndicesRoot_spec. apply storeAll_lookup.
      * rewrite keys_positions. cbn [map] in Hk. by apply NoDup_cons in Hk as [_ Hk].
      * apply (list_elem_of_fmap_2 ownerOf) in Hin. exact Hin.
    + rewrite Hh. apply storeAll_lookup; [exact Hk|].
      apply elem_of_cons. right.
      apply (list_elem_of_fmap_2 positionOf) in Hin. exact Hin.
    + eapply numberedList_owner; [|exact Hin].
      apply Forall_forall. intros p _. apply numbered_owner.
Qed.

Lemma writeUsd_pathIndex_assignment_witness :
  exists h cf,
    writeUsd exampleTree emptyHeap newCrateFile = Ok (h, cf)
    /\ map (fun e : Node * Z * Z => e.1.1) (numberedList (children exampleTree) 1)
       = concat (map nodes (children exampleTree))
    /\ map (fun e : Node * Z * Z => e.1.2) (numberedList (children exampleTree) 1)
       = map Z.of_nat (seq 1 (length (numberedList (children exampleTree) 1)))
    /\ primPathIndex h (prim_id exampleTree) = 0
    /\ forall n pos owner,
         (n, pos, owner) ∈ numberedList (children exampleTree) 1 ->
         pathIndexOf (updatePathIndicesRoot exampleTree emptyHeap).2 n = owner
         /\ pathIndexOf h n = pos
         /\ match node_kind n with
            | KPrim => owner = pos
            | KProperty => owner < pos
            end.
Proof.
  apply result_run_with; [vm_compute; reflexivity|].
  intros h cf H.
  apply (writeUsd_pathIndex_assignment exampleTree emptyHeap h cf); [|exact H].
  refine (bool_decide_unpack _ _). vm_compute. exact I.
Defined.

(** C2 (counterexample). On the example tree [updatePathIndices] gives
    the prims [A], [C] and [B] the indices 1, 2 and 4, which are not
    consecutive, and the attribute [x] the index 1 of [A]; after
    [writeUsd] the [pathIndex] of [x] is 3. *)
Lemma writeUsd_attribute_pathIndex_reassigned :
  primPathIndex (updatePathIndicesRoot exampleTree emptyHeap).2 1 = 1
  /\ primPathIndex (updatePathIndicesRoot exampleTree emptyHeap).2 2 = 2
  /\ primPathIndex (updatePathIndicesRoot exampleTree emptyHeap).2 3 = 4
  /\ attPathIndex (updatePathIndicesRoot exampleTree emptyHeap).2 0 = 1
  /\ exists h cf,
       writeUsd exampleTree emptyHeap newCrateFile = Ok (h, cf)
       /\ attPathIndex h 0 = 3
       /\ primPathIndex h 1 = 1.
Proof.
  split_and!; try (vm_compute; reflexivity).
  apply result_run. vm_compute. split; reflexivity.
Qed.

End PathClaims.

(** ** The exporters *)

Section GlbFacts.
Import JS Writer Usdz MeshExporter Scenarios.

Lemma length_uint32Bytes xs : length (uint32Bytes xs) = (4 * length xs)%nat.
Proof.
  unfold uint32Bytes. induction xs as [|x xs IH]; cbn [map concat]; [done|].
  rewrite length_app, length_le, IH. cbn [length]. lia.
Qed.

Lemma length_float32Bytes xs : length (float32Bytes xs) = (4 * length xs)%nat.
Proof.
  unfold float32Bytes. induction xs as [|x xs IH]; cbn [map concat]; [done|].
  rewrite length_app, length_le, IH. cbn [length]. lia.
Qed.

(** One round of the loop appends the three buffers of the mesh and
    advances [byteOffset] by their lengths. *)
Lemma exportGlb_body_buffers st e :
  binaryBuffer (exportGlb_body st e)
  = binaryBuffer st
    ++ [uint32Bytes (faces e.2); float32Bytes (flattenVec3s (positions e.2));
        float32Bytes (flattenVec3s (normals e.2))]
  /\ byteOffset (exportGlb_body st e)
     = byteOffset st + byteLength (uint32Bytes (faces e.2))
       + byteLength (float32Bytes (flattenVec3s (positions e.2)))
       + byteLength (float32Bytes (flattenVec3s (normals e.2))).
Proof.
  destruct e as [color mesh]. unfold exportGlb_body.
  destruct (computeBounding (positions mesh)) as [mn mx].
  destruct (toRgbNormalized color) as [[r g] b]. cbn. done.
Qed.

Lemma glb_loop_offset meshes st :
  byteOffset st = Z.of_nat (length (concat (binaryBuffer st))) ->
  byteOffset st mod 4 = 0 ->
  let st' := fold_left exportGlb_body meshes st in
  byteOffset st' = Z.of_nat (length (concat (binaryBuffer st')))
  /\ byteOffset st' mod 4 = 0.
Proof.
  revert st. induction meshes as [|e meshes IH]; intros st H1 H2; [done|].
  cbn [fold_left]. destruct (exportGlb_body_buffers st e) as [Hb Ho].
  apply IH.
  - rewrite Ho, Hb, concat_app, length_app, H1. cbn [concat].
    rewrite !length_app. unfold byteLength. cbn [length]. lia.
  - rewrite Ho. unfold byteLength.
    rewrite length_uint32Bytes, !length_float32Bytes. lia.
Qed.

Lemma glbState_offset meshes :
  byteOffset (glbState meshes)
  = Z.of_nat (length (concat (binaryBuffer (glbState meshes))))
  /\ byteOffset (glbState meshes) mod 4 = 0.
Proof. by apply glb_loop_offset. Qed.

(** A chunk is its declared length, its type, its data, and padding up
    to the next multiple of 4. *)
Lemma createChunk_spec chunkType buf padChar :
  exists blocks padding,
    createChunk chunkType buf (Z.of_nat (length (concat buf))) padChar
    = (blocks, Z.of_nat (length (glbChunk chunkType (concat buf) padding)))
    /\ concat blocks = glbChunk chunkType (concat buf) padding
    /\ padding = repeat (u8 padChar) (length padding)
    /\ (length padding < 4)%nat
    /\ Z.of_nat (length (concat buf ++ padding)) mod 4 = 0
    /\ (Z.of_nat (length (concat buf)) mod 4 = 0 -> padding = []).
Proof.
  unfold createChunk, glbChunk. set (n := Z.of_nat (length (concat buf))).
  destruct (Z.eqb_spec (n mod 4) 0) as [H0|H0]; cbn [negb].
  - eexists _, []. rewrite app_nil_r. fold n. split_and!; try done.
    + f_equal. rewrite !length_app, !length_le. fold n. lia.
    + cbn [app concat uint32Bytes map]. by rewrite app_nil_r, <- app_assoc.
    + cbn. lia.
  - eexists _, (repeat (u8 padChar) (Z.to_nat (4 - n mod 4))).
    assert (Hn : Z.of_nat (length (concat buf
                   ++ repeat (u8 padChar) (Z.to_nat (4 - n mod 4))))
                 = n + (4 - n mod 4)).
    { rewrite length_app, repeat_length. fold n. lia. }
    rewrite Hn. split_and!.
    + f_equal. rewrite !length_app, !length_le.
      rewrite <- length_app, Nat2Z.inj_add, Nat2Z.inj_add, Hn. lia.
    + rewrite !concat_app. cbn [concat uint32Bytes map].
      by rewrite !app_nil_r, <- !app_assoc.
    + by rewrite repeat_length.
    + rewrite repeat_length. lia.
    + lia.
    + intros H. lia.
Qed.

(** The bytes [exportGlb] returns: it never fails. *)
Lemma exportGlb_eq (dtoa : float -> string) meshes :
  exists jsonPad glb,
    exportGlb dtoa meshes = Ok glb
    /\ glb = le 4 0x46546C67 ++ le 4 2 ++ le 4 (Z.of_nat (length glb))
            ++ glbChunk 0x4E4F534A
                 (charCodes (stringify dtoa
                    (gltfManifest (glbState meshes) (byteOffset (glbState meshes)))))
                 jsonPad
            ++ glbChunk 0x004E4942 (concat (binaryBuffer (glbState meshes))) []
    /\ jsonPad = repeat x20 (length jsonPad)
    /\ (length jsonPad < 4)%nat
    /\ Z.of_nat (length (charCodes (stringify dtoa
           (gltfManifest (glbState meshes) (byteOffset (glbState meshes))))
           ++ jsonPad)) mod 4 = 0
    /\ Z.of_nat (length (concat (binaryBuffer (glbState meshes)))) mod 4 = 0.
Proof.
  unfold exportGlb. fold (glbState meshes). cbv zeta.
  destruct (glbState_offset meshes) as [Hoff Hmod].
  set (st := glbState meshes) in *.
  set (json := charCodes (stringify dtoa (gltfManifest st (byteOffset st)))).
  replace (byteLength json) with (Z.of_nat (length (concat [json])))
    by (cbn [concat]; by rewrite app_nil_r).
  destruct (createChunk_spec 0x4E4F534A [json] 0x20)
    as (jb & jp & -> & Hjb & Hjp & Hjl & Hjm & _).
  rewrite Hoff.
  destruct (createChunk_spec 0x004E4942 (binaryBuffer st) 0x00)
    as (bb & bp & -> & Hbb & _ & _ & _ & Hbp).
  rewrite <- Hoff in Hbp. specialize (Hbp Hmod). subst bp.
  change (concat [json]) with (json ++ []) in *. rewrite app_nil_r in *.
  set (total := 12 + _ + _).
  set (blocks := [uint32Bytes _] ++ jb ++ bb).
  assert (Hc : concat blocks
               = le 4 0x46546C67 ++ le 4 2 ++ le 4 total
                 ++ glbChunk 0x4E4F534A json jp
                 ++ glbChunk 0x004E4942 (concat (binaryBuffer st)) []).
  { subst blocks. rewrite !concat_app, Hjb, Hbb.
    cbn [concat uint32Bytes map]. by rewrite !app_nil_r, <- !app_assoc. }
  assert (Ht : total = Z.of_nat (length (concat blocks))).
  { rewrite Hc. subst total. unfold glbChunk.
    rewrite !length_app, !length_le. lia. }
  rewrite Ht, setAll_zeros. exists jp, (concat blocks).
  split; [done|]. split; [by rewrite Hc at 1; rewrite Ht|].
  rewrite <- Hoff. done.
Qed.

End GlbFacts.

Section ExporterClaims.
Import JS Writer Usdz Usd Crate MeshExporter Scenarios.

Lemma glb_header_fields (total : Z) (rest : list byte) :
  glbMagic (le 4 0x46546C67 ++ le 4 2 ++ le 4 total ++ rest) = 0x46546C67
  /\ glbVersion (le 4 0x46546C67 ++ le 4 2 ++ le 4 total ++ rest) = 2
  /\ glbDeclaredLength (le 4 0x46546C67 ++ le 4 2 ++ le 4 total ++ rest)
     = total mod 2 ^ 32.
Proof.
  split_and!; [reflexivity|reflexivity|].
  unfold glbDeclaredLength.
  change (take 4 (drop 8 (le 4 0x46546C67 ++ le 4 2 ++ le 4 total ++ rest)))
    with (le 4 total).
  by rewrite unle_le.
Qed.

(** C8 (amended). For every mesh set, within the invariants or not,
    [exportGlb] returns a buffer made of the 12-byte header (magic
    0x46546C67, version 2, declared total length), the JSON chunk and the
    BIN chunk. Its length is 12 plus the lengths of the two chunks. The
    declared total length is a 32-bit field: it holds the length of the
    buffer modulo [2 ^ 32], which is the length when the buffer is shorter
    than [2 ^ 32] bytes. The lengths of the JSON and BIN chunk data with
    their padding are divisible by 4; the JSON chunk is padded with fewer
    than four 0x20 bytes, and the BIN chunk needs no padding. *)
Theorem exportGlb_structure (dtoa : float -> string) (meshes : MeshByColor) :
  exists glb jsonPad,
    let json :=
      charCodes (stringify dtoa
        (gltfManifest (glbState meshes) (byteOffset (glbState meshes)))) in
    let bin := concat (binaryBuffer (glbState meshes)) in
    exportGlb dtoa meshes = Ok glb
    /\ glb = le 4 0x46546C67 ++ le 4 2 ++ le 4 (Z.of_nat (length glb))
             ++ glbChunk 0x4E4F534A json jsonPad
             ++ glbChunk 0x004E4942 bin []
    /\ glbMagic glb = 0x46546C67
    /\ glbVersion glb = 2
    /\ glbDeclaredLength glb = Z.of_nat (length glb) mod 2 ^ 32
    /\ (Z.of_nat (length glb) < 2 ^ 32 ->
        glbDeclaredLength glb = Z.of_nat (length glb))
    /\ Z.of_nat (length glb)
       = 12 + Z.of_nat (length (glbChunk 0x4E4F534A json jsonPad))
         + Z.of_nat (length (glbChunk 0x004E4942 bin []))
    /\ Z.of_nat (length (json ++ jsonPad)) mod 4 = 0
    /\ Z.of_nat (length bin) mod 4 = 0
    /\ jsonPad = repeat x20 (length jsonPad)
    /\ (length jsonPad < 4)%nat.
Proof.
  destruct (exportGlb_eq dtoa meshes) as (jp & glb & He & Hg & Hp & Hl & Hj & Hb).
  exists glb, jp. cbv zeta.
  destruct (glb_header_fields (Z.of_nat (length glb))
              (glbChunk 0x4E4F534A
                 (charCodes (stringify dtoa
                    (gltfManifest (glbState meshes) (byteOffset (glbState meshes)))))
                 jp
               ++ glbChunk 0x004E4942 (concat (binaryBuffer (glbState meshes))) []))
    as (F1 & F2 & F3).
  rewrite <- Hg in F1, F2, F3.
  split_and!; try done.
  - intros Hlt. rewrite F3. apply Z.mod_small. lia.
  - rewrite Hg at 1. rewrite !length_app, !length_le. lia.
Qed.

Lemma glbDeclaredLength_range glb : 0 <= glbDeclaredLength glb < 2 ^ 32.
Proof.
  unfold glbDeclaredLength.
  pose proof (unle_range (take 4 (drop 8 glb))) as Hr.
  assert (length (take 4 (drop 8 glb)) <= 4)%nat by (rewrite length_take; lia).
  assert (2 ^ (8 * Z.of_nat (length (take 4 (drop 8 glb)))) <= 2 ^ 32)
    by (apply Z.pow_le_mono_r; lia).
  lia.
Qed.

Lemma meshOK_hugeFaces : meshOK hugeFaces.
Proof.
  unfold meshOK, hugeFaces. cbn [positions normals faces].
  split_and!; [done| |].
  - apply Forall_forall. intros f Hf%list_elem_of_In%repeat_spec. subst f.
    cbn. lia.
  - rewrite repeat_length, Z2Nat.id by lia. reflexivity.
Qed.

(** C8 (counterexample). The mesh [hugeFaces] is within the invariants;
    the buffer [exportGlb] returns for it is longer than [2 ^ 32] bytes,
    and its declared total length, below [2 ^ 32], is not its length. *)
Lemma exportGlb_declared_length_wraps :
  meshOK hugeFaces
  /\ exists glb,
       exportGlb (fun _ => "0") [(0, hugeFaces)] = Ok glb
       /\ 2 ^ 32 <= Z.of_nat (length glb)
       /\ glbDeclaredLength glb < 2 ^ 32
       /\ glbDeclaredLength glb <> Z.of_nat (length glb).
Proof.
  split; [apply meshOK_hugeFaces|].
  destruct (exportGlb_eq (fun _ => "0") [(0, hugeFaces)])
    as (jp & glb & He & Hg & _).
  exists glb. split; [exact He|]. clear He.
  assert (Hbig : 2 ^ 32 <= Z.of_nat (length glb)).
  { rewrite Hg. clear Hg. unfold glbState. cbn [fold_left].
    destruct (exportGlb_body_buffers
                {| primitives := []; accessors := []; bufferViews := [];
                   binaryBuffer := []; materials := []; byteOffset := 0 |}
                (0, hugeFaces)) as [-> _].
    cbn [binaryBuffer app concat fst snd]. unfold glbChunk.
    rewrite !length_app, length_uint32Bytes.
    assert (Hf : Z.of_nat (length (faces hugeFaces)) = 1073741826).
    { unfold hugeFaces. cbn [faces]. rewrite repeat_length. by apply Z2Nat.id. }
    revert Hf. generalize (length (faces hugeFaces)). intros n Hn.
    repeat match goal with
           | |- context [@length ?A ?l] =>
               let k := fresh "k" in generalize (@length A l); intros k
           end.
    lia. }
  clear Hg. pose proof (glbDeclaredLength_range glb) as Hsmall.
  split; [exact Hbig|]. split; [apply Hsmall|]. lia.
Qed.

(** C9. The OBJ and MTL texts of one red triangle, under the name
    [foo]: whatever the conversion of non-integral numbers to text is,
    since every number of this input is an integer. *)
Theorem exportObj_single_triangle (dtoa : float -> string) :
  exportObj dtoa [(0xFF0000, triangle)] "foo"
  = Ok (join newline
          ["mtllib foo.mtl"; "g m0"; "usemtl k0"; "v 0 0 0"; "v 1 0 0";
           "v 0 1 0"; "vn 0 0 1"; "vn 0 0 1"; "vn 0 0 1"; "f 1//1 2//2 3//3"],
        join newline
          ["newmtl k0"; "Ns 163"; "Ni 0.001"; "illum 2"; "Ka 0.20 0.20 0.20";
           "Kd 1 0 0"; "Ks 0.25 0.25 0.25"]).
Proof. vm_compute. reflexivity. Qed.

End ExporterClaims.

Section UsdzClaims.
Import JS Writer Usdz Usd Crate MeshExporter Scenarios.

(** The fields of the local header, read back from an archive. *)
Lemma localHeader_fields contentsSize pre rest :
  localHeader contentsSize = Ok pre ->
  recordedCompressedSize (pre ++ rest) = contentsSize mod 2 ^ 32
  /\ recordedUncompressedSize (pre ++ rest) = contentsSize mod 2 ^ 32
  /\ recordedNameLength (pre ++ rest) = nameLength
  /\ recordedExtraLength (pre ++ rest) = extraSize + 4.
Proof.
  rewrite localHeader_eq. intros [= <-].
  unfold recordedCompressedSize, recordedUncompressedSize, recordedNameLength,
    recordedExtraLength.
  split_and!.
  - match goal with
    | |- unle (take 4 (drop 18 ?l)) = _ =>
        change (take 4 (drop 18 l)) with (le 4 contentsSize)
    end.
    by rewrite unle_le.
  - match goal with
    | |- unle (take 4 (drop 22 ?l)) = _ =>
        change (take 4 (drop 22 l)) with (le 4 contentsSize)
    end.
    by rewrite unle_le.
  - reflexivity.
  - reflexivity.
Qed.

Lemma exportUsdz_inv meshes usdz :
  exportUsdz meshes = Ok usdz ->
  exists h cf pre post,
    writeUsd (usdTreeOf meshes) emptyHeap newCrateFile = Ok (h, cf)
    /\ localHeader (Z.of_nat (length (concat (buffers (file cf))))) = Ok pre
    /\ length pre = 64%nat
    /\ length post = 76%nat
    /\ usdz = pre ++ concat (buffers (file cf)) ++ post.
Proof.
  unfold exportUsdz.
  destruct (writeUsd (usdTreeOf meshes) emptyHeap newCrateFile) as [[h cf]|e];
    [|discriminate].
  cbn [mbind result_bind]. unfold getUsdz.
  destruct (getUsdzFromUsdc_eq (file cf)) as (pre & post & Hpre & Hl & Hp & ->).
  intros [= <-]. exists h, cf, pre, post.
  rewrite contentsSizeOf_concat in Hpre. done.
Qed.

Lemma length_concat_elem (b : list byte) bs :
  b ∈ bs -> (length b <= length (concat bs))%nat.
Proof.
  induction 1 as [b bs|b c bs _ IH]; cbn [concat]; rewrite length_app; lia.
Qed.

(** C7 (amended). In every archive [exportUsdz] returns, the local
    header records the name length 8 and the extra-field length
    [extraSize + 4], with [extraSize = 64 - (34 + nameLength) mod 64], so
    that the payload of the entry starts at offset 64; the payload is the
    Crate file that [writeUsd] produced, and the directory follows it. The
    compressed and uncompressed sizes are 32-bit fields: both hold the
    length of the payload modulo [2 ^ 32], which is the length when the
    payload is shorter than [2 ^ 32] bytes. *)
Theorem exportUsdz_archive (meshes : MeshByColor) (usdz : list byte) :
  exportUsdz meshes = Ok usdz ->
  exists h cf post,
    writeUsd (usdTreeOf meshes) emptyHeap newCrateFile = Ok (h, cf)
    /\ recordedNameLength usdz = nameLength
    /\ extraSize = 64 - (34 + nameLength) mod 64
    /\ recordedExtraLength usdz = extraSize + 4
    /\ payloadOffset usdz = 64
    /\ payloadOffset usdz mod 64 = 0
    /\ drop (Z.to_nat (payloadOffset usdz)) usdz
       = concat (buffers (file cf)) ++ post
    /\ length post = 76%nat
    /\ recordedCompressedSize usdz
       = Z.of_nat (length (concat (buffers (file cf)))) mod 2 ^ 32
    /\ recordedUncompressedSize usdz
       = Z.of_nat (length (concat (buffers (file cf)))) mod 2 ^ 32
    /\ (Z.of_nat (length (concat (buffers (file cf)))) < 2 ^ 32 ->
        recordedCompressedSize usdz
        = Z.of_nat (length (concat (buffers (file cf))))
        /\ recordedUncompressedSize usdz
           = Z.of_nat (length (concat (buffers (file cf))))).
Proof.
  intros (h & cf & pre & post & Hrun & Hpre & Hl & Hp & ->)%exportUsdz_inv.
  destruct (localHeader_fields _ _ (concat (buffers (file cf)) ++ post) Hpre)
    as (F1 & F2 & F3 & F4).
  assert (Hoff : payloadOffset (pre ++ concat (buffers (file cf)) ++ post) = 64).
  { unfold payloadOffset. rewrite F3, F4. reflexivity. }
  exists h, cf, post. split_and!; try done.
  - by rewrite Hoff.
  - rewrite Hoff. change (Z.to_nat 64) with 64%nat.
    rewrite <- Hl. by rewrite drop_app_length.
  - intros Hlt. rewrite F1, F2, Z.mod_small by lia. done.
Qed.

Lemma result_ok_with {A} (m : result A) (P : A -> Prop) :
  isOk m = true ->
  (forall a, m = Ok a -> P a) ->
  exists a, m = Ok a /\ P a.
Proof. destruct m as [a|e]; [eauto|done]. Qed.

Lemma exportUsdz_archive_witness :
  exists usdz,
    exportUsdz [(0xFF0000, triangle)] = Ok usdz
    /\ exists h cf post,
         writeUsd (usdTreeOf [(0xFF0000, triangle)]) emptyHeap newCrateFile
         = Ok (h, cf)
         /\ recordedNameLength usdz = nameLength
         /\ extraSize = 64 - (34 + nameLength) mod 64
         /\ recordedExtraLength usdz = extraSize + 4
         /\ payloadOffset usdz = 64
         /\ payloadOffset usdz mod 64 = 0
         /\ drop (Z.to_nat (payloadOffset usdz)) usdz
            = concat (buffers (file cf)) ++ post
         /\ length post = 76%nat
         /\ recordedCompressedSize usdz
            = Z.of_nat (length (concat (buffers (file cf)))) mod 2 ^ 32
         /\ recordedUncompressedSize usdz
            = Z.of_nat (length (concat (buffers (file cf)))) mod 2 ^ 32
         /\ (Z.of_nat (length (concat (buffers (file cf)))) < 2 ^ 32 ->
             recordedCompressedSize usdz
             = Z.of_nat (length (concat (buffers (file cf))))
             /\ recordedUncompressedSize usdz
                = Z.of_nat (length (concat (buffers (file cf))))).
Proof.
  apply result_ok_with; [vm_compute; reflexivity|].
  intros usdz H. exact (exportUsdz_archive [(0xFF0000, triangle)] usdz H).
Defined.

Lemma length_vecsToFloatArray P :
  length (vecsToFloatArray P) = (3 * length P)%nat.
Proof.
  unfold vecsToFloatArray. induction P as [|p P IH]; cbn [map concat]; [done|].
  rewrite length_app, IH. cbn [length]. lia.
Qed.

(** The run of [writeUsd] on a mesh of 357913942 points, whatever the
    points are: the bytes of the points are one block of the file. *)
Lemma writeUsd_points (P : list Vec3) :
  Z.of_nat (length P) = 357913942 ->
  exists h cf,
    writeUsd (usdTreeOf [(0, {| positions := P; normals := []; faces := [] |})])
      emptyHeap newCrateFile = Ok (h, cf)
    /\ float32Bytes (vecsToFloatArray P) ∈ buffers (file cf).
Proof.
  intros HP. apply result_run.
  assert (H1 : Z.of_nat (length (vecsToFloatArray P)) = 1073741826)
    by (rewrite length_vecsToFloatArray; lia).
  assert (H2 : Z.of_nat (length (float32Bytes (vecsToFloatArray P))) = 4294967304)
    by (rewrite length_float32Bytes, length_vecsToFloatArray; lia).
  cbv beta iota zeta delta
    [writeUsd usdTreeOf usdMeshOf usdMaterialOf mkAttribute toRgbNormalized
     imap map writeUsdPrims writeUsdPrim writeUsdProperties writeUsdProperty
     writeUsdAttribute addField addFieldVectors fileWrite write
     own withParent att_value attributes children positions normals faces
     updatePathIndicesRoot].
  rewrite H1, H2. clear H1 H2 HP.
  generalize (float32Bytes (vecsToFloatArray P)). intros B.
  generalize (vecsToFloatArray P). intros X. clear P.
  vm_compute.
  repeat first [apply list_elem_of_here | apply list_elem_of_further].
Qed.

(** C7 (counterexample). The archive of the mesh [hugePoints]: its
    payload, between the 64-byte local header and the 76-byte directory,
    is longer than [2 ^ 32] bytes, and the recorded sizes, below
    [2 ^ 32], are not its length. *)
Lemma exportUsdz_recorded_size_wraps :
  exists usdz pre payload post,
    exportUsdz [(0, hugePoints)] = Ok usdz
    /\ usdz = pre ++ payload ++ post
    /\ length pre = 64%nat
    /\ length post = 76%nat
    /\ 2 ^ 32 <= Z.of_nat (length payload)
    /\ recordedCompressedSize usdz < 2 ^ 32
    /\ recordedUncompressedSize usdz < 2 ^ 32.
Proof.
  unfold exportUsdz, hugePoints.
  destruct (writeUsd_points (repeat (vec 0 0 0) (Z.to_nat 357913942)))
    as (h & cf & Hrun & Hin).
  { rewrite repeat_length. by apply Z2Nat.id. }
  rewrite Hrun. clear Hrun. cbn [mbind result_bind]. unfold getUsdz.
  destruct (getUsdzFromUsdc_eq (file cf)) as (pre & post & Hpre & Hl & Hp & ->).
  exists (pre ++ concat (buffers (file cf)) ++ post), pre,
    (concat (buffers (file cf))), post.
  destruct (localHeader_fields _ _ (concat (buffers (file cf)) ++ post) Hpre)
    as (F1 & F2 & _).
  apply length_concat_elem in Hin.
  rewrite length_float32Bytes, length_vecsToFloatArray, repeat_length in Hin.
  clear Hpre.
  assert (Hbig : 2 ^ 32 <= Z.of_nat (length (concat (buffers (file cf)))))
    by lia.
  split; [reflexivity|]. split; [reflexivity|].
  split; [exact Hl|]. split; [exact Hp|]. split; [exact Hbig|].
  rewrite F1, F2. split; apply Z.mod_pos_bound; lia.
Qed.

End UsdzClaims.

(** ** The errors of the USDZ exporter *)

Section WriterErrors.
Import JS Writer Usdz Usd Crate MeshExporter Scenarios PathSpec.

Lemma only_ret {A} (a : A) : throwsOnlyTooLarge (mret a).
Proof. intros cf e [=]. Qed.

Lemma only_bind {A B} (m : M A) (f : A -> M B) :
  throwsOnlyTooLarge m -> (forall a, throwsOnlyTooLarge (f a)) ->
  throwsOnlyTooLarge (m ≫= f).
Proof.
  intros Hm Hf cf e. unfold mbind, M_bind.
  destruct (m cf) as [[a cf1]|e1] eqn:E.
  - apply Hf.
  - intros [= <-]. by eapply Hm.
Qed.

Lemma only_gets {A} (f : CrateFile -> A) : throwsOnlyTooLarge (gets f).
Proof. intros cf e [=]. Qed.

Lemma only_modify (f : CrateFile -> CrateFile) : throwsOnlyTooLarge (modify f).
Proof. intros cf e [=]. Qed.

Lemma only_forEach {A} (xs : list A) (body : A -> M unit) :
  (forall x, throwsOnlyTooLarge (body x)) -> throwsOnlyTooLarge (forEach xs body).
Proof.
  intros Hb. induction xs as [|x xs IH]; cbn [forEach].
  - apply only_ret.
  - apply only_bind; auto.
Qed.

Lemma only_mapM_in {A B} (f : A -> M B) (xs : list A) :
  Forall (fun x => throwsOnlyTooLarge (f x)) xs -> throwsOnlyTooLarge (mapM f xs).
Proof.
  induction 1 as [|x xs Hx Hxs IH]; cbn [mapM].
  - apply only_ret.
  - apply only_bind; [done|]. intros y. apply only_bind; [done|].
    intros ys. apply only_ret.
Qed.

Lemma only_mapM {A B} (f : A -> M B) (xs : list A) :
  (forall x, throwsOnlyTooLarge (f x)) -> throwsOnlyTooLarge (mapM f xs).
Proof. intros Hf. apply only_mapM_in, Forall_forall. auto. Qed.

Lemma only_fileTell : throwsOnlyTooLarge fileTell.
Proof. apply only_gets. Qed.

Lemma only_fileWrite buffer : throwsOnlyTooLarge (fileWrite buffer).
Proof. apply only_modify. Qed.

Lemma only_fileWriteInt value sz signed :
  throwsOnlyTooLarge (fileWriteInt value sz signed).
Proof. apply only_modify. Qed.

Lemma only_fileWriteDouble value : throwsOnlyTooLarge (fileWriteDouble value).
Proof. apply only_modify. Qed.

Lemma only_lz4 buffer : throwsOnlyTooLarge (lz4 buffer).
Proof.
  intros cf e. unfold lz4.
  destruct (lz4Compress_result (JS.whole buffer)) as [[out ->]| ->]; [done|].
  by intros [= <-].
Qed.

Lemma only_fileWriteInt32Compressed data :
  throwsOnlyTooLarge (fileWriteInt32Compressed data).
Proof.
  intros cf e. unfold fileWriteInt32Compressed, writeInt32Compressed.
  destruct (usdInt32Compress_total data) as [ints ->]. cbn [mbind result_bind].
  destruct (lz4Compress_result (JS.whole ints)) as [[out ->]| ->]; [done|].
  by intros [= <-].
Qed.

Lemma only_addWrittenData data vType ref :
  throwsOnlyTooLarge (addWrittenData data vType ref).
Proof. apply only_modify. Qed.

Lemma only_getDataReference data vType :
  throwsOnlyTooLarge (getDataReference data vType).
Proof. apply only_gets. Qed.

Lemma only_setFramesRef ref : throwsOnlyTooLarge (setFramesRef ref).
Proof. apply only_modify. Qed.

Lemma only_pushToc nm start sz : throwsOnlyTooLarge (pushToc nm start sz).
Proof. apply only_modify. Qed.

Lemma only_addFieldSet fset : throwsOnlyTooLarge (addFieldSet fset).
Proof. intros cf e [=]. Qed.

Lemma only_addSpec fset sType : throwsOnlyTooLarge (addSpec fset sType).
Proof. intros cf e [=]. Qed.

Lemma only_addPath path token jump prim :
  throwsOnlyTooLarge (addPath path token jump prim).
Proof. apply only_modify. Qed.

Lemma only_getTokenIndex token : throwsOnlyTooLarge (getTokenIndex token).
Proof. intros cf e. unfold getTokenIndex. by destruct (tokenMap cf !! token). Qed.

Lemma only_getStringIndex str : throwsOnlyTooLarge (getStringIndex str).
Proof.
  unfold getStringIndex. apply only_bind; [apply only_getTokenIndex|].
  intros tokenIndex cf e. by destruct (negb _).
Qed.

Lemma only_addFieldItem field vType array inline compressed payload :
  throwsOnlyTooLarge (addFieldItem field vType array inline compressed payload).
Proof.
  intros cf e. unfold addFieldItem.
  destruct array, compressed, inline; cbv beta iota zeta;
    by destruct (repsMap cf !! _).
Qed.

End WriterErrors.

Create HintDb throwsOnly.
#[local] Hint Resolve only_ret only_gets only_modify only_fileTell only_fileWrite
  only_fileWriteInt only_fileWriteDouble only_lz4 only_fileWriteInt32Compressed
  only_addWrittenData only_getDataReference only_setFramesRef only_pushToc
  only_addFieldSet only_addSpec only_addPath only_getTokenIndex
  only_getStringIndex only_addFieldItem : throwsOnly.

Ltac only_step :=
  lazymatch goal with
  | |- PathSpec.throwsOnlyTooLarge (mbind _ _) => apply only_bind; [|intros ?]
  | |- PathSpec.throwsOnlyTooLarge (Crate.forEach _ _) => apply only_forEach; intros ?
  | |- PathSpec.throwsOnlyTooLarge (Crate.mapM _ _) => apply only_mapM; intros ?
  | |- PathSpec.throwsOnlyTooLarge (if ?b then _ else _) => destruct b
  | |- PathSpec.throwsOnlyTooLarge (match ?x with _ => _ end) => destruct x
  | |- PathSpec.throwsOnlyTooLarge (let '(_, _) := ?x in _) => destruct x
  | |- PathSpec.throwsOnlyTooLarge _ => solve [auto with throwsOnly]
  end.
Ltac only_tac := repeat only_step.

Section WriterErrorsFields.
Import JS Writer Usdz Usd Crate MeshExporter Scenarios PathSpec.

Lemma only_addFieldTokens field data : throwsOnlyTooLarge (addFieldTokens field data).
Proof. unfold addFieldTokens. only_tac. Qed.

Lemma only_addFieldToken field data : throwsOnlyTooLarge (addFieldToken field data).
Proof. unfold addFieldToken. only_tac. Qed.

Lemma only_addFieldTokenVector field toks :
  throwsOnlyTooLarge (addFieldTokenVector field toks).
Proof. unfold addFieldTokenVector. only_tac. Qed.

Lemma only_addFieldPathListOp field pathIndex :
  throwsOnlyTooLarge (addFieldPathListOp field pathIndex).
Proof. unfold addFieldPathListOp. only_tac. Qed.

Lemma only_addFieldPathVector field pathIndex :
  throwsOnlyTooLarge (addFieldPathVector field pathIndex).
Proof. unfold addFieldPathVector. only_tac. Qed.

Lemma only_addFieldSpecifier field spec :
  throwsOnlyTooLarge (addFieldSpecifier field spec).
Proof. unfold addFieldSpecifier. only_tac. Qed.

Lemma only_addFieldInts field data : throwsOnlyTooLarge (addFieldInts field data).
Proof. unfold addFieldInts. only_tac. Qed.

Lemma only_addFieldFloat field data : throwsOnlyTooLarge (addFieldFloat field data).
Proof. unfold addFieldFloat. only_tac. Qed.

Lemma only_addFieldVectors field data :
  throwsOnlyTooLarge (addFieldVectors field data).
Proof. unfold addFieldVectors. only_tac. Qed.

Lemma only_addFieldVector field data : throwsOnlyTooLarge (addFieldVector field data).
Proof. unfold addFieldVector. only_tac. Qed.

Lemma only_addFieldBool field data : throwsOnlyTooLarge (addFieldBool field data).
Proof. unfold addFieldBool. only_tac. Qed.

Lemma only_addFieldVariability field data :
  throwsOnlyTooLarge (addFieldVariability field data).
Proof. unfold addFieldVariability. only_tac. Qed.

Lemma only_addFieldDictionary field data :
  throwsOnlyTooLarge (addFieldDictionary field data).
Proof. unfold addFieldDictionary. only_tac. Qed.

Lemma only_addFieldTimeSamples field data vType :
  throwsOnlyTooLarge (addFieldTimeSamples field data vType).
Proof. unfold addFieldTimeSamples. only_tac. Qed.

End WriterErrorsFields.

#[local] Hint Resolve only_addFieldTokens only_addFieldToken
  only_addFieldTokenVector only_addFieldPathListOp only_addFieldPathVector
  only_addFieldSpecifier only_addFieldInts only_addFieldFloat
  only_addFieldVectors only_addFieldVector only_addFieldBool
  only_addFieldVariability only_addFieldDictionary only_addFieldTimeSamples
  : throwsOnly.

Section WriterErrorsTree.
Import JS Writer Usdz Usd Crate MeshExporter Scenarios PathSpec.

Lemma only_addQualifierFields qs : throwsOnlyTooLarge (addQualifierFields qs).
Proof. unfold addQualifierFields. only_tac. Qed.

Lemma only_addRootMetadata entry : throwsOnlyTooLarge (addRootMetadata entry).
Proof. unfold addRootMetadata. only_tac. Qed.

Lemma only_writeBootstrap : throwsOnlyTooLarge writeBootstrap.
Proof. unfold writeBootstrap. only_tac. Qed.

Lemma only_writeSections : throwsOnlyTooLarge writeSections.
Proof.
  unfold writeSections, writeTokensSection, writeStringsSection,
    writeFieldsSection, writeFieldSetsSection, writePathsSection,
    writeSpecsSection. only_tac.
Qed.

Lemma only_writeTableOfContents : throwsOnlyTooLarge writeTableOfContents.
Proof. unfold writeTableOfContents. only_tac. Qed.

Lemma only_addPrimMetadata h entry :
  knownMeta entry = true -> throwsOnlyTooLarge (addPrimMetadata h entry).
Proof.
  destruct entry as [target|name value]; cbn [knownMeta addPrimMetadata].
  - intros _. only_tac.
  - destruct (String.eqb name "inherits"); [intros _; only_tac|].
    destruct (String.eqb name "references"); [done|]. intros _. only_tac.
Qed.

Lemma only_writeUsdProperty a h :
  knownValue (att_value a) = true ->
  throwsOnlyTooLarge (writeUsdProperty a h).
Proof.
  pose proof only_addQualifierFields as Q1.
  intros Hk. unfold writeUsdProperty.
  destruct (att_value a) eqn:Hv; try discriminate Hk;
    unfold writeUsdConnection, writeUsdRelationship, writeUsdAttribute, addField;
    rewrite ?Hv; only_tac.
Qed.

Lemma only_writeUsdProperties atts h :
  forallb (fun a => knownValue (att_value a)) atts = true ->
  throwsOnlyTooLarge (writeUsdProperties atts h).
Proof.
  revert h. induction atts as [|a atts IH]; intros h Hk; cbn [writeUsdProperties].
  - apply only_ret.
  - cbn [forallb] in Hk. apply andb_true_iff in Hk as [Ha Hk].
    apply only_bind; [by apply only_writeUsdProperty|]. intros h1. by apply IH.
Qed.

Lemma only_children_loop (p : UsdPrim) cs :
  Forall (fun c => forall parent h, throwsOnlyTooLarge (writeUsdPrim c parent h)) cs ->
  forall h,
    throwsOnlyTooLarge
      ((fix children_loop (cs : list UsdPrim) (h : Heap) : M Heap :=
          match cs with
          | [] => mret h
          | child :: cs' =>
              h ← writeUsdPrim child (Some p) h;
              children_loop cs' h
          end) cs h).
Proof.
  induction 1 as [|c cs Hc Hcs IH]; intros h.
  - apply only_ret.
  - apply only_bind; [apply Hc|]. intros h1. apply IH.
Qed.

Lemma only_writeUsdPrim p :
  known p = true ->
  forall parent h, throwsOnlyTooLarge (writeUsdPrim p parent h).
Proof.
  induction p as [id nm ct md cs atts IH] using UsdPrim_nested_ind.
  intros Hk parent h. set (p := Prim id nm ct md cs atts) in *.
  change (known p)
    with (forallb knownMeta md
          && forallb (fun a => knownValue (att_value a)) atts
          && forallb known cs) in Hk.
  apply andb_true_iff in Hk as [[Hmd Hatts]%andb_true_iff Hcs].
  rewrite writeUsdPrim_unfold. unfold specTail.
  change (metadata p) with md. change (attributes p) with atts.
  change (children p) with cs.
  apply only_bind; [only_tac|]. intros f1.
  apply only_bind; [only_tac|]. intros f2.
  apply only_bind.
  { apply only_mapM_in. apply Forall_forall. intros entry Hin.
    apply only_addPrimMetadata.
    rewrite forallb_forall in Hmd. apply Hmd. by apply list_elem_of_In. }
  intros fm.
  apply only_bind; [only_tac|]. intros fp.
  apply only_bind; [only_tac|]. intros fc.
  apply only_bind; [only_tac|]. intros fsetIndex.
  apply only_bind; [only_tac|]. intros pathIndex.
  apply only_bind; [only_tac|]. intros nameToken.
  apply only_bind; [only_tac|]. intros [].
  apply only_bind.
  - apply only_children_loop. apply Forall_forall. intros c Hc.
    rewrite Forall_forall in IH. apply IH; [done|].
    rewrite forallb_forall in Hcs. apply Hcs. by apply list_elem_of_In.
  - intros h1. by apply only_writeUsdProperties.
Qed.

Lemma only_writeUsdPrims cs parent h :
  forallb known cs = true ->
  throwsOnlyTooLarge (writeUsdPrims cs parent h).
Proof.
  revert h. induction cs as [|c cs IH]; intros h Hk; cbn [writeUsdPrims].
  - apply only_ret.
  - cbn [forallb] in Hk. apply andb_true_iff in Hk as [Hc Hk].
    apply only_bind; [by apply only_writeUsdPrim|]. intros h1. by apply IH.
Qed.

(** On a tree whose prims are all known, [writeUsd] throws nothing but
    the error of [lz4Compress]. *)
Lemma only_writeUsd root h :
  forallb known (children root) = true ->
  throwsOnlyTooLarge (writeUsd root h).
Proof.
  pose proof only_writeBootstrap as Q1.
  pose proof only_addRootMetadata as Q2.
  pose proof only_writeSections as Q3.
  pose proof only_writeTableOfContents as Q4.
  intros Hk. unfold writeUsd.
  destruct (updatePathIndicesRoot root h) as [z h1].
  apply only_bind; [only_tac|]. intros [].
  apply only_bind; [only_tac|]. intros fm.
  apply only_bind; [only_tac|]. intros fc.
  apply only_bind; [only_tac|]. intros fsetIndex.
  apply only_bind; [only_tac|]. intros pathIndex.
  apply only_bind; [only_tac|]. intros nameToken.
  apply only_bind; [only_tac|]. intros [].
  apply only_bind; [by apply only_writeUsdPrims|]. intros h2.
  only_tac.
Qed.

(** The tree of [exportUsdz] is known, whatever the meshes are. *)
Lemma usdTreeOf_known meshes : forallb known (children (usdTreeOf meshes)) = true.
Proof.
  unfold usdTreeOf. cbn [children forallb known metadata attributes knownMeta
    String.eqb Ascii.eqb Bool.eqb orb negb andb].
  rewrite !andb_true_r.
  set (indexed := imap (fun refId entry => (refId, entry)) meshes).
  apply andb_true_iff. split.
  - apply forallb_forall. intros p Hp.
    apply in_map_iff in Hp as ([refId [color mesh]] & <- & _).
    unfold usdMaterialOf. destruct (toRgbNormalized color) as [[r g] b].
    reflexivity.
  - apply forallb_forall. intros p Hp.
    apply in_map_iff in Hp as ([refId [color mesh]] & <- & _).
    reflexivity.
Qed.

(** Whatever the meshes are, [exportUsdz] returns an archive or throws
    the error of [lz4Compress]: it has no other error. *)
Lemma exportUsdz_errors meshes e :
  exportUsdz meshes = Err e -> e = tooLarge.
Proof.
  unfold exportUsdz.
  destruct (writeUsd (usdTreeOf meshes) emptyHeap newCrateFile)
    as [[h cf]|e1] eqn:E; cbn [mbind result_bind].
  - unfold getUsdz.
    by destruct (getUsdzFromUsdc_eq (file cf)) as (pre & post & _ & _ & _ & ->).
  - intros [= <-]. eapply only_writeUsd; [apply usdTreeOf_known|exact E].
Qed.

End WriterErrorsTree.

(** ** No exporter validates its input *)

Section Validation.
Import JS Writer Usdz Usd Crate MeshExporter Scenarios PathSpec.

Lemma malformed_not_meshOK : ~ meshOK malformed.
Proof. intros (H & _). discriminate H. Qed.

(** C3 (amended). No exporter checks the invariants of the mesh data
    model. [exportObj] and [exportGlb] have no error case: they return
    their output for every mesh set, also for one that breaks the
    invariants. [exportUsdz] has one error, the one [lz4Compress] throws
    for a buffer of more than 0x7E000000 bytes: for every mesh set it
    returns an archive or throws that error. *)
Theorem exporters_do_not_validate (dtoa : float -> string)
    (meshes : MeshByColor) (outName : string) :
  (exists obj mtl, exportObj dtoa meshes outName = Ok (obj, mtl))
  /\ (exists glb, exportGlb dtoa meshes = Ok glb)
  /\ ((exists usdz, exportUsdz meshes = Ok usdz)
      \/ exportUsdz meshes = Err "Buffer too large for LZ4 compression").
Proof.
  split_and!.
  - unfold exportObj. eauto.
  - destruct (exportGlb_eq dtoa meshes) as (jp & glb & He & _). eauto.
  - destruct (exportUsdz meshes) as [usdz|e] eqn:E; [eauto|].
    right. f_equal. exact (exportUsdz_errors meshes e E).
Qed.

(** C3 (counterexample). The mesh [malformed] breaks the three
    invariants, and the three exporters return output for it: the OBJ
    text has the face line [f 6//6 7//7 NaN//NaN] for points that do not
    exist. *)
Lemma exporters_accept_malformed :
  length (positions malformed) <> length (normals malformed)
  /\ Z.of_nat (length (faces malformed)) mod 3 <> 0
  /\ (meshOK malformed -> False)
  /\ (forall dtoa,
        exportObj dtoa [(0xFF0000, malformed)] "foo"
        = Ok (join newline
                ["mtllib foo.mtl"; "g m0"; "usemtl k0"; "vn 0 0 1";
                 "f 6//6 7//7 NaN//NaN"],
              join newline
                ["newmtl k0"; "Ns 163"; "Ni 0.001"; "illum 2";
                 "Ka 0.20 0.20 0.20"; "Kd 1 0 0"; "Ks 0.25 0.25 0.25"]))
  /\ (forall dtoa, isOk (exportGlb dtoa [(0xFF0000, malformed)]) = true)
  /\ isOk (exportUsdz [(0xFF0000, malformed)]) = true.
Proof.
  split_and!.
  - cbn. lia.
  - cbn. lia.
  - apply malformed_not_meshOK.
  - intros dtoa. vm_compute. reflexivity.
  - intros dtoa.
    by destruct (exportGlb_eq dtoa [(0xFF0000, malformed)]) as (jp & glb & -> & _).
  - vm_compute. reflexivity.
Qed.

End Validation.

(** ** LZ4: errors, sizes and the helpers of the compressor *)

Section LZ4Extras.
Import JS LZ4.

(** X1. [lz4Compress] throws exactly when its input is longer than
    [MAX_BLOCK_INPUT_SIZE] (0x7E000000) bytes, and then with the
    message ["Buffer too large for LZ4 compression"]; on every
    shorter input it returns an array. *)
Theorem lz4Compress_throws_iff_too_large (src : Uint8Array) :
  (Z.of_nat (length (bytes src)) <= MAX_BLOCK_INPUT_SIZE
   /\ exists out, lz4Compress src = Ok out)
  \/ (MAX_BLOCK_INPUT_SIZE < Z.of_nat (length (bytes src))
      /\ lz4Compress src = Err "Buffer too large for LZ4 compression").
Proof.
  destruct (Z.le_gt_cases (Z.of_nat (length (bytes src))) MAX_BLOCK_INPUT_SIZE)
    as [Hsz|Hsz].
  - left. split; [done|].
    destruct (bytes src) as [|b sb] eqn:E.
    { exists []. by apply lz4Compress_nil. }
    rewrite <- E in Hsz.
    destruct (lz4CompressDefault_spec src Hsz) as (tmp & Htmp & _).
    exists (x00 :: tmp). apply lz4Compress_pad; [by rewrite E|done..].
  - right. split; [lia|]. apply lz4Compress_too_large. lia.
Qed.

(** X2. The array [lz4Compress] returns is never longer than the
    worst case the code allocates for the block, [n + floor(n / 255) +
    16] bytes for an input of [n] bytes, plus the leading byte: no
    store of the compressor falls outside its buffer. *)
Theorem lz4Compress_output_bound (src : Uint8Array) (out : list byte) :
  lz4Compress src = Ok out ->
  Z.of_nat (length out)
  <= Z.of_nat (length (bytes src)) + Z.of_nat (length (bytes src)) / 255 + 17.
Proof.
  intros H. destruct (bytes src) as [|b sb] eqn:E.
  - rewrite lz4Compress_nil in H by done. injection H as <-. cbn. lia.
  - assert (Hne : bytes src <> []) by (by rewrite E).
    rewrite <- E.
    destruct (Z.le_gt_cases (Z.of_nat (length (bytes src))) MAX_BLOCK_INPUT_SIZE)
      as [Hsz|Hsz].
    + destruct (lz4CompressDefault_spec src Hsz) as (tmp & Htmp & _ & Hlen).
      rewrite (lz4Compress_pad src tmp) in H by done.
      injection H as <-. cbn [length] in *. lia.
    + rewrite lz4Compress_too_large in H by lia. done.
Qed.

Lemma lz4Compress_output_bound_witness :
  exists out,
    lz4Compress (whole (repeat x61 40)) = Ok out
    /\ Z.of_nat (length out)
       <= Z.of_nat (length (bytes (whole (repeat x61 40))))
          + Z.of_nat (length (bytes (whole (repeat x61 40)))) / 255 + 17.
Proof.
  eexists. split; [vm_compute; reflexivity|].
  apply (lz4Compress_output_bound (whole (repeat x61 40))). vm_compute. reflexivity.
Defined.

(** X3. An array of 1 to 12 bytes is never searched for matches (the
    loop needs [MFLIMIT] = 12 bytes of look-ahead): [lz4Compress]
    returns the zero byte, the token [n << 4] and [n] literal bytes.
    The literals are the first [n] bytes of the buffer under the array:
    they are the input when the array starts where its buffer starts,
    and whatever the buffer starts with when it does not. *)
Theorem lz4Compress_short_input (src : Uint8Array) :
  (0 < length (bytes src) <= 12)%nat ->
  lz4Compress src
  = Ok (x00 :: u8 (16 * Z.of_nat (length (bytes src)))
            :: take (length (bytes src)) (buffer src))
  /\ (before src = [] -> take (length (bytes src)) (buffer src) = bytes src).
Proof.
  intros Hlen. split.
  - destruct (lz4CompressDefault_shape src) as (s & w & Hloop & Hinv & Hout & _).
    { unfold MAX_BLOCK_INPUT_SIZE. lia. }
    cbv zeta in Hloop, Hinv, Hout.
    destruct (length (bytes src)) as [|n] eqn:En; [lia|].
    cbn [compress_loop srcPtr] in Hloop.
    destruct (Z.ltb_spec 0 (Z.of_nat (S n) - MFLIMIT)) as [Hc|_];
      [unfold MFLIMIT in Hc; lia|].
    injection Hloop as <-.
    destruct Hinv as [_ _ _ Hp _ _]. cbn [dstPtr literalHead] in Hp, Hout.
    destruct w; [|cbn [length] in Hp; lia].
    apply lz4Compress_pad; [intros E; rewrite E in En; done|
                            rewrite En; unfold MAX_BLOCK_INPUT_SIZE; lia|].
    rewrite Hout. cbn [app]. f_equal.
    rewrite Z.sub_0_r, Nat2Z.id. change (Z.to_nat 0) with 0%nat. rewrite drop_0.
    assert (Ht : take (S n) (before src ++ bytes src) = take (S n) (buffer src)).
    { unfold buffer. rewrite app_assoc. symmetry. apply take_app_le.
      rewrite length_app. lia. }
    rewrite Ht.
    assert (Hl : Z.of_nat (length (take (S n) (buffer src))) = Z.of_nat (S n)).
    { rewrite length_take. unfold buffer. rewrite !length_app. lia. }
    unfold seqBytes. cbn [Z.ltb Z.compare]. rewrite Hl.
    unfold lenTail. destruct (Z.leb_spec 15 (Z.of_nat (S n))); [lia|].
    rewrite Z.min_l by lia. done.
  - intros Hb. unfold buffer. rewrite Hb. cbn [app]. by rewrite take_app_length.
Qed.

(** Ten bytes at offset 4 of their buffer. *)
Lemma lz4Compress_short_input_witness :
  lz4Compress {| before := list_byte_of_string "wxyz";
                 bytes := list_byte_of_string "ABCDEFGHIJ";
                 after := [] |}
  = Ok (x00 :: u8 (16 * 10) :: list_byte_of_string "wxyzABCDEF").
Proof.
  refine (proj1 (lz4Compress_short_input
                   {| before := list_byte_of_string "wxyz";
                      bytes := list_byte_of_string "ABCDEFGHIJ";
                      after := [] |} _)).
  cbn. lia.
Defined.

(** X4. The position table is a lossy hash table of 4096 slots: a
    fresh table answers -1 for every value; after [setPosition val pos]
    every value with the hash of [val] reads [pos] (as an int32), also
    one that was never stored, and the values with another hash read
    what they read before. *)
Theorem PositionTable_get_after_set (t : PositionTable) (val pos other : Z) :
  Z.of_nat (length t) = 0x1000 ->
  getPosition newPositionTable other = -1
  /\ getPosition (setPosition t val pos) other
     = if _hash other =? _hash val then toInt32 pos else getPosition t other.
Proof.
  intros Hlen. pose proof (hash_range other) as Ho.
  pose proof (hash_range val) as Hv. split.
  - unfold getPosition, get, newPositionTable.
    destruct (Z.ltb_spec (_hash other) 0); [lia|].
    rewrite lookup_repeat by lia. done.
  - unfold getPosition, setPosition, get.
    destruct (Z.ltb_spec (_hash other) 0); [lia|].
    destruct (Z.eqb_spec (_hash other) (_hash val)) as [->|Hne].
    + rewrite list_lookup_insert_eq by lia. done.
    + rewrite list_lookup_insert_ne by lia. done.
Qed.

Lemma PositionTable_get_after_set_witness :
  getPosition newPositionTable 7 = -1
  /\ getPosition (setPosition newPositionTable 5 100) 7
     = if _hash 7 =? _hash 5 then toInt32 100 else getPosition newPositionTable 7.
Proof.
  apply (PositionTable_get_after_set newPositionTable 5 100 7).
  vm_compute. reflexivity.
Defined.

(** The loop of [countMatch] stops at the first difference or past
    [max]. *)
Lemma countMatch_loop_stops (n : nat) (buf : list byte) (front back max count : Z) :
  max - back + 1 <= Z.of_nat n ->
  let len := countMatch_loop n buf front back max count - count in
  back + len <= max ->
  get buf (front + len) <> get buf (back + len).
Proof.
  revert front back count. induction n as [|n IH]; intros front back count Hn.
  - cbn. lia.
  - cbn [countMatch_loop].
    destruct (Z.leb_spec back max); [|cbv zeta; lia].
    case_bool_decide as Heq.
    + specialize (IH (front + 1) (back + 1) (count + 1) ltac:(lia)).
      cbv zeta in *.
      set (c := countMatch_loop n buf (front + 1) (back + 1) max (count + 1)) in *.
      intros Hle.
      replace (front + (c - count)) with (front + 1 + (c - (count + 1))) by lia.
      replace (back + (c - count)) with (back + 1 + (c - (count + 1))) by lia.
      apply IH. lia.
    + cbv zeta. rewrite Z.sub_diag, !Z.add_0_r. done.
Qed.

(** X5. [countMatch buf front back max] is the length of the longest
    run on which the bytes from [front] and from [back] agree, with
    [back] not going past [max]: the bytes agree all along it, and it
    ends at [max] or at the first pair that differs. *)
Theorem countMatch_longest_run (buf : list byte) (front back max : Z) :
  exists len,
    countMatch buf front back max = len
    /\ 0 <= len
    /\ (len = 0 \/ back + len <= max + 1)
    /\ (forall k, 0 <= k < len -> get buf (front + k) = get buf (back + k))
    /\ (back + len <= max -> get buf (front + len) <> get buf (back + len)).
Proof.
  eexists. split; [reflexivity|].
  destruct (countMatch_spec buf front back max) as (H1 & H2 & H3).
  split; [exact H1|]. split; [exact H2|]. split; [exact H3|].
  pose proof (countMatch_loop_stops (Z.to_nat (max - back + 1)) buf front back max 0
                ltac:(lia)) as H.
  cbv zeta in H. rewrite Z.sub_0_r in H. exact H.
Qed.

End LZ4Extras.

(** ** USD integer coding: the common delta and the size of the stream *)

Section IntCodingExtras.
Import JS IntCoding Measures.

(** *** The tally of the deltas *)

Lemma countsGet_In (counts : Counts) (v c : Z) :
  NoDup (map fst counts) ->
  (countsGet counts v = Some c <-> In (v, c) counts).
Proof.
  induction counts as [|[k c0] counts IH]; intros Hnd; [done|].
  apply NoDup_cons in Hnd as [Hk Hnd]. cbn [countsGet].
  destruct (Z.eqb_spec k v) as [->|Hne].
  - split.
    + intros [= ->]. by left.
    + intros [[= ->]|Hin]; [done|].
      exfalso. apply Hk, list_elem_of_In, in_map_iff. by exists (v, c).
  - rewrite IH by done. split; [by right|].
    intros [[= ? ?]|Hin]; [done|done].
Qed.

Lemma countsGet_None (counts : Counts) (v : Z) :
  countsGet counts v = None <-> ~ In v (map fst counts).
Proof.
  induction counts as [|[k c0] counts IH]; [split; [intros _ []|done]|].
  cbn [countsGet map fst]. destruct (Z.eqb_spec k v) as [->|Hne].
  - split; [done|]. intros H. exfalso. apply H. by left.
  - rewrite IH. split.
    + intros H [?|?]; done.
    + intros H ?. apply H. by right.
Qed.

Lemma countsSet_keys_present (counts : Counts) (v c : Z) :
  In v (map fst counts) -> map fst (countsSet counts v c) = map fst counts.
Proof.
  induction counts as [|[k c0] counts IH]; [done|].
  cbn [countsSet map fst]. intros Hin. destruct (Z.eqb_spec k v) as [->|Hne].
  - done.
  - cbn [map fst]. f_equal. apply IH. by destruct Hin.
Qed.

Lemma countsSet_keys_fresh (counts : Counts) (v c : Z) :
  ~ In v (map fst counts) -> countsSet counts v c = counts ++ [(v, c)].
Proof.
  induction counts as [|[k c0] counts IH]; [done|].
  cbn [countsSet map fst]. intros Hin. destruct (Z.eqb_spec k v) as [->|Hne].
  - exfalso. apply Hin. by left.
  - cbn [app]. f_equal. apply IH. intros ?. apply Hin. by right.
Qed.

Lemma countsGet_countsSet (counts : Counts) (v c d : Z) :
  countsGet (countsSet counts v c) d
  = if v =? d then Some c else countsGet counts d.
Proof.
  induction counts as [|[k c0] counts IH].
  - cbn. done.
  - cbn [countsSet]. destruct (Z.eqb_spec k v) as [->|Hne]; cbn [countsGet].
    + destruct (Z.eqb_spec v d); done.
    + rewrite IH. destruct (Z.eqb_spec k d) as [->|]; [|done].
      destruct (Z.eqb_spec v d); [lia|done].
Qed.

Lemma occurrences_snoc (d x : Z) (ds : list Z) :
  occurrences d (ds ++ [x])
  = occurrences d ds + if x =? d then 1 else 0.
Proof.
  unfold occurrences. rewrite count_occ_app. cbn [count_occ].
  destruct (Z.eq_dec x d) as [->|Hne].
  - rewrite Z.eqb_refl. lia.
  - destruct (Z.eqb_spec x d); [done|]. lia.
Qed.

Lemma occurrences_pos (d : Z) (ds : list Z) : In d ds -> 0 < occurrences d ds.
Proof.
  intros H. unfold occurrences.
  apply (count_occ_In Z.eq_dec) in H. lia.
Qed.

Lemma occurrences_zero (d : Z) (ds : list Z) : ~ In d ds -> occurrences d ds = 0.
Proof.
  intros H. unfold occurrences.
  apply (count_occ_not_In Z.eq_dec) in H. lia.
Qed.

Lemma tallied_step (counts : Counts) (ds : list Z) (x : Z) :
  tallied counts ds ->
  tallied (countsSet counts x (default 0 (countsGet counts x) + 1)) (ds ++ [x]).
Proof.
  intros [Hnd Hget]. split.
  - destruct (countsGet counts x) as [c|] eqn:E.
    + rewrite countsSet_keys_present; [done|].
      apply countsGet_In in E; [|done]. apply in_map_iff. by exists (x, c).
    + apply countsGet_None in E. rewrite countsSet_keys_fresh by done.
      rewrite map_app. cbn [map fst]. apply NoDup_app. split; [done|].
      split; [|apply NoDup_singleton].
      intros k Hk ->%list_elem_of_singleton. by apply E, list_elem_of_In.
  - intros d. rewrite countsGet_countsSet, occurrences_snoc.
    destruct (Z.eqb_spec x d) as [->|Hne].
    + rewrite Hget.
      destruct (decide (d ∈ ds ++ [d])) as [_|Hn];
        [|exfalso; apply Hn, elem_of_app; right; by apply list_elem_of_singleton].
      destruct (decide (d ∈ ds)) as [Hin|Hn]; cbn [default id]; [done|].
      rewrite occurrences_zero by (by rewrite <- list_elem_of_In). done.
    + rewrite Hget, Z.add_0_r.
      destruct (decide (d ∈ ds)) as [Hin|Hn];
        destruct (decide (d ∈ ds ++ [x])) as [Hin'|Hn']; try done.
      * exfalso. apply Hn'. apply elem_of_app. by left.
      * exfalso. apply elem_of_app in Hin' as [?|?%list_elem_of_singleton];
          [done|lia].
Qed.

Lemma tally_tallied (values : list Z) (preValue : Z) (counts : Counts) (ds : list Z) :
  tallied counts ds ->
  tallied (tally values preValue counts) (ds ++ deltas values preValue).
Proof.
  revert preValue counts ds.
  induction values as [|v values IH]; intros preValue counts ds H.
  - cbn. by rewrite app_nil_r.
  - cbn [tally deltas].
    replace (ds ++ (v - preValue) :: deltas values v)
      with ((ds ++ [v - preValue]) ++ deltas values v)
      by (by rewrite <- app_assoc).
    apply IH. by apply tallied_step.
Qed.

(** *** The choice of the common delta *)

Lemma pickCommon_fold (counts : Counts) (a0 c0 : Z) :
  let r :=
    fold_left
      (fun '(commonValue, commonCount) '(value, count) =>
         if commonCount <? count then (value, count)
         else if (count =? commonCount) && (commonValue <? value)
              then (value, commonCount)
              else (commonValue, commonCount))
      counts (a0, c0) in
  (r = (a0, c0) \/ In r counts)
  /\ c0 <= r.2 /\ (r.2 = c0 -> a0 <= r.1)
  /\ forall v c, In (v, c) counts -> c <= r.2 /\ (c = r.2 -> v <= r.1).
Proof.
  revert a0 c0. induction counts as [|[v c] counts IH]; intros a0 c0.
  - cbn. split; [by left|]. split; [lia|]. split; [lia|]. intros ? ? [].
  - cbn [fold_left].
    set (acc := if c0 <? c then (v, c)
                else if (c =? c0) && (a0 <? v) then (v, c0) else (a0, c0)).
    assert (Hacc : (acc = (a0, c0) \/ acc = (v, c))
                   /\ c0 <= acc.2 /\ (acc.2 = c0 -> a0 <= acc.1)
                   /\ c <= acc.2 /\ (c = acc.2 -> v <= acc.1)).
    { subst acc. destruct (Z.ltb_spec c0 c); cbn.
      - split; [by right|]. lia.
      - destruct (Z.eqb_spec c c0) as [->|]; cbn.
        + destruct (Z.ltb_spec a0 v); cbn; (split; [auto|lia]).
        + split; [by left|]. lia. }
    destruct acc as [a1 c1]. cbn [fst snd] in Hacc.
    destruct Hacc as (A1 & A2 & A3 & A4 & A5).
    specialize (IH a1 c1). cbv zeta in IH |- *.
    set (r := fold_left _ counts (a1, c1)) in *.
    destruct IH as (I1 & I2 & I3 & I4).
    split; [|split; [|split]].
    + destruct I1 as [-> | I1]; [|right; by right].
      destruct A1 as [-> | ->]; [by left|right; by left].
    + lia.
    + intros E. assert (c1 = c0) by lia. specialize (A3 ltac:(done)).
      specialize (I3 ltac:(lia)). lia.
    + intros v' c' [[= -> ->]|Hin].
      * split; [lia|]. intros E. assert (c' = c1) by lia.
        specialize (A5 ltac:(done)). specialize (I3 ltac:(lia)). lia.
      * by apply I4.
Qed.

Lemma pickCommon_spec (counts : Counts) :
  counts <> [] -> (forall v c, In (v, c) counts -> 0 < c) ->
  In (pickCommon counts) counts
  /\ forall v c, In (v, c) counts ->
       c <= (pickCommon counts).2 /\ (c = (pickCommon counts).2 -> v <= (pickCommon counts).1).
Proof.
  intros Hne Hpos. pose proof (pickCommon_fold counts 0 0) as H.
  cbv zeta in H. fold (pickCommon counts) in H.
  destruct H as (H1 & H2 & H3 & H4). split; [|exact H4].
  destruct H1 as [E|Hin]; [|done].
  destruct counts as [|[v c] counts]; [done|].
  destruct (H4 v c ltac:(by left)) as [Hc _].
  specialize (Hpos v c ltac:(by left)). rewrite E in Hc. cbn in Hc. lia.
Qed.

(** X6. The common delta [usdInt32Compress] picks for a non-empty
    sequence is a delta of the sequence that occurs most often, and
    the largest of those that do: no delta occurs more often, and a
    delta that occurs as often is not larger. *)
Theorem pickCommon_most_frequent_largest (values : list Z) :
  values <> [] ->
  In (commonDelta values) (deltas values 0)
  /\ forall d,
       occurrences d (deltas values 0)
       <= occurrences (commonDelta values) (deltas values 0)
       /\ (occurrences d (deltas values 0)
           = occurrences (commonDelta values) (deltas values 0) ->
           d <= commonDelta values).
Proof.
  intros Hne.
  assert (H0 : tallied [] []).
  { split; [constructor|]. intros d. cbn.
    destruct (decide _) as [Hd|]; [|done]. by apply elem_of_nil in Hd. }
  pose proof (tally_tallied values 0 [] [] H0) as [Hnd Hget]. cbn [app] in Hget.
  set (ds := deltas values 0) in *. set (counts := tally values 0 []) in *.
  assert (Hin : forall v c, In (v, c) counts <-> In v ds /\ c = occurrences v ds).
  { intros v c. rewrite <- countsGet_In by done. rewrite Hget.
    destruct (decide (v ∈ ds)) as [Hv|Hv]; rewrite list_elem_of_In in Hv;
      split; try done.
    - intros [= <-]. done.
    - intros [_ ->]. done.
    - by intros [? _]. }
  destruct (pickCommon_spec counts) as [P1 P2].
  - destruct values as [|v values]; [done|].
    intros E. assert (In (v - 0) ds) as Hv by (subst ds; cbn; by left).
    pose proof (proj2 (Hin (v - 0) _) (conj Hv eq_refl)) as Hx.
    rewrite E in Hx. done.
  - intros v c [Hv ->]%Hin. by apply occurrences_pos.
  - unfold commonDelta. fold counts.
    destruct (pickCommon counts) as [cv cc] eqn:E. cbn [fst snd] in *.
    apply Hin in P1 as [Hcv ->]. split; [done|].
    intros d. destruct (decide (d ∈ ds)) as [Hd|Hd]; rewrite list_elem_of_In in Hd.
    + apply (P2 d (occurrences d ds)), Hin. done.
    + rewrite (occurrences_zero d ds Hd).
      pose proof (occurrences_pos cv ds Hcv). lia.
Qed.

Lemma pickCommon_most_frequent_largest_witness :
  In (commonDelta [5; 10; 15; 17; 19; 0]) (deltas [5; 10; 15; 17; 19; 0] 0)
  /\ forall d,
       occurrences d (deltas [5; 10; 15; 17; 19; 0] 0)
       <= occurrences (commonDelta [5; 10; 15; 17; 19; 0])
            (deltas [5; 10; 15; 17; 19; 0] 0)
       /\ (occurrences d (deltas [5; 10; 15; 17; 19; 0] 0)
           = occurrences (commonDelta [5; 10; 15; 17; 19; 0])
               (deltas [5; 10; 15; 17; 19; 0] 0) ->
           d <= commonDelta [5; 10; 15; 17; 19; 0]).
Proof. apply (pickCommon_most_frequent_largest [5; 10; 15; 17; 19; 0]). done. Defined.

(** *** The size of the stream *)

Lemma code_loop_pos (values : list Z) :
  forall (v preValue common : Z) (data : list byte) (p : Z) data' p',
    code_loop values v preValue common data p = Ok (data', p') ->
    p' = p + sumZ (map (deltaWidth common) (deltas values preValue)).
Proof.
  induction values as [|cur values IH]; intros v preValue common data p data' p' H.
  - injection H as <- <-. cbn. lia.
  - cbn [code_loop deltas map sumZ] in *.
    destruct (codeValue data (v + 16) p (cur - preValue) common)
      as [[data2 p2]|e] eqn:E; [|done].
    cbn [mbind result_bind] in H. apply IH in H. subst p'.
    assert (p2 = p + deltaWidth common (cur - preValue)); [|lia].
    revert E. unfold codeValue, deltaWidth.
    destruct (_ =? _); [intros [= _ <-]; lia|].
    destruct (_ && _);
      [destruct (setLE _ _ _ _); [intros [= _ <-]; lia|done]|].
    destruct (_ && _);
      [destruct (setLE _ _ _ _); [intros [= _ <-]; lia|done]|].
    destruct (setLE _ _ _ _); [intros [= _ <-]; lia|done].
Qed.

Lemma take_get_ext (l1 l2 : list byte) (n : nat) :
  (n <= length l1)%nat -> (n <= length l2)%nat ->
  (forall j, 0 <= j < Z.of_nat n -> get l1 j = get l2 j) ->
  take n l1 = take n l2.
Proof.
  intros H1 H2 H. apply list_eq. intros i.
  destruct (decide (i < n)%nat) as [Hi|Hi].
  - rewrite !lookup_take_lt by done.
    specialize (H (Z.of_nat i) ltac:(lia)). by rewrite !get_nat in H.
  - rewrite !lookup_take_ge by lia. done.
Qed.

(** The stream of a non-empty sequence: its head, its length, and the
    way back. *)
Lemma usdInt32Compress_spec (values : list Z) :
  values <> [] ->
  exists out,
    usdInt32Compress values = Ok out
    /\ take 4 out = le 4 (commonDelta values)
    /\ Z.of_nat (length out)
       = tableEnd (Z.of_nat (length values))
         + sumZ (map (deltaWidth (commonDelta values)) (deltas values 0))
    /\ (Forall isInt32 values ->
        usdInt32Decompress out (length values) = Some values).
Proof.
  intros Hne. destruct values as [|v0 values]; [done|].
  unfold usdInt32Compress, commonDelta.
  set (n := Z.of_nat (length (v0 :: values))).
  assert (Hn : 0 < n) by (subst n; cbn [length]; lia).
  destruct (Z.eqb_spec n 0); [lia|]. cbv zeta.
  destruct (pickCommon _) as [common commonCount]. cbn [fst].
  set (worst := 4 + (n * 2 + 7) / 8 + n * 4).
  assert (Hz : Z.of_nat (length (zeros worst)) = worst).
  { unfold zeros. rewrite repeat_length. lia. }
  rewrite setLE_ok by lia. cbn [mbind result_bind].
  change (Z.to_nat 0) with 0%nat.
  set (data0 := blit (zeros worst) (le 4 common) 0).
  assert (L0 : length data0 = length (zeros worst)).
  { apply length_blit. rewrite length_le. lia. }
  destruct (code_loop_decodes (v0 :: values) 0 n 0 common data0 (4 + (n * 2 + 7) / 8))
    as (data' & p' & Hcode & Hp' & L' & O' & F' & D');
    [lia|subst n; lia|unfold tableEnd; lia|rewrite L0; lia| |].
  { intros k Hk. pose proof (table_index k n ltac:(lia)) as [Hi Hj].
    apply readCode_zeros. subst data0.
    rewrite get_blit_out by (rewrite ?length_le; cbn [length]; lia).
    apply get_zeros. unfold tableEnd in *. lia. }
  pose proof (code_loop_pos _ _ _ _ _ _ _ _ Hcode) as Hpos.
  rewrite Hcode. cbn [mbind result_bind]. unfold view0.
  destruct (Z.ltb_spec p' 0); [lia|].
  destruct (Z.ltb_spec (Z.of_nat (length data')) p'); [lia|].
  cbn [orb]. eexists. split; [reflexivity|].
  assert (Hhead4 : take 4 (take (Z.to_nat p') data') = le 4 common).
  { rewrite take_take, Nat.min_l by lia.
    rewrite (take_get_ext data' data0 4);
      [|lia|rewrite L0; lia|intros j Hj; apply F'; lia].
    pose proof (take_blit (zeros worst) (le 4 common) 0) as Ht.
    rewrite length_le in Ht. cbn [Nat.add take app] in Ht. apply Ht. lia. }
  split; [exact Hhead4|]. split.
  { rewrite length_take, Nat.min_l by lia. unfold tableEnd. fold n. lia. }
  intros Hall. specialize (D' Hall).
  unfold usdInt32Decompress. cbn [length].
  assert (Hhead : readSigned (take (Z.to_nat p') data') 0 4 = Some (toInt32 common)).
  { unfold readSigned.
    rewrite (readBytes_agree _ data0).
    - pose proof (readBytes_blit (zeros worst) (le 4 common) 0) as HR.
      rewrite length_le in HR. change (Z.to_nat 0) with 0%nat in HR.
      subst data0. rewrite HR by lia.
      cbn [fmap option_fmap option_map]. f_equal. apply unle_signed_le4.
    - intros j Hj. rewrite get_take by lia. apply F'. lia. }
  rewrite Hhead. cbn [mbind option_bind].
  apply D'. intros j Hj. by apply get_take.
Qed.

(** X7. [usdInt32Compress] never throws. The stream of a non-empty
    sequence of [n] integers starts with the common delta as a 32-bit
    little-endian number, and its length is [4 + floor((2 n + 7) / 8)]
    bytes of head and code table plus, for each delta, 0 bytes when it
    is the common delta, and else 1, 2 or 4 bytes by its magnitude; the
    empty sequence gives the empty array. *)
Theorem usdInt32Compress_layout (values : list Z) :
  exists out,
    usdInt32Compress values = Ok out
    /\ (values = [] -> out = [])
    /\ (values <> [] ->
        take 4 out = le 4 (commonDelta values)
        /\ Z.of_nat (length out)
           = 4 + (Z.of_nat (length values) * 2 + 7) / 8
             + sumZ (map (deltaWidth (commonDelta values)) (deltas values 0))).
Proof.
  destruct values as [|v values].
  - exists []. split; [done|]. split; [done|]. done.
  - destruct (usdInt32Compress_spec (v :: values) ltac:(done))
      as (out & H1 & H2 & H3 & _).
    exists out. split; [done|]. split; [done|]. intros _. split; [done|].
    exact H3.
Qed.

End IntCodingExtras.

(** ** The little-endian writers and the byte sink *)

Section ByteStrings.
Import JS.

Lemma u8_congr (v v' : Z) : v mod 256 = v' mod 256 -> u8 v = u8 v'.
Proof. intros H. rewrite <- (u8_mod v), <- (u8_mod v'). by rewrite H. Qed.

End ByteStrings.

(** Two byte strings of [u8]s are equal when the numbers agree modulo 256. *)
Ltac bytes_eq :=
  repeat (apply (f_equal2 (@cons byte)); [apply u8_congr; lia|]);
  try reflexivity.

Section WriterExtras.
Import JS LZ4 IntCoding Writer.

Lemma and_all_ones (v : Z) : and v 0xFFFFFFFF = toInt32 v.
Proof.
  unfold and. change (toInt32 4294967295) with (-1).
  rewrite Z.land_m1_r. apply toInt32_idem.
Qed.

Lemma and_0xFFFF (y : Z) : and y 0xFFFF = y mod 65536.
Proof.
  unfold and. change (toInt32 65535) with (Z.ones 16).
  rewrite Z.land_ones by lia. change (2 ^ 16) with 65536.
  rewrite toInt32_small by (pow2; lia). unfold toInt32. pow2. lia.
Qed.

Lemma le4_toInt32 (v : Z) : le 4 (toInt32 v) = le 4 v.
Proof.
  cbn [le]. unfold toInt32. pow2.
  bytes_eq.
Qed.

Lemma le2_mod (y : Z) : le 2 (y mod 65536) = le 2 y.
Proof. cbn [le]. bytes_eq. Qed.

(** X8. For the sizes 1, 4 and 6 [writeInt] writes, for every
    integer [value] and either value of [signed], the [size] low bytes
    of [value] in little-endian order (two's complement for a negative
    value): the number the bytes hold is [value mod 2 ^ (8 size)]. *)
Theorem writeInt_little_endian (value : Z) (signed : bool) :
  writeInt_bytes value 1 signed = le 1 value
  /\ writeInt_bytes value 4 signed = le 4 value
  /\ writeInt_bytes value 6 signed = le 6 value
  /\ unle (writeInt_bytes value 1 signed) = value mod 2 ^ 8
  /\ unle (writeInt_bytes value 4 signed) = value mod 2 ^ 32
  /\ unle (writeInt_bytes value 6 signed) = value mod 2 ^ 48.
Proof.
  assert (H1 : writeInt_bytes value 1 signed = le 1 value) by reflexivity.
  assert (H4 : writeInt_bytes value 4 signed = le 4 value)
    by (by destruct signed).
  assert (H6 : writeInt_bytes value 6 signed = le 6 value).
  { unfold writeInt_bytes. cbn [Z.eqb Pos.eqb]. unfold poke.
    rewrite and_all_ones, and_0xFFFF, le4_toInt32, le2_mod.
    cbn [le]. unfold blit. cbn.
    bytes_eq. }
  rewrite H1, H4, H6, !unle_le. done.
Qed.

(** X9. The 8-byte unsigned writer stores the low four bytes of
    [value] and four zero bytes: it writes the 64-bit encoding of every
    [value] from 0 to [2 ^ 32 - 1] and drops the bits above; the signed
    writer is right from 0 to [2 ^ 31 - 1]. *)
Theorem writeInt_8_bytes (value : Z) :
  writeInt_bytes value 8 false = le 4 value ++ [x00; x00; x00; x00]
  /\ unle (writeInt_bytes value 8 false) = value mod 2 ^ 32
  /\ (0 <= value < 2 ^ 32 -> writeInt_bytes value 8 false = int64le value)
  /\ (0 <= value < 2 ^ 31 -> writeInt_bytes value 8 true = int64le value).
Proof.
  assert (H : writeInt_bytes value 8 false = le 4 value ++ [x00; x00; x00; x00])
    by reflexivity.
  split; [exact H|]. split; [|split].
  - rewrite H. cbn [le app unle]. rewrite !byteZ_u8. change (byteZ x00) with 0.
    pow2. lia.
  - intros Hv. rewrite H. unfold int64le. cbn [le app].
    assert (Hb : forall x, x = 0 -> u8 x = x00) by (by intros x ->).
    pow2.
    rewrite (Hb (value / 256 / 256 / 256 / 256)) by lia.
    rewrite (Hb (value / 256 / 256 / 256 / 256 / 256)) by lia.
    rewrite (Hb (value / 256 / 256 / 256 / 256 / 256 / 256)) by lia.
    rewrite (Hb (value / 256 / 256 / 256 / 256 / 256 / 256 / 256)) by lia.
    done.
  - apply writeInt_bytes_8_signed_nonneg.
Qed.

(** X10. A [ByteArray] keeps the arrays written to it in order, and
    [tell] is the total number of bytes written: after any sequence of
    [write] calls on a new array, [getBuffers] is the sequence and
    [tell] the length of its concatenation. *)
Theorem ByteArray_tell_getBuffers (written : list (list byte)) :
  getBuffers (fold_left write written newByteArray) = written
  /\ tell (fold_left write written newByteArray)
     = Z.of_nat (length (concat written)).
Proof.
  assert (H : forall file,
    getBuffers (fold_left write written file) = getBuffers file ++ written
    /\ tell (fold_left write written file)
       = tell file + Z.of_nat (length (concat written))).
  { induction written as [|b written IH]; intros file.
    - cbn. rewrite app_nil_r. split; [done|lia].
    - cbn [fold_left concat]. destruct (IH (write file b)) as [-> ->].
      unfold write, getBuffers, tell. cbn [buffers pos].
      rewrite <- app_assoc, length_app. split; [done|lia]. }
  destruct (H newByteArray) as [-> ->]. cbn. split; [done|lia].
Qed.

(** X11. [writeInt32Compressed] appends two arrays to the file: the
    8-byte length of a block, and the block. For no integers the block
    is empty. For 32-bit integers, at least one, the block is the zero
    byte and an LZ4 block, which read back, first by the reference
    LZ4 block decoder and then by the integer decoder, is the data
    written. *)
Theorem writeInt32Compressed_roundtrip (file file' : ByteArray) (data : list Z) :
  Forall isInt32 data ->
  writeInt32Compressed file data = Ok file' ->
  exists block,
    buffers file' = buffers file ++ [le 8 (Z.of_nat (length block) mod 2 ^ 32); block]
    /\ tell file' = tell file + 8 + Z.of_nat (length block)
    /\ (data = [] -> block = [])
    /\ (data <> [] ->
        exists lz ints,
          block = x00 :: lz
          /\ decodeBlock lz = Some ints
          /\ usdInt32Decompress ints (length data) = Some data).
Proof.
  intros Hall H. unfold writeInt32Compressed in H.
  destruct (usdInt32Compress data) as [ints|e] eqn:Hi; [|done].
  cbn [mbind result_bind] in H.
  destruct (lz4Compress (whole ints)) as [block|e] eqn:Hb; [|done].
  cbn [mbind result_bind] in H. injection H as <-.
  exists block. split; [|split; [|split]].
  - unfold writeInt, write. cbn [buffers]. rewrite <- app_assoc. cbn [app].
    do 3 f_equal.
    change (writeInt_bytes (Z.of_nat (length block)) 8 false)
      with (le 4 (Z.of_nat (length block)) ++ [x00; x00; x00; x00]).
    set (L := Z.of_nat (length block)). cbn [le app].
    assert (Hb0 : forall x, x = 0 -> u8 x = x00) by (by intros x ->).
    pow2.
    rewrite (Hb0 (L mod 4294967296 / 256 / 256 / 256 / 256)) by lia.
    rewrite (Hb0 (L mod 4294967296 / 256 / 256 / 256 / 256 / 256)) by lia.
    rewrite (Hb0 (L mod 4294967296 / 256 / 256 / 256 / 256 / 256 / 256)) by lia.
    rewrite (Hb0 (L mod 4294967296 / 256 / 256 / 256 / 256 / 256 / 256 / 256)) by lia.
    bytes_eq.
  - unfold writeInt, write, tell. cbn [pos].
    change (writeInt_bytes (Z.of_nat (length block)) 8 false)
      with (le 4 (Z.of_nat (length block)) ++ [x00; x00; x00; x00]).
    rewrite length_app, length_le. cbn [length]. lia.
  - intros ->. injection Hi as <-. by injection Hb as <-.
  - intros Hne.
    destruct (usdInt32Compress_spec data Hne) as (ints' & H1 & H2 & _ & H4).
    rewrite Hi in H1. injection H1 as <-.
    assert (Hints : ints <> []).
    { intros ->. cbn [take le] in H2. discriminate. }
    destruct (Z.le_gt_cases (Z.of_nat (length ints)) MAX_BLOCK_INPUT_SIZE)
      as [Hsz|Hsz].
    + destruct (lz4CompressDefault_spec (whole ints) Hsz) as (lz & Hlz & Hdec & _).
      rewrite (lz4Compress_pad (whole ints) lz) in Hb by done.
      injection Hb as <-. exists lz, ints. split; [done|].
      split; [by apply Hdec|by apply H4].
    + rewrite lz4Compress_too_large in Hb by (cbn [bytes whole]; lia). done.
Qed.

Lemma writeInt32Compressed_roundtrip_witness :
  exists file' block,
    writeInt32Compressed newByteArray [3; 3; 3; 70000; -5] = Ok file'
    /\ buffers file'
       = buffers newByteArray ++ [le 8 (Z.of_nat (length block) mod 2 ^ 32); block]
    /\ tell file' = tell newByteArray + 8 + Z.of_nat (length block)
    /\ ([3; 3; 3; 70000; -5] = [] -> block = [])
    /\ ([3; 3; 3; 70000; -5] <> [] ->
        exists lz ints,
          block = x00 :: lz
          /\ decodeBlock lz = Some ints
          /\ usdInt32Decompress ints (length [3; 3; 3; 70000; -5])
             = Some [3; 3; 3; 70000; -5]).
Proof.
  assert (E : exists file',
    writeInt32Compressed newByteArray [3; 3; 3; 70000; -5] = Ok file')
    by (eexists; vm_compute; reflexivity).
  destruct E as [file' E]. exists file'.
  destruct (writeInt32Compressed_roundtrip newByteArray file' [3; 3; 3; 70000; -5])
    as (block & H);
    [repeat (apply Forall_cons_2; [unfold isInt32; pow2; lia|]); apply Forall_nil_2
    |exact E|].
  exists block. split; [exact E|exact H].
Defined.

End WriterExtras.

(** ** The USDZ container: the directory *)

Section UsdzExtras.
Import JS Writer Usdz Measures.

Lemma centralDirectory_eq (contentsSize preLength : Z) :
  centralDirectory contentsSize preLength
  = Ok (map u8 [0x50; 0x4B; 0x01; 0x02; 62; 0; 20; 0;
                0; 0; 0; 0; 0; 0; 0; 0; 0; 0; 0; 0]
        ++ le 4 contentsSize ++ le 4 contentsSize ++ le 2 nameLength
        ++ zeros 16 ++ map u8 name
        ++ map u8 [0x50; 0x4B; 0x05; 0x06; 0; 0; 0; 0]
        ++ le 2 1 ++ le 2 1 ++ le 4 (46 + nameLength)
        ++ le 4 (preLength + contentsSize) ++ zeros 2).
Proof.
  unfold centralDirectory, setLE. cbn [le].
  generalize (u8 contentsSize), (u8 (contentsSize / 256)),
    (u8 (contentsSize / 256 / 256)), (u8 (contentsSize / 256 / 256 / 256)).
  intros b0 b1 b2 b3.
  generalize (u8 (preLength + contentsSize)),
    (u8 ((preLength + contentsSize) / 256)),
    (u8 ((preLength + contentsSize) / 256 / 256)),
    (u8 ((preLength + contentsSize) / 256 / 256 / 256)).
  intros c0 c1 c2 c3. vm_compute. reflexivity.
Qed.

(** The archive with both of its records written out. *)
Lemma getUsdzFromUsdc_records (usdc : ByteArray) :
  exists header dir,
    getUsdzFromUsdc usdc = Ok (header ++ concat (getBuffers usdc) ++ dir)
    /\ localHeader (Z.of_nat (length (concat (getBuffers usdc)))) = Ok header
    /\ centralDirectory (Z.of_nat (length (concat (getBuffers usdc)))) 64 = Ok dir
    /\ length header = 64%nat /\ length dir = 76%nat.
Proof.
  unfold getUsdzFromUsdc. cbv zeta.
  rewrite contentsSizeOf_concat.
  set (c := Z.of_nat (length (concat (getBuffers usdc)))).
  rewrite localHeader_eq. cbn [mbind result_bind].
  set (pre := _ ++ _).
  assert (Hpre : length pre = 64%nat) by (subst pre; list_len; reflexivity).
  rewrite Hpre. change (Z.of_nat 64) with 64.
  destruct (centralDirectory_length c 64) as (post & Hpost & Hlen).
  rewrite Hpost. cbn [mbind result_bind].
  exists pre, post. split; [|split; [done|split; [done|split; [done|]]]].
  - replace (64 + c + Z.of_nat (length post))
      with (Z.of_nat (length (concat ([pre] ++ getBuffers usdc ++ [post])))).
    + rewrite setAll_zeros. f_equal. rewrite !concat_app. simpl.
      by rewrite !app_nil_r.
    + rewrite !concat_app. simpl. rewrite !app_nil_r, !length_app. lia.
  - unfold nameLength in Hlen; cbn in Hlen; lia.
Qed.

(** X12. [getUsdzFromUsdc] never throws. The archive is a 64-byte
    local header, the arrays of the file in the order they were
    written, unchanged, and a 76-byte directory. The directory has one
    entry, for the name [tmp.usdc] with its header at offset 0 and both
    sizes equal to the length of the contents; the end record counts 1
    entry, gives 54 as the size of the directory and, as its offset,
    64 plus the length of the contents, which is where the directory
    stands (the sizes and the offset are 32-bit fields). *)
Theorem getUsdzFromUsdc_central_directory (usdc : ByteArray) :
  exists header dir,
    getUsdzFromUsdc usdc = Ok (header ++ concat (getBuffers usdc) ++ dir)
    /\ length header = 64%nat /\ length dir = 76%nat
    /\ take 4 dir = map u8 [0x50; 0x4B; 0x01; 0x02]
    /\ fieldAt dir 20 4 = Z.of_nat (length (concat (getBuffers usdc))) mod 2 ^ 32
    /\ fieldAt dir 24 4 = Z.of_nat (length (concat (getBuffers usdc))) mod 2 ^ 32
    /\ fieldAt dir 28 2 = 8
    /\ fieldAt dir 42 4 = 0
    /\ take 8 (drop 46 dir) = map u8 name
    /\ take 4 (drop 54 dir) = map u8 [0x50; 0x4B; 0x05; 0x06]
    /\ fieldAt dir 62 2 = 1
    /\ fieldAt dir 64 2 = 1
    /\ fieldAt dir 66 4 = 54
    /\ fieldAt dir 70 4
       = (64 + Z.of_nat (length (concat (getBuffers usdc)))) mod 2 ^ 32.
Proof.
  destruct (getUsdzFromUsdc_records usdc) as (header & dir & H & _ & Hd & L1 & L2).
  exists header, dir. split; [exact H|]. split; [exact L1|]. split; [exact L2|].
  set (c := Z.of_nat (length (concat (getBuffers usdc)))) in *.
  rewrite centralDirectory_eq in Hd. injection Hd as <-.
  unfold fieldAt. split_and!; try reflexivity.
  - match goal with
    | |- unle (take 4 (drop 20 ?l)) = _ =>
        change (take 4 (drop 20 l)) with (le 4 c)
    end.
    by rewrite unle_le.
  - match goal with
    | |- unle (take 4 (drop 24 ?l)) = _ =>
        change (take 4 (drop 24 l)) with (le 4 c)
    end.
    by rewrite unle_le.
  - match goal with
    | |- unle (take 4 (drop 70 ?l)) = _ =>
        change (take 4 (drop 70 l)) with (le 4 (64 + c))
    end.
    by rewrite unle_le.
Qed.

(** X13. [getUsdzFromUsdc] stores the contents without compression
    and computes no checksum and no time stamp: in the local header and
    in the directory entry the flags, the compression method (0,
    stored), the modification time and date and the CRC-32 are zero,
    whatever the contents. *)
Theorem getUsdzFromUsdc_no_checksum (usdc : ByteArray) :
  exists header dir,
    getUsdzFromUsdc usdc = Ok (header ++ concat (getBuffers usdc) ++ dir)
    /\ length header = 64%nat
    /\ fieldAt header 6 2 = 0 /\ fieldAt header 8 2 = 0
    /\ fieldAt header 10 4 = 0 /\ fieldAt header 14 4 = 0
    /\ fieldAt dir 8 2 = 0 /\ fieldAt dir 10 2 = 0
    /\ fieldAt dir 12 4 = 0 /\ fieldAt dir 16 4 = 0.
Proof.
  destruct (getUsdzFromUsdc_records usdc) as (header & dir & H & Hh & Hd & L1 & L2).
  exists header, dir. split; [exact H|]. split; [exact L1|].
  rewrite localHeader_eq in Hh. injection Hh as <-.
  rewrite centralDirectory_eq in Hd. injection Hd as <-.
  unfold fieldAt. split_and!; reflexivity.
Qed.

End UsdzExtras.

(** ** The scene tree: counting its items *)

Section UsdExtras.
Import JS Usd PathSpec.

Lemma countItems_children (cs : list UsdPrim) (count : Z) :
  Forall (fun c => countItems c + 1 = size c) cs ->
  (fix children_loop (cs : list UsdPrim) (count : Z) : Z :=
     match cs with
     | [] => count
     | child :: cs' => children_loop cs' (count + countItems child)
     end) cs count
  = count + sizes cs - Z.of_nat (length cs).
Proof.
  intros H. revert count. induction H as [|c cs Hc Hcs IH]; intros count.
  - unfold sizes. cbn. lia.
  - rewrite IH, sizes_cons. cbn [length]. lia.
Qed.

Lemma countItems_size (p : UsdPrim) : countItems p + 1 = size p.
Proof.
  induction p as [id nm ct md cs atts IH] using UsdPrim_nested_ind.
  rewrite size_unfold. cbn [countItems children attributes].
  rewrite (countItems_children cs _ IH). lia.
Qed.

(** X14. [countItems] counts the prims and properties below a prim,
    and [updatePathIndices] uses up one index for the prim and one for
    each of them: called with [pathIndex2] it returns [pathIndex2 +
    countItems + 1], whatever the values of the [pathIndex] fields
    before. *)
Theorem updatePathIndices_advances_by_countItems (p : UsdPrim) (pathIndex2 : Z)
    (h : Heap) :
  (updatePathIndices p pathIndex2 h).1 = pathIndex2 + countItems p + 1
  /\ countItems p + 1 = Z.of_nat (length (nodes p)).
Proof.
  rewrite updatePathIndices_spec. cbn [fst].
  pose proof (countItems_size p) as H. unfold size in *. lia.
Qed.

End UsdExtras.

(** ** Relations the Crate writer follows *)

Create HintDb follows.

Section CrateFollows.
Import JS Writer Usd Crate PathSpec Steps.

Context (R : relation CrateFile) (HR : Respected R).

Lemma follows_ret {A} (a : A) : follows R (mret a).
Proof. intros cf a' cf' [= _ <-]. apply (resp_refl R HR). Qed.

Lemma follows_throw {A} msg : follows R (@throw A msg).
Proof. intros cf a cf' [=]. Qed.

Lemma follows_gets {A} (f : CrateFile -> A) : follows R (gets f).
Proof. intros cf a cf' [= _ <-]. apply (resp_refl R HR). Qed.

Lemma follows_bind {A B} (m : M A) (f : A -> M B) :
  follows R m -> (forall a, follows R (f a)) -> follows R (m ≫= f).
Proof.
  intros Hm Hf cf b cf' (a & cf1 & H1 & H2)%bind_Ok.
  eapply (resp_trans R HR); [by eapply Hm | by eapply Hf].
Qed.

Lemma follows_forEach {A} (xs : list A) (body : A -> M unit) :
  (forall x, follows R (body x)) -> follows R (forEach xs body).
Proof.
  intros Hb. induction xs as [|x xs IH]; cbn [forEach].
  - apply follows_ret.
  - apply follows_bind; auto.
Qed.

Lemma follows_mapM {A B} (f : A -> M B) (xs : list A) :
  (forall x, follows R (f x)) -> follows R (mapM f xs).
Proof.
  intros Hf. induction xs as [|x xs IH]; cbn [mapM].
  - apply follows_ret.
  - apply follows_bind; [auto|]. intros y. apply follows_bind; [auto|].
    intros ys. apply follows_ret.
Qed.

Lemma follows_fileTell : follows R fileTell.
Proof. apply follows_gets. Qed.

Lemma follows_fileWrite buffer : follows R (fileWrite buffer).
Proof. intros cf a cf' [= _ <-]. apply (resp_write R HR). Qed.

Lemma follows_fileWriteInt value sz signed : follows R (fileWriteInt value sz signed).
Proof. intros cf a cf' [= _ <-]. apply (resp_write R HR). Qed.

Lemma follows_fileWriteDouble value : follows R (fileWriteDouble value).
Proof. intros cf a cf' [= _ <-]. apply (resp_write R HR). Qed.

Lemma set_file_set_file f1 f2 cf : set_file f2 (set_file f1 cf) = set_file f2 cf.
Proof. reflexivity. Qed.

Lemma follows_fileWriteInt32Compressed data :
  follows R (fileWriteInt32Compressed data).
Proof.
  intros cf a cf'. unfold fileWriteInt32Compressed, writeInt32Compressed.
  destruct (IntCoding.usdInt32Compress data) as [ints|]; [|done].
  cbn [mbind result_bind].
  destruct (LZ4.lz4Compress _) as [buffer|]; [|done].
  cbn [mbind result_bind]. intros [= _ <-].
  eapply (resp_trans R HR); [apply (resp_write R HR)|].
  unfold writeInt.
  pose proof (resp_write R HR buffer
                (set_file (write (file cf)
                   (writeInt_bytes (Z.of_nat (length buffer)) 8 false)) cf)) as H.
  exact H.
Qed.

Lemma follows_getDataReference data vType : follows R (getDataReference data vType).
Proof. apply follows_gets. Qed.

Lemma follows_lz4 buffer : follows R (lz4 buffer).
Proof.
  intros cf a cf'. unfold lz4.
  destruct (LZ4.lz4Compress _); intros [= _ <-]. apply (resp_refl R HR).
Qed.

#[local] Hint Resolve follows_ret follows_throw follows_gets follows_fileTell
  follows_fileWrite follows_fileWriteInt follows_fileWriteDouble
  follows_fileWriteInt32Compressed follows_getDataReference follows_lz4 : follows.
#[local] Hint Extern 1 (follows _ (addWrittenData _ _ _)) =>
  apply (resp_addWrittenData R HR) : follows.
#[local] Hint Extern 1 (follows _ (setFramesRef _)) =>
  apply (resp_setFramesRef R HR) : follows.
#[local] Hint Extern 1 (follows _ (getTokenIndex _)) =>
  apply (resp_getTokenIndex R HR) : follows.
#[local] Hint Extern 1 (follows _ (getStringIndex _)) =>
  apply (resp_getStringIndex R HR) : follows.
#[local] Hint Extern 1 (follows _ (addFieldSet _)) =>
  apply (resp_addFieldSet R HR) : follows.
#[local] Hint Extern 1 (follows _ (addFieldItem _ _ _ _ _ _)) =>
  apply (resp_addFieldItem R HR) : follows.
#[local] Hint Extern 1 (follows _ (addPath _ _ _ _)) =>
  apply (resp_addPath R HR) : follows.
#[local] Hint Extern 1 (follows _ (addSpec _ _)) =>
  apply (resp_addSpec R HR) : follows.

(** The steps of a method, one after the other. *)
Ltac respects :=
  repeat lazymatch goal with
  | |- follows _ (mbind _ _) => apply follows_bind; [|intros ?]
  | |- follows _ (forEach _ _) => apply follows_forEach; intros ?
  | |- follows _ (mapM _ _) => apply follows_mapM; intros ?
  | |- follows _ (if ?b then _ else _) => destruct b
  | |- follows _ (match ?x with _ => _ end) => destruct x
  | |- follows _ (let '(_, _) := ?x in _) => destruct x
  | |- follows _ _ => solve [auto with follows]
  end.

Lemma follows_addFieldTokens field data : follows R (addFieldTokens field data).
Proof. unfold addFieldTokens. respects. Qed.

Lemma follows_addFieldToken field data : follows R (addFieldToken field data).
Proof. unfold addFieldToken. respects. Qed.

Lemma follows_addFieldTokenVector field toks :
  follows R (addFieldTokenVector field toks).
Proof. unfold addFieldTokenVector. respects. Qed.

Lemma follows_addFieldPathListOp field pathIndex :
  follows R (addFieldPathListOp field pathIndex).
Proof. unfold addFieldPathListOp. respects. Qed.

Lemma follows_addFieldPathVector field pathIndex :
  follows R (addFieldPathVector field pathIndex).
Proof. unfold addFieldPathVector. respects. Qed.

Lemma follows_addFieldSpecifier field spec : follows R (addFieldSpecifier field spec).
Proof. unfold addFieldSpecifier. respects. Qed.

Lemma follows_addFieldInts field data : follows R (addFieldInts field data).
Proof. unfold addFieldInts. respects. Qed.

Lemma follows_addFieldFloat field data : follows R (addFieldFloat field data).
Proof. unfold addFieldFloat. respects. Qed.

Lemma follows_addFieldVectors field data : follows R (addFieldVectors field data).
Proof. unfold addFieldVectors. respects. Qed.

Lemma follows_addFieldVector field data : follows R (addFieldVector field data).
Proof. unfold addFieldVector. respects. Qed.

Lemma follows_addFieldBool field data : follows R (addFieldBool field data).
Proof. unfold addFieldBool. respects. Qed.

Lemma follows_addFieldVariability field data :
  follows R (addFieldVariability field data).
Proof. unfold addFieldVariability. respects. Qed.

Lemma follows_addFieldDictionary field data :
  follows R (addFieldDictionary field data).
Proof. unfold addFieldDictionary. respects. Qed.

Lemma follows_addFieldTimeSamples field data vType :
  follows R (addFieldTimeSamples field data vType).
Proof. unfold addFieldTimeSamples. respects. Qed.

#[local] Hint Resolve follows_addFieldTokens follows_addFieldToken
  follows_addFieldTokenVector follows_addFieldPathListOp
  follows_addFieldPathVector follows_addFieldSpecifier follows_addFieldInts
  follows_addFieldFloat follows_addFieldVectors follows_addFieldVector
  follows_addFieldBool follows_addFieldVariability follows_addFieldDictionary
  follows_addFieldTimeSamples : follows.

Lemma follows_addField field usdAtt : follows R (addField field usdAtt).
Proof. unfold addField. respects. Qed.

Lemma follows_addQualifierFields qs : follows R (addQualifierFields qs).
Proof. unfold addQualifierFields. respects. Qed.

Lemma follows_addPrimMetadata h entry : follows R (addPrimMetadata h entry).
Proof. unfold addPrimMetadata. respects. Qed.

Lemma follows_addRootMetadata entry : follows R (addRootMetadata entry).
Proof. unfold addRootMetadata. respects. Qed.

#[local] Hint Resolve follows_addField follows_addQualifierFields
  follows_addPrimMetadata follows_addRootMetadata : follows.

Lemma follows_writeUsdProperty a h : follows R (writeUsdProperty a h).
Proof.
  unfold writeUsdProperty, writeUsdConnection, writeUsdRelationship,
    writeUsdAttribute. respects.
Qed.

Lemma follows_writeUsdProperties atts h :
  follows R (writeUsdProperties atts h).
Proof.
  revert h. induction atts as [|a atts IH]; intros h; cbn [writeUsdProperties].
  - apply follows_ret.
  - apply follows_bind; [apply follows_writeUsdProperty|]. intros h1. apply IH.
Qed.

Lemma follows_children_loop (p : UsdPrim) cs :
  Forall (fun c => forall parent h, follows R (writeUsdPrim c parent h)) cs ->
  forall h,
    follows R
      ((fix children_loop (cs : list UsdPrim) (h : Heap) : M Heap :=
          match cs with
          | [] => mret h
          | child :: cs' =>
              h ← writeUsdPrim child (Some p) h;
              children_loop cs' h
          end) cs h).
Proof.
  induction 1 as [|c cs Hc Hcs IH]; intros h.
  - apply follows_ret.
  - apply follows_bind; [apply Hc|]. intros h1. apply IH.
Qed.

Lemma follows_writeUsdPrim p :
  forall parent h, follows R (writeUsdPrim p parent h).
Proof.
  induction p as [id nm ct md cs atts IH] using UsdPrim_nested_ind.
  intros parent h. set (p := Prim id nm ct md cs atts) in *.
  rewrite writeUsdPrim_unfold. unfold specTail.
  change (metadata p) with md. change (attributes p) with atts.
  change (children p) with cs.
  apply follows_bind; [respects|]. intros f1.
  apply follows_bind; [respects|]. intros f2.
  apply follows_bind; [respects|]. intros fm.
  apply follows_bind; [respects|]. intros fp.
  apply follows_bind; [respects|]. intros fc.
  apply follows_bind; [respects|]. intros fsetIndex.
  apply follows_bind; [respects|]. intros pathIndex.
  apply follows_bind; [respects|]. intros nameToken.
  apply follows_bind; [respects|]. intros [].
  apply follows_bind.
  - by apply follows_children_loop.
  - intros h1. apply follows_writeUsdProperties.
Qed.

Lemma follows_writeUsdPrims cs parent h : follows R (writeUsdPrims cs parent h).
Proof.
  revert h. induction cs as [|c cs IH]; intros h; cbn [writeUsdPrims].
  - apply follows_ret.
  - apply follows_bind; [apply follows_writeUsdPrim|]. intros h1. apply IH.
Qed.

Lemma follows_writeTree root h : follows R (writeTree root h).
Proof.
  pose proof follows_writeUsdPrims. unfold writeTree. respects.
Qed.

Lemma follows_writeSections :
  (forall name start size, follows R (pushToc name start size)) ->
  follows R writeSections.
Proof.
  intros Hpush.
  unfold writeSections, writeTokensSection, writeStringsSection,
    writeFieldsSection, writeFieldSetsSection, writePathsSection,
    writeSpecsSection. respects.
Qed.

Lemma follows_writeTableOfContents :
  (forall tocStart cf, R cf (storeTocStart tocStart cf)) ->
  follows R writeTableOfContents.
Proof.
  intros Hstore. unfold writeTableOfContents. respects.
  intros c1 u c2 [= _ <-]. apply Hstore.
Qed.

Lemma bind_ext_pt {A B} (m : M A) (f g : A -> M B) cf :
  (forall a c, f a c = g a c) -> (m ≫= f) cf = (m ≫= g) cf.
Proof. intros H. unfold mbind, M_bind. destruct (m cf) as [[a c]|e]; auto. Qed.

Lemma bind_assoc_pt {A B C} (m : M A) (f : A -> M B) (g : B -> M C) cf :
  ((m ≫= f) ≫= g) cf = (m ≫= (fun a => f a ≫= g)) cf.
Proof. unfold mbind, M_bind. by destruct (m cf) as [[a c]|e]. Qed.

(** The run of [writeUsd], in its parts. *)
Lemma writeUsd_eq root h0 cf0 :
  writeUsd root h0 cf0
  = (_ ← writeBootstrap;
     h ← writeTree root (updatePathIndicesRoot root h0).2;
     _ ← writeSections;
     _ ← writeTableOfContents;
     mret h) cf0.
Proof.
  unfold writeUsd, writeTree.
  destruct (updatePathIndicesRoot root h0) as [z h1]. cbn [snd]. cbv zeta.
  apply bind_ext_pt. intros [] c.
  repeat (rewrite bind_assoc_pt; apply bind_ext_pt; intros ? ?).
  reflexivity.
Qed.

Lemma writeUsd_parts root h0 cf0 h cf :
  writeUsd root h0 cf0 = Ok (h, cf) ->
  exists cf1 cf2 cf3,
    writeBootstrap cf0 = Ok (tt, cf1)
    /\ writeTree root (updatePathIndicesRoot root h0).2 cf1 = Ok (h, cf2)
    /\ writeSections cf2 = Ok (tt, cf3)
    /\ writeTableOfContents cf3 = Ok (tt, cf).
Proof.
  rewrite writeUsd_eq. intros H.
  apply bind_Ok in H as ([] & cf1 & H1 & H).
  apply bind_Ok in H as (h1 & cf2 & H2 & H).
  apply bind_Ok in H as ([] & cf3 & H3 & H).
  apply bind_Ok in H as ([] & cf4 & H4 & H).
  injection H as <- <-. eauto 10.
Qed.

Lemma follows_writeUsd root h :
  RespectedEnds R -> follows R (writeUsd root h).
Proof.
  intros HE cf0 h' cf (cf1 & cf2 & cf3 & H1 & H2 & H3 & H4)%writeUsd_parts.
  eapply (resp_trans R HR); [by eapply (ends_writeBootstrap R HE)|].
  eapply (resp_trans R HR); [by eapply follows_writeTree|].
  eapply (resp_trans R HR).
  - eapply follows_writeSections; [|exact H3]. apply (ends_pushToc R HE).
  - eapply follows_writeTableOfContents; [|exact H4].
    apply (ends_storeTocStart R HE).
Qed.

End CrateFollows.

(** The steps of a method that is made of writes to the file, one after
    the other. *)
Ltac follow HR :=
  repeat lazymatch goal with
  | |- Steps.follows _ (mbind _ _) => apply (follows_bind _ HR); [|intros ?]
  | |- Steps.follows _ (Crate.forEach _ _) => apply (follows_forEach _ HR); intros ?
  | |- Steps.follows _ (Crate.mapM _ _) => apply (follows_mapM _ HR); intros ?
  | |- Steps.follows _ (if ?b then _ else _) => destruct b
  | |- Steps.follows _ (match ?x with _ => _ end) => destruct x
  | |- Steps.follows _ (let '(_, _) := ?x in _) => destruct x
  | |- Steps.follows _ _ =>
      first [ apply (follows_ret _ HR) | apply (follows_gets _ HR)
            | apply (follows_fileTell _ HR) | apply (follows_fileWrite _ HR)
            | apply (follows_fileWriteInt _ HR)
            | apply (follows_fileWriteDouble _ HR)
            | apply (follows_fileWriteInt32Compressed _ HR)
            | apply (follows_lz4 _ HR) ]
  end.

(** ** The tables of the Crate writer stay consistent *)

Section TableInvariants.
Import JS Writer Usd Crate PathSpec Steps.

Lemma keeps_refl (I : CrateFile -> Prop) cf : keeps I cf cf.
Proof. by intros ?. Qed.

Lemma keeps_trans (I : CrateFile -> Prop) cf1 cf2 cf3 :
  keeps I cf1 cf2 -> keeps I cf2 cf3 -> keeps I cf1 cf3.
Proof. unfold keeps. auto. Qed.

Lemma indexOf_spec (xs : list Z) (x i : Z) :
  0 <= i ->
  (indexOf xs x i = -1 /\ x ∉ xs)
  \/ (exists k : nat, indexOf xs x i = i + Z.of_nat k /\ xs !! k = Some x).
Proof.
  revert i. induction xs as [|y xs IH]; intros i Hi.
  - left. split; [done|]. apply not_elem_of_nil.
  - cbn [indexOf]. destruct (Z.eqb_spec y x) as [->|Hne].
    + right. exists 0%nat. split; [lia|done].
    + destruct (IH (i + 1) ltac:(lia)) as [[E Hn]|(k & E & Hk)].
      * left. split; [done|]. by apply not_elem_of_cons.
      * right. exists (S k). split; [lia|done].
Qed.

(** A step that leaves the token and string tables alone. *)
Lemma tokenTablesOK_frame cf cf' :
  tokenMap cf' = tokenMap cf -> tokens cf' = tokens cf ->
  strings cf' = strings cf -> keeps tokenTablesOK cf cf'.
Proof.
  intros H1 H2 H3 (A & B & C). unfold tokenTablesOK, tokensOK, tokensFull, stringsOK.
  rewrite H1, H2, H3. done.
Qed.

Lemma tokenTablesOK_getTokenIndex token cf i cf' :
  getTokenIndex token cf = Ok (i, cf') ->
  tokenTablesOK cf ->
  tokenTablesOK cf' /\ 0 <= i < Z.of_nat (length (tokens cf')).
Proof.
  intros H (A & B & [C1 C2]).
  pose proof (getTokenIndex_spec _ _ _ _ H) as [(E1 & E2 & E3 & E4) E5].
  specialize (E1 A).
  assert (Hi : 0 <= i < Z.of_nat (length (tokens cf'))).
  { destruct (E1 _ _ E5) as [H0 Hl]. apply lookup_lt_Some in Hl. lia. }
  split; [|exact Hi]. split; [exact E1|]. split.
  - revert H. unfold getTokenIndex.
    destruct (tokenMap cf !! token) as [j|] eqn:Hj.
    + intros [= <- <-]. exact B.
    + intros [= <- <-]. intros k s. cbn [tokens tokenMap set_tokens set_tokenMap].
      intros Hk. apply lookup_app_Some in Hk as [Hk|[Hlen Hk]].
      * rewrite lookup_insert_ne; [by apply B|].
        intros <-. apply B in Hk. congruence.
      * apply list_lookup_singleton_Some in Hk as [Hk <-].
        rewrite lookup_insert_eq. do 2 f_equal. lia.
  - split.
    + revert H. unfold getTokenIndex.
      destruct (tokenMap cf !! token); intros [= <- <-]; exact C1.
    + assert (Hs : strings cf' = strings cf).
      { revert H. unfold getTokenIndex.
        destruct (tokenMap cf !! token); by intros [= <- <-]. }
      assert (Hl : (length (tokens cf) <= length (tokens cf'))%nat).
      { revert H. unfold getTokenIndex.
        destruct (tokenMap cf !! token); intros [= <- <-]; [done|].
        cbn. rewrite length_app. lia. }
      rewrite Hs. eapply Forall_impl; [exact C2|]. cbn. lia.
Qed.

Lemma tokenTablesOK_getStringIndex str :
  follows (keeps tokenTablesOK) (getStringIndex str).
Proof.
  intros cf i cf' H HI. unfold getStringIndex in H.
  apply bind_Ok in H as (tok & cf1 & H1 & H).
  destruct (tokenTablesOK_getTokenIndex _ _ _ _ H1 HI) as [(A & B & [C1 C2]) Htok].
  destruct (indexOf_spec (strings cf1) tok 0 ltac:(lia)) as [[E Hn]|(k & E & Hk)];
    rewrite E in H.
  - cbn in H. injection H as <- <-.
    split; [exact A|]. split; [exact B|]. cbn [strings tokens set_strings]. split.
    + apply NoDup_app. split; [done|]. split; [|apply NoDup_singleton].
      intros x Hx ->%list_elem_of_singleton. done.
    + apply Forall_app. split; [done|]. by apply Forall_singleton.
  - destruct (Z.eqb_spec (0 + Z.of_nat k) (-1)); [lia|].
    cbn in H. injection H as <- <-. done.
Qed.

Lemma tokenTablesOK_respected : Respected (keeps tokenTablesOK).
Proof.
  split.
  - apply keeps_refl.
  - apply keeps_trans.
  - intros buffer cf. by apply tokenTablesOK_frame.
  - intros data vType ref cf a cf' [= _ <-]. by apply tokenTablesOK_frame.
  - intros ref cf a cf' [= _ <-]. by apply tokenTablesOK_frame.
  - intros token cf i cf' H HI.
    by destruct (tokenTablesOK_getTokenIndex _ _ _ _ H HI).
  - apply tokenTablesOK_getStringIndex.
  - intros fset cf a cf' [= _ <-]. by apply tokenTablesOK_frame.
  - intros field vType array inline compressed payload cf a cf'.
    unfold addFieldItem.
    destruct array, compressed, inline; cbv beta iota zeta;
      (destruct (repsMap cf !! _); intros [= _ <-];
       [apply keeps_refl | by apply tokenTablesOK_frame]).
  - intros path token jump prim cf a cf' [= _ <-]. by apply tokenTablesOK_frame.
  - intros fset sType cf a cf' [= _ <-]. by apply tokenTablesOK_frame.
Qed.

Lemma tokenTablesOK_ends : RespectedEnds (keeps tokenTablesOK).
Proof.
  split.
  - intros cf a cf' [= _ <-]. by apply tokenTablesOK_frame.
  - intros name start size cf a cf' [= _ <-]. by apply tokenTablesOK_frame.
  - intros tocStart cf. by apply tokenTablesOK_frame.
Qed.

Lemma tokenTablesOK_new : tokenTablesOK newCrateFile.
Proof.
  split; [apply tokensOK_new|]. split.
  - intros i s H. cbn in H. by rewrite lookup_nil in H.
  - split; [apply NoDup_nil_2|apply Forall_nil_2].
Qed.

(** X15. In the state [writeUsd] leaves, the token table has no
    token twice and [tokenMap] is its index: a token is at place [i]
    of the table exactly when the map gives [i] for it. The string
    table holds no index twice, and only indices of tokens. *)
Theorem writeUsd_token_table (root : UsdPrim) (h0 h : Heap) (cf : CrateFile) :
  writeUsd root h0 newCrateFile = Ok (h, cf) ->
  NoDup (tokens cf)
  /\ (forall s (i : nat),
        tokenMap cf !! s = Some (Z.of_nat i) <-> tokens cf !! i = Some s)
  /\ NoDup (strings cf)
  /\ Forall (fun s => exists t, tokens cf !! Z.to_nat s = Some t) (strings cf).
Proof.
  intros H.
  pose proof (follows_writeUsd _ tokenTablesOK_respected root h0
                tokenTablesOK_ends _ _ _ H tokenTablesOK_new)
    as (A & B & [C1 C2]).
  split; [|split; [|split]].
  - apply NoDup_alt. intros i j s Hi Hj.
    apply B in Hi. apply B in Hj. rewrite Hi in Hj. injection Hj. lia.
  - intros s i. split.
    + intros Hs. destruct (A _ _ Hs) as [_ Hl]. by rewrite Nat2Z.id in Hl.
    + apply B.
  - exact C1.
  - eapply Forall_impl; [exact C2|]. cbn. intros s Hs.
    apply lookup_lt_is_Some_2. lia.
Qed.

Lemma writeUsd_token_table_witness :
  exists h cf,
    writeUsd exampleTree emptyHeap newCrateFile = Ok (h, cf)
    /\ NoDup (tokens cf)
    /\ (forall s (i : nat),
          tokenMap cf !! s = Some (Z.of_nat i) <-> tokens cf !! i = Some s)
    /\ NoDup (strings cf)
    /\ Forall (fun s => exists t, tokens cf !! Z.to_nat s = Some t) (strings cf).
Proof.
  apply result_run_with; [vm_compute; reflexivity|].
  intros h cf H. exact (writeUsd_token_table exampleTree emptyHeap h cf H).
Defined.

End TableInvariants.

(** ** The path and spec tables, row by row *)

Section CrateRows.
Import JS Writer Usd Crate PathSpec Steps.

















(** The attribute [x] of [sharedTree] is reached from [A], where [y]
    comes after it, and from [B]: both times its jump is -2, that of
    the last attribute of [B], its parent. *)
Example writeUsd_shared_attribute :
  exists h cf,
    writeUsd sharedTree emptyHeap newCrateFile = Ok (h, cf)
    /\ map (fun e : Z * Z * Z => e.2) (paths cf) = [-1; 3; -2; -2; -1; -2]
    /\ map (fun n => node_name n) (rootNodes sharedTree)
       = [""; "A"; "x"; "y"; "B"; "x"].
Proof. apply result_run. vm_compute. split; reflexivity. Qed.

End CrateRows.

(** ** The layout of the Crate file *)

Section CrateLayout.
Import JS Writer Usd Crate PathSpec Steps.

Lemma appended_refl cf : appended cf cf.
Proof. split; [exists []; by rewrite app_nil_r|done]. Qed.

Lemma appended_trans cf1 cf2 cf3 :
  appended cf1 cf2 -> appended cf2 cf3 -> appended cf1 cf3.
Proof.
  intros ([m1 A1] & A2 & A3 & A4 & A5) ([m2 B1] & B2 & B3 & B4 & B5).
  split; [|split; [|split; [|split]]].
  - exists (m1 ++ m2). by rewrite B1, A1, app_assoc.
  - congruence.
  - congruence.
  - congruence.
  - auto.
Qed.

(** A step that leaves the file and the table of contents alone. *)
Lemma appended_frame cf cf' :
  file cf' = file cf -> tocStartBuffer cf' = tocStartBuffer cf ->
  tocAliases cf' = tocAliases cf -> toc cf' = toc cf -> appended cf cf'.
Proof.
  intros H1 H2 H3 H4. split; [|split; [|split; [|split]]]; try done.
  - exists []. by rewrite H1, app_nil_r.
  - unfold posOK. by rewrite H1.
Qed.

Lemma appended_write buffer cf :
  appended cf (set_file (write (file cf) buffer) cf).
Proof.
  split; [|split; [|split; [|split]]]; try done.
  - by exists [buffer].
  - unfold posOK, write. cbn [file set_file pos buffers]. intros ->.
    rewrite concat_app, length_app. cbn [concat]. rewrite app_nil_r. lia.
Qed.

Lemma appended_respected : Respected appended.
Proof.
  split.
  - apply appended_refl.
  - apply appended_trans.
  - intros buffer cf. apply appended_write.
  - intros data vType ref cf a cf' [= _ <-]. by apply appended_frame.
  - intros ref cf a cf' [= _ <-]. by apply appended_frame.
  - intros token cf i cf'. unfold getTokenIndex.
    destruct (tokenMap cf !! token); intros [= _ <-];
      [apply appended_refl | by apply appended_frame].
  - intros str cf i cf' H. unfold getStringIndex in H.
    apply bind_Ok in H as (tok & cf1 & H1 & H).
    assert (A1 : appended cf cf1).
    { revert H1. unfold getTokenIndex.
      destruct (tokenMap cf !! str); intros [= _ <-];
        [apply appended_refl | by apply appended_frame]. }
    eapply appended_trans; [exact A1|].
    destruct (negb _); injection H as _ <-;
      [apply appended_refl | by apply appended_frame].
  - intros fset cf a cf' [= _ <-]. by apply appended_frame.
  - intros field vType array inline compressed payload cf a cf'.
    unfold addFieldItem.
    destruct array, compressed, inline; cbv beta iota zeta;
      (destruct (repsMap cf !! _); intros [= _ <-];
       [apply appended_refl | by apply appended_frame]).
  - intros path token jump prim cf a cf' [= _ <-]. by apply appended_frame.
  - intros fset sType cf a cf' [= _ <-]. by apply appended_frame.
Qed.

(** What a method that has appended to a file with the right position
    has done. *)
Lemma appended_more cf cf' :
  appended cf cf' -> posOK cf ->
  exists more,
    buffers (file cf') = buffers (file cf) ++ more
    /\ pos (file cf') = pos (file cf) + Z.of_nat (length (concat more))
    /\ tocStartBuffer cf' = tocStartBuffer cf
    /\ tocAliases cf' = tocAliases cf
    /\ toc cf' = toc cf
    /\ posOK cf'.
Proof.
  intros ([more A1] & A2 & A3 & A4 & A5) Hpos. specialize (A5 Hpos).
  exists more. split; [done|]. split; [|done].
  unfold posOK in *. rewrite A5, Hpos, A1, concat_app, length_app. lia.
Qed.

(** A section: its blocks at the end of the file, its entry at the end
    of the table of contents. *)
Lemma tocSection_spec name body cf cf' :
  follows appended body -> posOK cf ->
  tocSection name body cf = Ok (tt, cf') ->
  exists more,
    buffers (file cf') = buffers (file cf) ++ more
    /\ pos (file cf') = pos (file cf) + Z.of_nat (length (concat more))
    /\ tocStartBuffer cf' = tocStartBuffer cf
    /\ tocAliases cf' = tocAliases cf
    /\ toc cf' = toc cf ++ [(name, pos (file cf), Z.of_nat (length (concat more)))]
    /\ posOK cf'.
Proof.
  intros Hbody Hpos H. unfold tocSection in H.
  apply bind_Ok in H as (start & c0 & H0 & H). injection H0 as <- <-.
  apply bind_Ok in H as ([] & c1 & H1 & H).
  apply Hbody in H1.
  destruct (appended_more _ _ H1 Hpos) as (more & B1 & B2 & B3 & B4 & B5 & B6).
  apply bind_Ok in H as (end_ & c2 & H2 & H). injection H2 as <- <-.
  cbv zeta in H. injection H as <-.
  exists more. cbn [file toc set_toc tocStartBuffer tocAliases].
  split; [done|]. split; [done|]. split; [done|]. split; [done|]. split.
  - rewrite B5. do 3 f_equal. unfold tell. lia.
  - exact B6.
Qed.

(** The six section writers have the common shape. *)
Lemma writeTokensSection_shape :
  exists body, follows appended body
    /\ forall cf, writeTokensSection cf = tocSection "TOKENS" body cf.
Proof.
  exists (tokens ← gets tokens;
          _ ← fileWriteInt (Z.of_nat (length tokens)) 8 false;
          let buffer := concat (map (fun token => charCodes token ++ [x00]) tokens) in
          _ ← fileWriteInt (Z.of_nat (length buffer)) 8 false;
          buffer2 ← lz4 buffer;
          _ ← fileWriteInt (Z.of_nat (length buffer2)) 8 false;
          fileWrite buffer2).
  split; [cbv zeta; follow appended_respected|].
  intros cf. unfold writeTokensSection, tocSection. cbv zeta.
  apply bind_ext_pt; intros ? ?.
  repeat (rewrite bind_assoc_pt; apply bind_ext_pt; intros ? ?).
  reflexivity.
Qed.

Lemma writeStringsSection_shape :
  exists body, follows appended body
    /\ forall cf, writeStringsSection cf = tocSection "STRINGS" body cf.
Proof.
  exists (strings ← gets strings;
          _ ← fileWriteInt (Z.of_nat (length strings)) 8 false;
          forEach strings (fun i => fileWriteInt i 4 false)).
  split; [follow appended_respected|].
  intros cf. unfold writeStringsSection, tocSection. cbv zeta.
  apply bind_ext_pt; intros ? ?.
  repeat (rewrite bind_assoc_pt; apply bind_ext_pt; intros ? ?).
  reflexivity.
Qed.

Lemma writeFieldsSection_shape :
  exists body, follows appended body
    /\ forall cf, writeFieldsSection cf = tocSection "FIELDS" body cf.
Proof.
  exists (fields ← gets fields;
          reps ← gets reps;
          _ ← fileWriteInt (Z.of_nat (length fields)) 8 false;
          _ ← fileWriteInt32Compressed fields;
          buffer ← lz4 (encodeInts reps);
          _ ← fileWriteInt (Z.of_nat (length buffer)) 8 false;
          fileWrite buffer).
  split; [follow appended_respected|].
  intros cf. unfold writeFieldsSection, tocSection. cbv zeta.
  apply bind_ext_pt; intros ? ?.
  repeat (rewrite bind_assoc_pt; apply bind_ext_pt; intros ? ?).
  reflexivity.
Qed.

Lemma writeFieldSetsSection_shape :
  exists body, follows appended body
    /\ forall cf, writeFieldSetsSection cf = tocSection "FIELDSETS" body cf.
Proof.
  exists (fsets ← gets fsets;
          _ ← fileWriteInt (Z.of_nat (length fsets)) 8 false;
          fileWriteInt32Compressed fsets).
  split; [follow appended_respected|].
  intros cf. unfold writeFieldSetsSection, tocSection. cbv zeta.
  apply bind_ext_pt; intros ? ?.
  repeat (rewrite bind_assoc_pt; apply bind_ext_pt; intros ? ?).
  reflexivity.
Qed.

Lemma writePathsSection_shape :
  exists body, follows appended body
    /\ forall cf, writePathsSection cf = tocSection "PATHS" body cf.
Proof.
  exists (thePaths ← gets paths;
          _ ← fileWriteInt (Z.of_nat (length thePaths)) 8 false;
          _ ← fileWriteInt (Z.of_nat (length thePaths)) 8 false;
          _ ← fileWriteInt32Compressed
                (map (fun '(path, token, jump) => path) thePaths);
          _ ← fileWriteInt32Compressed
                (map (fun '(path, token, jump) => token) thePaths);
          fileWriteInt32Compressed
            (map (fun '(path, token, jump) => jump) thePaths)).
  split; [follow appended_respected|].
  intros cf. unfold writePathsSection, tocSection. cbv zeta.
  apply bind_ext_pt; intros ? ?.
  repeat (rewrite bind_assoc_pt; apply bind_ext_pt; intros ? ?).
  reflexivity.
Qed.

Lemma writeSpecsSection_shape :
  exists body, follows appended body
    /\ forall cf, writeSpecsSection cf = tocSection "SPECS" body cf.
Proof.
  exists (theSpecs ← gets specs;
          _ ← fileWriteInt (Z.of_nat (length theSpecs)) 8 false;
          _ ← fileWriteInt32Compressed
                (map (fun '(path, fset, type) => path) theSpecs);
          _ ← fileWriteInt32Compressed
                (map (fun '(path, fset, type) => fset) theSpecs);
          fileWriteInt32Compressed
            (map (fun '(path, fset, type) => type) theSpecs)).
  split; [follow appended_respected|].
  intros cf. unfold writeSpecsSection, tocSection. cbv zeta.
  apply bind_ext_pt; intros ? ?.
  repeat (rewrite bind_assoc_pt; apply bind_ext_pt; intros ? ?).
  reflexivity.
Qed.

Lemma writeSections_spec cf cf' :
  posOK cf -> writeSections cf = Ok (tt, cf') ->
  exists m1 m2 m3 m4 m5 m6 : list (list byte),
    buffers (file cf') = buffers (file cf) ++ m1 ++ m2 ++ m3 ++ m4 ++ m5 ++ m6
    /\ tocStartBuffer cf' = tocStartBuffer cf
    /\ tocAliases cf' = tocAliases cf
    /\ toc cf'
       = toc cf
         ++ sectionTable ["TOKENS"; "STRINGS"; "FIELDS"; "FIELDSETS"; "PATHS"; "SPECS"]
              (pos (file cf))
              (map (fun m => Z.of_nat (length (concat m))) [m1; m2; m3; m4; m5; m6])
    /\ posOK cf'.
Proof.
  intros P0 H. unfold writeSections in H.
  destruct writeTokensSection_shape as (b1 & F1 & E1).
  destruct writeStringsSection_shape as (b2 & F2 & E2).
  destruct writeFieldsSection_shape as (b3 & F3 & E3).
  destruct writeFieldSetsSection_shape as (b4 & F4 & E4).
  destruct writePathsSection_shape as (b5 & F5 & E5).
  destruct writeSpecsSection_shape as (b6 & F6 & E6).
  apply bind_Ok in H as ([] & c1 & H1 & H).
  apply bind_Ok in H as ([] & c2 & H2 & H).
  apply bind_Ok in H as ([] & c3 & H3 & H).
  apply bind_Ok in H as ([] & c4 & H4 & H).
  apply bind_Ok in H as ([] & c5 & H5 & H).
  rewrite E1 in H1. rewrite E2 in H2. rewrite E3 in H3. rewrite E4 in H4.
  rewrite E5 in H5. rewrite E6 in H.
  apply (tocSection_spec _ _ _ _ F1 P0) in H1
    as (m1 & A1 & A2 & A3 & A4 & A5 & P1).
  apply (tocSection_spec _ _ _ _ F2 P1) in H2
    as (m2 & B1 & B2 & B3 & B4 & B5 & P2).
  apply (tocSection_spec _ _ _ _ F3 P2) in H3
    as (m3 & C1 & C2 & C3 & C4 & C5 & P3).
  apply (tocSection_spec _ _ _ _ F4 P3) in H4
    as (m4 & D1 & D2 & D3 & D4 & D5 & P4).
  apply (tocSection_spec _ _ _ _ F5 P4) in H5
    as (m5 & G1 & G2 & G3 & G4 & G5 & P5).
  apply (tocSection_spec _ _ _ _ F6 P5) in H
    as (m6 & K1 & K2 & K3 & K4 & K5 & P6).
  exists m1, m2, m3, m4, m5, m6.
  split; [|split; [|split; [|split]]].
  - rewrite K1, G1, D1, C1, B1, A1, <- !app_assoc. done.
  - congruence.
  - congruence.
  - rewrite K5, G5, D5, C5, B5, A5, <- !app_assoc. cbn [sectionTable map app].
    rewrite G2, D2, C2, B2, A2. done.
  - exact P6.
Qed.

(** The blocks of the entries of the table of contents. *)
Lemma forEach_tocEntries (entries : list (string * Z * Z)) c c' :
  forEach entries
    (fun '(name, start, size) =>
       _ ← fileWrite (tocName name);
       _ ← fileWriteInt start 8 false;
       fileWriteInt size 8 false) c = Ok (tt, c') ->
  exists blocks,
    buffers (file c') = buffers (file c) ++ blocks
    /\ concat blocks = concat (map tocEntryBytes entries)
    /\ tocStartBuffer c' = tocStartBuffer c
    /\ tocAliases c' = tocAliases c
    /\ toc c' = toc c
    /\ pos (file c') = pos (file c) + Z.of_nat (length (concat blocks)).
Proof.
  revert c. induction entries as [|[[name start] size] entries IH]; intros c H.
  - injection H as <-. exists []. cbn. rewrite app_nil_r. split_and!; try done. lia.
  - cbn [forEach] in H. apply bind_Ok in H as ([] & c1 & H1 & H).
    apply bind_Ok in H1 as ([] & c2 & H2 & H1).
    apply bind_Ok in H1 as ([] & c3 & H3 & H1).
    injection H2 as <-. injection H3 as <-. injection H1 as <-.
    apply IH in H as (blocks & A1 & A2 & A3 & A4 & A5 & A6).
    cbn [file set_file writeInt write buffers pos tocStartBuffer tocAliases toc]
      in A1, A3, A4, A5, A6.
    exists ([tocName name; writeInt_bytes start 8 false; writeInt_bytes size 8 false]
            ++ blocks).
    split_and!; try done.
    + rewrite A1, <- !app_assoc. done.
    + rewrite concat_app, A2. cbn [concat map tocEntryBytes].
      rewrite app_nil_r, <- !app_assoc. done.
    + rewrite A6, concat_app. cbn [concat].
      rewrite ?app_nil_r, ?length_app. lia.
Qed.

Lemma writeTableOfContents_spec cf cf' :
  writeTableOfContents cf = Ok (tt, cf') ->
  exists blocks,
    buffers (file cf')
    = fold_left
        (fun bs i => <[i := poke (tocStartBuffer cf) 0 4 (pos (file cf))]> bs)
        (tocAliases cf) (buffers (file cf) ++ blocks)
    /\ concat blocks
       = writeInt_bytes (Z.of_nat (length (toc cf))) 8 false
         ++ concat (map tocEntryBytes (toc cf))
    /\ toc cf' = toc cf
    /\ pos (file cf') = pos (file cf) + Z.of_nat (length (concat blocks)).
Proof.
  intros H. unfold writeTableOfContents in H.
  apply bind_Ok in H as (tocStart & c0 & H0 & H). injection H0 as <- <-.
  apply bind_Ok in H as (entries & c1 & H1 & H). injection H1 as <- <-.
  apply bind_Ok in H as ([] & c2 & H2 & H). injection H2 as <-.
  apply bind_Ok in H as ([] & c3 & H3 & H).
  apply forEach_tocEntries in H3 as (blocks & A1 & A2 & A3 & A4 & A5 & A6).
  cbn [file set_file writeInt write buffers pos tocStartBuffer tocAliases toc]
    in A1, A3, A4, A5, A6.
  injection H as <-.
  exists ([writeInt_bytes (Z.of_nat (length (toc cf))) 8 false] ++ blocks).
  unfold storeTocStart.
  cbn [file set_file set_tocStartBuffer buffers pos toc].
  rewrite A1, A3, A4, A6, <- app_assoc. unfold tell. split_and!.
  - done.
  - rewrite concat_app, A2. cbn [concat]. by rewrite app_nil_r.
  - done.
  - rewrite concat_app, !length_app. cbn [concat]. rewrite app_nil_r. lia.
Qed.

(** X17. The file [writeUsd] writes with a new [CrateFile] is: the
    88-byte bootstrap (the magic [PXR-USDC], the version bytes 0, 7, 0,
    the 8-byte field of the offset of the table of contents, 64 zero
    bytes), the values of the fields, the six sections TOKENS, STRINGS,
    FIELDS, FIELDSETS, PATHS and SPECS one after the other, and the
    table of contents. The table of contents holds the number 6 and,
    for each section in that order, its name, its start and its size;
    each section starts where the one before it ends. The offset field
    of the bootstrap holds the low 32 bits of the position where the
    table of contents starts, in 4 bytes followed by 4 zero bytes:
    it is stored after the fact, into the array the bootstrap wrote.
    [tell] is the length of the file. *)
Theorem writeUsd_file_layout (root : UsdPrim) (h0 h : Heap) (cf : CrateFile) :
  writeUsd root h0 newCrateFile = Ok (h, cf) ->
  exists (data : list byte) (sections : list (list byte)) (tocStart : Z),
    concat (buffers (file cf))
    = map u8 [80; 88; 82; 45; 85; 83; 68; 67]
      ++ map u8 [0; 7; 0; 0; 0; 0; 0; 0]
      ++ (le 4 tocStart ++ zeros 4) ++ zeros 64
      ++ data ++ concat sections
      ++ writeInt_bytes 6 8 false ++ concat (map tocEntryBytes (toc cf))
    /\ length sections = 6%nat
    /\ tocStart
       = 88 + Z.of_nat (length data) + Z.of_nat (length (concat sections))
    /\ toc cf
       = sectionTable
           ["TOKENS"; "STRINGS"; "FIELDS"; "FIELDSETS"; "PATHS"; "SPECS"]
           (88 + Z.of_nat (length data))
           (map (fun s => Z.of_nat (length s)) sections)
    /\ tell (file cf) = Z.of_nat (length (concat (buffers (file cf)))).
Proof.
  intros (cf1 & cf2 & cf3 & H1 & H2 & H3 & H4)%writeUsd_parts.
  injection H1 as <-.
  apply (follows_writeTree _ appended_respected) in H2.
  apply appended_more in H2 as (data & A1 & A2 & A3 & A4 & A5 & P2);
    [|reflexivity].
  cbn [file set_file write buffers pos tocStartBuffer tocAliases toc
       set_tocAliases newCrateFile newByteArray app length] in A1, A2, A3, A4, A5.
  apply (writeSections_spec _ _ P2) in H3
    as (m1 & m2 & m3 & m4 & m5 & m6 & B1 & B2 & B3 & B4 & P3).
  apply writeTableOfContents_spec in H4 as (blocks & C1 & C2 & C3 & C4).
  rewrite B2, B3, A3, A4 in C1. cbn [fold_left] in C1.
  rewrite B1, A1 in C1. cbn [app] in C1.
  cbn [insert list_insert] in C1.
  rewrite B4, A5 in C2, C3. cbn [app] in C2, C3.
  cbn [sectionTable map length] in C2.
  change (poke (zeros 8) 0 4 (pos (file cf3)))
    with (le 4 (pos (file cf3)) ++ zeros 4) in C1.
  assert (Hp2 : pos (file cf2) = 88 + Z.of_nat (length (concat data))).
  { rewrite A2. change (length (zeros 8)) with 8%nat.
    change (length (zeros 64)) with 64%nat. lia. }
  assert (Hp3 : pos (file cf3)
                = 88 + Z.of_nat (length (concat data))
                  + Z.of_nat (length (concat [concat m1; concat m2; concat m3;
                                               concat m4; concat m5; concat m6]))).
  { unfold posOK in P3. rewrite P3, B1, A1.
    repeat first [ rewrite concat_app | rewrite length_app | rewrite app_nil_r
                 | progress cbn [concat length map] ].
    change (length (zeros 8)) with 8%nat.
    change (length (zeros 64)) with 64%nat. lia. }
  exists (concat data),
    [concat m1; concat m2; concat m3; concat m4; concat m5; concat m6],
    (pos (file cf3)).
  split_and!.
  - rewrite C3, C1. cbn [concat map sectionTable].
    rewrite !concat_app, C2. cbn [concat map sectionTable].
    rewrite ?app_nil_r, <- ?app_assoc. reflexivity.
  - reflexivity.
  - exact Hp3.
  - rewrite C3, Hp2. reflexivity.
  - unfold tell. rewrite C4, Hp3, C1.
    repeat first [ rewrite concat_app | rewrite length_app | rewrite app_nil_r
                 | rewrite length_le | progress cbn [concat length map] ].
    change (length (zeros 4)) with 4%nat.
    change (length (zeros 64)) with 64%nat. lia.
Qed.

Lemma writeUsd_file_layout_witness :
  exists h cf,
    writeUsd exampleTree emptyHeap newCrateFile = Ok (h, cf)
    /\ exists (data : list byte) (sections : list (list byte)) (tocStart : Z),
         concat (buffers (file cf))
         = map u8 [80; 88; 82; 45; 85; 83; 68; 67]
           ++ map u8 [0; 7; 0; 0; 0; 0; 0; 0]
           ++ (le 4 tocStart ++ zeros 4) ++ zeros 64
           ++ data ++ concat sections
           ++ writeInt_bytes 6 8 false ++ concat (map tocEntryBytes (toc cf))
         /\ length sections = 6%nat
         /\ tocStart
            = 88 + Z.of_nat (length data) + Z.of_nat (length (concat sections))
         /\ toc cf
            = sectionTable
                ["TOKENS"; "STRINGS"; "FIELDS"; "FIELDSETS"; "PATHS"; "SPECS"]
                (88 + Z.of_nat (length data))
                (map (fun s => Z.of_nat (length s)) sections)
         /\ tell (file cf) = Z.of_nat (length (concat (buffers (file cf)))).
Proof.
  apply result_run_with; [vm_compute; reflexivity|].
  intros h cf H. exact (writeUsd_file_layout exampleTree emptyHeap h cf H).
Defined.

End CrateLayout.

(** ** The trees [writeUsd] accepts *)

Section WriterAccepts.
Import JS Writer Usd Crate PathSpec Steps.

Lemma mapM_Ok_Forall {A B} (f : A -> M B) (P : A -> Prop) xs cf r :
  (forall x c r', f x c = Ok r' -> P x) ->
  mapM f xs cf = Ok r -> Forall P xs.
Proof.
  intros Hf. revert cf r. induction xs as [|x xs IH]; intros cf r H; [done|].
  cbn [mapM] in H. apply bind_Ok in H as (y & c1 & H1 & H).
  apply bind_Ok in H as (ys & c2 & H2 & H).
  constructor; [by eapply Hf | by eapply IH].
Qed.

Lemma addPrimMetadata_Ok h entry cf r :
  addPrimMetadata h entry cf = Ok r -> knownMeta entry = true.
Proof.
  destruct entry as [target|name value]; [done|].
  cbn [addPrimMetadata knownMeta].
  destruct (String.eqb name "inherits"); [done|].
  destruct (String.eqb name "references"); [discriminate|done].
Qed.

Lemma writeUsdProperty_Ok a h cf r :
  writeUsdProperty a h cf = Ok r -> knownValue (att_value a) = true.
Proof.
  unfold writeUsdProperty. destruct (att_value a) eqn:Hv; try done.
  unfold writeUsdAttribute. rewrite Hv. intros H.
  apply bind_Ok in H as (f1 & c1 & H1 & H).
  apply bind_Ok in H as (fq & c2 & H2 & H).
  apply bind_Ok in H as (fm & c3 & H3 & H).
  apply bind_Ok in H as (fd & c4 & H4 & H).
  apply bind_Ok in H4 as (i & c5 & H5 & H4).
  unfold addField in H5. rewrite Hv in H5. discriminate H5.
Qed.

Lemma writeUsdProperties_Ok atts h cf r :
  writeUsdProperties atts h cf = Ok r ->
  forallb (fun a => knownValue (att_value a)) atts = true.
Proof.
  revert h cf. induction atts as [|a atts IH]; intros h cf H; [done|].
  cbn [writeUsdProperties] in H. apply bind_Ok in H as (h1 & c1 & H1 & H).
  cbn [forallb]. apply andb_true_iff. split.
  - by eapply writeUsdProperty_Ok.
  - by eapply IH.
Qed.

Lemma writeUsdPrims_Ok_in cs parent h cf r :
  Forall (fun c => forall parent h cf r,
            writeUsdPrim c parent h cf = Ok r -> known c = true) cs ->
  writeUsdPrims cs parent h cf = Ok r -> forallb known cs = true.
Proof.
  intros Hcs. revert h cf. induction Hcs as [|c cs Hc Hcs IH]; intros h cf H; [done|].
  cbn [writeUsdPrims] in H. apply bind_Ok in H as (h1 & c1 & H1 & H).
  cbn [forallb]. apply andb_true_iff. split.
  - by eapply Hc.
  - by eapply IH.
Qed.

Lemma writeUsdPrim_Ok p :
  forall parent h cf r, writeUsdPrim p parent h cf = Ok r -> known p = true.
Proof.
  induction p as [id nm ct md cs atts IH] using UsdPrim_nested_ind.
  intros parent h cf r H. set (p := Prim id nm ct md cs atts) in *.
  rewrite writeUsdPrim_unfold in H. unfold specTail in H.
  change (metadata p) with md in H. change (attributes p) with atts in H.
  change (children p) with cs in H.
  apply bind_Ok in H as (f1 & c1 & H1 & H).
  apply bind_Ok in H as (f2 & c2 & H2 & H).
  apply bind_Ok in H as (fm & c3 & H3 & H).
  apply bind_Ok in H as (fp & c4 & H4 & H).
  apply bind_Ok in H as (fc & c5 & H5 & H).
  apply bind_Ok in H as (fsetIndex & c6 & H6 & H).
  apply bind_Ok in H as (pathIndex & c7 & H7 & H).
  apply bind_Ok in H as (nameToken & c8 & H8 & H).
  apply bind_Ok in H as ([] & c9 & H9 & H).
  apply bind_Ok in H as (h1 & c10 & H10 & H).
  rewrite children_loop_eq in H10.
  change (known p)
    with (forallb knownMeta md
          && forallb (fun a => knownValue (att_value a)) atts
          && forallb known cs).
  apply andb_true_iff. split; [apply andb_true_iff; split|].
  - apply forallb_forall. intros entry Hin%list_elem_of_In.
    eapply (mapM_Ok_Forall _ (fun e => knownMeta e = true)) in H3.
    + rewrite Forall_forall in H3. by apply H3.
    + intros x c r'. apply addPrimMetadata_Ok.
  - by eapply writeUsdProperties_Ok.
  - by eapply writeUsdPrims_Ok_in.
Qed.

Lemma writeUsd_Ok root h0 cf0 r :
  writeUsd root h0 cf0 = Ok r -> forallb known (children root) = true.
Proof.
  destruct r as [h cf].
  intros (cf1 & cf2 & cf3 & H1 & H2 & H3 & H4)%writeUsd_parts.
  unfold writeTree in H2.
  apply bind_Ok in H2 as (fm & c1 & E1 & H2).
  apply bind_Ok in H2 as (fc & c2 & E2 & H2).
  cbv zeta in H2.
  apply bind_Ok in H2 as (fsetIndex & c3 & E3 & H2).
  apply bind_Ok in H2 as (pathIndex & c4 & E4 & H2).
  apply bind_Ok in H2 as (nameToken & c5 & E5 & H2).
  apply bind_Ok in H2 as ([] & c6 & E6 & H2).
  eapply writeUsdPrims_Ok_in; [|exact H2].
  apply Forall_forall. intros c _. apply writeUsdPrim_Ok.
Qed.

(** X18. [writeUsd] has three [throw] statements: for a value type
    [addField] does not know, for a [references] entry in the metadata
    of a prim, and in [lz4Compress] for a buffer over 0x7E000000 bytes.
    It returns only on trees that keep clear of the first two: every
    prim under the root has attributes of known value types only (or
    with no value, or connections, or relationships) and no
    [references] entry. On such a tree the only error it can throw is
    ["Buffer too large for LZ4 compression"]. The metadata and the
    attributes of the root itself do not matter. *)
Theorem writeUsd_returns_only_on_known_trees (root : UsdPrim) (h0 : Heap)
    (cf0 : CrateFile) :
  (forall r, writeUsd root h0 cf0 = Ok r -> forallb known (children root) = true)
  /\ (forallb known (children root) = true ->
      forall e, writeUsd root h0 cf0 = Err e ->
                e = "Buffer too large for LZ4 compression").
Proof.
  split.
  - intros r. apply writeUsd_Ok.
  - intros Hk e He. exact (only_writeUsd root h0 Hk cf0 e He).
Qed.

End WriterAccepts.

(** ** The items of the field table *)

Section FieldItems.
Import JS Writer Usd Crate PathSpec Steps.

Lemma valueTypeCode_range vType : 0 <= valueTypeCode vType <= 55.
Proof. destruct vType; cbn; lia. Qed.

(** The upper half of a rep, from the bit operations of
    [addFieldItem]. *)
Lemma upper_closed (vType : ValueType) (array inline compressed : bool) :
  toUint32
    (let upper := or 0 (shl (valueTypeCode vType) 16) in
     let upper := if array then or upper (shl 1 31) else upper in
     let upper := if compressed then or upper (shl 1 29) else upper in
     if inline then or upper (shl 1 30) else upper)
  = 2 ^ 16 * valueTypeCode vType
    + (if array then 2 ^ 31 else 0) + (if inline then 2 ^ 30 else 0)
    + (if compressed then 2 ^ 29 else 0).
Proof. destruct vType, array, inline, compressed; vm_compute; reflexivity. Qed.

(** [addFieldItem], with its key and its rep in closed form. *)
Lemma addFieldItem_eq (field : Z) (vType : ValueType)
    (array inline compressed : bool) (payload : Z) (cf : CrateFile) :
  addFieldItem field vType array inline compressed payload cf
  = match repsMap cf !! fieldKey field array inline compressed payload with
    | Some tmp => Ok (tmp, cf)
    | None =>
        Ok (Z.of_nat (length (reps cf)),
            set_reps (reps cf ++ [repWord vType array inline compressed payload])
              (set_fields (fields cf ++ [field])
                 (set_repsMap
                    (<[fieldKey field array inline compressed payload
                       := Z.of_nat (length (reps cf))]> (repsMap cf)) cf)))
    end.
Proof.
  pose proof (upper_closed vType array inline compressed) as Hu.
  unfold addFieldItem.
  set (K := fieldKey field array inline compressed payload).
  set (W := repWord vType array inline compressed payload).
  destruct array, compressed, inline; cbv beta iota zeta in Hu |- *;
    match goal with
    | |- match repsMap cf !! ?k with _ => _ end = _ => change k with K
    end;
    (destruct (repsMap cf !! K); [reflexivity|]);
    do 4 f_equal; rewrite Hu; subst W; unfold repWord, toUint32;
    f_equal; ring.
Qed.

(** Up to [2 ^ 53] binary64 holds every integer. *)
Lemma round53_small (z : Z) : Z.abs z <= 2 ^ 53 -> round53 z = z.
Proof.
  intros H. unfold round53. cbv zeta.
  destruct (Z.leb_spec (Z.abs z) (2 ^ 53)); [done|lia].
Qed.

(** Within these bounds no sum of the key is rounded. *)
Lemma fieldKey_exact (field : Z) (array inline compressed : bool) (payload : Z) :
  0 <= field < 2 ^ 20 ->
  - 2 ^ 31 <= payload < 2 ^ 32 ->
  fieldKey field array inline compressed payload
  = repKey field array inline compressed payload.
Proof.
  intros Hf Hp. unfold fieldKey, repKey, fadd, fmul.
  assert (Hr : forall z, - 2 ^ 53 <= z <= 2 ^ 53 -> round53 z = z).
  { intros z Hz. apply round53_small. lia. }
  pow2.
  rewrite (Hr (field * 4294967296)) by lia.
  rewrite (Hr (payload + field * 4294967296)) by lia.
  destruct array, compressed, inline; cbv beta iota zeta;
    repeat match goal with
           | |- context [round53 ?z] => rewrite (Hr z) by lia
           end;
    lia.
Qed.

(** Beyond them it is: from the field [2 ^ 21] on, the payloads 0 and 1
    have one key, as in binary64, where [2 ^ 53 + 1] is [2 ^ 53]. *)
Example fieldKey_rounds :
  fieldKey (2 ^ 21) false false false 0 = 2 ^ 53
  /\ fieldKey (2 ^ 21) false false false 1 = 2 ^ 53
  /\ PrimFloat.eqb (PrimFloat.add 0x1p53 1) 0x1p53 = true
  /\ round53 (2 ^ 53 + 3) = 2 ^ 53 + 4
  /\ PrimFloat.eqb (PrimFloat.add 0x1p53 3) (PrimFloat.add 0x1p53 4) = true.
Proof. split_and!; vm_compute; reflexivity. Qed.

(** X19. For a field below [2 ^ 20] and a payload of 32 bits (signed
    or unsigned), where binary64 adds without rounding, [addFieldItem]
    looks the item up under the key that has the payload in its low
    bits, the field from bit 32 and the flags added at the bits 42
    (array), 41 (inline) and 40 (compressed). When the key is known it
    returns the index kept for it and changes nothing. When it is new,
    it appends the field and the rep and returns their index; the rep
    is the 64-bit word with the low 32 bits of the payload, the value
    type from bit 48 and the array, inline and compressed flags in the
    bits 63, 62 and 61. Read as a double, as the code keeps it, such a
    word is never a NaN or an infinity (its exponent field is not all
    ones), so no bit of it is lost. *)
Theorem addFieldItem_rep (field : Z) (vType : ValueType)
    (array inline compressed : bool) (payload : Z) (cf : CrateFile) :
  0 <= field < 2 ^ 20 ->
  - 2 ^ 31 <= payload < 2 ^ 32 ->
  addFieldItem field vType array inline compressed payload cf
  = match repsMap cf !! repKey field array inline compressed payload with
    | Some tmp => Ok (tmp, cf)
    | None =>
        Ok (Z.of_nat (length (reps cf)),
            set_reps (reps cf ++ [repWord vType array inline compressed payload])
              (set_fields (fields cf ++ [field])
                 (set_repsMap
                    (<[repKey field array inline compressed payload
                       := Z.of_nat (length (reps cf))]> (repsMap cf)) cf)))
    end
  /\ 0 <= repWord vType array inline compressed payload < 2 ^ 64
  /\ exponentField (repWord vType array inline compressed payload) <> 2047.
Proof.
  intros Hf Hp.
  pose proof (valueTypeCode_range vType) as Hvt.
  split; [|split].
  - rewrite addFieldItem_eq. by rewrite fieldKey_exact.
  - unfold repWord. pose proof (Z.mod_pos_bound payload (2 ^ 32) ltac:(lia)).
    destruct array, inline, compressed; lia.
  - unfold exponentField, repWord.
    pose proof (Z.mod_pos_bound payload (2 ^ 32) ltac:(lia)).
    generalize dependent (payload mod 2 ^ 32). intros q Hq.
    generalize dependent (valueTypeCode vType). intros t Ht.
    destruct array, inline, compressed; lia.
Qed.

(** The field 300 and the payload 7 with the array flag, on a new
    file. *)
Lemma addFieldItem_rep_witness :
  addFieldItem 300 VT_token true false false 7 newCrateFile
  = match repsMap newCrateFile !! repKey 300 true false false 7 with
    | Some tmp => Ok (tmp, newCrateFile)
    | None =>
        Ok (Z.of_nat (length (reps newCrateFile)),
            set_reps (reps newCrateFile ++ [repWord VT_token true false false 7])
              (set_fields (fields newCrateFile ++ [300])
                 (set_repsMap
                    (<[repKey 300 true false false 7
                       := Z.of_nat (length (reps newCrateFile))]>
                       (repsMap newCrateFile)) newCrateFile)))
    end
  /\ 0 <= repWord VT_token true false false 7 < 2 ^ 64
  /\ exponentField (repWord VT_token true false false 7) <> 2047.
Proof.
  apply (addFieldItem_rep 300 VT_token true false false 7 newCrateFile); lia.
Defined.

(** X20. The key of an item does not hold its value type. After a
    call of [addFieldItem], a call with the same field, flags and
    payload and any value type returns the index of the first call and
    changes nothing: an item that differs from an earlier one in its
    type only is not stored. *)
Theorem addFieldItem_ignores_type (field : Z) (vType vType' : ValueType)
    (array inline compressed : bool) (payload : Z) (cf cf1 : CrateFile) (i : Z) :
  addFieldItem field vType array inline compressed payload cf = Ok (i, cf1) ->
  addFieldItem field vType' array inline compressed payload cf1 = Ok (i, cf1).
Proof.
  rewrite !addFieldItem_eq.
  destruct (repsMap cf !! fieldKey field array inline compressed payload)
    as [tmp|] eqn:E.
  - intros [= <- <-]. by rewrite E.
  - intros [= <- <-]. cbn [repsMap set_reps set_fields set_repsMap].
    by rewrite lookup_insert_eq.
Qed.

Lemma addFieldItem_ignores_type_witness :
  exists i cf1,
    addFieldItem 7 VT_bool false true false 0 newCrateFile = Ok (i, cf1)
    /\ addFieldItem 7 VT_float false true false 0 cf1 = Ok (i, cf1).
Proof.
  apply result_run_with; [vm_compute; reflexivity|].
  intros i cf1 H.
  exact (addFieldItem_ignores_type 7 VT_bool VT_float false true false 0
           newCrateFile cf1 i H).
Defined.

(** X21. With the two arrays of written data of the same length (as
    [addWrittenData], which pushes to both, keeps them),
    [getDataReference] returns -1 for data that was not recorded; after
    [addWrittenData] has recorded a reference for such data, it returns
    that reference, also when asked with another value type: the value
    type is not part of the lookup. *)
Theorem getDataReference_after_addWrittenData (data : list Z)
    (vType vType' : ValueType) (ref : Z) (cf : CrateFile) :
  length (writtenDataKeys cf) = length (writtenDataValues cf) ->
  data ∉ writtenDataKeys cf ->
  getDataReference data vType cf = Ok (-1, cf)
  /\ exists cf1,
       addWrittenData data vType ref cf = Ok (tt, cf1)
       /\ getDataReference data vType' cf1 = Ok (ref, cf1).
Proof.
  intros Hlen Hnew.
  assert (H : forall keys values,
    length keys = length values -> data ∉ keys ->
    findData data keys values = -1
    /\ findData data (keys ++ [data]) (values ++ [ref]) = ref).
  { induction keys as [|k keys IH]; intros [|v values] Hl Hn; try done.
    - cbn. by rewrite bool_decide_eq_true_2.
    - apply not_elem_of_cons in Hn as [Hne Hn]. cbn [findData app].
      rewrite bool_decide_eq_false_2 by done.
      apply IH; [by injection Hl|done]. }
  destruct (H _ _ Hlen Hnew) as [H1 H2].
  split.
  - unfold getDataReference, gets. by rewrite H1.
  - eexists. split; [reflexivity|].
    unfold getDataReference, gets.
    cbn [writtenDataKeys writtenDataValues set_writtenDataKeys
         set_writtenDataValues].
    by rewrite H2.
Qed.

Lemma getDataReference_after_addWrittenData_witness :
  getDataReference [1; 2; 3] VT_int newCrateFile = Ok (-1, newCrateFile)
  /\ exists cf1,
       addWrittenData [1; 2; 3] VT_int 88 newCrateFile = Ok (tt, cf1)
       /\ getDataReference [1; 2; 3] VT_TokenVector cf1 = Ok (88, cf1).
Proof.
  apply (getDataReference_after_addWrittenData [1; 2; 3] VT_int VT_TokenVector 88
           newCrateFile); [reflexivity|].
  cbn. apply not_elem_of_nil.
Defined.

End FieldItems.

(** ** The glTF manifest and its binary buffer *)

Section GlbManifest.
Import JS Writer MeshExporter Scenarios Manifest.

Lemma blockRanges_app (bs1 bs2 : list (list byte)) (offset : Z) :
  blockRanges (bs1 ++ bs2) offset
  = blockRanges bs1 offset
    ++ blockRanges bs2 (offset + Z.of_nat (length (concat bs1))).
Proof.
  revert offset. induction bs1 as [|b bs1 IH]; intros offset.
  - cbn. by rewrite Z.add_0_r.
  - cbn [app blockRanges concat]. rewrite IH, length_app. do 3 f_equal. lia.
Qed.

Lemma length_flattenVec3s vs : length (flattenVec3s vs) = (3 * length vs)%nat.
Proof.
  unfold flattenVec3s. induction vs as [|v vs IH]; cbn [map concat]; [done|].
  rewrite length_app, IH. cbn [length]. lia.
Qed.

(** What one mesh adds to the views and to the accessors. *)
Lemma exportGlb_body_views st e :
  map viewRange (bufferViews (exportGlb_body st e))
  = map viewRange (bufferViews st)
    ++ map Some
         (blockRanges
            [uint32Bytes (faces e.2); float32Bytes (flattenVec3s (positions e.2));
             float32Bytes (flattenVec3s (normals e.2))] (byteOffset st))
  /\ map (intMember "bufferView") (accessors (exportGlb_body st e))
     = map (intMember "bufferView") (accessors st)
       ++ map (fun j => Some (Z.of_nat (length (accessors st) + j))) [0; 1; 2]%nat
  /\ map accessorBytes (accessors (exportGlb_body st e))
     = map accessorBytes (accessors st)
       ++ map (fun b : list byte => Some (Z.of_nat (length b)))
            [uint32Bytes (faces e.2); float32Bytes (flattenVec3s (positions e.2));
             float32Bytes (flattenVec3s (normals e.2))].
Proof.
  destruct e as [color mesh]. unfold exportGlb_body.
  destruct (computeBounding (positions mesh)) as [mn mx].
  destruct (toRgbNormalized color) as [[r g] b].
  cbn [bufferViews accessors fst snd]. rewrite !map_app.
  split; [|split].
  - rewrite <- !app_assoc. f_equal.
  - f_equal. cbn [map]. unfold intMember, member. cbn.
    repeat (apply (f_equal2 cons); [f_equal; lia|]). done.
  - f_equal. cbn [map]. unfold accessorBytes, intMember, stringMember, member. cbn.
    rewrite length_uint32Bytes, !length_float32Bytes, !length_flattenVec3s.
    repeat (apply (f_equal2 cons); [f_equal; lia|]). done.
Qed.

Lemma viewsMatch_body st e : viewsMatch st -> viewsMatch (exportGlb_body st e).
Proof.
  intros (A1 & A2 & A3 & A4 & A5).
  destruct (exportGlb_body_buffers st e) as [Hb Ho].
  destruct (exportGlb_body_views st e) as (V1 & V2 & V3).
  split_and!.
  - rewrite V1, Hb, blockRanges_app, map_app, A1, A2, Z.add_0_l. done.
  - rewrite Ho, Hb, concat_app, length_app, A2. cbn [concat].
    rewrite !length_app. unfold byteLength. cbn [length]. lia.
  - rewrite V2, Hb, length_app, seq_app, map_app, A3, A5. f_equal.
    cbn [length seq map].
    repeat (apply (f_equal2 cons); [do 2 f_equal; lia|]). done.
  - rewrite V3, Hb, map_app, A4. done.
  - apply (f_equal length) in V2. rewrite length_app, !length_map in V2.
    rewrite V2, Hb, length_app, A5. done.
Qed.

Lemma viewsMatch_loop meshes st :
  viewsMatch st ->
  viewsMatch (fold_left exportGlb_body meshes st)
  /\ length (binaryBuffer (fold_left exportGlb_body meshes st))
     = (length (binaryBuffer st) + 3 * length meshes)%nat.
Proof.
  revert st. induction meshes as [|e meshes IH]; intros st H.
  - cbn. split; [done|lia].
  - cbn [fold_left]. destruct (IH _ (viewsMatch_body st e H)) as [I1 I2].
    split; [done|]. rewrite I2.
    destruct (exportGlb_body_buffers st e) as [-> _].
    rewrite length_app. cbn [length]. lia.
Qed.

(** X22. In the manifest [exportGlb] builds, the buffer views tile
    the binary buffer: there are three for each mesh (faces, positions,
    normals, in the order of the meshes), view [i] covers exactly block
    [i] of the buffer, each starts where the one before it ends, the
    first at 0, and [byteLength] of the buffer is the sum of their
    lengths. Accessor [i] reads view [i], and its count times the size
    of its elements (4 bytes for a scalar, 12 for a VEC3) is the length
    of that view. *)
Theorem exportGlb_views_tile_buffer (meshes : MeshByColor) :
  map viewRange (bufferViews (glbState meshes))
  = map Some (blockRanges (binaryBuffer (glbState meshes)) 0)
  /\ byteOffset (glbState meshes)
     = Z.of_nat (length (concat (binaryBuffer (glbState meshes))))
  /\ map (intMember "bufferView") (accessors (glbState meshes))
     = map (fun j => Some (Z.of_nat j))
         (seq 0 (length (binaryBuffer (glbState meshes))))
  /\ map accessorBytes (accessors (glbState meshes))
     = map (fun b : list byte => Some (Z.of_nat (length b)))
         (binaryBuffer (glbState meshes))
  /\ length (binaryBuffer (glbState meshes)) = (3 * length meshes)%nat
  /\ binaryBuffer (glbState meshes)
     = concat (map (fun e : Z * Mesh =>
                      [uint32Bytes (faces e.2);
                       float32Bytes (flattenVec3s (positions e.2));
                       float32Bytes (flattenVec3s (normals e.2))]) meshes).
Proof.
  assert (H0 : viewsMatch
                 {| primitives := []; accessors := []; bufferViews := [];
                    binaryBuffer := []; materials := []; byteOffset := 0 |})
    by (by split_and!).
  destruct (viewsMatch_loop meshes _ H0) as [(A1 & A2 & A3 & A4 & A5) L].
  fold (glbState meshes) in A1, A2, A3, A4, A5, L. cbn [binaryBuffer length] in L.
  split_and!; try done.
  unfold glbState.
  assert (H : forall st,
    binaryBuffer (fold_left exportGlb_body meshes st)
    = binaryBuffer st
      ++ concat (map (fun e : Z * Mesh =>
                        [uint32Bytes (faces e.2);
                         float32Bytes (flattenVec3s (positions e.2));
                         float32Bytes (flattenVec3s (normals e.2))]) meshes)).
  { induction meshes as [|e meshes' IH]; intros st.
    - cbn. by rewrite app_nil_r.
    - cbn [fold_left map concat].
      rewrite IH by (by apply viewsMatch_loop).
      destruct (exportGlb_body_buffers st e) as [-> _].
      by rewrite <- app_assoc. }
  apply H.
Qed.

(** *** The bounds of the positions *)

Lemma mathMin_nan_l a b : PrimFloat.is_nan a = true -> mathMin a b = PrimFloat.nan.
Proof. intros H. unfold mathMin. by rewrite H. Qed.

Lemma mathMin_nan_r a : mathMin a PrimFloat.nan = PrimFloat.nan.
Proof.
  unfold mathMin. change (PrimFloat.is_nan PrimFloat.nan) with true.
  by rewrite orb_true_r.
Qed.

Lemma mathMax_nan_l a b : PrimFloat.is_nan a = true -> mathMax a b = PrimFloat.nan.
Proof. intros H. unfold mathMax. by rewrite H. Qed.

Lemma mathMax_nan_r a : mathMax a PrimFloat.nan = PrimFloat.nan.
Proof.
  unfold mathMax. change (PrimFloat.is_nan PrimFloat.nan) with true.
  by rewrite orb_true_r.
Qed.

Lemma boundingFrom_nan (c : Vec3 -> float) points bounds :
  (c = v0 \/ c = v1 \/ c = v2) ->
  (c bounds.1 = PrimFloat.nan /\ c bounds.2 = PrimFloat.nan)
  \/ (exists p, In p points /\ PrimFloat.is_nan (c p) = true) ->
  c (boundingFrom points bounds).1 = PrimFloat.nan
  /\ c (boundingFrom points bounds).2 = PrimFloat.nan.
Proof.
  intros Hc. revert bounds.
  induction points as [|q points IH]; intros [mn mx] H.
  - destruct H as [H|(p & [] & _)]. exact H.
  - cbn [boundingFrom fold_left]. apply IH.
    destruct H as [[H1 H2]|(p & [<- | Hin] & Hp)].
    + left. cbn [fst snd] in *.
      destruct Hc as [-> | [-> | ->]]; cbn [v0 v1 v2];
        rewrite H1, H2, mathMin_nan_r, mathMax_nan_r; done.
    + left. cbn [fst snd].
      destruct Hc as [-> | [-> | ->]]; cbn [v0 v1 v2];
        rewrite mathMin_nan_l, mathMax_nan_l; done.
    + right. by exists p.
Qed.

(** X23. [computeBounding] does not skip a NaN: when a coordinate of
    some position is NaN, the minimum and the maximum of that coordinate
    are both NaN, whatever the other positions are; in the manifest
    such a bound is written as [null]. *)
Theorem computeBounding_nan (dtoa : float -> string) (points : list Vec3) (p : Vec3) :
  In p points ->
  (PrimFloat.is_nan (v0 p) = true ->
   v0 (computeBounding points).1 = PrimFloat.nan
   /\ v0 (computeBounding points).2 = PrimFloat.nan)
  /\ (PrimFloat.is_nan (v1 p) = true ->
      v1 (computeBounding points).1 = PrimFloat.nan
      /\ v1 (computeBounding points).2 = PrimFloat.nan)
  /\ (PrimFloat.is_nan (v2 p) = true ->
      v2 (computeBounding points).1 = PrimFloat.nan
      /\ v2 (computeBounding points).2 = PrimFloat.nan)
  /\ jsonNumber dtoa PrimFloat.nan = "null".
Proof.
  intros Hin. split_and!.
  - intros Hp. apply (boundingFrom_nan v0); [by left|]. right. by exists p.
  - intros Hp. apply (boundingFrom_nan v1); [right; by left|]. right. by exists p.
  - intros Hp. apply (boundingFrom_nan v2); [right; by right|]. right. by exists p.
  - reflexivity.
Qed.

Lemma computeBounding_nan_witness :
  (PrimFloat.is_nan (v0 (vec PrimFloat.nan 0 1)) = true ->
   v0 (computeBounding [vec 2 3 4; vec PrimFloat.nan 0 1]).1 = PrimFloat.nan
   /\ v0 (computeBounding [vec 2 3 4; vec PrimFloat.nan 0 1]).2 = PrimFloat.nan)
  /\ (PrimFloat.is_nan (v1 (vec PrimFloat.nan 0 1)) = true ->
      v1 (computeBounding [vec 2 3 4; vec PrimFloat.nan 0 1]).1 = PrimFloat.nan
      /\ v1 (computeBounding [vec 2 3 4; vec PrimFloat.nan 0 1]).2 = PrimFloat.nan)
  /\ (PrimFloat.is_nan (v2 (vec PrimFloat.nan 0 1)) = true ->
      v2 (computeBounding [vec 2 3 4; vec PrimFloat.nan 0 1]).1 = PrimFloat.nan
      /\ v2 (computeBounding [vec 2 3 4; vec PrimFloat.nan 0 1]).2 = PrimFloat.nan)
  /\ jsonNumber (fun _ => "") PrimFloat.nan = "null".
Proof.
  apply (computeBounding_nan (fun _ => "") [vec 2 3 4; vec PrimFloat.nan 0 1]
           (vec PrimFloat.nan 0 1)).
  right. by left.
Defined.

End GlbManifest.
